(** * Compare plugin engine (src/Engine/Engine.cpp): a shallow embedding

    The engine compares two Scintilla documents line by line, detects moved
    runs of lines, pairs the lines of replaced blocks and marks the
    differences.  C++ [int] values are modelled as [Z] (signed overflow is
    undefined behaviour in C++ and is not reached by the sizes of editor
    documents), [uint64_t] as [Z] reduced modulo [2^64], [char] as [byte],
    [std::vector] as [list], pointers into [cmpInfo.blockDiffs] as indices
    into the block list. *)

From Stdlib Require Import ZArith List Bool Lia String.
From Stdlib Require Import Strings.Byte.
From stdpp Require Import base list sorting gmap.

Import ListNotations.
Local Open Scope Z_scope.

(** ** Vectors indexed by [int] *)

Section Vectors.
Context {A : Type}.

(** [v[i]] for an [int] index; [None] outside the vector, where the C++
    access has no defined behaviour. *)
Definition vget (v : list A) (i : Z) : option A :=
  if i <? 0 then None else v !! Z.to_nat i.

Definition vget_d (d : A) (v : list A) (i : Z) : A :=
  default d (vget v i).

Definition vsize (v : list A) : Z := Z.of_nat (length v).

Definition vset (v : list A) (i : Z) (x : A) : list A :=
  if i <? 0 then v else <[Z.to_nat i := x]> v.
End Vectors.

(** [0, 1, ..., n-1] as [int]s: the values of a counting [for] loop. *)
Definition zrange (n : Z) : list Z := map Z.of_nat (seq 0 (Z.to_nat n)).

(** ** Data model *)

Inductive charType := SPACECHAR | ALPHANUMCHAR | OTHERCHAR.

#[global] Instance charType_eq_dec : EqDecision charType.
Proof. solve_decision. Defined.

(** [section_t] of Engine.h: an offset and a length. *)
Record section_t := mkSection { off : Z; len : Z }.

Inductive diff_type := DIFF_MATCH | DIFF_IN_1 | DIFF_IN_2.

#[global] Instance diff_type_eq_dec : EqDecision diff_type.
Proof. solve_decision. Defined.

Record diffLine := mkDiffLine { line : Z; changes : list section_t }.

(** [blockDiffInfo]; [matchBlock] is the index of the partner block. *)
Record blockDiffInfo := mkBlockInfo {
  matchBlock : option nat;
  changedLines : list diffLine;
  matches : list (section_t * bool)
}.

Definition emptyInfo : blockDiffInfo := mkBlockInfo None [] [].

(** [diff_info<void>]: a span of a word-level diff. *)
Record span := mkSpan { s_type : diff_type; s_off : Z; s_len : Z }.

(** [diff_info<blockDiffInfo>]: a block of the line-level diff. *)
Record diffInfo := mkDiff {
  d_type : diff_type; d_off : Z; d_len : Z; info : blockDiffInfo
}.

Inductive ViewId := MAIN_VIEW | SUB_VIEW.

#[global] Instance ViewId_eq_dec : EqDecision ViewId.
Proof. solve_decision. Defined.

Record DocCmpInfo := mkDoc {
  view : ViewId;
  section : section_t;
  blockDiffMask : Z
}.

Record UserSettings := mkSettings {
  OldFileViewId : ViewId;
  DetectMoves : bool;
  IgnoreSpaces : bool;
  IgnoreCase : bool
}.

Record Word := mkWord {
  w_type : charType;
  w_line : Z;
  w_pos : Z;
  w_length : Z;
  w_hash : Z
}.

Inductive CompareResult :=
  COMPARE_ERROR | COMPARE_CANCELLED | COMPARE_MATCH | COMPARE_MISMATCH.

#[global] Instance CompareResult_eq_dec : EqDecision CompareResult.
Proof. solve_decision. Defined.

(** ** Hasher *)

Definition cHashSeed : Z := 0x84222325.

Definition u64 (z : Z) : Z := z mod 2 ^ 64.

Definition byteZ (b : byte) : Z := Z.of_N (Byte.to_N b).

(** [static_cast<uint64_t>(letter)]: [char] is signed, so bytes from 0x80
    on are sign-extended. *)
Definition char_to_u64 (letter : byte) : Z :=
  if byteZ letter <? 128 then byteZ letter else byteZ letter + 2 ^ 64 - 256.

Definition Hash (hval : Z) (letter : byte) : Z :=
  let hval := Z.lxor hval (char_to_u64 letter) in
  u64 (hval + u64 (u64 (u64 (u64 (u64 (u64 (Z.shiftl hval 1) + u64 (Z.shiftl hval 4))
                                  + u64 (Z.shiftl hval 5))
                             + u64 (Z.shiftl hval 7))
                        + u64 (Z.shiftl hval 8))
                   + u64 (Z.shiftl hval 40))).

(** ** Characters *)

Definition isSpaceTab (letter : byte) : bool :=
  (byteZ letter =? 0x20) || (byteZ letter =? 0x09).

(** Modelled from the spec: [IsCharAlphaNumericA] is the Windows API the
    source calls; the spec fixes it to the ASCII letters and digits (bytes
    0x30-0x39, 0x41-0x5A, 0x61-0x7A). *)
Definition IsCharAlphaNumericA (letter : byte) : bool :=
  let c := byteZ letter in
  ((0x30 <=? c) && (c <=? 0x39)) || ((0x41 <=? c) && (c <=? 0x5A))
  || ((0x61 <=? c) && (c <=? 0x7A)).

(** Modelled from the spec: [toLowerCase] is declared outside Engine.cpp; the
    spec has it fold ASCII uppercase to lowercase. *)
Definition lowerByte (letter : byte) : byte :=
  let c := byteZ letter in
  if (0x41 <=? c) && (c <=? 0x5A)
  then default letter (Byte.of_N (Z.to_N (c + 32)))
  else letter.

Definition toLowerCase (text : list byte) : list byte := map lowerByte text.

Definition getCharType (letter : byte) : charType :=
  if isSpaceTab letter then SPACECHAR
  else if IsCharAlphaNumericA letter || (byteZ letter =? 0x5F) then ALPHANUMCHAR
  else OTHERCHAR.

(** ** The editor collaborator: two Scintilla views

    [CallScintilla], [getText], [markTextAsChanged] and
    [ScopedViewWriteEnabler] are declared outside Engine.cpp.  A document is
    its byte buffer, with lines ended by LF, and the marks set on it. *)

Record SciDoc := mkSci {
  sciText : list byte;
  sciModified : bool;
  sciReadOnly : bool;
  sciMarkers : list (Z * Z);
  sciChanged : list (Z * Z)
}.

Definition LF : byte := x0a.

Fixpoint splitLines (text : list byte) : list (list byte) :=
  match text with
  | [] => [[]]
  | c :: rest =>
      if Byte.eqb c LF then [] :: splitLines rest
      else match splitLines rest with
           | l :: ls => (c :: l) :: ls
           | [] => [[c]]
           end
  end.

(** Bytes taken by the first [n] lines, line ends included. *)
Fixpoint linesBytes (ls : list (list byte)) (n : nat) : Z :=
  match n, ls with
  | S n', l :: ls' => vsize l + 1 + linesBytes ls' n'
  | _, _ => 0
  end.

Definition SCI_GETLENGTH (d : SciDoc) : Z := vsize (sciText d).

Definition SCI_GETLINECOUNT (d : SciDoc) : Z := vsize (splitLines (sciText d)).

Definition SCI_POSITIONFROMLINE (d : SciDoc) (ln : Z) : Z :=
  if (ln <? 0) || (SCI_GETLINECOUNT d <? ln) then -1
  else if ln =? SCI_GETLINECOUNT d then SCI_GETLENGTH d
  else linesBytes (splitLines (sciText d)) (Z.to_nat ln).

Definition SCI_GETLINEENDPOSITION (d : SciDoc) (ln : Z) : Z :=
  if (ln <? 0) || (SCI_GETLINECOUNT d <=? ln) then SCI_GETLENGTH d
  else linesBytes (splitLines (sciText d)) (Z.to_nat ln)
       + vsize (vget_d [] (splitLines (sciText d)) ln).

Definition SCI_GETMODIFY (d : SciDoc) : bool := sciModified d.

(** Inserting text is refused by a read-only document. *)
Definition SCI_INSERTTEXT (d : SciDoc) (pos : Z) (text : list byte) : SciDoc :=
  if sciReadOnly d then d
  else mkSci (take (Z.to_nat pos) (sciText d) ++ text ++ drop (Z.to_nat pos) (sciText d))
             true (sciReadOnly d) (sciMarkers d) (sciChanged d).

Definition SCI_SETSAVEPOINT (d : SciDoc) : SciDoc :=
  mkSci (sciText d) false (sciReadOnly d) (sciMarkers d) (sciChanged d).

Definition SCI_SETREADONLY (d : SciDoc) (ro : bool) : SciDoc :=
  mkSci (sciText d) (sciModified d) ro (sciMarkers d) (sciChanged d).

Definition SCI_MARKERADDSET (d : SciDoc) (ln mask : Z) : SciDoc :=
  mkSci (sciText d) (sciModified d) (sciReadOnly d)
        (sciMarkers d ++ [(ln, mask)]) (sciChanged d).

(** Modelled from the spec: [markTextAsChanged] paints a byte range
    ([paintByteRange] of the editor collaborator). *)
Definition markTextAsChanged (d : SciDoc) (pos length : Z) : SciDoc :=
  mkSci (sciText d) (sciModified d) (sciReadOnly d)
        (sciMarkers d) (sciChanged d ++ [(pos, length)]).

(** Modelled from the spec: [getText] returns the raw bytes of a byte
    range; the source reads the result as NUL-terminated
    ([line.size() - 1] bytes of text). *)
Definition getText (d : SciDoc) (startPos endPos : Z) : list byte :=
  take (Z.to_nat (endPos - startPos)) (drop (Z.to_nat startPos) (sciText d)) ++ [x00].

(** Marker masks: opaque distinct values fixed by the host. *)
Definition MARKER_MASK_CHANGED : Z := 1.
Definition MARKER_MASK_ADDED : Z := 2.
Definition MARKER_MASK_REMOVED : Z := 4.
Definition MARKER_MASK_MOVED_LINE : Z := 8.
Definition MARKER_MASK_MOVED_BEGIN : Z := 16.
Definition MARKER_MASK_MOVED_MID : Z := 32.
Definition MARKER_MASK_MOVED_END : Z := 64.
Definition MARKER_MASK_ADDED_LOCAL : Z := 128.
Definition MARKER_MASK_REMOVED_LOCAL : Z := 256.

(** ** The world the engine runs in, and its effects

    [progress] is [ProgressDlg::Get()]: the open dialog (with the maximum
    count last set) or null.  [answers] are the replies the dialog will give
    to the coming [Advance] and [NextPhase] calls ([false]: the user
    cancelled); when they run out the dialog keeps answering [true]. *)

Record World := mkWorld {
  mainDoc : SciDoc;
  subDoc : SciDoc;
  progress : option Z;
  answers : list bool;
  messages : list string
}.

Inductive exn := std_exception (what : string) | unknown_exception.

Inductive Res (A : Type) :=
| Ok (a : A) (w : World)
| Throw (e : exn) (w : World)
| Undefined
| OutOfFuel.
Arguments Ok {A} a w.
Arguments Throw {A} e w.
Arguments Undefined {A}.
Arguments OutOfFuel {A}.

Definition M (A : Type) : Type := World -> Res A.

Definition ret {A} (a : A) : M A := fun w => Ok a w.

Definition bind {A B} (m : M A) (k : A -> M B) : M B :=
  fun w => match m w with
           | Ok a w' => k a w'
           | Throw e w' => Throw e w'
           | Undefined => Undefined
           | OutOfFuel => OutOfFuel
           end.

Declare Scope eng_scope.
Delimit Scope eng_scope with eng.
Notation "x <- m ;; k" := (bind m (fun x => k))
  (at level 100, m at next level, right associativity) : eng_scope.
Notation "m ;;; k" := (bind m (fun _ => k))
  (at level 100, right associativity) : eng_scope.
Local Open Scope eng_scope.

Definition throw {A} (e : exn) : M A := fun w => Throw e w.
Definition undefined {A} : M A := fun _ => Undefined.
Definition get_world : M World := fun w => Ok w w.
Definition put_world (w : World) : M unit := fun _ => Ok tt w.

Definition docOf (w : World) (v : ViewId) : SciDoc :=
  match v with MAIN_VIEW => mainDoc w | SUB_VIEW => subDoc w end.

Definition setDoc (w : World) (v : ViewId) (d : SciDoc) : World :=
  match v with
  | MAIN_VIEW => mkWorld d (subDoc w) (progress w) (answers w) (messages w)
  | SUB_VIEW => mkWorld (mainDoc w) d (progress w) (answers w) (messages w)
  end.

(** A Scintilla call that reads the view. *)
Definition sciRead {A} (v : ViewId) (f : SciDoc -> A) : M A :=
  fun w => Ok (f (docOf w v)) w.

(** A Scintilla call that changes the view. *)
Definition sciCall (v : ViewId) (f : SciDoc -> SciDoc) : M unit :=
  fun w => Ok tt (setDoc w v (f (docOf w v))).

(** The progress dialog. *)
Definition ProgressDlg_Get : M bool := fun w => Ok (bool_decide (is_Some (progress w))) w.

Definition ProgressDlg_Open : M unit :=
  fun w => Ok tt (mkWorld (mainDoc w) (subDoc w) (Some 0) (answers w) (messages w)).

Definition ProgressDlg_Close : M unit :=
  fun w => Ok tt (mkWorld (mainDoc w) (subDoc w) None (answers w) (messages w)).

Definition SetMaxCount (n : Z) : M unit :=
  fun w => Ok tt (mkWorld (mainDoc w) (subDoc w) (Some n) (answers w) (messages w)).

Definition nextAnswer : M bool :=
  fun w => match answers w with
           | [] => Ok true w
           | a :: rest => Ok a (mkWorld (mainDoc w) (subDoc w) (progress w) rest (messages w))
           end.

Definition Advance : M bool := nextAnswer.
Definition NextPhase : M bool := nextAnswer.

(** [progress && !progress->Advance()] and the like. *)
Definition cancelled (call : M bool) : M bool :=
  open <- ProgressDlg_Get ;;
  if open then (a <- call ;; ret (negb a)) else ret false.

Definition MessageBoxA (text : string) : M unit :=
  fun w => Ok tt (mkWorld (mainDoc w) (subDoc w) (progress w) (answers w) (messages w ++ [text])).

(** ** Line hashing *)

Definition monitorCancelEveryXLine : Z := 500.

(** The inner loop of [computeLineHashes] over the bytes of one line. *)
Definition hashLine (settings : UserSettings) (text : list byte) (hval : Z) : Z :=
  fold_left (fun h c => if IgnoreSpaces settings && isSpaceTab c then h else Hash h c)
            text hval.

(** The body of the loop over the lines: the new value of
    [lineHashes[lineNum]]. *)
Definition hashDocLine (settings : UserSettings) (d : SciDoc) (docLine : Z) (hval : Z) : Z :=
  let lineStart := SCI_POSITIONFROMLINE d docLine in
  let lineEnd := SCI_GETLINEENDPOSITION d docLine in
  if lineEnd - lineStart =? 0 then hval
  else
    let line := getText d lineStart lineEnd in
    let lineLen := vsize line - 1 in
    let line := if IgnoreCase settings then toLowerCase line else line in
    hashLine settings (take (Z.to_nat lineLen) line) hval.

(** The loop over the lines; [None] is the early return on cancellation. *)
Fixpoint hashLoop (settings : UserSettings) (doc : DocCmpInfo) (lineNums : list Z)
    (lineHashes : list Z) : M (option (list Z)) :=
  match lineNums with
  | [] => ret (Some lineHashes)
  | lineNum :: rest =>
      stop <- (if Z.rem lineNum monitorCancelEveryXLine =? 0
               then cancelled Advance else ret false) ;;
      if stop then ret None
      else
        d <- sciRead (view doc) (fun d => d) ;;
        let h := hashDocLine settings d (lineNum + off (section doc))
                             (vget_d cHashSeed lineHashes lineNum) in
        hashLoop settings doc rest (vset lineHashes lineNum h)
  end.

Definition setLen (doc : DocCmpInfo) (n : Z) : DocCmpInfo :=
  mkDoc (view doc) (mkSection (off (section doc)) n) (blockDiffMask doc).

Definition setOff (doc : DocCmpInfo) (n : Z) : DocCmpInfo :=
  mkDoc (view doc) (mkSection n (len (section doc))) (blockDiffMask doc).

(** [std::vector<T> v(n, x)] for an [int] n: a negative [n] converts to a
    size beyond [max_size()] and the constructor throws [std::length_error]. *)
Definition newVector {A} (n : Z) (x : A) : M (list A) :=
  if n <? 0 then throw (std_exception "vector too long")
  else ret (replicate (Z.to_nat n) x).

(** [computeLineHashes]: the hashes of the lines of the section, and the
    document record with its section length as the function leaves it. *)
Definition computeLineHashes (doc : DocCmpInfo) (settings : UserSettings)
    : M (list Z * DocCmpInfo) :=
  lineCount <- sciRead (view doc) SCI_GETLENGTH ;;
  lineCount <- (if lineCount =? 0 then ret lineCount
                else sciRead (view doc) SCI_GETLINECOUNT) ;;
  let doc :=
    if (len (section doc) <=? 0) || (lineCount <? off (section doc) + len (section doc))
    then setLen doc (lineCount - off (section doc)) else doc in
  open <- ProgressDlg_Get ;;
  (if open then SetMaxCount (Z.quot (len (section doc)) monitorCancelEveryXLine + 1)
   else ret tt) ;;;
  lineHashes <- newVector (len (section doc)) cHashSeed ;;
  r <- hashLoop settings doc (zrange (len (section doc))) lineHashes ;;
  match r with
  | None => ret ([], doc)
  | Some lineHashes =>
      if negb (len (section doc) =? 0) && (vget_d 0 lineHashes (vsize lineHashes - 1) =? cHashSeed)
      then ret (removelast lineHashes, setLen doc (len (section doc) - 1))
      else ret (lineHashes, doc)
  end.

(** ** Tokenizer *)

Definition keepWord (settings : UserSettings) (word : Word) : bool :=
  negb (IgnoreSpaces settings) || negb (bool_decide (w_type word = SPACECHAR)).

(** The loop of [getWords] over the bytes [line[i]], [i >= 1], of one line;
    [word] is the word being grown. *)
Fixpoint wordsLoop (settings : UserSettings) (i : Z) (rest : list byte) (word : Word)
    : list Word :=
  match rest with
  | [] => if keepWord settings word then [word] else []
  | c :: rest' =>
      let newType := getCharType c in
      if bool_decide (newType = w_type word) then
        wordsLoop settings (i + 1) rest'
          (mkWord (w_type word) (w_line word) (w_pos word) (w_length word + 1)
                  (Hash (w_hash word) c))
      else
        (if keepWord settings word then [word] else [])
        ++ wordsLoop settings (i + 1) rest' (mkWord newType (w_line word) i 1 (Hash cHashSeed c))
  end.

(** The words of one line, given the NUL-terminated text [getText] returned. *)
Definition lineWords (settings : UserSettings) (lineNum : Z) (line : list byte) : list Word :=
  let lineLen := vsize line - 1 in
  if 0 <? lineLen then
    let line := if IgnoreCase settings then toLowerCase line else line in
    match take (Z.to_nat lineLen) line with
    | c0 :: rest =>
        wordsLoop settings 1 rest (mkWord (getCharType c0) lineNum 0 1 (Hash cHashSeed c0))
    | [] => []
    end
  else [].

(** [getWords]; block lengths are never negative, so the vector of
    [lineCount] word vectors can always be built. *)
Definition getWords (lineOffset lineCount : Z) (d : SciDoc) (settings : UserSettings)
    : list (list Word) :=
  map (fun lineNum =>
         let docLineNum := lineNum + lineOffset in
         let docLineStart := SCI_POSITIONFROMLINE d docLineNum in
         let docLineEnd := SCI_GETLINEENDPOSITION d docLineNum in
         lineWords settings lineNum (getText d docLineStart docLineEnd))
      (zrange lineCount).

(** ** MoveFinder *)

(** [blockDiffInfo::matchedSection]: the length and the moved flag of the
    first recorded match that contains [line]; length 0 when there is none
    (the flag is then left as it was, and callers do not read it). *)
Fixpoint matchedSection_in (ms : list (section_t * bool)) (ln : Z) : Z * bool :=
  match ms with
  | [] => (0, false)
  | m :: rest =>
      if (off (fst m) <=? ln) && (ln <=? off (fst m) + len (fst m) - 1)
      then (len (fst m), snd m)
      else matchedSection_in rest ln
  end.

Definition matchedSection (bi : blockDiffInfo) (ln : Z) : Z * bool :=
  matchedSection_in (matches bi) ln.

Record MatchInfo := mkMatchInfo {
  sec : section_t;
  matchesIn1 : list (nat * Z);
  matchesIn2 : list (nat * Z)
}.

Definition noBlock : diffInfo := mkDiff DIFF_MATCH 0 0 emptyInfo.

(** [cmpInfo.blockDiffs[i]] for an index the engine holds a pointer to. *)
Definition blockAt (blockDiffs : list diffInfo) (i : nat) : diffInfo :=
  default noBlock (blockDiffs !! i).

(** Reads of the line hashes; they are inside the vectors whenever the
    blocks describe the two hash sequences. *)
Definition hashAt (lineHashes : list Z) (i : Z) : Z := vget_d 0 lineHashes i.

Section MoveFinder.
Variable fuel : nat.
Variables lineHashes1 lineHashes2 : list Z.

(** The loop looking for the beginning of the matched block: the final
    [start1] and [start2]. *)
Fixpoint scanBegin (n : nat) (diff1 diff2 : diffInfo) (start1 start2 : Z)
    : option (Z * Z) :=
  if (0 <=? start1) && (0 <=? start2)
     && (fst (matchedSection (info diff2) start2) =? 0)
     && (hashAt lineHashes1 (d_off diff1 + start1) =? hashAt lineHashes2 (d_off diff2 + start2))
  then match n with
       | O => None
       | S n' => scanBegin n' diff1 diff2 (start1 - 1) (start2 - 1)
       end
  else Some (start1, start2).

(** The loop looking for the end of the matched block: the final [end1]. *)
Fixpoint scanEnd (n : nat) (diff1 diff2 : diffInfo) (end1 end2 : Z) : option Z :=
  if (end1 <? d_len diff1) && (end2 <? d_len diff2)
     && (fst (matchedSection (info diff2) end2) =? 0)
     && (hashAt lineHashes1 (d_off diff1 + end1) =? hashAt lineHashes2 (d_off diff2 + end2))
  then match n with
       | O => None
       | S n' => scanEnd n' diff1 diff2 (end1 + 1) (end2 + 1)
       end
  else Some end1.

(** The loop of [findMatches] over the elements [ei2] of one block
    [diff2] (at index [di2]); the state is [mi] and [minMatchLen]. *)
Fixpoint findMatchesIn (n : nat) (diff1 : diffInfo) (ei1 : Z) (di2 : nat) (diff2 : diffInfo)
    (ei2 : Z) (mi : MatchInfo) (minMatchLen : Z) : option (MatchInfo * Z) :=
  if minMatchLen <=? d_len diff2 - ei2 then
    match n with
    | O => None
    | S n' =>
        if negb (hashAt lineHashes1 (d_off diff1 + ei1) =? hashAt lineHashes2 (d_off diff2 + ei2))
        then findMatchesIn n' diff1 ei1 di2 diff2 (ei2 + 1) mi minMatchLen
        else
          let matchedLen := fst (matchedSection (info diff2) ei2) in
          if negb (matchedLen =? 0)
          then findMatchesIn n' diff1 ei1 di2 diff2 (ei2 + (matchedLen - 1) + 1) mi minMatchLen
          else
            match scanBegin fuel diff1 diff2 (ei1 - 1) (ei2 - 1),
                  scanEnd fuel diff1 diff2 (ei1 + 1) (ei2 + 1) with
            | Some (start1, start2), Some end1 =>
                let start1 := start1 + 1 in
                let start2 := start2 + 1 in
                let end1 := end1 - 1 in
                let matchLen := end1 - start1 + 1 in
                if matchLen <? len (sec mi)
                then findMatchesIn n' diff1 ei1 di2 diff2 (ei2 + 1) mi minMatchLen
                else
                  let '(mi, minMatchLen) :=
                    if len (sec mi) <? matchLen
                    then (mkMatchInfo (mkSection start1 matchLen) (matchesIn1 mi) [], matchLen)
                    else (mi, minMatchLen) in
                  if len (sec mi) =? matchLen
                  then findMatchesIn n' diff1 ei1 di2 diff2 (start2 + matchLen - 1 + 1)
                         (mkMatchInfo (sec mi) (matchesIn1 mi) (matchesIn2 mi ++ [(di2, start2)]))
                         minMatchLen
                  else findMatchesIn n' diff1 ei1 di2 diff2 (ei2 + 1) mi minMatchLen
            | _, _ => None
            end
    end
  else Some (mi, minMatchLen).

(** The loop of [findMatches] over the blocks. *)
Fixpoint findMatchesOver (diff1 : diffInfo) (ei1 : Z) (di2 : nat) (rest : list diffInfo)
    (mi : MatchInfo) (minMatchLen : Z) : option MatchInfo :=
  match rest with
  | [] => Some mi
  | diff2 :: rest' =>
      if negb (bool_decide (d_type diff2 = DIFF_IN_2))
      then findMatchesOver diff1 ei1 (S di2) rest' mi minMatchLen
      else
        match findMatchesIn fuel diff1 ei1 di2 diff2 0 mi minMatchLen with
        | None => None
        | Some (mi, minMatchLen) => findMatchesOver diff1 ei1 (S di2) rest' mi minMatchLen
        end
  end.

(** [findMatches]: the best matching blocks in 2 containing element [ei1]
    of [diff1]; [mi] comes in as the caller holds it. *)
Definition findMatches (blockDiffs : list diffInfo) (diff1 : diffInfo) (ei1 : Z)
    (mi : MatchInfo) : option MatchInfo :=
  findMatchesOver diff1 ei1 0%nat blockDiffs (mkMatchInfo (mkSection (off (sec mi)) 0) [] []) 1.

(** The loop of [findBetterMatch] comparing the two blocks of equal size:
    the final [k]. *)
Fixpoint sameBlock (n : nat) (bestOff otherOff : Z) (length k : Z) : option Z :=
  if (k <? length) && (hashAt lineHashes1 (bestOff + k) =? hashAt lineHashes1 (otherOff + k))
  then match n with
       | O => None
       | S n' => sameBlock n' bestOff otherOff length (k + 1)
       end
  else Some k.

(** The loop of [findBetterMatch] over the elements [i] of [diff] (the
    block at index [di]); the state is [ei], [bestMatchDiff], [best_mi]. *)
Fixpoint findBetterMatchIn (n : nat) (blockDiffs : list diffInfo) (di : nat) (i : Z)
    (ei : Z) (bestMatchDiff : nat) (best_mi : MatchInfo) : option (Z * nat * MatchInfo) :=
  let diff := blockAt blockDiffs di in
  if len (sec best_mi) <=? d_len diff - i then
    match n with
    | O => None
    | S n' =>
        if negb (hashAt lineHashes1 (d_off diff + i)
                 =? hashAt lineHashes1 (d_off (blockAt blockDiffs bestMatchDiff) + ei))
        then findBetterMatchIn n' blockDiffs di (i + 1) ei bestMatchDiff best_mi
        else
          let matchedLen := fst (matchedSection (info diff) i) in
          if negb (matchedLen =? 0)
          then findBetterMatchIn n' blockDiffs di (i + (matchedLen - 1) + 1) ei bestMatchDiff best_mi
          else
            match findMatches blockDiffs diff i (mkMatchInfo (mkSection 0 0) [] []) with
            | None => None
            | Some mi =>
                if len (sec mi) =? 0
                then findBetterMatchIn n' blockDiffs di (i + 1) ei bestMatchDiff best_mi
                else if len (sec best_mi) <? len (sec mi)
                then findBetterMatchIn n' blockDiffs di (off (sec mi) + len (sec mi) - 1 + 1)
                       i di mi
                else if len (sec best_mi) =? len (sec mi)
                then
                  match sameBlock fuel
                          (d_off (blockAt blockDiffs bestMatchDiff) + off (sec best_mi))
                          (d_off diff + off (sec mi)) (len (sec mi)) 0 with
                  | None => None
                  | Some k =>
                      if k =? len (sec mi)
                      then findBetterMatchIn n' blockDiffs di (off (sec mi) + len (sec mi) - 1 + 1)
                             ei bestMatchDiff
                             (mkMatchInfo (sec best_mi)
                                (matchesIn1 best_mi ++ [(di, off (sec mi))])
                                (matchesIn2 best_mi))
                      else findBetterMatchIn n' blockDiffs di (i + 1) ei bestMatchDiff best_mi
                  end
                else findBetterMatchIn n' blockDiffs di (i + 1) ei bestMatchDiff best_mi
            end
    end
  else Some (ei, bestMatchDiff, best_mi).

(** [findBetterMatch]; [bestMatchDiff] is never null where it is called. *)
Definition findBetterMatch (blockDiffs : list diffInfo) (di : nat)
    (ei : Z) (bestMatchDiff : nat) (best_mi : MatchInfo) : option (Z * nat * MatchInfo) :=
  let i := if bool_decide (di = bestMatchDiff)
           then off (sec best_mi) + len (sec best_mi) else 0 in
  findBetterMatchIn fuel blockDiffs di i ei bestMatchDiff best_mi.

(** The loop of [findMoves] over the later blocks [di2]. *)
Fixpoint findBetterIn (blockDiffs : list diffInfo) (di2s : list nat)
    (bmi : Z) (bestMatchDiff : nat) (best_mi : MatchInfo) : option (Z * nat * MatchInfo) :=
  match di2s with
  | [] => Some (bmi, bestMatchDiff, best_mi)
  | di2 :: rest =>
      if bool_decide (d_type (blockAt blockDiffs di2) = DIFF_IN_1)
      then match findBetterMatch blockDiffs di2 bmi bestMatchDiff best_mi with
           | None => None
           | Some (bmi, bestMatchDiff, best_mi) =>
               findBetterIn blockDiffs rest bmi bestMatchDiff best_mi
           end
      else findBetterIn blockDiffs rest bmi bestMatchDiff best_mi
  end.
End MoveFinder.

(** The moved flag [findMoves] computes for a run. *)
Definition isMovedFlag (best_mi : MatchInfo) : bool :=
  bool_decide (length (matchesIn1 best_mi) + 1 = length (matchesIn2 best_mi))%nat
  && negb ((len (sec best_mi) =? 1) && bool_decide (1 < length (matchesIn2 best_mi))%nat).

(** [blk->info.matches.emplace_back(m)] through a pointer to a block. *)
Definition addMatch (blockDiffs : list diffInfo) (di : nat) (m : section_t * bool)
    : list diffInfo :=
  alter (fun d => mkDiff (d_type d) (d_off d) (d_len d)
                    (mkBlockInfo (matchBlock (info d)) (changedLines (info d))
                                 (matches (info d) ++ [m])))
        di blockDiffs.

Definition addMatches (blockDiffs : list diffInfo) (ms : list (nat * Z)) (length : Z)
    (isMoved : bool) : list diffInfo :=
  fold_left (fun bs m => addMatch bs (fst m) (mkSection (snd m) length, isMoved)) ms blockDiffs.

(** The run [findMoves] commits: the entries appended to the best block, to
    the alternate sources and to the targets. *)
Definition commitMatch (blockDiffs : list diffInfo) (bestMatchDiff : nat) (best_mi : MatchInfo)
    : list diffInfo :=
  let isMoved := isMovedFlag best_mi in
  let blockDiffs :=
    addMatch blockDiffs bestMatchDiff
             (mkSection (off (sec best_mi)) (len (sec best_mi)), isMoved) in
  let blockDiffs := addMatches blockDiffs (matchesIn1 best_mi) (len (sec best_mi)) isMoved in
  addMatches blockDiffs (matchesIn2 best_mi) (len (sec best_mi)) isMoved.

Section FindMoves.
Variable fuel : nat.
Variables lineHashes1 lineHashes2 : list Z.

(** What one pass of the loop over [ei1] finds for the element: nothing to
    commit, or the best block, its element and its match. *)
Definition bestMatchFor (blockDiffs : list diffInfo) (di1 : nat) (ei1 : Z)
    : option (option (Z * nat * MatchInfo)) :=
  match findMatches fuel lineHashes1 lineHashes2 blockDiffs (blockAt blockDiffs di1) ei1
          (mkMatchInfo (mkSection 0 0) [] []) with
  | None => None
  | Some best_mi =>
      if len (sec best_mi) =? 0 then Some None
      else
        match findBetterMatch fuel lineHashes1 lineHashes2 blockDiffs di1 ei1 di1 best_mi with
        | None => None
        | Some (bmi, bestMatchDiff, best_mi) =>
            match findBetterIn fuel lineHashes1 lineHashes2 blockDiffs
                    (seq (S di1) (length blockDiffs - S di1)) bmi bestMatchDiff best_mi with
            | None => None
            | Some r => Some (Some r)
            end
        end
  end.

(** The loop of [findMoves] over the elements [ei1] of block [di1]. *)
Fixpoint findMovesIn (n : nat) (blockDiffs : list diffInfo) (di1 : nat) (ei1 : Z)
    : option (list diffInfo) :=
  if ei1 <? d_len (blockAt blockDiffs di1) then
    match n with
    | O => None
    | S n' =>
        let matchedLen := fst (matchedSection (info (blockAt blockDiffs di1)) ei1) in
        if negb (matchedLen =? 0)
        then findMovesIn n' blockDiffs di1 (ei1 + (matchedLen - 1) + 1)
        else if hashAt lineHashes1 (d_off (blockAt blockDiffs di1) + ei1) =? cHashSeed
        then findMovesIn n' blockDiffs di1 (ei1 + 1)
        else
          match bestMatchFor blockDiffs di1 ei1 with
          | None => None
          | Some None => findMovesIn n' blockDiffs di1 (ei1 + 1)
          | Some (Some (bmi, bestMatchDiff, best_mi)) =>
              let blockDiffs := commitMatch blockDiffs bestMatchDiff best_mi in
              if bool_decide (bestMatchDiff = di1) && (bmi =? ei1)
              then findMovesIn n' blockDiffs di1 (off (sec best_mi) + len (sec best_mi) - 1 + 1)
              else findMovesIn n' blockDiffs di1 (ei1 - 1 + 1)
          end
    end
  else Some blockDiffs.

(** The loop of [findMoves] over the blocks [di1]. *)
Fixpoint findMovesOver (blockDiffs : list diffInfo) (di1s : list nat)
    : option (list diffInfo) :=
  match di1s with
  | [] => Some blockDiffs
  | di1 :: rest =>
      if negb (bool_decide (d_type (blockAt blockDiffs di1) = DIFF_IN_1))
      then findMovesOver blockDiffs rest
      else match findMovesIn fuel blockDiffs di1 0 with
           | None => None
           | Some blockDiffs => findMovesOver blockDiffs rest
           end
  end.

(** [findMoves]; [None] when a loop does not end within [fuel] passes. *)
Definition findMoves (blockDiffs : list diffInfo) : option (list diffInfo) :=
  findMovesOver blockDiffs (seq 0 (length blockDiffs)).
End FindMoves.

(** ** BlockPairComparer *)

(** The key of [orderedLinesConvergence]. *)
Record conv_key := mkConv { convergence : Z; line1 : Z; line2 : Z }.

(** [conv_key::operator<]. *)
Definition conv_lt (lhs rhs : conv_key) : bool :=
  (convergence rhs <? convergence lhs)
  || ((convergence lhs =? convergence rhs)
      && ((line1 lhs <? line1 rhs)
          || ((line1 lhs =? line1 rhs) && (line2 lhs <? line2 rhs)))).

(** [std::set<conv_key>::emplace]: the set is the list of its elements in
    iteration order; an element equivalent to one present is not added. *)
Fixpoint set_emplace (k : conv_key) (s : list conv_key) : list conv_key :=
  match s with
  | [] => [k]
  | x :: rest =>
      if conv_lt k x then k :: s
      else if conv_lt x k then x :: set_emplace k rest
      else s
  end.

(** [std::map<int, std::pair<int, int>>::emplace]: the map is the list of
    its entries in ascending key order; a key present is left as it is. *)
Fixpoint map_emplace (k : Z) (v : Z * Z) (m : list (Z * (Z * Z))) : list (Z * (Z * Z)) :=
  match m with
  | [] => [(k, v)]
  | e :: rest =>
      if k <? fst e then (k, v) :: m
      else if fst e <? k then e :: map_emplace k v rest
      else m
  end.

(** Sum of [word.length] over a line. *)
Definition lineLen (words : list Word) : Z :=
  fold_left (fun n word => n + w_length word) words 0.

Definition noWord : Word := mkWord OTHERCHAR 0 0 0 0.

Definition wordAt (words : list Word) (i : Z) : Word := vget_d noWord words i.

Definition addChangedLine (bd : diffInfo) (dl : diffLine) : diffInfo :=
  mkDiff (d_type bd) (d_off bd) (d_len bd)
         (mkBlockInfo (matchBlock (info bd)) (changedLines (info bd) ++ [dl]) (matches (info bd))).

Definition setMatchBlock (bd : diffInfo) (partner : nat) : diffInfo :=
  mkDiff (d_type bd) (d_off bd) (d_len bd)
         (mkBlockInfo (Some partner) (changedLines (info bd)) (matches (info bd))).

Section BlockPairs.
(** [DiffCalc] (diff.h) is not part of Engine.cpp: the engine is
    parameterised by it.  Elements are compared by their hashes (lines are
    hashes, [Word::operator==] compares [hash]), so it is given two hash
    sequences and returns the spans of the diff. *)
Variable DiffCalc : list Z -> list Z -> list span.

Definition wordsDiff (pLine1 pLine2 : list Word) : list span :=
  DiffCalc (map w_hash pLine1) (map w_hash pLine2).

(** The loop over [linesDiff] in [compareBlocks]: words matched and bytes
    matched. *)
Definition matchedCounts (pLine1 : list Word) (linesDiff : list span) : Z * Z :=
  fold_left
    (fun acc ld =>
       if bool_decide (s_type ld = DIFF_MATCH)
       then (fst acc + s_len ld,
             fold_left (fun n i => n + w_length (wordAt pLine1 (s_off ld + i)))
                       (zrange (s_len ld)) (snd acc))
       else acc)
    linesDiff (0, 0).

(** The body of the loop over [line2] once the pair is not skipped: the
    convergence of the pair and the new value of [line1Len]. *)
Definition pairConvergence (words1 words2 : list Word) (line1Len : Z) : Z * Z :=
  let '(pLine1, pLine2) :=
    if vsize words1 <? vsize words2 then (words2, words1) else (words1, words2) in
  let linesDiff := wordsDiff pLine1 pLine2 in
  let line2Len := lineLen words2 in
  let line1Len := if line1Len <? line2Len then line2Len else line1Len in
  let '(linesConvergence, linesLenConvergence) := matchedCounts pLine1 linesDiff in
  let linesConvergence := Z.quot (linesConvergence * 100) (vsize pLine1) in
  let linesLenConvergence := Z.quot (linesLenConvergence * 100) line1Len in
  let linesConvergence :=
    if linesConvergence <? linesLenConvergence then linesLenConvergence
    else linesConvergence in
  (linesConvergence, line1Len).

(** The loop over [line2] for one [line1]; the state is the set of
    candidates and [line1Len]. *)
Fixpoint line2Loop (n : nat) (chunk1 chunk2 : list (list Word)) (blockDiff2 : diffInfo)
    (l1 : Z) (l2 : Z) (line1Len : Z) (olc : list conv_key) : list conv_key :=
  match n with
  | O => olc
  | S n' =>
      if l2 <? vsize chunk2 then
        if bool_decide (vget_d [] chunk2 l2 = [])
        then line2Loop n' chunk1 chunk2 blockDiff2 l1 (l2 + 1) line1Len olc
        else
          let '(matchedLen, isMoved) := matchedSection (info blockDiff2) l2 in
          if negb (matchedLen =? 0) && isMoved
          then line2Loop n' chunk1 chunk2 blockDiff2 l1 (l2 + (matchedLen - 1) + 1) line1Len olc
          else
            let words1 := vget_d [] chunk1 l1 in
            let words2 := vget_d [] chunk2 l2 in
            if 2 * Z.min (vsize words1) (vsize words2) <? Z.max (vsize words1) (vsize words2)
            then line2Loop n' chunk1 chunk2 blockDiff2 l1 (l2 + 1) line1Len olc
            else
              let '(linesConvergence, line1Len) := pairConvergence words1 words2 line1Len in
              line2Loop n' chunk1 chunk2 blockDiff2 l1 (l2 + 1) line1Len
                (if 50 <=? linesConvergence
                 then set_emplace (mkConv linesConvergence l1 l2) olc else olc)
      else olc
  end.

(** The loop over [line1]. *)
Fixpoint line1Loop (n : nat) (chunk1 chunk2 : list (list Word)) (blockDiff1 blockDiff2 : diffInfo)
    (l1 : Z) (olc : list conv_key) : list conv_key :=
  match n with
  | O => olc
  | S n' =>
      if l1 <? vsize chunk1 then
        if bool_decide (vget_d [] chunk1 l1 = [])
        then line1Loop n' chunk1 chunk2 blockDiff1 blockDiff2 (l1 + 1) olc
        else
          let '(matchedLen, isMoved) := matchedSection (info blockDiff1) l1 in
          if negb (matchedLen =? 0) && isMoved
          then line1Loop n' chunk1 chunk2 blockDiff1 blockDiff2 (l1 + (matchedLen - 1) + 1) olc
          else
            let line1Len := lineLen (vget_d [] chunk1 l1) in
            line1Loop n' chunk1 chunk2 blockDiff1 blockDiff2 (l1 + 1)
              (line2Loop (length chunk2) chunk1 chunk2 blockDiff2 l1 0 line1Len olc)
      else olc
  end.

(** [orderedLinesConvergence] as the two loops leave it.  Every pass moves
    the line forward, so the loops end within as many passes as there are
    lines. *)
Definition orderedLinesConvergence (chunk1 chunk2 : list (list Word))
    (blockDiff1 blockDiff2 : diffInfo) : list conv_key :=
  line1Loop (length chunk1) chunk1 chunk2 blockDiff1 blockDiff2 0 [].

(** The loop over [ocItr]: the line mappings accepted from one start. *)
Fixpoint mapLoop (linesCount1 linesCount2 : Z) (ocs : list conv_key)
    (lineMappings : list (Z * (Z * Z))) (mappedLines1 mappedLines2 : list bool)
    (mappedLinesCount1 mappedLinesCount2 : Z) : list (Z * (Z * Z)) :=
  match ocs with
  | [] => lineMappings
  | oc :: rest =>
      if negb (vget_d false mappedLines1 (line1 oc)) && negb (vget_d false mappedLines2 (line2 oc))
      then
        let lineMappings := map_emplace (line1 oc) (convergence oc, line2 oc) lineMappings in
        let mappedLinesCount1 := mappedLinesCount1 + 1 in
        if mappedLinesCount1 =? linesCount1 then lineMappings
        else
          let mappedLinesCount2 := mappedLinesCount2 + 1 in
          if mappedLinesCount2 =? linesCount2 then lineMappings
          else mapLoop linesCount1 linesCount2 rest lineMappings
                 (vset mappedLines1 (line1 oc) true) (vset mappedLines2 (line2 oc) true)
                 mappedLinesCount1 mappedLinesCount2
      else mapLoop linesCount1 linesCount2 rest lineMappings mappedLines1 mappedLines2
             mappedLinesCount1 mappedLinesCount2
  end.

Definition mappingFrom (linesCount1 linesCount2 : Z) (ocs : list conv_key)
    : list (Z * (Z * Z)) :=
  mapLoop linesCount1 linesCount2 ocs []
          (replicate (Z.to_nat linesCount1) false) (replicate (Z.to_nat linesCount2) false) 0 0.

(** The loop summing [currentBlockConvergence]; the state is the sum and
    [lastLine2]. *)
Definition blockConvergence (lineMappings : list (Z * (Z * Z))) : Z :=
  fst (fold_left
         (fun acc lm =>
            if snd acc <? snd (snd lm) then (fst acc + fst (snd lm), snd (snd lm)) else acc)
         lineMappings (0, -1)).

(** The loop over [startItr]; the state is [bestBlockConvergence] and
    [bestLineMappings]. *)
Fixpoint bestLoop (linesCount1 linesCount2 : Z) (starts : list conv_key)
    (bestBlockConvergence : Z) (bestLineMappings : list (Z * (Z * Z)))
    : Z * list (Z * (Z * Z)) :=
  match starts with
  | [] => (bestBlockConvergence, bestLineMappings)
  | oc :: rest =>
      let lineMappings := mappingFrom linesCount1 linesCount2 (oc :: rest) in
      let currentBlockConvergence := blockConvergence lineMappings in
      if bestBlockConvergence <? currentBlockConvergence
      then bestLoop linesCount1 linesCount2 rest currentBlockConvergence lineMappings
      else bestLoop linesCount1 linesCount2 rest bestBlockConvergence bestLineMappings
  end.

Definition bestLineMappings (linesCount1 linesCount2 : Z) (olc : list conv_key)
    : list (Z * (Z * Z)) :=
  snd (bestLoop linesCount1 linesCount2 olc 0 []).

(** The byte range a span of words covers. *)
Definition changeOf (pLine : list Word) (ld : span) : section_t :=
  let off := w_pos (wordAt pLine (s_off ld)) in
  mkSection off
    (w_pos (wordAt pLine (s_off ld + s_len ld - 1)) - off
     + w_length (wordAt pLine (s_off ld + s_len ld - 1))).

Definition lineChanges (pLine : list Word) (linesDiff : list span) (t : diff_type)
    : list section_t :=
  map (changeOf pLine) (filter (fun ld => s_type ld = t) linesDiff).

Definition isSingleMatch (linesDiff : list span) : bool :=
  match linesDiff with
  | [ld] => bool_decide (s_type ld = DIFF_MATCH)
  | _ => false
  end.

(** The loop of [compareLines] over the line mappings; the state is
    [lastLine2] and the two blocks. *)
Fixpoint compareLinesLoop (chunk1 chunk2 : list (list Word)) (lms : list (Z * (Z * Z)))
    (lastLine2 : Z) (blockDiff1 blockDiff2 : diffInfo) : diffInfo * diffInfo :=
  match lms with
  | [] => (blockDiff1, blockDiff2)
  | lm :: rest =>
      if snd (snd lm) <=? lastLine2
      then compareLinesLoop chunk1 chunk2 rest lastLine2 blockDiff1 blockDiff2
      else
        let l1 := fst lm in
        let l2 := snd (snd lm) in
        let lastLine2 := l2 in
        let pLine1 := vget_d [] chunk1 l1 in
        let pLine2 := vget_d [] chunk2 l2 in
        let swapped := vsize pLine1 <? vsize pLine2 in
        let '(pBlockDiff1, pBlockDiff2, pLine1, pLine2, l1, l2) :=
          if swapped then (blockDiff2, blockDiff1, pLine2, pLine1, l2, l1)
          else (blockDiff1, blockDiff2, pLine1, pLine2, l1, l2) in
        let linesDiff := wordsDiff pLine1 pLine2 in
        if isSingleMatch linesDiff
        then compareLinesLoop chunk1 chunk2 rest lastLine2 blockDiff1 blockDiff2
        else
          let pBlockDiff1 :=
            addChangedLine pBlockDiff1 (mkDiffLine l1 (lineChanges pLine1 linesDiff DIFF_IN_1)) in
          let pBlockDiff2 :=
            addChangedLine pBlockDiff2 (mkDiffLine l2 (lineChanges pLine2 linesDiff DIFF_IN_2)) in
          let '(blockDiff1, blockDiff2) :=
            if swapped then (pBlockDiff2, pBlockDiff1) else (pBlockDiff1, pBlockDiff2) in
          compareLinesLoop chunk1 chunk2 rest lastLine2 blockDiff1 blockDiff2
  end.

Definition compareLines (blockDiff1 blockDiff2 : diffInfo) (chunk1 chunk2 : list (list Word))
    (lineMappings : list (Z * (Z * Z))) : diffInfo * diffInfo :=
  compareLinesLoop chunk1 chunk2 lineMappings (-1) blockDiff1 blockDiff2.

(** [compareBlocks]: the two blocks with their changed lines; [d1] and
    [d2] are the documents of [doc1.view] and [doc2.view]. *)
Definition compareBlocks (d1 d2 : SciDoc) (settings : UserSettings)
    (blockDiff1 blockDiff2 : diffInfo) : diffInfo * diffInfo :=
  let chunk1 := getWords (d_off blockDiff1) (d_len blockDiff1) d1 settings in
  let chunk2 := getWords (d_off blockDiff2) (d_len blockDiff2) d2 settings in
  let linesCount1 := vsize chunk1 in
  let linesCount2 := vsize chunk2 in
  let olc := orderedLinesConvergence chunk1 chunk2 blockDiff1 blockDiff2 in
  let best := bestLineMappings linesCount1 linesCount2 olc in
  if bool_decide (best = []) then (blockDiff1, blockDiff2)
  else compareLines blockDiff1 blockDiff2 chunk1 chunk2 best.
End BlockPairs.

(** ** Marking *)

Record AlignmentViewData := mkAlignData { a_line : Z; diffMask : Z }.
Record AlignmentPair := mkAlignPair { a_main : AlignmentViewData; a_sub : AlignmentViewData }.

Definition out_of_fuel {A} : M A := fun _ => OutOfFuel.

Fixpoint forEach {A} (l : list A) (f : A -> M unit) : M unit :=
  match l with
  | [] => ret tt
  | x :: rest => f x ;;; forEach rest f
  end.

Definition addMarker (v : ViewId) (ln mask : Z) : M unit :=
  sciCall v (fun d => SCI_MARKERADDSET d ln mask).

(** The loop of [markSection]; the state is [i] and [line]. *)
Fixpoint markSectionLoop (n : nat) (bd : diffInfo) (doc : DocCmpInfo) (endOff : Z) (i ln : Z)
    : M unit :=
  if i <? endOff then
    match n with
    | O => out_of_fuel
    | S n' =>
        let '(matchedLen, isMoved) := matchedSection (info bd) i in
        let matchedLen :=
          if len (section doc) <? matchedLen then len (section doc) else matchedLen in
        if matchedLen =? 0 then
          addMarker (view doc) ln (blockDiffMask doc) ;;;
          markSectionLoop n' bd doc endOff (i + 1) (ln + 1)
        else if negb isMoved then
          let mark := if blockDiffMask doc =? MARKER_MASK_ADDED
                      then MARKER_MASK_ADDED_LOCAL else MARKER_MASK_REMOVED_LOCAL in
          forEach (zrange matchedLen) (fun j => addMarker (view doc) (ln + j) mark) ;;;
          markSectionLoop n' bd doc endOff (i + (matchedLen - 1) + 1)
                          (ln + Z.max 0 matchedLen - 1 + 1)
        else if matchedLen =? 1 then
          addMarker (view doc) ln MARKER_MASK_MOVED_LINE ;;;
          markSectionLoop n' bd doc endOff (i + 1) (ln + 1)
        else
          addMarker (view doc) ln MARKER_MASK_MOVED_BEGIN ;;;
          let ln := ln + 1 in
          let matchedLen := matchedLen - 1 in
          forEach (zrange (matchedLen - 1))
                  (fun j => addMarker (view doc) (ln + j) MARKER_MASK_MOVED_MID) ;;;
          let ln := ln + Z.max 0 (matchedLen - 1) in
          addMarker (view doc) ln MARKER_MASK_MOVED_END ;;;
          markSectionLoop n' bd doc endOff (i + matchedLen + 1) (ln + 1)
    end
  else ret tt.

(** [markSection]; every pass moves [i] forward, so the section length
    bounds the passes. *)
Definition markSection (bd : diffInfo) (doc : DocCmpInfo) : M unit :=
  let endOff := off (section doc) + len (section doc) in
  markSectionLoop (Z.to_nat (len (section doc))) bd doc endOff
                  (off (section doc)) (d_off bd + off (section doc)).

Definition noLine : diffLine := mkDiffLine 0 [].

Definition changedLineAt (bd : diffInfo) (lineIdx : Z) : diffLine :=
  vget_d noLine (changedLines (info bd)) lineIdx.

(** [markLineDiffs]; [mb] is [*bd.info.matchBlock]. *)
Definition markLineDiffs (view1 view2 : ViewId) (bd mb : diffInfo) (lineIdx : Z) : M unit :=
  let ln := d_off bd + line (changedLineAt bd lineIdx) in
  linePos <- sciRead view1 (fun d => SCI_POSITIONFROMLINE d ln) ;;
  forEach (changes (changedLineAt bd lineIdx))
          (fun change => sciCall view1 (fun d => markTextAsChanged d (linePos + off change) (len change))) ;;;
  addMarker view1 ln MARKER_MASK_CHANGED ;;;
  let ln := d_off mb + line (changedLineAt mb lineIdx) in
  linePos <- sciRead view2 (fun d => SCI_POSITIONFROMLINE d ln) ;;
  forEach (changes (changedLineAt mb lineIdx))
          (fun change => sciCall view2 (fun d => markTextAsChanged d (linePos + off change) (len change))) ;;;
  addMarker view2 ln MARKER_MASK_CHANGED.

(** The state of [markAllDiffs]: the two document records (their sections
    are scratch), [*pMainAlignData] and [*pSubAlignData] (the halves of
    [alignPair] linked to doc1 and doc2), and the table built so far. *)
Record MarkState := mkMark {
  m_doc1 : DocCmpInfo;
  m_doc2 : DocCmpInfo;
  pMainAlignData : AlignmentViewData;
  pSubAlignData : AlignmentViewData;
  alignmentInfo : list AlignmentPair
}.

Definition setSections (st : MarkState) (s1 s2 : section_t) : MarkState :=
  mkMark (mkDoc (view (m_doc1 st)) s1 (blockDiffMask (m_doc1 st)))
         (mkDoc (view (m_doc2 st)) s2 (blockDiffMask (m_doc2 st)))
         (pMainAlignData st) (pSubAlignData st) (alignmentInfo st).

(** Set the two masks and [alignmentInfo.push_back(alignPair)]. *)
Definition pushPair (st : MarkState) (mask1 mask2 : Z) : MarkState :=
  let p1 := mkAlignData (a_line (pMainAlignData st)) mask1 in
  let p2 := mkAlignData (a_line (pSubAlignData st)) mask2 in
  let alignPair :=
    if bool_decide (view (m_doc1 st) = SUB_VIEW) then mkAlignPair p2 p1 else mkAlignPair p1 p2 in
  mkMark (m_doc1 st) (m_doc2 st) p1 p2 (alignmentInfo st ++ [alignPair]).

Definition addLines (st : MarkState) (n1 n2 : Z) : MarkState :=
  mkMark (m_doc1 st) (m_doc2 st)
         (mkAlignData (a_line (pMainAlignData st) + n1) (diffMask (pMainAlignData st)))
         (mkAlignData (a_line (pSubAlignData st) + n2) (diffMask (pSubAlignData st)))
         (alignmentInfo st).

(** The lines of a paired block between two changed lines: the shared code
    of the loop over the changed lines and of the code after it. *)
Definition markUnchanged (bd mb : diffInfo) (st : MarkState) : M MarkState :=
  let len1 := len (section (m_doc1 st)) in
  let len2 := len (section (m_doc2 st)) in
  if negb (len1 =? 0) || negb (len2 =? 0) then
    let st := pushPair st (blockDiffMask (m_doc1 st)) (blockDiffMask (m_doc2 st)) in
    st <- (if negb (len1 =? 0)
           then markSection bd (m_doc1 st) ;;; ret (addLines st len1 0) else ret st) ;;
    (if negb (len2 =? 0)
     then markSection mb (m_doc2 st) ;;; ret (addLines st 0 len2) else ret st)
  else ret st.

(** The loop over the changed lines [j] of a paired block. *)
Fixpoint markChangedLines (js : list Z) (bd mb : diffInfo) (st : MarkState) : M MarkState :=
  match js with
  | [] => ret st
  | j :: rest =>
      let st := setSections st
        (mkSection (off (section (m_doc1 st)))
                   (line (changedLineAt bd j) - off (section (m_doc1 st))))
        (mkSection (off (section (m_doc2 st)))
                   (line (changedLineAt mb j) - off (section (m_doc2 st)))) in
      st <- markUnchanged bd mb st ;;
      let st := pushPair st MARKER_MASK_CHANGED MARKER_MASK_CHANGED in
      markLineDiffs (view (m_doc1 st)) (view (m_doc2 st)) bd mb j ;;;
      let st := setSections st
        (mkSection (line (changedLineAt bd j) + 1) (len (section (m_doc1 st))))
        (mkSection (line (changedLineAt mb j) + 1) (len (section (m_doc2 st)))) in
      markChangedLines rest bd mb (addLines st 1 1)
  end.

(** One block of the loop of [markAllDiffs]: the new state and the index
    of the block handled last. *)
Definition markBlock (blockDiffs : list diffInfo) (i : nat) (st : MarkState)
    : M (MarkState * nat) :=
  let bd := blockAt blockDiffs i in
  match d_type bd with
  | DIFF_MATCH =>
      let st := pushPair st 0 0 in
      ret (addLines st (d_len bd) (d_len bd), i)
  | DIFF_IN_2 =>
      let st := setSections st (section (m_doc1 st)) (mkSection 0 (d_len bd)) in
      markSection bd (m_doc2 st) ;;;
      let st := pushPair st 0 (blockDiffMask (m_doc2 st)) in
      ret (addLines st 0 (d_len bd), i)
  | DIFF_IN_1 =>
      match matchBlock (info bd) with
      | Some mbi =>
          let mb := blockAt blockDiffs mbi in
          let changedLinesCount := vsize (changedLines (info bd)) in
          let st := setSections st (mkSection 0 (len (section (m_doc1 st))))
                                   (mkSection 0 (len (section (m_doc2 st)))) in
          st <- markChangedLines (zrange changedLinesCount) bd mb st ;;
          let st := setSections st
            (mkSection (off (section (m_doc1 st))) (d_len bd - off (section (m_doc1 st))))
            (mkSection (off (section (m_doc2 st))) (d_len mb - off (section (m_doc2 st)))) in
          st <- markUnchanged bd mb st ;;
          ret (st, S i)
      | None =>
          let st := setSections st (mkSection 0 (d_len bd)) (section (m_doc2 st)) in
          markSection bd (m_doc1 st) ;;;
          let st := pushPair st (blockDiffMask (m_doc1 st)) 0 in
          ret (addLines st (d_len bd) 0, i)
      end
  end.

(** The loop of [markAllDiffs] over the blocks: [false] is the early
    [return false]; the state is the one reached. *)
Fixpoint markAllLoop (n : nat) (blockDiffs : list diffInfo) (i : nat) (st : MarkState)
    : M (bool * MarkState) :=
  if bool_decide (i < length blockDiffs)%nat then
    match n with
    | O => out_of_fuel
    | S n' =>
        r <- markBlock blockDiffs i st ;;
        stop <- cancelled Advance ;;
        if stop then ret (false, fst r) else markAllLoop n' blockDiffs (S (snd r)) (fst r)
    end
  else ret (true, st).

(** [markAllDiffs]: whether it ran to its end, and the alignment table. *)
Definition markAllDiffs (doc1 doc2 : DocCmpInfo) (selectionCompare : bool)
    (blockDiffs : list diffInfo) : M (bool * list AlignmentPair) :=
  let blockDiffSize := vsize blockDiffs in
  open <- ProgressDlg_Get ;;
  (if open then SetMaxCount blockDiffSize else ret tt) ;;;
  let st := mkMark doc1 doc2 (mkAlignData (off (section doc1)) 0)
                   (mkAlignData (off (section doc2)) 0) [] in
  r <- markAllLoop (length blockDiffs) blockDiffs 0 st ;;
  if fst r then
    let st := if selectionCompare then pushPair (snd r) 0 0 else snd r in
    stop <- cancelled NextPhase ;;
    ret (negb stop, alignmentInfo st)
  else ret (false, alignmentInfo (snd r)).

(** ** Orchestrator *)

(** Modelled from the spec: [ScopedViewWriteEnabler] is declared outside
    Engine.cpp; it acquires write permission on the view for a scope and
    releases it when the scope is left.  The constructor returns whether the
    view was read-only. *)
Definition ScopedViewWriteEnabler (v : ViewId) : M bool :=
  isRO <- sciRead v sciReadOnly ;;
  (if isRO then sciCall v (fun d => SCI_SETREADONLY d false) else ret tt) ;;;
  ret isRO.

Definition ScopedViewWriteEnabler_release (v : ViewId) (isRO : bool) : M unit :=
  if isRO then sciCall v (fun d => SCI_SETREADONLY d true) else ret tt.

Definition toBlock (s : span) : diffInfo := mkDiff (s_type s) (s_off s) (s_len s) emptyInfo.

Definition addOff (bd : diffInfo) (n : Z) : diffInfo :=
  mkDiff (d_type bd) (d_off bd + n) (d_len bd) (info bd).

(** The loop adding the section offsets to the blocks. *)
Definition rebase (doc1 doc2 : DocCmpInfo) (blockDiffs : list diffInfo) : list diffInfo :=
  map (fun bd =>
         match d_type bd with
         | DIFF_IN_1 | DIFF_MATCH => addOff bd (off (section doc1))
         | DIFF_IN_2 => addOff bd (off (section doc2))
         end) blockDiffs.

(** The blank line inserted at the beginning of both documents. *)
Definition insertBlankLines (doc1 doc2 : DocCmpInfo) : M (DocCmpInfo * DocCmpInfo) :=
  doc1Modified <- sciRead (view doc1) SCI_GETMODIFY ;;
  doc2Modified <- sciRead (view doc2) SCI_GETMODIFY ;;
  writeEn1 <- ScopedViewWriteEnabler (view doc1) ;;
  writeEn2 <- ScopedViewWriteEnabler (view doc2) ;;
  sciCall (view doc1) (fun d => SCI_INSERTTEXT d 0 [LF]) ;;;
  (if negb doc1Modified then sciCall (view doc1) SCI_SETSAVEPOINT else ret tt) ;;;
  sciCall (view doc2) (fun d => SCI_INSERTTEXT d 0 [LF]) ;;;
  (if negb doc2Modified then sciCall (view doc2) SCI_SETSAVEPOINT else ret tt) ;;;
  let doc1 := setOff doc1 (off (section doc1) + 1) in
  let doc2 := setOff doc2 (off (section doc2) + 1) in
  ScopedViewWriteEnabler_release (view doc2) writeEn2 ;;;
  ScopedViewWriteEnabler_release (view doc1) writeEn1 ;;;
  ret (doc1, doc2).

Section Orchestrator.
Variable DiffCalc : list Z -> list Z -> list span.
Variable fuel : nat.

(** The loop doing the block compares: [false] is the early return on
    cancellation. *)
Fixpoint blockCompares (idxs : list nat) (doc1 doc2 : DocCmpInfo) (settings : UserSettings)
    (blockDiffs : list diffInfo) : M (bool * list diffInfo) :=
  match idxs with
  | [] => ret (true, blockDiffs)
  | i :: rest =>
      blockDiffs <-
        (if bool_decide (d_type (blockAt blockDiffs i) = DIFF_IN_2)
            && negb (bool_decide (i = 0%nat))
            && bool_decide (d_type (blockAt blockDiffs (i - 1)) = DIFF_IN_1)
         then
           let blockDiff1 := setMatchBlock (blockAt blockDiffs (i - 1)) i in
           let blockDiff2 := setMatchBlock (blockAt blockDiffs i) (i - 1) in
           d1 <- sciRead (view doc1) (fun d => d) ;;
           d2 <- sciRead (view doc2) (fun d => d) ;;
           let r := compareBlocks DiffCalc d1 d2 settings blockDiff1 blockDiff2 in
           ret (<[i := snd r]> (<[(i - 1)%nat := fst r]> blockDiffs))
         else ret blockDiffs) ;;
      stop <- cancelled Advance ;;
      if stop then ret (false, blockDiffs)
      else blockCompares rest doc1 doc2 settings blockDiffs
  end.

Definition isSingleMatchBlock (blockDiffs : list diffInfo) : bool :=
  match blockDiffs with
  | [bd] => bool_decide (d_type bd = DIFF_MATCH)
  | _ => false
  end.

(** [runCompare] from the block compares on (lines 1010-1044): the
    cancel check, the block compares, and the marking. *)
Definition pairPhase (doc1 doc2 : DocCmpInfo) (selectionCompare : bool)
    (settings : UserSettings) (blockDiffSize : Z) (blockDiffs : list diffInfo)
    (alignmentInfo : list AlignmentPair) : M (CompareResult * list AlignmentPair) :=
  stop <- cancelled NextPhase ;;
  if stop then ret (COMPARE_CANCELLED, alignmentInfo) else
  open <- ProgressDlg_Get ;;
  (if open then SetMaxCount blockDiffSize else ret tt) ;;;
  r <- blockCompares (seq 0 (length blockDiffs)) doc1 doc2 settings blockDiffs ;;
  if negb (fst r) then ret (COMPARE_CANCELLED, alignmentInfo) else
  let blockDiffs := snd r in
  stop <- cancelled NextPhase ;;
  if stop then ret (COMPARE_CANCELLED, alignmentInfo) else
  r <- markAllDiffs doc1 doc2 selectionCompare blockDiffs ;;
  if negb (fst r) then ret (COMPARE_CANCELLED, snd r)
  else ret (COMPARE_MISMATCH, snd r).

(** [runCompare] once the diff is known not to be a single match (lines
    972-1008): the moves, the blank lines inserted at the beginning of the
    documents, the block offsets made absolute; then the rest. *)
Definition movesPhase (doc1 doc2 : DocCmpInfo) (selectionCompare : bool)
    (settings : UserSettings) (pLineHashes1 pLineHashes2 : list Z)
    (blockDiffs : list diffInfo) (alignmentInfo : list AlignmentPair)
    : M (CompareResult * list AlignmentPair) :=
  let blockDiffSize := vsize blockDiffs in
  blockDiffs <-
    (if DetectMoves settings
     then match findMoves fuel pLineHashes1 pLineHashes2 blockDiffs with
          | Some blockDiffs => ret blockDiffs
          | None => out_of_fuel
          end
     else ret blockDiffs) ;;
  match blockDiffs with
  | [] => undefined
  | bd0 :: _ =>
      docs <-
        (if negb (bool_decide (d_type bd0 = DIFF_MATCH))
            && ((off (section doc1) =? 0) || (off (section doc2) =? 0))
         then insertBlankLines doc1 doc2
         else ret (doc1, doc2)) ;;
      let doc1 := fst docs in
      let doc2 := snd docs in
      let blockDiffs :=
        if negb (off (section doc1) =? 0) || negb (off (section doc2) =? 0)
        then rebase doc1 doc2 blockDiffs else blockDiffs in
      pairPhase doc1 doc2 selectionCompare settings blockDiffSize blockDiffs alignmentInfo
  end.

(** [runCompare] once both documents are hashed (lines 956-970): the
    longer sequence first, the line-level diff, the early MATCH; then the
    rest. *)
Definition diffPhase (doc1 doc2 : DocCmpInfo) (selectionCompare : bool)
    (settings : UserSettings) (doc1LineHashes doc2LineHashes : list Z)
    (alignmentInfo : list AlignmentPair) : M (CompareResult * list AlignmentPair) :=
  let '(pLineHashes1, pLineHashes2, doc1, doc2) :=
    if vsize doc1LineHashes <? vsize doc2LineHashes
    then (doc2LineHashes, doc1LineHashes, doc2, doc1)
    else (doc1LineHashes, doc2LineHashes, doc1, doc2) in
  let blockDiffs := map toBlock (DiffCalc pLineHashes1 pLineHashes2) in
  if isSingleMatchBlock blockDiffs then ret (COMPARE_MATCH, alignmentInfo)
  else movesPhase doc1 doc2 selectionCompare settings pLineHashes1 pLineHashes2
                  blockDiffs alignmentInfo.

Definition paintMask1 (settings : UserSettings) : Z :=
  if bool_decide (OldFileViewId settings = MAIN_VIEW)
  then MARKER_MASK_REMOVED else MARKER_MASK_ADDED.

Definition paintMask2 (settings : UserSettings) : Z :=
  if bool_decide (OldFileViewId settings = MAIN_VIEW)
  then MARKER_MASK_ADDED else MARKER_MASK_REMOVED.

(** [runCompare]: the result and the alignment table.  The body is cut in
    phases: the hashing of the two documents here, then [diffPhase],
    [movesPhase] and [pairPhase]. *)
Definition runCompare (mainViewSection subViewSection : section_t)
    (settings : UserSettings) (alignmentInfo : list AlignmentPair)
    : M (CompareResult * list AlignmentPair) :=
  let doc1 := mkDoc MAIN_VIEW mainViewSection (paintMask1 settings) in
  let doc2 := mkDoc SUB_VIEW subViewSection (paintMask2 settings) in
  let selectionCompare :=
    negb (len (section doc1) =? 0) || negb (len (section doc2) =? 0) in
  r1 <- computeLineHashes doc1 settings ;;
  let doc1LineHashes := fst r1 in
  let doc1 := snd r1 in
  stop <- cancelled NextPhase ;;
  if stop then ret (COMPARE_CANCELLED, alignmentInfo) else
  r2 <- computeLineHashes doc2 settings ;;
  let doc2LineHashes := fst r2 in
  let doc2 := snd r2 in
  stop <- cancelled NextPhase ;;
  if stop then ret (COMPARE_CANCELLED, alignmentInfo) else
  diffPhase doc1 doc2 selectionCompare settings doc1LineHashes doc2LineHashes alignmentInfo.

(** ** FindUnique *)

(** The loop building a map from line hash to line indices. *)
Fixpoint uniqueLines (lineHashes : list Z) (i : Z) (m : gmap Z (list Z)) : gmap Z (list Z) :=
  match lineHashes with
  | [] => m
  | h :: rest =>
      uniqueLines rest (i + 1)
        (match m !! h with
         | None => <[h := [i]]> m
         | Some ls => <[h := ls ++ [i]]> m
         end)
  end.

(** The loop over [doc1UniqueLines]; the state is [doc2UniqueLines] and
    [doc1UniqueLinesCount].  The iteration order of an unordered map is
    unspecified; the entries are taken in the order of [map_to_list]. *)
Fixpoint uniqueLoop (entries : list (Z * list Z)) (doc1 : DocCmpInfo)
    (doc2UniqueLines : gmap Z (list Z)) (doc1UniqueLinesCount : Z)
    : M (gmap Z (list Z) * Z) :=
  match entries with
  | [] => ret (doc2UniqueLines, doc1UniqueLinesCount)
  | e :: rest =>
      match doc2UniqueLines !! fst e with
      | Some _ => uniqueLoop rest doc1 (delete (fst e) doc2UniqueLines) doc1UniqueLinesCount
      | None =>
          forEach (snd e)
            (fun ln => addMarker (view doc1) (ln + off (section doc1)) (blockDiffMask doc1)) ;;;
          uniqueLoop rest doc1 doc2UniqueLines (doc1UniqueLinesCount + vsize (snd e))
      end
  end.

(** [runFindUnique] once both documents are hashed (lines 1084-1154). *)
Definition uniquePhase (doc1 doc2 : DocCmpInfo) (mainViewSection subViewSection : section_t)
    (doc1LineHashes doc2LineHashes : list Z) (alignmentInfo : list AlignmentPair)
    : M (CompareResult * list AlignmentPair) :=
  let doc1UniqueLines := uniqueLines doc1LineHashes 0 ∅ in
  stop <- cancelled NextPhase ;;
  if stop then ret (COMPARE_CANCELLED, alignmentInfo) else
  let doc2UniqueLines := uniqueLines doc2LineHashes 0 ∅ in
  stop <- cancelled NextPhase ;;
  if stop then ret (COMPARE_CANCELLED, alignmentInfo) else
  r <- uniqueLoop (map_to_list doc1UniqueLines) doc1 doc2UniqueLines 0 ;;
  let doc2UniqueLines := fst r in
  let doc1UniqueLinesCount := snd r in
  if (doc1UniqueLinesCount =? 0) && bool_decide (doc2UniqueLines = ∅)
  then ret (COMPARE_MATCH, alignmentInfo)
  else
    forEach (map_to_list doc2UniqueLines)
      (fun uniqueLine =>
         forEach (snd uniqueLine)
           (fun ln => addMarker (view doc2) (ln + off (section doc2)) (blockDiffMask doc2))) ;;;
    let align := mkAlignPair (mkAlignData (off mainViewSection) 0)
                             (mkAlignData (off subViewSection) 0) in
    ret (COMPARE_MISMATCH, alignmentInfo ++ [align]).

(** [runFindUnique]: the hashing of the two documents, then [uniquePhase]. *)
Definition runFindUnique (mainViewSection subViewSection : section_t)
    (settings : UserSettings) (alignmentInfo : list AlignmentPair)
    : M (CompareResult * list AlignmentPair) :=
  let alignmentInfo : list AlignmentPair := [] in
  let doc1 := mkDoc MAIN_VIEW mainViewSection (paintMask1 settings) in
  let doc2 := mkDoc SUB_VIEW subViewSection (paintMask2 settings) in
  r1 <- computeLineHashes doc1 settings ;;
  let doc1LineHashes := fst r1 in
  let doc1 := snd r1 in
  stop <- cancelled NextPhase ;;
  if stop then ret (COMPARE_CANCELLED, alignmentInfo) else
  r2 <- computeLineHashes doc2 settings ;;
  let doc2LineHashes := fst r2 in
  let doc2 := snd r2 in
  stop <- cancelled NextPhase ;;
  if stop then ret (COMPARE_CANCELLED, alignmentInfo) else
  uniquePhase doc1 doc2 mainViewSection subViewSection doc1LineHashes doc2LineHashes
              alignmentInfo.

(** ** Entry point *)

(** [_snprintf_s(msg, 128, _TRUNCATE, "Exception occurred: %s", what)]. *)
Definition exceptionMessage (what : string) : string :=
  String.substring 0 127 (String.append "Exception occurred: " what).

(** [compareViews]; [progressInfo] tells whether a progress title was
    given.  When the run throws, the alignment table is as the run left
    it: cleared by [runFindUnique], untouched by [runCompare]. *)
Definition compareViews (mainViewSection subViewSection : section_t) (findUniqueMode : bool)
    (settings : UserSettings) (progressInfo : bool) (alignmentInfo : list AlignmentPair)
    : M (CompareResult * list AlignmentPair) :=
  let result := COMPARE_ERROR in
  (if progressInfo then ProgressDlg_Open else ret tt) ;;;
  fun w =>
    match (if findUniqueMode
           then runFindUnique mainViewSection subViewSection settings alignmentInfo
           else runCompare mainViewSection subViewSection settings alignmentInfo) w with
    | Ok r w => (ProgressDlg_Close ;;; ret r) w
    | Throw (std_exception what) w =>
        (ProgressDlg_Close ;;; MessageBoxA (exceptionMessage what) ;;;
         ret (result, if findUniqueMode then [] else alignmentInfo)) w
    | Throw unknown_exception w =>
        (ProgressDlg_Close ;;; MessageBoxA "Unknown exception occurred." ;;;
         ret (result, if findUniqueMode then [] else alignmentInfo)) w
    | Undefined => Undefined
    | OutOfFuel => OutOfFuel
    end.
End Orchestrator.

(** ** A diff engine to run the engine on concrete documents *)

Inductive edit := Keep | InA | InB.

#[global] Instance edit_eq_dec : EqDecision edit.
Proof. solve_decision. Defined.

Definition keeps (s : list edit) : Z :=
  vsize (filter (fun e => e = Keep) s).

(** A longest common subsequence of [a] and [b] as an edit script. *)
Fixpoint editScript (a : list Z) : list Z -> list edit :=
  match a with
  | [] => fun b => map (fun _ => InB) b
  | x :: a' =>
      fix inner (b : list Z) : list edit :=
        match b with
        | [] => map (fun _ => InA) (x :: a')
        | y :: b' =>
            if x =? y then Keep :: editScript a' b'
            else
              let s1 := InA :: editScript a' (y :: b') in
              let s2 := InB :: inner b' in
              if keeps s1 <? keeps s2 then s2 else s1
        end
  end.

(** The spans of an edit script: runs are merged, and where elements of A
    are replaced by elements of B the IN_A span precedes the IN_B span.
    [ia] and [ib] are the positions reached, [k] the length of the pending
    run of matches, [na] and [nb] the pending counts of a replacement. *)
Definition flushKeep (ia k : Z) : list span :=
  if 0 <? k then [mkSpan DIFF_MATCH (ia - k) k] else [].

Definition flushDiff (ia ib na nb : Z) : list span :=
  (if 0 <? na then [mkSpan DIFF_IN_1 (ia - na) na] else [])
  ++ (if 0 <? nb then [mkSpan DIFF_IN_2 (ib - nb) nb] else []).

Fixpoint spansOf (s : list edit) (ia ib k na nb : Z) : list span :=
  match s with
  | [] => flushKeep ia k ++ flushDiff ia ib na nb
  | Keep :: s' => flushDiff ia ib na nb ++ spansOf s' (ia + 1) (ib + 1) (k + 1) 0 0
  | InA :: s' => flushKeep ia k ++ spansOf s' (ia + 1) ib 0 (na + 1) nb
  | InB :: s' => flushKeep ia k ++ spansOf s' ia (ib + 1) 0 na (nb + 1)
  end.

(** Modelled from the spec: [DiffCalc] (diff.h) is a longest common
    subsequence engine returning a flat list of MATCH / IN_A / IN_B spans
    with merged runs, IN_A before IN_B at a replacement. *)
Definition lcsDiff (a b : list Z) : list span :=
  spansOf (editScript a b) 0 0 0 0 0.

(** * Vocabulary of the specification *)

(** The [ln]-th line of a document, without its line end. *)
Definition docLine (d : SciDoc) (ln : Z) : list byte :=
  vget_d [] (splitLines (sciText d)) ln.

(** ** Words as runs of one class *)

(** The words tile the bytes from [p] to [e]: each is not empty and starts
    where the one before ends. *)
Fixpoint tiles (p : Z) (ws : list Word) (e : Z) : Prop :=
  match ws with
  | [] => p = e
  | w :: ws' => w_pos w = p /\ 0 < w_length w /\ tiles (p + w_length w) ws' e
  end.

(** Every byte of the word has the class of the word. *)
Definition sameClass (text : list byte) (w : Word) : Prop :=
  forall i, w_pos w <= i < w_pos w + w_length w ->
            getCharType <$> vget text i = Some (w_type w).

(** Neighbouring words have different classes: the runs are maximal. *)
Fixpoint neighboursDiffer (ws : list Word) : Prop :=
  match ws with
  | w1 :: ((w2 :: _) as rest) => w_type w1 <> w_type w2 /\ neighboursDiffer rest
  | _ => True
  end.

Definition keepingSpaces (settings : UserSettings) : UserSettings :=
  mkSettings (OldFileViewId settings) (DetectMoves settings) false (IgnoreCase settings).

Definition notSpace (w : Word) : Prop := w_type w <> SPACECHAR.

#[global] Instance notSpace_dec w : Decision (notSpace w).
Proof. unfold notSpace. apply _. Defined.

(** ** Runs of the engine *)

(** The user does not cancel: there is no progress dialog, or all its
    coming answers are [true]. *)
Definition noCancel (w : World) : Prop :=
  progress w = None \/ Forall (fun a => a = true) (answers w).

(** The second world differs from the first at most in the progress dialog
    and the answers used up. *)
Definition quiet (w w' : World) : Prop :=
  mainDoc w' = mainDoc w /\ subDoc w' = subDoc w /\ messages w' = messages w
  /\ (is_Some (progress w') <-> is_Some (progress w))
  /\ (noCancel w -> noCancel w').

(** ** Line hashing *)

(** The hash of line [ln] of a document. *)
Definition lineHashOf (settings : UserSettings) (d : SciDoc) (ln : Z) : Z :=
  hashDocLine settings d ln cHashSeed.

(** The length of the compared section once [computeLineHashes] has
    completed it from the line count. *)
Definition sectionLen (d : SciDoc) (s : section_t) : Z :=
  let lineCount := if SCI_GETLENGTH d =? 0 then 0 else SCI_GETLINECOUNT d in
  if (len s <=? 0) || (lineCount <? off s + len s) then lineCount - off s else len s.

(** The hashes of all the lines of the section, before any trimming. *)
Definition sectionHashes (settings : UserSettings) (d : SciDoc) (s : section_t) : list Z :=
  map (fun k => lineHashOf settings d (k + off s)) (zrange (sectionLen d s)).

(** The last line of the section is blank: it hashes to the seed. *)
Definition lastIsBlank (hashes : list Z) : bool :=
  match last hashes with
  | Some h => h =? cHashSeed
  | None => false
  end.

(** The hashes with a blank last line left out. *)
Definition trimLast (hashes : list Z) : list Z :=
  if lastIsBlank hashes then removelast hashes else hashes.

(** The document record after hashing: its section length is the number of
    hashes kept. *)
Definition hashedDoc (settings : UserSettings) (d : SciDoc) (doc : DocCmpInfo) : DocCmpInfo :=
  setLen doc (if lastIsBlank (sectionHashes settings d (section doc))
              then sectionLen d (section doc) - 1 else sectionLen d (section doc)).

(** ** Committed runs *)

(** A block with entries appended to its matches. *)
Definition withMatches (bd : diffInfo) (new : list (section_t * bool)) : diffInfo :=
  mkDiff (d_type bd) (d_off bd) (d_len bd)
         (mkBlockInfo (matchBlock (info bd)) (changedLines (info bd)) (matches (info bd) ++ new)).

(** The offsets recorded for block [i] in a list of anchors. *)
Definition offsetsFor (i : nat) (ms : list (nat * Z)) : list Z :=
  map snd (filter (fun m => fst m = i) ms).

(** The entries a committed run appends to block [i]: one for the run
    itself if [i] is the best block, one for each IN_A alternate source and
    one for each IN_B target recorded in block [i]; all carry the length of
    the run and the same moved flag. *)
Definition runEntries (i bestMatchDiff : nat) (best_mi : MatchInfo) : list (section_t * bool) :=
  map (fun o => (mkSection o (len (sec best_mi)), isMovedFlag best_mi))
      ((if bool_decide (i = bestMatchDiff) then [off (sec best_mi)] else [])
       ++ offsetsFor i (matchesIn1 best_mi) ++ offsetsFor i (matchesIn2 best_mi)).

Definition commitRuns (blockDiffs : list diffInfo) (runs : list (nat * MatchInfo))
    : list diffInfo :=
  fold_left (fun bs r => commitMatch bs (fst r) (snd r)) runs blockDiffs.

(** The document is as before but for the marks set on it. *)
Definition sameButMarks (d d' : SciDoc) : Prop :=
  sciText d' = sciText d /\ sciModified d' = sciModified d /\ sciReadOnly d' = sciReadOnly d.

(** The second world differs from the first at most in the marks set on
    the documents, in the progress dialog and in the answers used up. *)
Definition calm (w w' : World) : Prop :=
  sameButMarks (mainDoc w) (mainDoc w') /\ sameButMarks (subDoc w) (subDoc w')
  /\ messages w' = messages w
  /\ (is_Some (progress w') <-> is_Some (progress w))
  /\ (noCancel w -> noCancel w').

(** ** FindUnique and blank lines *)

(** The reading of the specification: lines whose hash is the seed are
    left out of the map when, and only when, IgnoreSpaces is set. *)
Definition blankLinesOmittedIff (settings : UserSettings) (hashes : list Z) : Prop :=
  IgnoreSpaces settings = true <-> uniqueLines hashes 0 ∅ !! cHashSeed = None.

(** Documents and worlds for examples: the lines of a document joined by LF. *)
Definition textOf (lines : list string) : list byte :=
  list_byte_of_string (String.concat (String (Ascii.ascii_of_nat 10) EmptyString) lines).

Definition docOfLines (lines : list string) : SciDoc :=
  mkSci (textOf lines) false false [] [].

Definition worldOf (mainLines subLines : list string) : World :=
  mkWorld (docOfLines mainLines) (docOfLines subLines) None [] [].

Definition wholeDoc : section_t := mkSection 0 0.

(** ** Convergence and the mapping search, in the words of the specification *)

Section Similarity.
Variable DiffCalc : list Z -> list Z -> list span.

(** The convergence of two lines: the better of the words matched and of
    the bytes matched, each as a percentage of the longer line (integer
    division, truncating as in C++). *)
Definition claimedConvergence (words1 words2 : list Word) : Z :=
  let '(longer, shorter) :=
    if vsize words1 <? vsize words2 then (words2, words1) else (words1, words2) in
  let linesDiff := wordsDiff DiffCalc longer shorter in
  let '(wordsMatched, bytesMatched) := matchedCounts longer linesDiff in
  Z.max (Z.quot (wordsMatched * 100) (vsize longer))
        (Z.quot (bytesMatched * 100) (Z.max (lineLen words1) (lineLen words2))).
End Similarity.

(** Candidate order: score descending, then line a ascending, then line b
    ascending. *)
Definition keyBefore (x y : conv_key) : Prop :=
  convergence y < convergence x
  \/ (convergence x = convergence y
      /\ (line1 x < line1 y \/ (line1 x = line1 y /\ line2 x < line2 y))).

(** Greedy acceptance: a triple is accepted when neither its a nor its b
    is used by a triple accepted before; the search stops when either side
    is fully mapped or the list ends. *)
Fixpoint greedyAccept (n1 n2 : Z) (ocs accepted : list conv_key) : list conv_key :=
  match ocs with
  | [] => accepted
  | oc :: rest =>
      if bool_decide (line1 oc ∉ map line1 accepted)
         && bool_decide (line2 oc ∉ map line2 accepted)
      then
        let accepted := accepted ++ [oc] in
        if bool_decide (vsize accepted = n1 \/ vsize accepted = n2) then accepted
        else greedyAccept n1 n2 rest accepted
      else greedyAccept n1 n2 rest accepted
  end.


Definition sumZ (l : list Z) : Z := fold_right Z.add 0 l.


Definition keyAscending (lm : list (Z * (Z * Z))) : Prop :=
  StronglySorted (fun x y => fst x < fst y) lm.

(** A candidate: lines inside the two blocks, convergence at least 50. *)
Definition candidate (n1 n2 : Z) (oc : conv_key) : Prop :=
  0 <= line1 oc < n1 /\ 0 <= line2 oc < n2 /\ 50 <= convergence oc.

(** The flags of the lines mapped so far. *)
Definition flagsOf (n : Z) (used : list Z) (flags : list bool) : Prop :=
  vsize flags = n /\ forall a, 0 <= a < n -> (vget_d false flags a = true <-> a ∈ used).

(** The mapping holds exactly the accepted triples. *)
Definition sameTriples (lm : list (Z * (Z * Z))) (accepted : list conv_key) : Prop :=
  forall a c b, (a, (c, b)) ∈ lm <-> mkConv c a b ∈ accepted.

(** ** Changed lines of paired blocks *)

(** A block with entries appended to its changed lines. *)
Definition withChanged (bd : diffInfo) (new : list diffLine) : diffInfo :=
  mkDiff (d_type bd) (d_off bd) (d_len bd)
         (mkBlockInfo (matchBlock (info bd)) (changedLines (info bd) ++ new) (matches (info bd))).

Definition changedLineNumbers (bd : diffInfo) : list Z := map line (changedLines (info bd)).

Definition strictlyAscending (l : list Z) : Prop := StronglySorted Z.lt l.

(** The changed lines of two blocks are aligned: as many on both sides,
    strictly ascending on both sides, and the k-th of one with the k-th of
    the other is a pair of lines of the mapping. *)
Definition alignedBy (lm : list (Z * (Z * Z))) (bd1 bd2 : diffInfo) : Prop :=
  length (changedLines (info bd1)) = length (changedLines (info bd2))
  /\ strictlyAscending (changedLineNumbers bd1)
  /\ strictlyAscending (changedLineNumbers bd2)
  /\ forall k l1 l2,
       changedLineNumbers bd1 !! k = Some l1 -> changedLineNumbers bd2 !! k = Some l2 ->
       exists c, (l1, (c, l2)) ∈ lm.

(** A block as the line-level diff leaves it: no partner, no changed line. *)
Definition unpaired (bd : diffInfo) : Prop :=
  matchBlock (info bd) = None /\ changedLines (info bd) = [].

(** The line mapping [compareBlocks] computes for two blocks, from the
    words of their lines: the best of the mappings of lines of the first
    block to lines of the second. *)
Definition blockMapping (DiffCalc : list Z -> list Z -> list span) (d1 d2 : SciDoc)
    (settings : UserSettings) (blockDiff1 blockDiff2 : diffInfo) : list (Z * (Z * Z)) :=
  let chunk1 := getWords (d_off blockDiff1) (d_len blockDiff1) d1 settings in
  let chunk2 := getWords (d_off blockDiff2) (d_len blockDiff2) d2 settings in
  bestLineMappings (vsize chunk1) (vsize chunk2)
    (orderedLinesConvergence DiffCalc chunk1 chunk2 blockDiff1 blockDiff2).

(** Blocks [j] and [k] of the list are partners: each points to the other,
    the IN_A block comes right before the IN_B block, and their changed
    lines are aligned by the line mapping of the two blocks, the IN_A block
    first, over the documents [d1] and [d2]. *)
Definition partners (DiffCalc : list Z -> list Z -> list span) (d1 d2 : SciDoc)
    (settings : UserSettings) (blockDiffs : list diffInfo) (j k : nat) : Prop :=
  exists bj bk,
    blockDiffs !! j = Some bj /\ blockDiffs !! k = Some bk
    /\ matchBlock (info bj) = Some k /\ matchBlock (info bk) = Some j
    /\ ((k = S j /\ d_type bj = DIFF_IN_1 /\ d_type bk = DIFF_IN_2
         /\ alignedBy (blockMapping DiffCalc d1 d2 settings bj bk) bj bk)
        \/ (j = S k /\ d_type bk = DIFF_IN_1 /\ d_type bj = DIFF_IN_2
            /\ alignedBy (blockMapping DiffCalc d1 d2 settings bk bj) bk bj)).

(** The blocks from index [i] on, and an IN_A block right before [i], are
    still as the line-level diff left them. *)
Definition unpairedFrom (blockDiffs : list diffInfo) (i : nat) : Prop :=
  forall j bj, blockDiffs !! j = Some bj ->
               (i <= j)%nat \/ (S j = i /\ d_type bj = DIFF_IN_1) -> unpaired bj.

(** Every block that has a partner is paired with it. *)
Definition allPartners (DiffCalc : list Z -> list Z -> list span) (d1 d2 : SciDoc)
    (settings : UserSettings) (blockDiffs : list diffInfo) : Prop :=
  forall j bj k, blockDiffs !! j = Some bj -> matchBlock (info bj) = Some k ->
                 partners DiffCalc d1 d2 settings blockDiffs j k.

(** ** Effects of the marking and of the orchestrator *)

(** The computation always returns, and changes the world at most in the
    marks, the progress dialog and the answers used up. *)
Definition okCalm {A} (m : M A) : Prop :=
  forall w, exists a w', m w = Ok a w' /\ calm w w'.

(** The document with a blank line inserted at its beginning: one LF before
    its text, everything else (the save-point state too) as before. *)
Definition withBlankLine (d : SciDoc) : SciDoc :=
  mkSci (LF :: sciText d) (sciModified d) (sciReadOnly d) (sciMarkers d) (sciChanged d).

(** The hashing of the two documents that opens [runCompare] and
    [runFindUnique]: the hashes and the document records, or [None] when the
    user cancels. *)
Definition hashing (mainViewSection subViewSection : section_t) (settings : UserSettings)
    : M (option (list Z * DocCmpInfo * (list Z * DocCmpInfo))) :=
  let doc1 := mkDoc MAIN_VIEW mainViewSection (paintMask1 settings) in
  let doc2 := mkDoc SUB_VIEW subViewSection (paintMask2 settings) in
  r1 <- computeLineHashes doc1 settings ;;
  stop <- cancelled NextPhase ;;
  if stop then ret None else
  r2 <- computeLineHashes doc2 settings ;;
  stop <- cancelled NextPhase ;;
  if stop then ret None else ret (Some (r1, r2)).

(** The line-level diff of two hash sequences: the longer sequence first. *)
Definition lineDiff (DiffCalc : list Z -> list Z -> list span) (h1 h2 : list Z) : list span :=
  if vsize h1 <? vsize h2 then DiffCalc h2 h1 else DiffCalc h1 h2.

(** The first block of the diff is not of kind MATCH. *)
Definition firstNotMatch (diff : list span) : bool :=
  match diff with
  | s :: _ => negb (bool_decide (s_type s = DIFF_MATCH))
  | [] => false
  end.

(** The text of both documents is as before. *)
Definition sameTexts (w w' : World) : Prop :=
  sciText (mainDoc w') = sciText (mainDoc w) /\ sciText (subDoc w') = sciText (subDoc w).

(** Both documents got one leading newline, and nothing else in their text
    changed; a document that was unmodified is unmodified again. *)
Definition blankLinesInserted (w w' : World) : Prop :=
  sciText (mainDoc w') = LF :: sciText (mainDoc w)
  /\ sciText (subDoc w') = LF :: sciText (subDoc w)
  /\ sciModified (mainDoc w') = sciModified (mainDoc w)
  /\ sciModified (subDoc w') = sciModified (subDoc w).

(** The world with a blank line inserted at the beginning of both documents. *)
Definition blankWorld (w : World) : World :=
  mkWorld (withBlankLine (mainDoc w)) (withBlankLine (subDoc w))
          (progress w) (answers w) (messages w).

Definition firstNotMatchBlock (blockDiffs : list diffInfo) : bool :=
  match blockDiffs with
  | bd :: _ => negb (bool_decide (d_type bd = DIFF_MATCH))
  | [] => false
  end.

(** The blocks after move detection, when it is enabled and ends. *)
Definition movedBlocks (fuel : nat) (settings : UserSettings) (h1 h2 : list Z)
    (blockDiffs : list diffInfo) : option (list diffInfo) :=
  if DetectMoves settings then findMoves fuel h1 h2 blockDiffs else Some blockDiffs.

(** The workaround applies: the diff starts with a difference and a
    compared section starts at the beginning of its document. *)
Definition needsBlankLines (blockDiffs : list diffInfo) (doc1 doc2 : DocCmpInfo) : bool :=
  firstNotMatchBlock blockDiffs
  && ((off (section doc1) =? 0) || (off (section doc2) =? 0)).

(** The world once the progress dialog is open. *)
Definition openWorld (w : World) : World :=
  mkWorld (mainDoc w) (subDoc w) (Some 0) (answers w) (messages w).

(** The message shown for an exception. *)
Definition messageOf (e : exn) : string :=
  match e with
  | std_exception what => exceptionMessage what
  | unknown_exception => "Unknown exception occurred."
  end.

(** The workaround of [runCompare] applies to a run: its hashing ends, the
    first block of its line-level diff is not a MATCH, and one of the two
    compared sections starts at offset 0. *)
Definition blankLinesNeeded (DiffCalc : list Z -> list Z -> list span)
    (mainViewSection subViewSection : section_t) (settings : UserSettings) (w : World) : Prop :=
  exists r1 r2 w1,
    hashing mainViewSection subViewSection settings w = Ok (Some (r1, r2)) w1
    /\ firstNotMatch (lineDiff DiffCalc (fst r1) (fst r2)) = true
    /\ (off mainViewSection = 0 \/ off subViewSection = 0).

(** ** MoveFinder: the passes its loops need *)

(** The run of [mi] is empty, or it lies in the block and holds the element. *)
Definition runAround (mi : MatchInfo) (ei1 : Z) (diff1 : diffInfo) : Prop :=
  len (sec mi) = 0
  \/ (0 <= off (sec mi) <= ei1 /\ ei1 < off (sec mi) + len (sec mi) <= d_len diff1).

(** The best match held by [findMoves]: its run lies in the best block and
    holds the element, which no match recorded so far covers. *)
Definition bestRun (blockDiffs : list diffInfo) (ei : Z) (bestMatchDiff : nat)
    (best_mi : MatchInfo) : Prop :=
  0 <= off (sec best_mi) <= ei
  /\ ei < off (sec best_mi) + len (sec best_mi) <= d_len (blockAt blockDiffs bestMatchDiff)
  /\ fst (matchedSection (info (blockAt blockDiffs bestMatchDiff)) ei) = 0.

(** The lines of a block that no recorded match covers. *)
Definition unmatchedLines (bd : diffInfo) : list Z :=
  filter (fun l => fst (matchedSection (info bd) l) = 0) (zrange (d_len bd)).

Definition unmatchedCount (blockDiffs : list diffInfo) : Z :=
  sumZ (map (fun bd => vsize (unmatchedLines bd)) blockDiffs).

Definition linesCount (blockDiffs : list diffInfo) : Z :=
  sumZ (map (fun bd => Z.max 0 (d_len bd)) blockDiffs).

(** A number of passes within which every loop of [findMoves] ends: each
    pass of its loop over the elements moves the element forward or commits
    a run that covers a line not covered before. *)
Definition movesBound (blockDiffs : list diffInfo) : Z := 2 * linesCount blockDiffs + 1.

(** ** The bytes behind a hash *)

(** The bytes of a line that take part in its hash: lowercased when
    IgnoreCase is set, without spaces and tabs when IgnoreSpaces is set. *)
Definition hashedBytes (settings : UserSettings) (text : list byte) : list byte :=
  let text := if IgnoreCase settings then toLowerCase text else text in
  if IgnoreSpaces settings then filter (fun c => isSpaceTab c = false) text else text.

(** ** Markers added to a view *)

(** The document with the markers [new] added after those it has. *)
Definition withMarkers (d : SciDoc) (new : list (Z * Z)) : SciDoc :=
  mkSci (sciText d) (sciModified d) (sciReadOnly d) (sciMarkers d ++ new) (sciChanged d).

(** The world after the markers [new] were added to view [v]. *)
Definition marked (w : World) (v : ViewId) (new : list (Z * Z)) : World :=
  setDoc w v (withMarkers (docOf w v) new).

(** ** FindUnique: the lines without counterpart *)

(** The indices of the hashes of [ha] that do not occur in [hb]. *)
Definition uniqueIn (ha hb : list Z) : list Z :=
  filter (fun i => vget_d 0 ha i ∉ hb) (zrange (vsize ha)).

(** The markers set on the lines [lns] of a section at offset [o]. *)
Definition lineMarkers (o mask : Z) (lns : list Z) : list (Z * Z) :=
  map (fun ln => (ln + o, mask)) lns.

(** The entries of a map of document 1 whose hash is no key of the map of
    document 2. *)
Definition residualOf (m2 : gmap Z (list Z)) (entries : list (Z * list Z))
    : list (Z * list Z) :=
  filter (fun e => m2 !! fst e = None) entries.

(** ** What the block compares leave alone *)

(** The part of a block that the line-level diff and the move detection
    fixed: its type, offset, length and recorded matches. *)
Definition frameOf (bd : diffInfo) : diff_type * Z * Z * list (section_t * bool) :=
  (d_type bd, d_off bd, d_len bd, matches (info bd)).

(** ** Words in their line *)

(** The line as the tokenizer reads it: lowercased when IgnoreCase is set. *)
Definition casedLine (settings : UserSettings) (text : list byte) : list byte :=
  if IgnoreCase settings then toLowerCase text else text.

(** The bytes of a word in its line. *)
Definition wordBytes (text : list byte) (w : Word) : list byte :=
  take (Z.to_nat (w_length w)) (drop (Z.to_nat (w_pos w)) text).

(** The words lie between [p] and [e] in ascending order, without overlap;
    none is empty. *)
Fixpoint inOrder (p : Z) (ws : list Word) (e : Z) : Prop :=
  match ws with
  | [] => p <= e
  | w :: ws' => p <= w_pos w /\ 0 < w_length w /\ inOrder (w_pos w + w_length w) ws' e
  end.

(** ** Recorded matches within their blocks *)

(** The anchors lie in blocks of type [t], with room for [n] lines. *)
Definition anchorsIn (blockDiffs : list diffInfo) (t : diff_type) (n : Z)
    (ms : list (nat * Z)) : Prop :=
  Forall (fun m => d_type (blockAt blockDiffs (fst m)) = t
                   /\ 0 <= snd m
                   /\ snd m + n <= d_len (blockAt blockDiffs (fst m))) ms.

(** What [findMatches] holds for element [ei1] of [diff1]: no run, or a run
    around the element, with its targets in IN_B blocks. *)
Definition matchesFound (blockDiffs : list diffInfo) (diff1 : diffInfo) (ei1 : Z)
    (mi : MatchInfo) : Prop :=
  runAround mi ei1 diff1
  /\ matchesIn1 mi = []
  /\ anchorsIn blockDiffs DIFF_IN_2 (len (sec mi)) (matchesIn2 mi).

(** A run as [findMoves] commits it: a section of at least one line within
    an IN_A block, its alternate sources in IN_A blocks and its targets in
    IN_B blocks, all with room for the run. *)
Definition runInRange (blockDiffs : list diffInfo) (bestMatchDiff : nat) (mi : MatchInfo)
    : Prop :=
  d_type (blockAt blockDiffs bestMatchDiff) = DIFF_IN_1
  /\ 0 <= off (sec mi) /\ 1 <= len (sec mi)
  /\ off (sec mi) + len (sec mi) <= d_len (blockAt blockDiffs bestMatchDiff)
  /\ anchorsIn blockDiffs DIFF_IN_1 (len (sec mi)) (matchesIn1 mi)
  /\ anchorsIn blockDiffs DIFF_IN_2 (len (sec mi)) (matchesIn2 mi).

(** The recorded matches of a block lie within it, each of at least one
    line; a MATCH block has none. *)
Definition matchesInRange (bd : diffInfo) : Prop :=
  (d_type bd = DIFF_MATCH -> matches (info bd) = [])
  /\ Forall (fun m => 0 <= off (fst m) /\ 1 <= len (fst m)
                      /\ off (fst m) + len (fst m) <= d_len bd) (matches (info bd)).

(** ** Markers by view *)

(** The masks the marking sets on the lines of a document whose block mask
    is [blockMask]: the block mask, its local variant, the four masks of
    moved lines, and the mask of changed lines. *)
Definition markFamily (blockMask : Z) : list Z :=
  [blockMask;
   (if blockMask =? MARKER_MASK_ADDED
    then MARKER_MASK_ADDED_LOCAL else MARKER_MASK_REMOVED_LOCAL);
   MARKER_MASK_MOVED_LINE; MARKER_MASK_MOVED_BEGIN; MARKER_MASK_MOVED_MID;
   MARKER_MASK_MOVED_END; MARKER_MASK_CHANGED].

(** The block mask of a view in a run. *)
Definition paintMask (settings : UserSettings) (v : ViewId) : Z :=
  match v with MAIN_VIEW => paintMask1 settings | SUB_VIEW => paintMask2 settings end.

(** The markers set on each view in the second world are those set in the
    first, followed by new ones whose masks satisfy [P] for the view. *)
Definition marksAdded (P : ViewId -> Z -> Prop) (w w' : World) : Prop :=
  forall v, exists new,
    sciMarkers (docOf w' v) = sciMarkers (docOf w v) ++ new
    /\ Forall (fun e => P v (snd e)) new.

(** Whenever the computation returns, it has only added such markers, and
    its result satisfies [Q]. *)
Definition addsMarks {A} (P : ViewId -> Z -> Prop) (Q : A -> Prop) (m : M A) : Prop :=
  forall w a w', m w = Ok a w' -> marksAdded P w w' /\ Q a.

(** [P] allows, on the view of the document, the masks of its family. *)
Definition goodDoc (P : ViewId -> Z -> Prop) (doc : DocCmpInfo) : Prop :=
  forall m, m ∈ markFamily (blockDiffMask doc) -> P (view doc) m.

(** ** The alignment table *)

(** The lines a block takes in the first and in the second document. *)
Definition linesIn1 (bd : diffInfo) : Z :=
  if bool_decide (d_type bd = DIFF_IN_2) then 0 else d_len bd.

Definition linesIn2 (bd : diffInfo) : Z :=
  if bool_decide (d_type bd = DIFF_IN_1) then 0 else d_len bd.

(** A row of the table, made of the half of the first document and the half
    of the second: the half of the main view comes first. *)
Definition alignRow (doc1 : DocCmpInfo) (p1 p2 : AlignmentViewData) : AlignmentPair :=
  if bool_decide (view doc1 = SUB_VIEW) then mkAlignPair p2 p1 else mkAlignPair p1 p2.

(** The row of block [i] of blocks without partners: in each document the
    line where the block starts, which is the section offset plus the lines
    the blocks before it take in the document, and the block mask of the
    document when the block lies in it alone.  For [i] the number of blocks
    this is the row of the end of the compared sections. *)
Definition blockRow (doc1 doc2 : DocCmpInfo) (blockDiffs : list diffInfo) (i : nat)
    : AlignmentPair :=
  let bd := blockAt blockDiffs i in
  alignRow doc1
    (mkAlignData (off (section doc1) + sumZ (map linesIn1 (take i blockDiffs)))
                 (if bool_decide (d_type bd = DIFF_IN_1) then blockDiffMask doc1 else 0))
    (mkAlignData (off (section doc2) + sumZ (map linesIn2 (take i blockDiffs)))
                 (if bool_decide (d_type bd = DIFF_IN_2) then blockDiffMask doc2 else 0)).

(** The state of [markAllDiffs] before block [i] of blocks without
    partners. *)
Definition markedUpTo (doc1 doc2 : DocCmpInfo) (blockDiffs : list diffInfo) (i : nat)
    (st : MarkState) : Prop :=
  view (m_doc1 st) = view doc1
  /\ blockDiffMask (m_doc1 st) = blockDiffMask doc1
  /\ blockDiffMask (m_doc2 st) = blockDiffMask doc2
  /\ a_line (pMainAlignData st)
     = off (section doc1) + sumZ (map linesIn1 (take i blockDiffs))
  /\ a_line (pSubAlignData st)
     = off (section doc2) + sumZ (map linesIn2 (take i blockDiffs))
  /\ alignmentInfo st = map (blockRow doc1 doc2 blockDiffs) (seq 0 i).

(** ** Concrete inputs for the examples *)

Definition settings0 : UserSettings := mkSettings MAIN_VIEW true false false.

(** The hash sequences of A = [a; b; c; d; e] and B = [a; d; e; b; c]. *)
Definition hashesA : list Z := [10; 20; 30; 40; 50].
Definition hashesB : list Z := [10; 40; 50; 20; 30].

Definition blockIn1 (n : Z) : diffInfo := mkDiff DIFF_IN_1 0 n emptyInfo.
Definition blockIn2 (n : Z) : diffInfo := mkDiff DIFF_IN_2 0 n emptyInfo.

(** The blocks of the line-level diff of A and B: b and c are deleted from
    A after a, d and e match, b and c are inserted at the end of B. *)
Definition blocksAB : list diffInfo :=
  [mkDiff DIFF_MATCH 0 1 emptyInfo; mkDiff DIFF_IN_1 1 2 emptyInfo;
   mkDiff DIFF_MATCH 3 2 emptyInfo; mkDiff DIFF_IN_2 3 2 emptyInfo].

(** * Properties of the engine *)

(** ** Vectors, ranges and lines *)

Lemma vsize_nonneg {A} (v : list A) : 0 <= vsize v.
Proof. unfold vsize. lia. Qed.

Lemma vsize_app {A} (u v : list A) : vsize (u ++ v) = vsize u + vsize v.
Proof. unfold vsize. rewrite length_app. lia. Qed.

Lemma vsize_cons {A} (x : A) (v : list A) : vsize (x :: v) = 1 + vsize v.
Proof. unfold vsize. simpl length. lia. Qed.

Lemma vget_Some_lt {A} (v : list A) i x : vget v i = Some x -> 0 <= i < vsize v.
Proof.
  unfold vget, vsize. destruct (Z.ltb_spec i 0) as [|Hi]; [discriminate|].
  intros Hl. apply lookup_lt_Some in Hl. lia.
Qed.

Lemma vget_lt_is_Some {A} (v : list A) i : 0 <= i < vsize v -> is_Some (vget v i).
Proof.
  unfold vget, vsize. intros Hi. destruct (Z.ltb_spec i 0); [lia|].
  apply lookup_lt_is_Some. lia.
Qed.

Lemma vget_of_nat {A} (v : list A) (n : nat) : vget v (Z.of_nat n) = v !! n.
Proof.
  unfold vget. destruct (Z.ltb_spec (Z.of_nat n) 0); [lia|].
  by rewrite Nat2Z.id.
Qed.

Lemma vget_app_l {A} (u v : list A) i : 0 <= i < vsize u -> vget (u ++ v) i = vget u i.
Proof.
  unfold vget, vsize. intros Hi. destruct (Z.ltb_spec i 0); [lia|].
  apply lookup_app_l. lia.
Qed.

Lemma vget_app_r {A} (u v : list A) i : vsize u <= i -> vget (u ++ v) i = vget v (i - vsize u).
Proof.
  unfold vget, vsize. intros Hi.
  destruct (Z.ltb_spec i 0); [lia|]. destruct (Z.ltb_spec (i - Z.of_nat (length u)) 0); [lia|].
  rewrite lookup_app_r by lia. f_equal. lia.
Qed.

Lemma zrange_length n : length (zrange n) = Z.to_nat n.
Proof. unfold zrange. by rewrite length_map, length_seq. Qed.

Lemma elem_of_zrange n i : i ∈ zrange n <-> 0 <= i < n.
Proof.
  unfold zrange. rewrite list_elem_of_fmap. split.
  - intros (k & -> & Hk). apply elem_of_seq in Hk. lia.
  - intros Hi. exists (Z.to_nat i). split; [lia|]. apply elem_of_seq. lia.
Qed.

Lemma zrange_lookup n (k : nat) : (k < Z.to_nat n)%nat -> zrange n !! k = Some (Z.of_nat k).
Proof.
  intros Hk. unfold zrange. rewrite list_lookup_fmap, lookup_seq_lt by done. done.
Qed.

(** The text of a document is its lines joined by LF. *)
Lemma splitLines_cons text :
  exists l ls, splitLines text = l :: ls.
Proof.
  destruct text as [|c rest]; simpl; [by eexists _, _|].
  destruct (Byte.eqb c LF); [by eexists _, _|].
  destruct (splitLines rest); by eexists _, _.
Qed.

Lemma splitLines_inv text l ls :
  splitLines text = l :: ls ->
  (ls = [] /\ text = l) \/ (exists rest, text = l ++ LF :: rest /\ splitLines rest = ls).
Proof.
  revert l ls. induction text as [|c rest IH]; intros l ls; simpl.
  - intros [= <- <-]. by left.
  - destruct (Byte.eqb c LF) eqn:Hc.
    + intros [= <- <-]. right. exists rest.
      apply Byte.byte_dec_bl in Hc. by subst.
    + destruct (splitLines rest) as [|l' ls'] eqn:Hs.
      { destruct (splitLines_cons rest) as (? & ? & ?). congruence. }
      intros [= <- <-]. destruct (IH _ _ eq_refl) as [[-> ->]|(r & -> & Hr)].
      * by left.
      * right. by exists r.
Qed.

Lemma linesBytes_text n : forall text l,
  splitLines text !! n = Some l ->
  take (length l) (drop (Z.to_nat (linesBytes (splitLines text) n)) text) = l.
Proof.
  induction n as [|n IH]; intros text l.
  - destruct (splitLines text) as [|l0 ls] eqn:Hs; [done|].
    simpl. intros [= ->]. destruct (splitLines_inv _ _ _ Hs) as [[_ ->]|(r & -> & _)].
    + rewrite drop_0. by rewrite firstn_all.
    + rewrite drop_0. by rewrite take_app_length.
  - destruct (splitLines text) as [|l0 ls] eqn:Hs; [done|].
    simpl. intros Hl. destruct (splitLines_inv _ _ _ Hs) as [[-> _]|(r & -> & Hr)]; [done|].
    subst ls. specialize (IH _ _ Hl).
    pose proof (vsize_nonneg l0) as H0. unfold vsize in *.
    assert (0 <= linesBytes (splitLines r) n) as Hn.
    { clear. generalize (splitLines r). induction n; intros [|x xs]; simpl; try lia.
      specialize (IHn xs). unfold vsize. lia. }
    replace (Z.to_nat (Z.of_nat (length l0) + 1 + linesBytes (splitLines r) n))
      with (length l0 + S (Z.to_nat (linesBytes (splitLines r) n)))%nat by lia.
    by rewrite drop_app_add'.
Qed.

Lemma getText_docLine (d : SciDoc) (ln : Z) :
  0 <= ln < SCI_GETLINECOUNT d ->
  getText d (SCI_POSITIONFROMLINE d ln) (SCI_GETLINEENDPOSITION d ln) = docLine d ln ++ [x00].
Proof.
  intros Hln. unfold getText, SCI_POSITIONFROMLINE, SCI_GETLINEENDPOSITION, docLine.
  destruct (Z.ltb_spec ln 0); [lia|]. destruct (Z.ltb_spec (SCI_GETLINECOUNT d) ln); [lia|].
  destruct (Z.leb_spec (SCI_GETLINECOUNT d) ln); [lia|].
  destruct (Z.eqb_spec ln (SCI_GETLINECOUNT d)); [lia|]. simpl.
  destruct (vget_lt_is_Some (splitLines (sciText d)) ln Hln) as [l Hl].
  unfold vget_d. rewrite Hl. simpl. f_equal.
  unfold vget in Hl. destruct (Z.ltb_spec ln 0); [lia|].
  replace (Z.to_nat (_ + vsize l - _)) with (length l) by (unfold vsize; lia).
  by apply linesBytes_text.
Qed.

(** ** Tokenizer *)

Lemma getCharType_lowerByte b : getCharType (lowerByte b) = getCharType b.
Proof. destruct b; reflexivity. Qed.

Lemma getCharType_toLowerCase text :
  map getCharType (toLowerCase text) = map getCharType text.
Proof.
  unfold toLowerCase. rewrite map_map. apply map_ext. apply getCharType_lowerByte.
Qed.

Lemma wordsLoop_filter settings rest : forall i word,
  wordsLoop settings i rest word =
  if IgnoreSpaces settings
  then filter notSpace (wordsLoop (keepingSpaces settings) i rest word)
  else wordsLoop (keepingSpaces settings) i rest word.
Proof.
  assert (Hk : forall w, keepWord (keepingSpaces settings) w = true) by done.
  assert (Hf : forall w, IgnoreSpaces settings = true ->
             (if keepWord settings w then [w] else []) = filter notSpace [w]).
  { intros w Hs. unfold keepWord. rewrite Hs. simpl.
    unfold filter, list_filter, notSpace. destruct (decide (w_type w <> SPACECHAR)) as [Hn|Hn].
    - rewrite bool_decide_eq_false_2 by done. done.
    - rewrite bool_decide_eq_true_2; [done|]. by destruct (decide (w_type w = SPACECHAR)). }
  induction rest as [|c rest IH]; intros i word; cbn [wordsLoop].
  - rewrite Hk. destruct (IgnoreSpaces settings) eqn:Hs; [by apply Hf|].
    unfold keepWord. by rewrite Hs.
  - case_bool_decide.
    + apply IH.
    + rewrite Hk, IH. destruct (IgnoreSpaces settings) eqn:Hs.
      * rewrite filter_app. f_equal. by apply Hf.
      * unfold keepWord. by rewrite Hs.
Qed.

Lemma wordsLoop_runs settings classes rest : forall pre i word,
  IgnoreSpaces settings = false ->
  classes = pre ++ map getCharType rest ->
  i = vsize pre ->
  w_pos word + w_length word = i ->
  0 < w_length word ->
  (forall k, w_pos word <= k < i -> vget classes k = Some (w_type word)) ->
  let ws := wordsLoop settings i rest word in
  tiles (w_pos word) ws (vsize classes)
  /\ Forall (fun w => forall k, w_pos w <= k < w_pos w + w_length w ->
                               vget classes k = Some (w_type w)) ws
  /\ neighboursDiffer ws
  /\ exists w ws', ws = w :: ws' /\ w_type w = w_type word.
Proof.
  induction rest as [|c rest IH]; intros pre i word Hs Hc Hi Hw Hl Hcl; simpl.
  - unfold keepWord. rewrite Hs. simpl. rewrite app_nil_r in Hc. subst classes.
    repeat split; try done; try lia.
    + constructor; [|constructor]. intros k Hk. apply Hcl. lia.
    + by eexists _, _.
  - assert (Hci : vget classes i = Some (getCharType c)).
    { subst classes i. rewrite vget_app_r by lia. by rewrite Z.sub_diag. }
    case_bool_decide as Ht.
    + destruct (IH (pre ++ [getCharType c]) (i + 1)
                  (mkWord (w_type word) (w_line word) (w_pos word) (w_length word + 1)
                          (Hash (w_hash word) c))) as (H1 & H2 & H3 & H4); simpl; try done; try lia.
      * by rewrite <- app_assoc.
      * rewrite vsize_app, vsize_cons. unfold vsize at 2. simpl. lia.
      * intros k Hk. destruct (decide (k = i)) as [->|]; [by rewrite Hci, Ht|]. apply Hcl. lia.
    + unfold keepWord. rewrite Hs. simpl.
      destruct (IH (pre ++ [getCharType c]) (i + 1)
                  (mkWord (getCharType c) (w_line word) i 1 (Hash cHashSeed c)))
        as (H1 & H2 & H3 & (w & ws' & Hws & Hty)); simpl; try done; try lia.
      * by rewrite <- app_assoc.
      * rewrite vsize_app, vsize_cons. unfold vsize at 2. simpl. lia.
      * intros k Hk. by replace k with i by lia.
      * simpl in H1. repeat split; try done.
        -- by rewrite Hw.
        -- constructor; [|done]. intros k Hk. apply Hcl. lia.
        -- rewrite Hws in *. simpl. split; [|done]. rewrite Hty. simpl. congruence.
        -- by eexists _, _.
Qed.

Lemma sameClass_classes text w :
  (forall k, w_pos w <= k < w_pos w + w_length w ->
             vget (map getCharType text) k = Some (w_type w)) ->
  sameClass text w.
Proof.
  intros H k Hk. specialize (H k Hk). unfold vget in *.
  destruct (k <? 0); [done|]. by rewrite list_lookup_fmap in H.
Qed.

(** The words of a line, spaces kept: maximal runs of one class. *)
Lemma lineWords_runs settings lineNum text :
  IgnoreSpaces settings = false ->
  let ws := lineWords settings lineNum (text ++ [x00]) in
  tiles 0 ws (vsize text) /\ Forall (sameClass text) ws /\ neighboursDiffer ws.
Proof.
  intros Hs. unfold lineWords. cbv zeta.
  assert (Hsz : vsize (text ++ [x00]) - 1 = vsize text).
  { rewrite vsize_app. unfold vsize. simpl. lia. }
  rewrite Hsz.
  assert (Htk : forall l : list byte, length l = length text ->
                  take (Z.to_nat (vsize text)) (l ++ [x00]) = l).
  { intros l Hl. unfold vsize. rewrite Nat2Z.id, <- Hl. by rewrite take_app_length. }
  destruct (Z.ltb_spec 0 (vsize text)) as [Hpos|Hz].
  2:{ destruct text; [|unfold vsize in Hz; simpl in Hz; lia]. simpl. by repeat split. }
  set (low := if IgnoreCase settings then toLowerCase (text ++ [x00]) else text ++ [x00]).
  set (t := if IgnoreCase settings then toLowerCase text else text).
  assert (Hlow : take (Z.to_nat (vsize text)) low = t).
  { subst low t. destruct (IgnoreCase settings).
    - unfold toLowerCase. rewrite map_app. apply Htk. by rewrite length_map.
    - by apply Htk. }
  assert (Hcls : map getCharType t = map getCharType text).
  { subst t. destruct (IgnoreCase settings); [apply getCharType_toLowerCase|done]. }
  rewrite Hlow. destruct t as [|c0 rest] eqn:Ht.
  { destruct text; [unfold vsize in Hpos; simpl in Hpos; lia|done]. }
  assert (Hcls' : map getCharType text = [getCharType c0] ++ map getCharType rest).
  { by rewrite <- Hcls. }
  assert (Hk0 : forall k, 0 <= k < 1 -> vget (map getCharType text) k = Some (getCharType c0)).
  { intros k Hk. replace k with 0 by lia. by rewrite Hcls'. }
  destruct (wordsLoop_runs settings (map getCharType text) rest [getCharType c0] 1
              (mkWord (getCharType c0) lineNum 0 1 (Hash cHashSeed c0))
              Hs Hcls' eq_refl eq_refl ltac:(simpl; lia) Hk0)
    as (H1 & H2 & H3 & _).
  simpl in H1. assert (Hvs : vsize (map getCharType text) = vsize text).
  { unfold vsize. by rewrite length_map. }
  rewrite Hvs in H1. repeat split; try done.
  eapply Forall_impl; [exact H2|]. intros w. apply sameClass_classes.
Qed.

Lemma vget_map_zrange {A} (f : Z -> A) n k :
  0 <= k < n -> vget (map f (zrange n)) k = Some (f k).
Proof.
  intros Hk. unfold vget. destruct (Z.ltb_spec k 0); [lia|].
  rewrite list_lookup_fmap, zrange_lookup by lia. simpl. f_equal. f_equal. lia.
Qed.

Lemma isSpaceTab_spec letter :
  isSpaceTab letter = true <-> byteZ letter = 0x20 \/ byteZ letter = 0x09.
Proof. unfold isSpaceTab. rewrite orb_true_iff, !Z.eqb_eq. done. Qed.

Lemma IsCharAlphaNumericA_spec letter :
  IsCharAlphaNumericA letter = true <->
  0x30 <= byteZ letter <= 0x39 \/ 0x41 <= byteZ letter <= 0x5A \/ 0x61 <= byteZ letter <= 0x7A.
Proof.
  unfold IsCharAlphaNumericA. cbv zeta.
  rewrite !orb_true_iff, !andb_true_iff, !Z.leb_le. tauto.
Qed.

Lemma getCharType_spec letter :
  (getCharType letter = SPACECHAR <-> byteZ letter = 0x20 \/ byteZ letter = 0x09)
  /\ (getCharType letter = ALPHANUMCHAR <->
        (0x30 <= byteZ letter <= 0x39 \/ 0x41 <= byteZ letter <= 0x5A
         \/ 0x61 <= byteZ letter <= 0x7A) \/ byteZ letter = 0x5F)
  /\ (getCharType letter = OTHERCHAR <->
        ~ (byteZ letter = 0x20 \/ byteZ letter = 0x09)
        /\ ~ ((0x30 <= byteZ letter <= 0x39 \/ 0x41 <= byteZ letter <= 0x5A
               \/ 0x61 <= byteZ letter <= 0x7A) \/ byteZ letter = 0x5F)).
Proof.
  pose proof (isSpaceTab_spec letter) as Hsp.
  pose proof (IsCharAlphaNumericA_spec letter) as Hal.
  unfold getCharType.
  destruct (isSpaceTab letter) eqn:E1.
  - assert (byteZ letter = 32 \/ byteZ letter = 9) as Hs by (by apply Hsp).
    repeat split; try discriminate; intros; try tauto; try lia.
  - assert (~ (byteZ letter = 32 \/ byteZ letter = 9)) as Hs.
    { intros H. apply Hsp in H. discriminate. }
    destruct (IsCharAlphaNumericA letter) eqn:E2; simpl.
    + assert (Ha := proj1 Hal eq_refl).
      repeat split; try discriminate; intros; try tauto.
    + assert (~ (48 <= byteZ letter <= 57 \/ 65 <= byteZ letter <= 90
                 \/ 97 <= byteZ letter <= 122)) as Ha.
      { intros H. apply Hal in H. discriminate. }
      destruct (Z.eqb_spec (byteZ letter) 95);
        repeat split; try discriminate; intros; try tauto.
Qed.

(** C7: the tokenizer classifies a byte as SPACE exactly when it is 0x20 or
    0x09, as ALNUM exactly when it is an ASCII letter or digit or the
    underscore, as OTHER otherwise; the words of every line of a block are
    the maximal runs of one class of that line (they tile the line, every
    byte of a word has the word's class, neighbouring words differ in
    class), without the SPACE runs when IgnoreSpaces is set. *)
Theorem tokenizer_classes_and_runs :
  (forall letter,
     (getCharType letter = SPACECHAR <-> byteZ letter = 0x20 \/ byteZ letter = 0x09)
     /\ (getCharType letter = ALPHANUMCHAR <->
           (0x30 <= byteZ letter <= 0x39 \/ 0x41 <= byteZ letter <= 0x5A
            \/ 0x61 <= byteZ letter <= 0x7A) \/ byteZ letter = 0x5F)
     /\ (getCharType letter = OTHERCHAR <->
           ~ (byteZ letter = 0x20 \/ byteZ letter = 0x09)
           /\ ~ ((0x30 <= byteZ letter <= 0x39 \/ 0x41 <= byteZ letter <= 0x5A
                  \/ 0x61 <= byteZ letter <= 0x7A) \/ byteZ letter = 0x5F)))
  /\ (forall d lineOffset lineCount settings k,
        0 <= k < lineCount ->
        0 <= k + lineOffset < SCI_GETLINECOUNT d ->
        exists runs,
          tiles 0 runs (vsize (docLine d (k + lineOffset)))
          /\ Forall (sameClass (docLine d (k + lineOffset))) runs
          /\ neighboursDiffer runs
          /\ vget (getWords lineOffset lineCount d settings) k
             = Some (if IgnoreSpaces settings then filter notSpace runs else runs)).
Proof.
  split; [apply getCharType_spec|].
  intros d lineOffset lineCount settings k Hk Hln.
  exists (lineWords (keepingSpaces settings) k (docLine d (k + lineOffset) ++ [x00])).
  destruct (lineWords_runs (keepingSpaces settings) k (docLine d (k + lineOffset)) eq_refl)
    as (H1 & H2 & H3).
  repeat split; try done.
  unfold getWords. rewrite vget_map_zrange by done. cbv zeta.
  rewrite getText_docLine by done. f_equal.
  set (text := docLine d (k + lineOffset)).
  unfold lineWords. cbv zeta. simpl IgnoreCase.
  destruct (0 <? vsize (text ++ [x00]) - 1); [|by destruct (IgnoreSpaces settings)].
  destruct (take _ _) as [|c0 rest]; [by destruct (IgnoreSpaces settings)|].
  apply wordsLoop_filter.
Qed.

(** ** Effects: worlds that differ only in the progress dialog *)

Lemma quiet_refl w : quiet w w.
Proof. by repeat split. Qed.

Lemma quiet_trans w1 w2 w3 : quiet w1 w2 -> quiet w2 w3 -> quiet w1 w3.
Proof.
  intros (A1 & A2 & A3 & A4 & A5) (B1 & B2 & B3 & B4 & B5).
  repeat split; try congruence; try tauto.
Qed.

Lemma quiet_docOf w w' v : quiet w w' -> docOf w' v = docOf w v.
Proof. intros (A1 & A2 & _). by destruct v. Qed.

Lemma nextAnswer_noCancel w :
  is_Some (progress w) -> noCancel w ->
  exists w', nextAnswer w = Ok true w' /\ quiet w w'.
Proof.
  intros Ho Hn. unfold nextAnswer. destruct w as [m s p a ms]. simpl in *.
  destruct a as [|a rest].
  - eexists. split; [done|apply quiet_refl].
  - destruct Hn as [Hn|Hn]; simpl in Hn.
    { rewrite Hn in Ho. by destruct Ho. }
    inversion Hn as [|? ? Ha Hr]; subst. eexists. split; [done|].
    repeat split; simpl; try tauto. intros _. by right.
Qed.

Lemma cancelled_noCancel call w :
  call = nextAnswer -> noCancel w ->
  exists w', cancelled call w = Ok false w' /\ quiet w w'.
Proof.
  intros -> Hn. unfold cancelled, bind, ProgressDlg_Get.
  case_bool_decide as Ho.
  - destruct (nextAnswer_noCancel w Ho Hn) as (w' & -> & Hq). by exists w'.
  - exists w. split; [done|apply quiet_refl].
Qed.

Lemma cancelled_quiet call w :
  call = nextAnswer ->
  exists b w', cancelled call w = Ok b w' /\ mainDoc w' = mainDoc w /\ subDoc w' = subDoc w
               /\ messages w' = messages w /\ progress w' = progress w.
Proof.
  intros ->. unfold cancelled, bind, ProgressDlg_Get, nextAnswer.
  case_bool_decide as Ho; [|by eexists _, _].
  destruct (answers w); by eexists _, _.
Qed.

Lemma SetMaxCount_quiet n w :
  is_Some (progress w) -> exists w', SetMaxCount n w = Ok tt w' /\ quiet w w'.
Proof.
  intros Ho. eexists. split; [done|]. repeat split; simpl; try done.
  intros [Hn|Hn]; [|by right]. rewrite Hn in Ho. by destruct Ho.
Qed.

(** ** Line hashing *)

Lemma setLen_same doc : setLen doc (len (section doc)) = doc.
Proof. by destruct doc as [v [o l] m]. Qed.

(** Filling a vector of seeds by index gives the list of the values. *)
Lemma fill_by_index (g : Z -> Z -> Z) (n j : nat) :
  (j <= n)%nat ->
  fold_left (fun v k => vset v k (g k (vget_d cHashSeed v k)))
            (map Z.of_nat (seq 0 j)) (replicate n cHashSeed)
  = map (fun k => g k cHashSeed) (map Z.of_nat (seq 0 j)) ++ replicate (n - j) cHashSeed.
Proof.
  induction j as [|j IH]; intros Hj.
  - simpl. by rewrite Nat.sub_0_r.
  - rewrite seq_S, !map_app, fold_left_app, IH by lia. simpl.
    assert (Hlen : length (map (fun k => g k cHashSeed) (map Z.of_nat (seq 0 j))) = j).
    { by rewrite !length_map, length_seq. }
    replace (n - j)%nat with (S (n - S j)) by lia. simpl.
    unfold vset, vget_d, vget. destruct (Z.ltb_spec (Z.of_nat j) 0); [lia|]. rewrite Nat2Z.id.
    rewrite lookup_app_r by lia. rewrite Hlen, Nat.sub_diag. simpl.
    rewrite insert_app_r_alt by lia. rewrite Hlen, Nat.sub_diag. simpl.
    by rewrite <- app_assoc.
Qed.

Lemma hashLoop_noCancel settings doc lineNums : forall lineHashes w,
  noCancel w ->
  exists w',
    hashLoop settings doc lineNums lineHashes w
    = Ok (Some (fold_left
                  (fun v k => vset v k (hashDocLine settings (docOf w (view doc))
                                          (k + off (section doc)) (vget_d cHashSeed v k)))
                  lineNums lineHashes)) w'
    /\ quiet w w'.
Proof.
  induction lineNums as [|k rest IH]; intros v w Hn; simpl.
  - exists w. split; [done|apply quiet_refl].
  - unfold bind at 1.
    assert (exists w1, (if Z.rem k monitorCancelEveryXLine =? 0
                        then cancelled Advance else ret false) w = Ok false w1 /\ quiet w w1)
      as (w1 & -> & Hq1).
    { destruct (Z.rem k monitorCancelEveryXLine =? 0).
      - by apply cancelled_noCancel.
      - exists w. split; [done|apply quiet_refl]. }
    unfold bind, sciRead. rewrite (quiet_docOf _ _ _ Hq1).
    destruct (IH (vset v k (hashDocLine settings (docOf w (view doc)) (k + off (section doc))
                              (vget_d cHashSeed v k))) w1) as (w' & Hr & Hq).
    { by apply Hq1. }
    rewrite (quiet_docOf _ _ _ Hq1) in Hr.
    exists w'. split; [exact Hr|]. by eapply quiet_trans.
Qed.

Lemma back_is_last (hashes : list Z) :
  negb (vsize hashes =? 0) && (vget_d 0 hashes (vsize hashes - 1) =? cHashSeed)
  = lastIsBlank hashes.
Proof.
  unfold lastIsBlank, vget_d, vget, vsize. rewrite last_lookup.
  destruct hashes as [|h rest]; [done|].
  destruct (Z.eqb_spec (Z.of_nat (length (h :: rest))) 0) as [Hz|_]; [simpl in Hz; lia|].
  destruct (Z.ltb_spec (Z.of_nat (length (h :: rest)) - 1) 0) as [Hz|_]; [simpl in Hz; lia|].
  simpl negb. rewrite andb_true_l.
  replace (Z.to_nat (Z.of_nat (length (h :: rest)) - 1)) with (pred (length (h :: rest)))
    by (simpl; lia).
  destruct ((h :: rest) !! pred (length (h :: rest))) eqn:E; [done|].
  apply lookup_ge_None in E. simpl in E. lia.
Qed.

Lemma sectionHashes_size settings d s :
  0 <= sectionLen d s -> vsize (sectionHashes settings d s) = sectionLen d s.
Proof.
  intros Hn. unfold sectionHashes, vsize. rewrite length_map, zrange_length. lia.
Qed.

Lemma computeLineHashes_noCancel doc settings w :
  noCancel w ->
  0 <= sectionLen (docOf w (view doc)) (section doc) ->
  exists w',
    computeLineHashes doc settings w
    = Ok (trimLast (sectionHashes settings (docOf w (view doc)) (section doc)),
          hashedDoc settings (docOf w (view doc)) doc) w'
    /\ quiet w w'.
Proof.
  intros Hn Hlen. set (d := docOf w (view doc)) in *.
  set (n := sectionLen d (section doc)) in *.
  unfold computeLineHashes.
  unfold bind at 1. unfold sciRead at 1. fold d.
  unfold bind at 1.
  assert ((if SCI_GETLENGTH d =? 0 then ret (SCI_GETLENGTH d)
           else sciRead (view doc) SCI_GETLINECOUNT) w
          = Ok (if SCI_GETLENGTH d =? 0 then 0 else SCI_GETLINECOUNT d) w) as ->.
  { destruct (Z.eqb_spec (SCI_GETLENGTH d) 0) as [->|]; done. }
  set (lineCount := if SCI_GETLENGTH d =? 0 then 0 else SCI_GETLINECOUNT d).
  set (doc' := if (len (section doc) <=? 0) || (lineCount <? off (section doc) + len (section doc))
               then setLen doc (lineCount - off (section doc)) else doc).
  assert (Hdoc' : doc' = setLen doc n).
  { subst doc' n. unfold sectionLen. fold lineCount.
    destruct ((len (section doc) <=? 0) || (lineCount <? off (section doc) + len (section doc)));
      [done|by rewrite setLen_same]. }
  assert (Hlen' : len (section doc') = n) by (by rewrite Hdoc').
  assert (Hoff' : off (section doc') = off (section doc)) by (by rewrite Hdoc').
  assert (Hview' : view doc' = view doc) by (by rewrite Hdoc').
  unfold bind at 1. unfold ProgressDlg_Get at 1.
  unfold bind at 1.
  assert (exists w1, (if bool_decide (is_Some (progress w))
                      then SetMaxCount (Z.quot (len (section doc')) monitorCancelEveryXLine + 1)
                      else ret tt) w = Ok tt w1 /\ quiet w w1) as (w1 & -> & Hq1).
  { case_bool_decide as Ho.
    - by apply SetMaxCount_quiet.
    - exists w. split; [done|apply quiet_refl]. }
  unfold bind at 1. unfold newVector. rewrite Hlen'.
  destruct (Z.ltb_spec n 0); [lia|]. unfold ret at 1.
  unfold bind at 1.
  destruct (hashLoop_noCancel settings doc' (zrange n) (replicate (Z.to_nat n) cHashSeed) w1)
    as (w2 & Hr & Hq2); [by apply Hq1|].
  rewrite Hview', Hoff', (quiet_docOf _ _ _ Hq1) in Hr. fold d in Hr.
  unfold zrange in Hr.
  rewrite (fill_by_index (fun k => hashDocLine settings d (k + off (section doc)))) in Hr by lia.
  rewrite Nat.sub_diag in Hr. simpl replicate in Hr. rewrite app_nil_r in Hr.
  change (map (fun k => hashDocLine settings d (k + off (section doc)) cHashSeed)
              (map Z.of_nat (seq 0 (Z.to_nat n))))
    with (sectionHashes settings d (section doc)) in Hr.
  fold (zrange n) in Hr. rewrite Hr. clear Hr.
  set (raw := sectionHashes settings d (section doc)).
  assert (Hsz : vsize raw = n) by (by apply sectionHashes_size).
  replace (n =? 0) with (vsize raw =? 0) by (by rewrite Hsz). rewrite back_is_last.
  exists w2. split; [|by eapply quiet_trans].
  unfold trimLast, hashedDoc. fold d. fold raw. fold n. rewrite Hdoc'.
  destruct (lastIsBlank raw); unfold ret; repeat f_equal; by destruct doc as [v [o l] m].
Qed.

Lemma trimLast_interior (raw : list Z) k :
  0 <= k < vsize raw - 1 -> vget (trimLast raw) k = vget raw k.
Proof.
  intros Hk. unfold trimLast. destruct (lastIsBlank raw); [|done].
  rewrite removelast_firstn_len. unfold vget, vsize in *.
  destruct (Z.ltb_spec k 0); [lia|].
  rewrite lookup_take_lt; [done|]. lia.
Qed.

Lemma hashing_prefix {A} (k : list Z -> DocCmpInfo -> list Z -> DocCmpInfo -> M A)
    (cancel : A) mainViewSection subViewSection settings w :
  noCancel w ->
  0 <= sectionLen (mainDoc w) mainViewSection ->
  0 <= sectionLen (subDoc w) subViewSection ->
  let doc1 := mkDoc MAIN_VIEW mainViewSection (paintMask1 settings) in
  let doc2 := mkDoc SUB_VIEW subViewSection (paintMask2 settings) in
  exists w',
    quiet w w' /\
    (r1 <- computeLineHashes doc1 settings ;;
     stop <- cancelled NextPhase ;;
     if stop then ret cancel else
     r2 <- computeLineHashes doc2 settings ;;
     stop <- cancelled NextPhase ;;
     if stop then ret cancel else k (fst r1) (snd r1) (fst r2) (snd r2)) w
    = k (trimLast (sectionHashes settings (mainDoc w) mainViewSection))
        (hashedDoc settings (mainDoc w) doc1)
        (trimLast (sectionHashes settings (subDoc w) subViewSection))
        (hashedDoc settings (subDoc w) doc2) w'.
Proof.
  intros Hn H1 H2 doc1 doc2.
  destruct (computeLineHashes_noCancel doc1 settings w Hn H1) as (w1 & E1 & Hq1).
  assert (Hn1 : noCancel w1) by (by apply Hq1).
  destruct (cancelled_noCancel NextPhase w1 eq_refl Hn1) as (w2 & E2 & Hq2).
  assert (Hn2 : noCancel w2) by (by apply Hq2).
  assert (Hq12 : quiet w w2) by (by eapply quiet_trans).
  assert (Hsub : docOf w2 (view doc2) = subDoc w) by apply (quiet_docOf _ _ SUB_VIEW Hq12).
  destruct (computeLineHashes_noCancel doc2 settings w2 Hn2) as (w3 & E3 & Hq3).
  { by rewrite Hsub. }
  assert (Hn3 : noCancel w3) by (by apply Hq3).
  destruct (cancelled_noCancel NextPhase w3 eq_refl Hn3) as (w4 & E4 & Hq4).
  exists w4. split.
  { eapply quiet_trans; [exact Hq12|]. by eapply quiet_trans. }
  unfold bind at 1. rewrite E1. unfold bind at 1. rewrite E2.
  unfold bind at 1. rewrite E3. unfold bind at 1. rewrite E4.
  rewrite Hsub. done.
Qed.

(** C10: when line hashing completes, the hashes returned are those of the
    lines of the section with the last one left out exactly when the section
    is not empty and its last line hashes to the seed; the section length is
    decremented with it; every hash before the last is kept as it is, blank
    or not; and the rest of the compare and of the find-unique run is given
    these trimmed hashes and this section length. *)
Theorem trailing_blank_line_trimmed :
  (forall doc settings w,
     noCancel w ->
     0 <= sectionLen (docOf w (view doc)) (section doc) ->
     let d := docOf w (view doc) in
     let n := sectionLen d (section doc) in
     let raw := sectionHashes settings d (section doc) in
     exists w',
       computeLineHashes doc settings w
       = Ok (if lastIsBlank raw then removelast raw else raw,
             setLen doc (if lastIsBlank raw then n - 1 else n)) w'
       /\ quiet w w'
       /\ forall k, 0 <= k < n - 1 ->
                    vget (if lastIsBlank raw then removelast raw else raw) k = vget raw k)
  /\ (forall DiffCalc fuel mainViewSection subViewSection settings alignmentInfo w,
        noCancel w ->
        0 <= sectionLen (mainDoc w) mainViewSection ->
        0 <= sectionLen (subDoc w) subViewSection ->
        let doc1 := mkDoc MAIN_VIEW mainViewSection (paintMask1 settings) in
        let doc2 := mkDoc SUB_VIEW subViewSection (paintMask2 settings) in
        exists w',
          quiet w w' /\
          runCompare DiffCalc fuel mainViewSection subViewSection settings alignmentInfo w
          = diffPhase DiffCalc fuel
              (hashedDoc settings (mainDoc w) doc1) (hashedDoc settings (subDoc w) doc2)
              (negb (len mainViewSection =? 0) || negb (len subViewSection =? 0)) settings
              (trimLast (sectionHashes settings (mainDoc w) mainViewSection))
              (trimLast (sectionHashes settings (subDoc w) subViewSection))
              alignmentInfo w')
  /\ (forall mainViewSection subViewSection settings alignmentInfo w,
        noCancel w ->
        0 <= sectionLen (mainDoc w) mainViewSection ->
        0 <= sectionLen (subDoc w) subViewSection ->
        let doc1 := mkDoc MAIN_VIEW mainViewSection (paintMask1 settings) in
        let doc2 := mkDoc SUB_VIEW subViewSection (paintMask2 settings) in
        exists w',
          quiet w w' /\
          runFindUnique mainViewSection subViewSection settings alignmentInfo w
          = uniquePhase
              (hashedDoc settings (mainDoc w) doc1) (hashedDoc settings (subDoc w) doc2)
              mainViewSection subViewSection
              (trimLast (sectionHashes settings (mainDoc w) mainViewSection))
              (trimLast (sectionHashes settings (subDoc w) subViewSection))
              [] w').
Proof.
  split; [|split].
  - intros doc settings w Hn Hlen d n raw.
    destruct (computeLineHashes_noCancel doc settings w Hn Hlen) as (w' & E & Hq).
    exists w'. split; [exact E|]. split; [exact Hq|].
    intros k Hk. apply trimLast_interior. subst raw. rewrite sectionHashes_size by done. done.
  - intros DiffCalc fuel mainViewSection subViewSection settings alignmentInfo w Hn H1 H2.
    apply (hashing_prefix
             (fun h1 d1 h2 d2 =>
                diffPhase DiffCalc fuel d1 d2
                  (negb (len mainViewSection =? 0) || negb (len subViewSection =? 0))
                  settings h1 h2 alignmentInfo)); done.
  - intros mainViewSection subViewSection settings alignmentInfo w Hn H1 H2.
    apply (hashing_prefix
             (fun h1 d1 h2 d2 =>
                uniquePhase d1 d2 mainViewSection subViewSection h1 h2 [])); done.
Qed.

(** ** MoveFinder: the committed runs *)

Lemma withMatches_nil bd : withMatches bd [] = bd.
Proof. destruct bd as [t o l [mb cl ms]]. unfold withMatches. simpl. by rewrite app_nil_r. Qed.

Lemma withMatches_app bd a b : withMatches (withMatches bd a) b = withMatches bd (a ++ b).
Proof. unfold withMatches. simpl. by rewrite app_assoc. Qed.

Lemma addMatch_lookup blockDiffs i j m bd :
  blockDiffs !! i = Some bd ->
  addMatch blockDiffs j m !! i = Some (withMatches bd (if bool_decide (i = j) then [m] else [])).
Proof.
  intros Hi. unfold addMatch. case_bool_decide as Hij.
  - subst j. rewrite list_lookup_alter_eq, Hi. done.
  - rewrite list_lookup_alter_ne by done. by rewrite withMatches_nil.
Qed.

Lemma addMatches_lookup ms : forall blockDiffs i length isMoved bd,
  blockDiffs !! i = Some bd ->
  addMatches blockDiffs ms length isMoved !! i
  = Some (withMatches bd (map (fun o => (mkSection o length, isMoved)) (offsetsFor i ms))).
Proof.
  unfold addMatches, offsetsFor. induction ms as [|[j o] ms IH]; intros bs i l f bd Hi; simpl.
  - by rewrite withMatches_nil.
  - erewrite IH; [|by apply addMatch_lookup]. rewrite withMatches_app. f_equal. f_equal.
    rewrite filter_cons. simpl. case_bool_decide as Hij.
    + subst j. rewrite decide_True by done. done.
    + rewrite decide_False by congruence. done.
Qed.

Lemma commitMatch_lookup blockDiffs bestMatchDiff best_mi i bd :
  blockDiffs !! i = Some bd ->
  commitMatch blockDiffs bestMatchDiff best_mi !! i
  = Some (withMatches bd (runEntries i bestMatchDiff best_mi)).
Proof.
  intros Hi. unfold commitMatch, runEntries. cbv zeta.
  erewrite addMatches_lookup; [|erewrite addMatches_lookup; [done|by apply addMatch_lookup]].
  rewrite !withMatches_app, !map_app. f_equal. f_equal. f_equal.
  by case_bool_decide.
Qed.

Lemma commitRuns_app bs r1 r2 : commitRuns bs (r1 ++ r2) = commitRuns (commitRuns bs r1) r2.
Proof. unfold commitRuns. by rewrite fold_left_app. Qed.

Lemma findMovesIn_commits fuel h1 h2 n : forall blockDiffs di1 ei1 blockDiffs',
  findMovesIn fuel h1 h2 n blockDiffs di1 ei1 = Some blockDiffs' ->
  exists runs, blockDiffs' = commitRuns blockDiffs runs.
Proof.
  induction n as [|n IH]; intros bs di1 ei1 bs'; simpl.
  - destruct (ei1 <? d_len (blockAt bs di1)); [discriminate|].
    intros [= <-]. by exists [].
  - destruct (ei1 <? d_len (blockAt bs di1)); [|intros [= <-]; by exists []].
    destruct (negb _); [apply IH|].
    destruct (_ =? cHashSeed); [apply IH|].
    destruct (bestMatchFor fuel h1 h2 bs di1 ei1) as [[[[bmi best] mi]|]|]; [|apply IH|discriminate].
    intros H.
    assert (exists runs, bs' = commitRuns (commitMatch bs best mi) runs) as (runs & ->).
    { destruct (bool_decide (best = di1) && (bmi =? ei1)); by apply IH in H. }
    exists ((best, mi) :: runs). done.
Qed.

Lemma findMoves_commits fuel h1 h2 blockDiffs blockDiffs' :
  findMoves fuel h1 h2 blockDiffs = Some blockDiffs' ->
  exists runs, blockDiffs' = commitRuns blockDiffs runs.
Proof.
  unfold findMoves. generalize (seq 0 (length blockDiffs)) as di1s. intros di1s.
  revert blockDiffs. induction di1s as [|di1 rest IH]; intros bs; simpl.
  - intros [= <-]. by exists [].
  - destruct (negb _); [apply IH|].
    destruct (findMovesIn fuel h1 h2 fuel bs di1 0) as [bs1|] eqn:E; [|discriminate].
    intros H. apply IH in H as (r2 & ->).
    apply findMovesIn_commits in E as (r1 & ->).
    exists (r1 ++ r2). by rewrite commitRuns_app.
Qed.

Lemma isMovedFlag_spec best_mi :
  isMovedFlag best_mi = true <->
  (length (matchesIn1 best_mi) + 1 = length (matchesIn2 best_mi))%nat
  /\ ~ (len (sec best_mi) = 1 /\ (1 < length (matchesIn2 best_mi))%nat).
Proof.
  unfold isMovedFlag.
  rewrite andb_true_iff, negb_true_iff, bool_decide_eq_true, andb_false_iff.
  rewrite Z.eqb_neq, bool_decide_eq_false. split; intros [H1 H2]; (split; [done|]).
  - intros [Ha Hb]. by destruct H2.
  - destruct (decide (len (sec best_mi) = 1)) as [Hl|Hl]; [|by left].
    right. intros Hb. by apply H2.
Qed.

(** C1: every run MoveFinder commits appends, to each participating block,
    entries of the length of the run that all carry one moved flag; the flag
    is true exactly when the number of recorded IN_A alternate sources plus
    1 equals the number of recorded IN_B targets and it is not the case that
    the run has length 1 with several IN_B targets, and false otherwise; and
    [findMoves] changes the blocks by such commits only. *)
Theorem committed_run_moved_flag :
  (forall best_mi,
     isMovedFlag best_mi = true <->
     (length (matchesIn1 best_mi) + 1 = length (matchesIn2 best_mi))%nat
     /\ ~ (len (sec best_mi) = 1 /\ (1 < length (matchesIn2 best_mi))%nat))
  /\ (forall blockDiffs bestMatchDiff best_mi i bd,
        blockDiffs !! i = Some bd ->
        commitMatch blockDiffs bestMatchDiff best_mi !! i
        = Some (withMatches bd (runEntries i bestMatchDiff best_mi))
        /\ Forall (fun m => snd m = isMovedFlag best_mi /\ len (fst m) = len (sec best_mi))
                  (runEntries i bestMatchDiff best_mi))
  /\ (forall fuel lineHashes1 lineHashes2 blockDiffs blockDiffs',
        findMoves fuel lineHashes1 lineHashes2 blockDiffs = Some blockDiffs' ->
        exists runs, blockDiffs' = commitRuns blockDiffs runs).
Proof.
  split; [apply isMovedFlag_spec|]. split; [|apply findMoves_commits].
  intros bs best mi i bd Hi. split; [by apply commitMatch_lookup|].
  unfold runEntries. apply Forall_fmap, Forall_forall. by intros o _.
Qed.

(** ** FindUnique: the maps and the residuals *)

Lemma bind_Ok {A B} (m : M A) (k : A -> M B) w a w1 :
  m w = Ok a w1 -> bind m k w = k a w1.
Proof. intros H. unfold bind. by rewrite H. Qed.

Lemma sameButMarks_refl d : sameButMarks d d.
Proof. by repeat split. Qed.

Lemma sameButMarks_trans d1 d2 d3 :
  sameButMarks d1 d2 -> sameButMarks d2 d3 -> sameButMarks d1 d3.
Proof. intros (A1 & A2 & A3) (B1 & B2 & B3). repeat split; congruence. Qed.

Lemma calm_refl w : calm w w.
Proof. repeat split; done. Qed.

Lemma calm_trans w1 w2 w3 : calm w1 w2 -> calm w2 w3 -> calm w1 w3.
Proof.
  intros (A1 & A2 & A3 & A4 & A5) (B1 & B2 & B3 & B4 & B5).
  split; [by eapply sameButMarks_trans|]. split; [by eapply sameButMarks_trans|].
  repeat split; try congruence; try tauto.
Qed.

Lemma quiet_calm w w' : quiet w w' -> calm w w'.
Proof.
  intros (A1 & A2 & A3 & A4 & A5). unfold calm. rewrite A1, A2.
  split; [apply sameButMarks_refl|]. split; [apply sameButMarks_refl|]. done.
Qed.

Lemma sciCall_marks v (f : SciDoc -> SciDoc) w :
  (forall d, sameButMarks d (f d)) ->
  exists w', sciCall v f w = Ok tt w' /\ calm w w'.
Proof.
  intros Hf. eexists. split; [done|].
  destruct v; simpl; repeat split; try done; try apply Hf.
Qed.

Lemma addMarker_calm v ln mask w :
  exists w', addMarker v ln mask w = Ok tt w' /\ calm w w'.
Proof. apply sciCall_marks. intros d. by repeat split. Qed.

Lemma forEach_calm {A} (lns : list A) (f : A -> M unit) :
  (forall x w, exists w', f x w = Ok tt w' /\ calm w w') ->
  forall w, exists w', forEach lns f w = Ok tt w' /\ calm w w'.
Proof.
  intros Hf. induction lns as [|ln rest IH]; intros w; simpl.
  - exists w. split; [done|apply calm_refl].
  - destruct (Hf ln w) as (w1 & E1 & C1). rewrite (bind_Ok _ _ _ _ _ E1).
    destruct (IH w1) as (w' & E & C). exists w'. split; [done|]. by eapply calm_trans.
Qed.

Lemma uniqueLines_lookup hashes : forall i0 m h,
  uniqueLines hashes i0 m !! h
  = match m !! h, filter (fun p => snd p = h) (zip (map (fun k => i0 + Z.of_nat k)
                                                        (seq 0 (length hashes))) hashes) with
    | None, [] => None
    | o, ps => Some (default [] o ++ map fst ps)
    end.
Proof.
  induction hashes as [|h0 rest IH]; intros i0 m h; simpl.
  - destruct (m !! h); [by rewrite app_nil_r|done].
  - rewrite IH. rewrite <- seq_shift, map_map.
    assert (Hz : map (fun k => i0 + 1 + Z.of_nat k) (seq 0 (length rest))
                 = map (fun k => i0 + Z.of_nat (S k)) (seq 0 (length rest))).
    { apply map_ext. intros. lia. }
    rewrite Hz. rewrite filter_cons. simpl. rewrite Z.add_0_r.
    set (ps := filter _ (zip _ rest)).
    destruct (decide (h0 = h)) as [->|Hne].
    + destruct (m !! h) as [ls|] eqn:E; rewrite lookup_insert_eq; simpl.
      * by rewrite <- app_assoc.
      * done.
    + destruct (m !! h0) as [ls0|]; rewrite lookup_insert_ne by done; done.
Qed.

(** Every line hash is entered in the map, under its hash, with its index. *)
Lemma uniqueLines_has hashes i h :
  vget hashes i = Some h ->
  exists ls, uniqueLines hashes 0 ∅ !! h = Some ls /\ i ∈ ls.
Proof.
  intros Hi. rewrite uniqueLines_lookup, lookup_empty. simpl.
  set (ps := filter _ _).
  assert (Hin : (i, h) ∈ ps).
  { subst ps. apply list_elem_of_filter. split; [done|].
    apply vget_Some_lt in Hi as Hr. unfold vget in Hi.
    destruct (Z.ltb_spec i 0); [lia|].
    apply list_elem_of_lookup. exists (Z.to_nat i).
    apply lookup_zip_with_Some. exists i, h. split; [done|]. split; [|done].
    rewrite list_lookup_fmap, lookup_seq_lt; [simpl; f_equal; lia|].
    unfold vsize in Hr. lia. }
  destruct ps as [|p ps']; [by apply not_elem_of_nil in Hin|].
  eexists. split; [done|]. apply (list_elem_of_fmap_2 fst) in Hin. done.
Qed.

(** Only hashes of the sequence are keys of the map. *)
Lemma uniqueLines_only hashes h ls :
  uniqueLines hashes 0 ∅ !! h = Some ls -> h ∈ hashes /\ ls <> [].
Proof.
  rewrite uniqueLines_lookup, lookup_empty. simpl.
  set (ps := filter _ _). destruct ps as [|p ps'] eqn:E; [done|].
  intros [= <-]. split; [|done].
  assert (Hin : p ∈ ps) by (rewrite E; left).
  subst ps. apply list_elem_of_filter in Hin as [Hp Hin]. simpl in Hp. subst h.
  destruct p as [i h]. apply elem_of_zip_r in Hin. done.
Qed.

Lemma uniqueLoop_spec entries doc1 : forall m2 c w,
  exists m2' c' w',
    uniqueLoop entries doc1 m2 c w = Ok (m2', c') w'
    /\ calm w w' /\ c <= c'
    /\ (forall e, e ∈ entries -> m2 !! fst e = None -> snd e <> [] -> c < c')
    /\ (forall k, m2 !! k = None -> m2' !! k = None).
Proof.
  induction entries as [|e rest IH]; intros m2 c w; simpl.
  - exists m2, c, w. repeat split; try done; try lia.
    intros e He. by apply not_elem_of_nil in He.
  - destruct (m2 !! fst e) as [ls|] eqn:E.
    + destruct (IH (delete (fst e) m2) c w) as (m2' & c' & w' & Er & Hc & Hle & Hlt & Hn).
      exists m2', c', w'. split; [done|]. split; [done|]. split; [done|]. split.
      * intros e' He' Hn' Hne. apply elem_of_cons in He' as [->|He']; [congruence|].
        apply (Hlt e'); [done| |done]. destruct (decide (fst e = fst e')) as [Heq|Hneq].
        -- rewrite <- Heq. apply lookup_delete_eq.
        -- by rewrite lookup_delete_ne.
      * intros k Hk. apply Hn. destruct (decide (fst e = k)) as [<-|Hneq].
        -- apply lookup_delete_eq.
        -- by rewrite lookup_delete_ne.
    + destruct (forEach_calm (snd e)
                  (fun ln => addMarker (view doc1) (ln + off (section doc1)) (blockDiffMask doc1))
                  (fun x w => addMarker_calm _ _ _ w) w) as (w1 & E1 & C1).
      rewrite (bind_Ok _ _ _ _ _ E1).
      destruct (IH m2 (c + vsize (snd e)) w1) as (m2' & c' & w' & Er & Hc & Hle & Hlt & Hn).
      pose proof (vsize_nonneg (snd e)) as Hs.
      exists m2', c', w'. split; [done|]. split; [by eapply calm_trans|]. split; [lia|].
      split; [|done].
      intros e' He' Hn' Hne. apply elem_of_cons in He' as [->|He'].
      * assert (0 < vsize (snd e)); [|lia]. destruct (snd e); [done|]. rewrite vsize_cons.
        pose proof (vsize_nonneg l). lia.
      * specialize (Hlt e' He' Hn' Hne). lia.
Qed.

Lemma cancelled_noCancel_calm call w :
  call = nextAnswer -> noCancel w ->
  exists w', cancelled call w = Ok false w' /\ calm w w' /\ noCancel w'.
Proof.
  intros Hc Hn. destruct (cancelled_noCancel call w Hc Hn) as (w' & E & Hq).
  exists w'. split; [done|]. split; [by apply quiet_calm|]. by apply Hq.
Qed.

(** A hash present in the first document and absent from the second makes
    the residual of the first document non-empty. *)
Lemma uniquePhase_mismatch doc1 doc2 mainViewSection subViewSection h1 h2 alignmentInfo w h :
  noCancel w -> h ∈ h1 -> h ∉ h2 ->
  exists w',
    uniquePhase doc1 doc2 mainViewSection subViewSection h1 h2 alignmentInfo w
    = Ok (COMPARE_MISMATCH,
          alignmentInfo ++ [mkAlignPair (mkAlignData (off mainViewSection) 0)
                                        (mkAlignData (off subViewSection) 0)]) w'
    /\ calm w w'.
Proof.
  intros Hn Hin Hout. unfold uniquePhase. cbv zeta.
  destruct (cancelled_noCancel_calm NextPhase w eq_refl Hn) as (w1 & E1 & C1 & N1).
  rewrite (bind_Ok _ _ _ _ _ E1). simpl.
  destruct (cancelled_noCancel_calm NextPhase w1 eq_refl N1) as (w2 & E2 & C2 & N2).
  rewrite (bind_Ok _ _ _ _ _ E2). simpl.
  destruct (uniqueLoop_spec (map_to_list (uniqueLines h1 0 ∅)) doc1 (uniqueLines h2 0 ∅) 0 w2)
    as (m2' & c' & w3 & E3 & C3 & Hle & Hlt & _).
  rewrite (bind_Ok _ _ _ _ _ E3). simpl.
  apply list_elem_of_lookup in Hin as (i & Hi).
  destruct (uniqueLines_has h1 (Z.of_nat i) h) as (ls & Hls & Hils).
  { by rewrite vget_of_nat. }
  assert (0 < c') as Hpos.
  { apply (Hlt (h, ls)); simpl.
    - by apply elem_of_map_to_list.
    - destruct (uniqueLines h2 0 ∅ !! h) as [ls2|] eqn:E; [|done].
      apply uniqueLines_only in E as [E _]. done.
    - intros ->. by apply not_elem_of_nil in Hils. }
  destruct (Z.eqb_spec c' 0); [lia|]. simpl.
  destruct (forEach_calm (map_to_list m2')
              (fun uniqueLine =>
                 forEach (snd uniqueLine)
                   (fun ln => addMarker (view doc2) (ln + off (section doc2)) (blockDiffMask doc2))))
    with (w := w3) as (w4 & E4 & C4).
  { intros x w0. apply forEach_calm. intros y w5. apply addMarker_calm. }
  rewrite (bind_Ok _ _ _ _ _ E4).
  exists w4. split; [done|].
  eapply calm_trans; [exact C1|]. eapply calm_trans; [exact C2|]. by eapply calm_trans.
Qed.

(** C2 (as the code has it): in FindUnique mode every line hash that line
    hashing returned is entered in the map of its document, under its hash
    and with its line index, whatever IgnoreSpaces is; this holds for lines
    whose hash is the blank seed as for the others, and such a line takes
    part in the residuals: a hash (the seed included) present in the first
    document and absent from the second makes the result MISMATCH. *)
Theorem unique_maps_keep_blank_lines :
  (forall hashes i h,
     vget hashes i = Some h ->
     exists ls, uniqueLines hashes 0 ∅ !! h = Some ls /\ i ∈ ls)
  /\ (forall doc1 doc2 mainViewSection subViewSection h1 h2 alignmentInfo w,
        noCancel w -> cHashSeed ∈ h1 -> cHashSeed ∉ h2 ->
        exists a w',
          uniquePhase doc1 doc2 mainViewSection subViewSection h1 h2 alignmentInfo w
          = Ok (COMPARE_MISMATCH, a) w').
Proof.
  split; [apply uniqueLines_has|].
  intros doc1 doc2 ms ss h1 h2 ai w Hn Hin Hout.
  destruct (uniquePhase_mismatch doc1 doc2 ms ss h1 h2 ai w cHashSeed Hn Hin Hout)
    as (w' & E & _).
  by eexists _, _.
Qed.

(** C2, as the specification states it, fails: with IgnoreSpaces set, the
    document [" "; "a"] has a first line whose hash is the seed, that line
    is in the map, and it makes the find-unique run against ["a"] a
    MISMATCH with line 0 marked. *)
Lemma blank_lines_not_omitted :
  let settings := mkSettings MAIN_VIEW false true false in
  let w := worldOf [" "; "a"]%string ["a"]%string in
  let hashes := trimLast (sectionHashes settings (mainDoc w) wholeDoc) in
  vget hashes 0 = Some cHashSeed
  /\ ~ blankLinesOmittedIff settings hashes
  /\ exists a w',
       runFindUnique wholeDoc wholeDoc settings [] w = Ok (COMPARE_MISMATCH, a) w'
       /\ sciMarkers (mainDoc w') = [(0, MARKER_MASK_REMOVED)].
Proof.
  cbv zeta. split; [by vm_compute|]. split.
  - intros [H _]. specialize (H eq_refl). vm_compute in H. discriminate.
  - eexists _, _. split; vm_compute; reflexivity.
Qed.

(** ** BlockPairComparer: convergence *)

(** With [line1Len] the byte count of line 1, the convergence computed for
    a pair is the one the specification describes. *)
Lemma pairConvergence_fresh DiffCalc words1 words2 :
  fst (pairConvergence DiffCalc words1 words2 (lineLen words1))
  = claimedConvergence DiffCalc words1 words2.
Proof.
  assert (Hmax : forall a b : Z, (if a <? b then b else a) = Z.max a b).
  { intros a b. destruct (Z.ltb_spec a b); lia. }
  unfold pairConvergence, claimedConvergence.
  destruct (vsize words1 <? vsize words2);
    destruct (matchedCounts _ _) as [mw mb]; simpl; by rewrite !Hmax.
Qed.

(** Later pairs of the same line 1 are measured against the longest line
    2 seen so far. *)
Lemma pairConvergence_line1Len DiffCalc words1 words2 line1Len :
  snd (pairConvergence DiffCalc words1 words2 line1Len) = Z.max line1Len (lineLen words2).
Proof.
  unfold pairConvergence.
  destruct (vsize words1 <? vsize words2);
    destruct (matchedCounts _ _) as [mw mb]; simpl;
    destruct (Z.ltb_spec line1Len (lineLen words2)); lia.
Qed.

(** C3 fails on the code: [line1Len] is set to the byte count of line 1
    once per line 1 and is then raised to the byte count of every line 2 it
    is compared with, so a later pair is measured against the longest line 2
    seen so far.  Line "abcdefghij+x" against "abcdefghij-y" has
    convergence 83 (10 of 12 bytes matched), but after the 30-byte line the
    code computes 33 and does not record the pair; with the two lines of the
    second block in the other order it records it with 83. *)
Lemma stale_line1Len_drops_candidate :
  let settings := mkSettings MAIN_VIEW false false false in
  let chunk1 := getWords 0 2 (docOfLines ["abcdefghij+x"; "q"]%string) settings in
  let chunk2 :=
    getWords 0 2 (docOfLines ["zzzzzzzzzzzzzzzzzzzzzzzzzzzz*w"; "abcdefghij-y"]%string) settings in
  let chunk2' :=
    getWords 0 2 (docOfLines ["abcdefghij-y"; "zzzzzzzzzzzzzzzzzzzzzzzzzzzz*w"]%string) settings in
  let blockDiff1 := mkDiff DIFF_IN_1 0 2 emptyInfo in
  let blockDiff2 := mkDiff DIFF_IN_2 0 2 emptyInfo in
  claimedConvergence lcsDiff (vget_d [] chunk1 0) (vget_d [] chunk2 1) = 83
  /\ orderedLinesConvergence lcsDiff chunk1 chunk2 blockDiff1 blockDiff2 = []
  /\ orderedLinesConvergence lcsDiff chunk1 chunk2' blockDiff1 blockDiff2 = [mkConv 83 0 0].
Proof. cbv zeta. repeat split; vm_compute; reflexivity. Qed.

(** ** BlockPairComparer: the candidates *)

Lemma conv_lt_keyBefore x y : conv_lt x y = true <-> keyBefore x y.
Proof.
  unfold conv_lt, keyBefore.
  rewrite !orb_true_iff, !andb_true_iff, !Z.ltb_lt, !Z.eqb_eq. lia.
Qed.

Lemma conv_lt_false x y :
  conv_lt x y = false -> conv_lt y x = false ->
  convergence x = convergence y /\ line1 x = line1 y /\ line2 x = line2 y.
Proof.
  intros H1 H2. apply not_true_iff_false in H1, H2.
  rewrite conv_lt_keyBefore in H1, H2. unfold keyBefore in *. lia.
Qed.

Lemma keyBefore_trans x y z : keyBefore x y -> keyBefore y z -> keyBefore x z.
Proof. unfold keyBefore. lia. Qed.

Lemma set_emplace_elem k s x : x ∈ set_emplace k s -> x = k \/ x ∈ s.
Proof.
  induction s as [|y rest IH]; simpl.
  - intros H. apply list_elem_of_singleton in H. by left.
  - destruct (conv_lt k y).
    + intros H. apply elem_of_cons in H as [->|H]; [by left|by right].
    + destruct (conv_lt y k); [|by right].
      intros H. apply elem_of_cons in H as [->|H]; [right; left|].
      destruct (IH H) as [->|H']; [by left|right; by right].
Qed.

Lemma set_emplace_sorted k s :
  StronglySorted keyBefore s -> StronglySorted keyBefore (set_emplace k s).
Proof.
  induction s as [|y rest IH]; simpl; intros Hs.
  - repeat constructor.
  - inversion Hs as [|? ? Hr Hy]; subst.
    destruct (conv_lt k y) eqn:E1.
    + constructor; [done|]. apply conv_lt_keyBefore in E1.
      constructor; [done|]. eapply Forall_impl; [exact Hy|].
      intros z Hz. by eapply keyBefore_trans.
    + destruct (conv_lt y k) eqn:E2; [|done].
      constructor; [by apply IH|]. apply Forall_forall. intros z Hz.
      apply set_emplace_elem in Hz as [->|Hz]; [by apply conv_lt_keyBefore|].
      rewrite Forall_forall in Hy. by apply Hy.
Qed.

Lemma set_emplace_candidate n1 n2 k s :
  candidate n1 n2 k -> Forall (candidate n1 n2) s -> Forall (candidate n1 n2) (set_emplace k s).
Proof.
  intros Hk Hs. apply Forall_forall. intros x Hx.
  apply set_emplace_elem in Hx as [->|Hx]; [done|]. rewrite Forall_forall in Hs. by apply Hs.
Qed.

Lemma line2Loop_inv DiffCalc chunk1 chunk2 blockDiff2 l1 n : forall l2 line1Len olc,
  0 <= l1 < vsize chunk1 -> 0 <= l2 ->
  StronglySorted keyBefore olc -> Forall (candidate (vsize chunk1) (vsize chunk2)) olc ->
  StronglySorted keyBefore (line2Loop DiffCalc n chunk1 chunk2 blockDiff2 l1 l2 line1Len olc)
  /\ Forall (candidate (vsize chunk1) (vsize chunk2))
            (line2Loop DiffCalc n chunk1 chunk2 blockDiff2 l1 l2 line1Len olc).
Proof.
  induction n as [|n IH]; intros l2 line1Len olc H1 H2 Hs Hc; simpl; [done|].
  destruct (Z.ltb_spec l2 (vsize chunk2)) as [Hlt|]; [|done].
  case_bool_decide; [apply IH; try done; lia|].
  destruct (matchedSection (info blockDiff2) l2) as [matchedLen isMoved] eqn:Em.
  destruct (negb (matchedLen =? 0) && isMoved) eqn:Eskip.
  { apply IH; try done.
    assert (0 < matchedLen); [|lia].
    clear -Em Eskip. unfold matchedSection in Em.
    induction (matches (info blockDiff2)) as [|m ms IHm]; simpl in Em.
    - injection Em as <- <-. done.
    - destruct (_ && _) eqn:E; [|by apply IHm].
      injection Em as <- <-. apply andb_true_iff in E as [E1 E2]. lia. }
  destruct (2 * _ <? _); [apply IH; try done; lia|].
  destruct (pairConvergence DiffCalc _ _ line1Len) as [conv line1Len'] eqn:Ep.
  apply IH; try done; try lia.
  - destruct (50 <=? conv); [by apply set_emplace_sorted|done].
  - destruct (Z.leb_spec 50 conv); [|done].
    apply set_emplace_candidate; [|done]. repeat split; simpl; lia.
Qed.

Lemma matchedSection_pos bi ln :
  fst (matchedSection bi ln) = 0 \/ 0 < fst (matchedSection bi ln).
Proof.
  unfold matchedSection. induction (matches bi) as [|m ms IH]; simpl; [by left|].
  destruct (_ && _) eqn:E; [|done]. right. simpl.
  apply andb_true_iff in E as [E1 E2]. lia.
Qed.

Lemma line1Loop_inv DiffCalc chunk1 chunk2 blockDiff1 blockDiff2 n : forall l1 olc,
  0 <= l1 ->
  StronglySorted keyBefore olc -> Forall (candidate (vsize chunk1) (vsize chunk2)) olc ->
  StronglySorted keyBefore (line1Loop DiffCalc n chunk1 chunk2 blockDiff1 blockDiff2 l1 olc)
  /\ Forall (candidate (vsize chunk1) (vsize chunk2))
            (line1Loop DiffCalc n chunk1 chunk2 blockDiff1 blockDiff2 l1 olc).
Proof.
  induction n as [|n IH]; intros l1 olc H1 Hs Hc; simpl; [done|].
  destruct (Z.ltb_spec l1 (vsize chunk1)) as [Hlt|]; [|done].
  case_bool_decide; [apply IH; try done; lia|].
  pose proof (matchedSection_pos (info blockDiff1) l1) as Hpos.
  destruct (matchedSection (info blockDiff1) l1) as [matchedLen isMoved]. simpl in Hpos.
  destruct (Z.eqb_spec matchedLen 0) as [->|Hne]; simpl.
  - destruct (line2Loop_inv DiffCalc chunk1 chunk2 blockDiff2 l1 (length chunk2) 0
                (lineLen (vget_d [] chunk1 l1)) olc) as [Hs' Hc']; try done; try lia.
    apply IH; try done; lia.
  - destruct isMoved; [apply IH; try done; lia|].
    destruct (line2Loop_inv DiffCalc chunk1 chunk2 blockDiff2 l1 (length chunk2) 0
                (lineLen (vget_d [] chunk1 l1)) olc) as [Hs' Hc']; try done; try lia.
    apply IH; try done; lia.
Qed.

Lemma orderedLinesConvergence_inv DiffCalc chunk1 chunk2 blockDiff1 blockDiff2 :
  StronglySorted keyBefore (orderedLinesConvergence DiffCalc chunk1 chunk2 blockDiff1 blockDiff2)
  /\ Forall (candidate (vsize chunk1) (vsize chunk2))
            (orderedLinesConvergence DiffCalc chunk1 chunk2 blockDiff1 blockDiff2).
Proof. apply line1Loop_inv; [lia|constructor|constructor]. Qed.

(** ** BlockPairComparer: the mapping search *)

Lemma map_emplace_elem k v m e : e ∈ map_emplace k v m -> e = (k, v) \/ e ∈ m.
Proof.
  induction m as [|y rest IH]; simpl.
  - intros H. apply list_elem_of_singleton in H. by left.
  - destruct (k <? fst y).
    + intros H. apply elem_of_cons in H as [->|H]; [by left|by right].
    + destruct (fst y <? k); [|by right].
      intros H. apply elem_of_cons in H as [->|H]; [right; left|].
      destruct (IH H) as [->|H']; [by left|right; by right].
Qed.

Lemma map_emplace_new k v m :
  (forall e, e ∈ m -> fst e <> k) ->
  forall e, e ∈ map_emplace k v m <-> e = (k, v) \/ e ∈ m.
Proof.
  intros Hk e. split; [apply map_emplace_elem|].
  induction m as [|y rest IH]; simpl.
  - intros [->|He]; [left|by apply not_elem_of_nil in He].
  - assert (fst y <> k) as Hy by (apply Hk; left).
    destruct (Z.ltb_spec k (fst y)) as [Hlt|Hge].
    + intros [->|He]; [left|by right].
    + destruct (Z.ltb_spec (fst y) k) as [Hlt'|Hge']; [|lia].
      intros [->|He].
      * right. apply IH; [|by left]. intros e' He'. apply Hk. by right.
      * apply elem_of_cons in He as [->|He]; [left|].
        right. apply IH; [|by right]. intros e' He'. apply Hk. by right.
Qed.

Lemma map_emplace_sorted k v m : keyAscending m -> keyAscending (map_emplace k v m).
Proof.
  unfold keyAscending. induction m as [|y rest IH]; simpl; intros Hs.
  - repeat constructor.
  - inversion Hs as [|? ? Hr Hy]; subst.
    destruct (Z.ltb_spec k (fst y)).
    + constructor; [done|]. constructor; [done|].
      eapply Forall_impl; [exact Hy|]. intros z Hz. simpl in *. lia.
    + destruct (Z.ltb_spec (fst y) k); [|done].
      constructor; [by apply IH|]. apply Forall_forall. intros z Hz.
      apply map_emplace_elem in Hz as [->|Hz]; [done|].
      rewrite Forall_forall in Hy. by apply Hy.
Qed.

Lemma flagsOf_init n : 0 <= n -> flagsOf n [] (replicate (Z.to_nat n) false).
Proof.
  intros Hn. split; [unfold vsize; rewrite length_replicate; lia|].
  intros a Ha. unfold vget_d, vget. destruct (Z.ltb_spec a 0); [lia|].
  rewrite lookup_replicate_2 by lia. simpl. split; [done|]. intros Hx. by apply not_elem_of_nil in Hx.
Qed.

Lemma flagsOf_set n used flags a :
  flagsOf n used flags -> 0 <= a < n -> flagsOf n (used ++ [a]) (vset flags a true).
Proof.
  intros [Hsz Hf] Ha. split.
  - unfold vset, vsize in *. destruct (a <? 0); [done|]. by rewrite length_insert.
  - intros b Hb. rewrite elem_of_app, list_elem_of_singleton.
    unfold vset, vget_d, vget in *. destruct (Z.ltb_spec a 0); [lia|].
    destruct (Z.ltb_spec b 0); [lia|].
    destruct (decide (a = b)) as [->|Hne].
    + rewrite list_lookup_insert_eq by (unfold vsize in Hsz; lia). simpl. tauto.
    + rewrite list_lookup_insert_ne by lia. specialize (Hf b Hb).
      destruct (Z.ltb_spec b 0); [lia|]. rewrite Hf. split; [tauto|]. intros [?|?]; [done|lia].
Qed.

Lemma sameTriples_emplace lm accepted oc :
  sameTriples lm accepted ->
  line1 oc ∉ map line1 accepted ->
  sameTriples (map_emplace (line1 oc) (convergence oc, line2 oc) lm) (accepted ++ [oc]).
Proof.
  intros Hst Hnew a c b.
  rewrite map_emplace_new, elem_of_app, list_elem_of_singleton.
  - rewrite (Hst a c b). destruct oc as [c0 a0 b0]. simpl. split.
    + intros [[= -> -> ->]|Hin]; [by right|by left].
    + intros [Hin|[= -> -> ->]]; [by right|by left].
  - intros [a' [c' b']] He Heq. simpl in Heq. subst a'.
    apply Hst in He. apply Hnew.
    apply (list_elem_of_fmap_2 line1) in He. done.
Qed.

Lemma mapLoop_greedy n1 n2 ocs : forall lm m1 m2 c1 c2 accepted,
  Forall (candidate n1 n2) ocs ->
  flagsOf n1 (map line1 accepted) m1 -> flagsOf n2 (map line2 accepted) m2 ->
  c1 = vsize accepted -> c2 = vsize accepted ->
  keyAscending lm -> sameTriples lm accepted ->
  keyAscending (mapLoop n1 n2 ocs lm m1 m2 c1 c2)
  /\ sameTriples (mapLoop n1 n2 ocs lm m1 m2 c1 c2) (greedyAccept n1 n2 ocs accepted).
Proof.
  induction ocs as [|oc rest IH]; intros lm m1 m2 c1 c2 accepted Hc F1 F2 E1 E2 Hs Hst; simpl;
    [done|].
  inversion Hc as [|? ? (Ha & Hb & _) Hrest]; subst.
  assert (vget_d false m1 (line1 oc) = true <-> line1 oc ∈ map line1 accepted) as G1
    by (by apply F1).
  assert (vget_d false m2 (line2 oc) = true <-> line2 oc ∈ map line2 accepted) as G2
    by (by apply F2).
  destruct (vget_d false m1 (line1 oc)) eqn:V1; simpl.
  { rewrite (bool_decide_eq_false_2 (line1 oc ∉ _)) by tauto. simpl. by apply IH. }
  rewrite (bool_decide_eq_true_2 (line1 oc ∉ _)) by (intros Hx; apply G1 in Hx; done). simpl.
  destruct (vget_d false m2 (line2 oc)) eqn:V2; simpl.
  { rewrite (bool_decide_eq_false_2 (line2 oc ∉ _)) by tauto. by apply IH. }
  rewrite (bool_decide_eq_true_2 (line2 oc ∉ _)) by (intros Hx; apply G2 in Hx; done).
  assert (Hnew : line1 oc ∉ map line1 accepted) by (intros Hx; apply G1 in Hx; done).
  assert (Hsz : vsize (accepted ++ [oc]) = vsize accepted + 1).
  { rewrite vsize_app. unfold vsize at 2. simpl. lia. }
  pose proof (map_emplace_sorted (line1 oc) (convergence oc, line2 oc) lm Hs) as Hs'.
  pose proof (sameTriples_emplace lm accepted oc Hst Hnew) as Hst'.
  destruct (Z.eqb_spec (vsize accepted + 1) n1) as [Hn1|Hn1].
  { rewrite bool_decide_eq_true_2 by lia. done. }
  destruct (Z.eqb_spec (vsize accepted + 1) n2) as [Hn2|Hn2].
  { rewrite bool_decide_eq_true_2 by lia. done. }
  rewrite bool_decide_eq_false_2 by lia.
  apply IH; try done; try lia.
  - rewrite map_app. by apply flagsOf_set.
  - rewrite map_app. by apply flagsOf_set.
Qed.

Lemma mappingFrom_greedy n1 n2 ocs :
  Forall (candidate n1 n2) ocs ->
  keyAscending (mappingFrom n1 n2 ocs)
  /\ sameTriples (mappingFrom n1 n2 ocs) (greedyAccept n1 n2 ocs []).
Proof.
  intros Hc. destruct ocs as [|oc rest].
  { split; [constructor|]. intros a c b. simpl. split; intros Hx; by apply not_elem_of_nil in Hx. }
  inversion Hc as [|? ? (Ha & Hb & _) _]; subst.
  apply mapLoop_greedy; try done.
  - apply flagsOf_init. lia.
  - apply flagsOf_init. lia.
  - constructor.
  - intros a c b. split; intros Hx; by apply not_elem_of_nil in Hx.
Qed.


(** ** BlockPairComparer: the score of a mapping *)







Lemma bestLoop_spec n1 n2 starts : forall b0 lm0,
  b0 <= fst (bestLoop n1 n2 starts b0 lm0)
  /\ (forall s, (s < length starts)%nat ->
                blockConvergence (mappingFrom n1 n2 (drop s starts))
                <= fst (bestLoop n1 n2 starts b0 lm0))
  /\ (bestLoop n1 n2 starts b0 lm0 = (b0, lm0)
      \/ exists s, (s < length starts)%nat
                   /\ snd (bestLoop n1 n2 starts b0 lm0) = mappingFrom n1 n2 (drop s starts)
                   /\ fst (bestLoop n1 n2 starts b0 lm0)
                      = blockConvergence (mappingFrom n1 n2 (drop s starts))
                   /\ b0 < fst (bestLoop n1 n2 starts b0 lm0)).
Proof.
  induction starts as [|oc rest IH]; intros b0 lm0.
  - simpl. split; [lia|]. split; [intros s Hs; lia|by left].
  - cbn [bestLoop]. cbv zeta.
    set (cur := blockConvergence (mappingFrom n1 n2 (oc :: rest))).
    destruct (Z.ltb_spec b0 cur) as [Hlt|Hge].
    + destruct (IH cur (mappingFrom n1 n2 (oc :: rest))) as (H1 & H2 & H3).
      split; [lia|]. split.
      * intros [|s] Hs; [by rewrite drop_0|]. simpl. apply H2. simpl in Hs. lia.
      * right. destruct H3 as [H3|(s & Hs & Hsnd & Hfst & Hb)].
        -- exists 0%nat. rewrite H3. simpl. split; [lia|]. done.
        -- exists (S s). simpl. split; [lia|]. split; [done|]. split; [done|lia].
    + destruct (IH b0 lm0) as (H1 & H2 & H3).
      split; [lia|]. split.
      * intros [|s] Hs; [rewrite drop_0; fold cur; lia|]. simpl. apply H2. simpl in Hs. lia.
      * destruct H3 as [H3|(s & Hs & Hsnd & Hfst & Hb)]; [by left|].
        right. exists (S s). simpl. split; [lia|done].
Qed.

Lemma candidate_drop n1 n2 s olc :
  Forall (candidate n1 n2) olc -> Forall (candidate n1 n2) (drop s olc).
Proof.
  intros Hc. apply Forall_forall. intros x Hx. rewrite Forall_forall in Hc. apply Hc.
  rewrite <- (take_drop s olc). apply elem_of_app. by right.
Qed.


(** ** BlockPairComparer: the changed lines *)

Lemma withChanged_nil bd : withChanged bd [] = bd.
Proof. destruct bd as [t o l [mb cl ms]]. unfold withChanged. simpl. by rewrite app_nil_r. Qed.

Lemma withChanged_cons bd dl new :
  withChanged (addChangedLine bd dl) new = withChanged bd (dl :: new).
Proof. unfold withChanged, addChangedLine. simpl. by rewrite <- app_assoc. Qed.

Lemma keyAscending_cons e lms :
  keyAscending (e :: lms) -> keyAscending lms /\ forall x, x ∈ lms -> fst e < fst x.
Proof.
  intros Hs. inversion Hs as [|? ? Hr Hall]; subst. split; [done|].
  intros x Hx. rewrite Forall_forall in Hall. by apply Hall.
Qed.

Lemma compareLinesLoop_spec DiffCalc chunk1 chunk2 lms : forall lastLine2 blockDiff1 blockDiff2,
  keyAscending lms ->
  exists new : list (diffLine * diffLine),
    compareLinesLoop DiffCalc chunk1 chunk2 lms lastLine2 blockDiff1 blockDiff2
    = (withChanged blockDiff1 (map fst new), withChanged blockDiff2 (map snd new))
    /\ strictlyAscending (map (fun p => line (fst p)) new)
    /\ strictlyAscending (map (fun p => line (snd p)) new)
    /\ Forall (fun p => lastLine2 < line (snd p)
                        /\ exists c, (line (fst p), (c, line (snd p))) ∈ lms) new.
Proof.
  induction lms as [|lm rest IH]; intros lastLine2 b1 b2 Hs.
  { exists []. simpl. rewrite !withChanged_nil. repeat split; constructor. }
  apply keyAscending_cons in Hs as [Hs Hkey].
  assert (Hweak : forall l2' new,
            lastLine2 <= l2' ->
            Forall (fun p => l2' < line (snd p)
                             /\ exists c, (line (fst p), (c, line (snd p))) ∈ rest) new ->
            Forall (fun p => lastLine2 < line (snd p)
                             /\ exists c, (line (fst p), (c, line (snd p))) ∈ lm :: rest) new).
  { intros l2' new Hle Hf. eapply Forall_impl; [exact Hf|]. intros p [Hp (c & Hc)].
    split; [lia|]. exists c. by right. }
  cbn [compareLinesLoop].
  destruct (Z.leb_spec (snd (snd lm)) lastLine2) as [Hle|Hgt].
  { destruct (IH lastLine2 b1 b2 Hs) as (new & E & S1 & S2 & Hall).
    exists new. split; [done|]. split; [done|]. split; [done|].
    by apply (Hweak lastLine2). }
  cbv zeta.
  set (l1 := fst lm). set (l2 := snd (snd lm)).
  set (w1 := vget_d [] chunk1 l1). set (w2 := vget_d [] chunk2 l2).
  assert (Hstep : forall dl1 dl2,
            line dl1 = l1 -> line dl2 = l2 ->
            exists new,
              compareLinesLoop DiffCalc chunk1 chunk2 rest l2
                               (addChangedLine b1 dl1) (addChangedLine b2 dl2)
              = (withChanged b1 (map fst new), withChanged b2 (map snd new))
              /\ strictlyAscending (map (fun p => line (fst p)) new)
              /\ strictlyAscending (map (fun p => line (snd p)) new)
              /\ Forall (fun p => lastLine2 < line (snd p)
                                  /\ exists c, (line (fst p), (c, line (snd p))) ∈ lm :: rest)
                        new).
  { intros dl1 dl2 E1 E2.
    destruct (IH l2 (addChangedLine b1 dl1) (addChangedLine b2 dl2) Hs)
      as (new & E & S1 & S2 & Hall).
    exists ((dl1, dl2) :: new). rewrite E, !withChanged_cons. simpl.
    split; [done|]. rewrite Forall_forall in Hall. split; [|split].
    - constructor; [done|]. apply Forall_fmap, Forall_forall. intros p Hp. simpl.
      destruct (Hall p Hp) as [_ (c & Hc)]. rewrite E1. apply (Hkey _ Hc).
    - constructor; [done|]. apply Forall_fmap, Forall_forall. intros p Hp. simpl.
      destruct (Hall p Hp) as [Hlt _]. by rewrite E2.
    - constructor.
      + simpl. split; [rewrite E2; unfold l2; lia|]. exists (fst (snd lm)).
        rewrite E1, E2. unfold l1, l2. destruct lm as [a [c b]]. left.
      + apply (Hweak l2); [unfold l2; lia|]. by apply Forall_forall. }
  destruct (vsize w1 <? vsize w2).
  - destruct (isSingleMatch (wordsDiff DiffCalc w2 w1)).
    + destruct (IH l2 b1 b2 Hs) as (new & E & S1 & S2 & Hall).
      exists new. split; [done|]. split; [done|]. split; [done|].
      apply (Hweak l2); [unfold l2; lia|done].
    + apply Hstep; done.
  - destruct (isSingleMatch (wordsDiff DiffCalc w1 w2)).
    + destruct (IH l2 b1 b2 Hs) as (new & E & S1 & S2 & Hall).
      exists new. split; [done|]. split; [done|]. split; [done|].
      apply (Hweak l2); [unfold l2; lia|done].
    + apply Hstep; done.
Qed.

Lemma cancelled_spec call w :
  call = nextAnswer ->
  exists b w', cancelled call w = Ok b w' /\ quiet w w' /\ (noCancel w -> b = false).
Proof.
  intros ->. unfold cancelled, bind, ProgressDlg_Get.
  case_bool_decide as Ho.
  - unfold nextAnswer. destruct w as [m s p a ms]. simpl in *.
    destruct a as [|a rest].
    + eexists _, _. split; [done|]. split; [apply quiet_refl|done].
    + eexists _, _. split; [done|]. split.
      * repeat split; simpl; try tauto.
        intros [Hn|Hn]; [by left|right]. simpl in *. by inversion Hn.
      * intros [Hn|Hn]; simpl in *.
        -- rewrite Hn in Ho. by destruct Ho.
        -- inversion Hn; subst. done.
  - exists false, w. split; [done|]. split; [apply quiet_refl|done].
Qed.

Lemma bestLineMappings_ascending DiffCalc chunk1 chunk2 blockDiff1 blockDiff2 :
  keyAscending (bestLineMappings (vsize chunk1) (vsize chunk2)
                  (orderedLinesConvergence DiffCalc chunk1 chunk2 blockDiff1 blockDiff2)).
Proof.
  destruct (orderedLinesConvergence_inv DiffCalc chunk1 chunk2 blockDiff1 blockDiff2)
    as [_ Hcand].
  unfold bestLineMappings.
  destruct (bestLoop_spec (vsize chunk1) (vsize chunk2)
              (orderedLinesConvergence DiffCalc chunk1 chunk2 blockDiff1 blockDiff2) 0 [])
    as (_ & _ & [-> |(s & _ & -> & _)]).
  - constructor.
  - apply mappingFrom_greedy. by apply candidate_drop.
Qed.

Lemma line2Loop_matches DiffCalc chunk1 chunk2 b b' n :
  matches (info b) = matches (info b') ->
  forall l1 l2 line1Len olc,
    line2Loop DiffCalc n chunk1 chunk2 b l1 l2 line1Len olc
    = line2Loop DiffCalc n chunk1 chunk2 b' l1 l2 line1Len olc.
Proof.
  intros Hm. induction n as [|n IH]; intros l1 l2 line1Len olc; [done|].
  cbn [line2Loop]. unfold matchedSection. rewrite Hm.
  destruct (l2 <? vsize chunk2); [|done].
  case_bool_decide; [apply IH|].
  destruct (matchedSection_in (matches (info b')) l2) as [matchedLen isMoved].
  destruct (negb (matchedLen =? 0) && isMoved); [apply IH|].
  destruct (2 * Z.min _ _ <? Z.max _ _); [apply IH|].
  destruct (pairConvergence _ _ _ _) as [linesConvergence line1Len']. apply IH.
Qed.

Lemma line1Loop_matches DiffCalc chunk1 chunk2 b1 b1' b2 b2' n :
  matches (info b1) = matches (info b1') -> matches (info b2) = matches (info b2') ->
  forall l1 olc,
    line1Loop DiffCalc n chunk1 chunk2 b1 b2 l1 olc
    = line1Loop DiffCalc n chunk1 chunk2 b1' b2' l1 olc.
Proof.
  intros Hm1 Hm2. induction n as [|n IH]; intros l1 olc; [done|].
  cbn [line1Loop]. unfold matchedSection. rewrite Hm1.
  destruct (l1 <? vsize chunk1); [|done].
  case_bool_decide; [apply IH|].
  destruct (matchedSection_in (matches (info b1')) l1) as [matchedLen isMoved].
  destruct (negb (matchedLen =? 0) && isMoved); [apply IH|].
  cbv zeta. rewrite (line2Loop_matches DiffCalc chunk1 chunk2 b2 b2' _ Hm2). apply IH.
Qed.

(** The line mapping of two blocks depends on their offsets, lengths and
    recorded matches only. *)
Lemma blockMapping_frame DiffCalc d1 d2 settings b1 b1' b2 b2' :
  frameOf b1 = frameOf b1' -> frameOf b2 = frameOf b2' ->
  blockMapping DiffCalc d1 d2 settings b1 b2 = blockMapping DiffCalc d1 d2 settings b1' b2'.
Proof.
  unfold frameOf. intros F1 F2. injection F1 as _ O1 L1 M1. injection F2 as _ O2 L2 M2.
  unfold blockMapping, orderedLinesConvergence. cbv zeta. rewrite O1, L1, O2, L2.
  by rewrite (line1Loop_matches DiffCalc _ _ b1 b1' b2 b2' _ M1 M2).
Qed.

Lemma compareBlocks_aligned DiffCalc d1 d2 settings blockDiff1 blockDiff2 :
  changedLines (info blockDiff1) = [] -> changedLines (info blockDiff2) = [] ->
  exists new,
    compareBlocks DiffCalc d1 d2 settings blockDiff1 blockDiff2
    = (withChanged blockDiff1 (map fst new), withChanged blockDiff2 (map snd new))
    /\ alignedBy (blockMapping DiffCalc d1 d2 settings blockDiff1 blockDiff2)
                 (withChanged blockDiff1 (map fst new)) (withChanged blockDiff2 (map snd new)).
Proof.
  intros E1 E2. unfold compareBlocks, blockMapping. cbv zeta.
  set (chunk1 := getWords _ _ d1 settings). set (chunk2 := getWords _ _ d2 settings).
  set (best := bestLineMappings _ _ _).
  assert (Hasc : keyAscending best) by apply bestLineMappings_ascending.
  assert (Hal : forall new : list (diffLine * diffLine),
            strictlyAscending (map (fun p => line (fst p)) new) ->
            strictlyAscending (map (fun p => line (snd p)) new) ->
            Forall (fun p => -1 < line (snd p)
                             /\ exists c, (line (fst p), (c, line (snd p))) ∈ best) new ->
            alignedBy best (withChanged blockDiff1 (map fst new))
                      (withChanged blockDiff2 (map snd new))).
  { intros new S1 S2 Hall. unfold alignedBy, changedLineNumbers. simpl. rewrite E1, E2. simpl.
    rewrite !length_map, !map_map. repeat split; try done.
    intros k l1 l2 H1 H2. rewrite list_lookup_fmap in H1, H2.
    destruct (new !! k) as [p|] eqn:Ek; [|done]. simpl in *.
    injection H1 as <-. injection H2 as <-.
    rewrite Forall_forall in Hall. apply Hall. by eapply list_elem_of_lookup_2. }
  case_bool_decide as Hb.
  - exists []. simpl. rewrite !withChanged_nil. split; [done|].
    rewrite <- (withChanged_nil blockDiff1) at 1. rewrite <- (withChanged_nil blockDiff2) at 1.
    apply (Hal []); constructor.
  - destruct (compareLinesLoop_spec DiffCalc chunk1 chunk2 best (-1) blockDiff1 blockDiff2 Hasc)
      as (new & E & S1 & S2 & Hall).
    exists new. split; [exact E|]. by apply Hal.
Qed.

Lemma blockAt_type blockDiffs i t :
  d_type (blockAt blockDiffs i) = t -> t <> DIFF_MATCH ->
  exists bi, blockDiffs !! i = Some bi /\ blockAt blockDiffs i = bi.
Proof.
  unfold blockAt. destruct (blockDiffs !! i) as [bi|]; simpl.
  - intros _ _. by exists bi.
  - intros <- Hn. done.
Qed.

Lemma pair_step DiffCalc d1 d2 settings blockDiffs i b0 bi r1 r2 :
  blockDiffs !! i = Some b0 -> blockDiffs !! S i = Some bi ->
  d_type b0 = DIFF_IN_1 ->
  unpairedFrom blockDiffs (S i) -> allPartners DiffCalc d1 d2 settings blockDiffs ->
  d_type r1 = DIFF_IN_1 -> d_type r2 = DIFF_IN_2 ->
  matchBlock (info r1) = Some (S i) -> matchBlock (info r2) = Some i ->
  alignedBy (blockMapping DiffCalc d1 d2 settings r1 r2) r1 r2 ->
  unpairedFrom (<[S i := r2]> (<[i := r1]> blockDiffs)) (S (S i))
  /\ allPartners DiffCalc d1 d2 settings (<[S i := r2]> (<[i := r1]> blockDiffs)).
Proof.
  intros H0 H1 T0 HU HP T1 T2 M1 M2 Hal.
  assert (Hlen0 : (i < length blockDiffs)%nat) by (by eapply lookup_lt_Some).
  assert (Hlen1 : (S i < length blockDiffs)%nat) by (by eapply lookup_lt_Some).
  assert (Hu1 : unpaired bi) by (apply (HU (S i) bi H1); left; lia).
  assert (Hr1 : <[S i := r2]> (<[i := r1]> blockDiffs) !! i = Some r1).
  { rewrite list_lookup_insert_ne by lia. by apply list_lookup_insert_eq. }
  assert (Hr2 : <[S i := r2]> (<[i := r1]> blockDiffs) !! S i = Some r2).
  { apply list_lookup_insert_eq. by rewrite length_insert. }
  assert (Hother : forall j, j <> i -> j <> S i ->
            <[S i := r2]> (<[i := r1]> blockDiffs) !! j = blockDiffs !! j).
  { intros j Hj0 Hj1. by rewrite !list_lookup_insert_ne by lia. }
  split.
  - intros j bj Hj Hc.
    assert (j <> i) as Hj0.
    { intros ->. destruct Hc as [Hc|[Hc _]]; lia. }
    assert (j <> S i) as Hj1.
    { intros ->. destruct Hc as [Hc|[_ Hc]]; [lia|]. rewrite Hr2 in Hj. congruence. }
    rewrite Hother in Hj by done. apply (HU j bj Hj). left. destruct Hc as [Hc|[Hc _]]; lia.
  - intros j bj k Hj Hk.
    destruct (decide (j = i)) as [->|Hj0].
    { rewrite Hr1 in Hj. injection Hj as <-. rewrite M1 in Hk. injection Hk as <-.
      exists r1, r2. repeat split; try done. by left. }
    destruct (decide (j = S i)) as [->|Hj1].
    { rewrite Hr2 in Hj. injection Hj as <-. rewrite M2 in Hk. injection Hk as <-.
      exists r2, r1. repeat split; try done. by right. }
    rewrite Hother in Hj by done.
    destruct (HP j bj k Hj Hk) as (bj' & bk & Hj' & Hk' & Mj & Mk & Hcase).
    assert (k <> S i) as Hk1.
    { intros ->. rewrite H1 in Hk'. injection Hk' as <-. destruct Hu1 as [Hn _]. congruence. }
    assert (k <> i) as Hk0.
    { intros ->. rewrite H0 in Hk'. injection Hk' as <-.
      assert (unpaired b0) as [Hn _] by (apply (HU i b0 H0); by right). congruence. }
    exists bj', bk. rewrite !Hother by done. done.
Qed.

Lemma blockCompares_inv DiffCalc doc1 doc2 settings n : forall i blockDiffs w,
  unpairedFrom blockDiffs i ->
  allPartners DiffCalc (docOf w (view doc1)) (docOf w (view doc2)) settings blockDiffs ->
  exists ok blockDiffs' w',
    blockCompares DiffCalc (seq i n) doc1 doc2 settings blockDiffs w = Ok (ok, blockDiffs') w'
    /\ allPartners DiffCalc (docOf w (view doc1)) (docOf w (view doc2)) settings blockDiffs'
    /\ quiet w w' /\ (noCancel w -> ok = true)
    /\ length blockDiffs' = length blockDiffs.
Proof.
  induction n as [|n IH]; intros i bs w HU HP.
  { exists true, bs, w. repeat split; try done. }
  cbn [seq blockCompares].
  set (cond := bool_decide (d_type (blockAt bs i) = DIFF_IN_2) && negb (bool_decide (i = 0%nat))
               && bool_decide (d_type (blockAt bs (i - 1)) = DIFF_IN_1)).
  assert (exists bs1,
            (if cond
             then
               let blockDiff1 := setMatchBlock (blockAt bs (i - 1)) i in
               let blockDiff2 := setMatchBlock (blockAt bs i) (i - 1) in
               d1 <- sciRead (view doc1) (fun d => d) ;;
               d2 <- sciRead (view doc2) (fun d => d) ;;
               let r := compareBlocks DiffCalc d1 d2 settings blockDiff1 blockDiff2 in
               ret (<[i := snd r]> (<[(i - 1)%nat := fst r]> bs))
             else ret bs) w = Ok bs1 w
            /\ unpairedFrom bs1 (S i)
            /\ allPartners DiffCalc (docOf w (view doc1)) (docOf w (view doc2)) settings bs1
            /\ length bs1 = length bs)
    as (bs1 & E1 & HU1 & HP1 & Hl1).
  { destruct cond eqn:Ec.
    - subst cond. apply andb_true_iff in Ec as [Ec E3]. apply andb_true_iff in Ec as [E1 E2].
      apply bool_decide_eq_true in E1, E3. apply negb_true_iff, bool_decide_eq_false in E2.
      destruct i as [|i]; [done|]. replace (S i - 1)%nat with i in * by lia.
      destruct (blockAt_type bs (S i) _ E1) as (bi & Hbi & Ebi); [done|].
      destruct (blockAt_type bs i _ E3) as (b0 & Hb0 & Eb0); [done|].
      rewrite Ebi, Eb0 in *.
      assert (unpaired bi) as [_ Hc1] by (apply (HU (S i) bi Hbi); left; lia).
      assert (unpaired b0) as [_ Hc0] by (apply (HU i b0 Hb0); by right).
      cbv zeta. unfold bind, sciRead, ret.
      destruct (compareBlocks_aligned DiffCalc (docOf w (view doc1)) (docOf w (view doc2)) settings
                  (setMatchBlock b0 (S i)) (setMatchBlock bi i))
        as (new & Er & Hal); [done|done|].
      rewrite Er. simpl fst. simpl snd.
      eexists. split; [done|].
      rewrite (blockMapping_frame DiffCalc _ _ settings (setMatchBlock b0 (S i))
                 (withChanged (setMatchBlock b0 (S i)) (map fst new)) (setMatchBlock bi i)
                 (withChanged (setMatchBlock bi i) (map snd new)) eq_refl eq_refl) in Hal.
      destruct (pair_step DiffCalc (docOf w (view doc1)) (docOf w (view doc2)) settings
                  bs i b0 bi
                  (withChanged (setMatchBlock b0 (S i)) (map fst new))
                  (withChanged (setMatchBlock bi i) (map snd new)) Hb0 Hbi E3 HU HP
                  ltac:(by simpl) ltac:(by simpl) eq_refl eq_refl Hal) as [HU' HP'].
      split; [done|]. split; [done|]. by rewrite !length_insert.
    - exists bs. split; [done|]. split; [|done].
      intros j bj Hj [Hc|[Hc Ht]]; apply (HU j bj Hj); [left; lia|].
      left. lia. }
  rewrite (bind_Ok _ _ _ _ _ E1).
  destruct (cancelled_spec Advance w eq_refl) as (stop & w1 & E2 & Hq1 & Hst).
  rewrite (bind_Ok _ _ _ _ _ E2).
  destruct stop.
  - exists false, bs1, w1. repeat split; try done; try apply Hq1.
    intros Hn. by apply Hst in Hn.
  - assert (HP1' : allPartners DiffCalc (docOf w1 (view doc1)) (docOf w1 (view doc2))
                                settings bs1).
    { by rewrite !(quiet_docOf w w1 _ Hq1). }
    destruct (IH (S i) bs1 w1 HU1 HP1') as (ok & bs' & w' & E & HP' & Hq & Hok & Hl).
    rewrite !(quiet_docOf w w1 _ Hq1) in HP'.
    exists ok, bs', w'. split; [done|]. split; [done|].
    split; [by eapply quiet_trans|]. split; [|congruence].
    intros Hn. apply Hok. by apply Hq1.
Qed.

Lemma commitMatch_unpaired blockDiffs bestMatchDiff best_mi :
  Forall unpaired blockDiffs -> Forall unpaired (commitMatch blockDiffs bestMatchDiff best_mi).
Proof.
  intros Hu. apply Forall_lookup. intros i bd Hi.
  assert (is_Some (blockDiffs !! i)) as [bd0 Hbd0].
  { apply lookup_lt_is_Some. apply lookup_lt_Some in Hi.
    unfold commitMatch, addMatches in Hi. cbv zeta in Hi.
    assert (Hlen : forall ms l f bs,
              length (fold_left (fun bs0 m => addMatch bs0 (fst m) (mkSection (snd m) l, f)) ms bs)
              = length bs).
    { induction ms as [|m ms IHm]; intros l f bs; simpl; [done|].
      rewrite IHm. unfold addMatch. apply length_alter. }
    rewrite !Hlen in Hi. unfold addMatch in Hi. by rewrite length_alter in Hi. }
  rewrite (commitMatch_lookup _ _ _ _ _ Hbd0) in Hi. injection Hi as <-.
  rewrite Forall_lookup in Hu. apply (Hu i bd0 Hbd0).
Qed.

Lemma findMoves_unpaired fuel h1 h2 blockDiffs blockDiffs' :
  Forall unpaired blockDiffs -> findMoves fuel h1 h2 blockDiffs = Some blockDiffs' ->
  Forall unpaired blockDiffs'.
Proof.
  intros Hu Hf. apply findMoves_commits in Hf as (runs & ->).
  revert blockDiffs Hu. induction runs as [|r runs IH]; intros bs Hu; [done|].
  simpl. apply IH. by apply commitMatch_unpaired.
Qed.

Lemma rebase_unpaired doc1 doc2 blockDiffs :
  Forall unpaired blockDiffs -> Forall unpaired (rebase doc1 doc2 blockDiffs).
Proof.
  intros Hu. unfold rebase. apply Forall_fmap. eapply Forall_impl; [exact Hu|].
  intros bd Hbd. simpl. by destruct (d_type bd).
Qed.

Lemma unpairedFrom_all blockDiffs : Forall unpaired blockDiffs -> unpairedFrom blockDiffs 0.
Proof. intros Hu j bj Hj _. rewrite Forall_lookup in Hu. by eapply Hu. Qed.

Lemma allPartners_unpaired DiffCalc d1 d2 settings blockDiffs :
  Forall unpaired blockDiffs -> allPartners DiffCalc d1 d2 settings blockDiffs.
Proof.
  intros Hu j bj k Hj Hk. rewrite Forall_lookup in Hu. destruct (Hu j bj Hj) as [Hn _]. congruence.
Qed.

(** C6: block pairing leaves the changed lines of two partnered blocks
    aligned: the two lists have the same length, the line indices of each
    are strictly ascending, and the k-th entry of one with the k-th entry of
    the other is a pair of lines of the line mapping of the two blocks, the
    best mapping [compareBlocks] computes for them and hands to
    [compareLines].  This holds for the pair [compareBlocks] returns, and
    for every pair of partnered blocks when the loop over the blocks ends
    (or is cancelled), the blocks being without partner and changed line
    before it, as the diff, the moves and the rebasing leave them. *)
Theorem paired_blocks_changed_lines_aligned :
  (forall DiffCalc d1 d2 settings blockDiff1 blockDiff2,
     changedLines (info blockDiff1) = [] -> changedLines (info blockDiff2) = [] ->
     alignedBy (blockMapping DiffCalc d1 d2 settings blockDiff1 blockDiff2)
               (fst (compareBlocks DiffCalc d1 d2 settings blockDiff1 blockDiff2))
               (snd (compareBlocks DiffCalc d1 d2 settings blockDiff1 blockDiff2)))
  /\ (forall DiffCalc doc1 doc2 settings blockDiffs w,
        Forall unpaired blockDiffs ->
        exists ok blockDiffs' w',
          blockCompares DiffCalc (seq 0 (length blockDiffs)) doc1 doc2 settings blockDiffs w
          = Ok (ok, blockDiffs') w'
          /\ forall j bj k,
               blockDiffs' !! j = Some bj -> matchBlock (info bj) = Some k ->
               partners DiffCalc (docOf w (view doc1)) (docOf w (view doc2)) settings
                        blockDiffs' j k)
  /\ (forall DiffCalc fuel h1 h2 doc1 doc2 blockDiffs',
        findMoves fuel h1 h2 (map toBlock (DiffCalc h1 h2)) = Some blockDiffs' ->
        Forall unpaired (map toBlock (DiffCalc h1 h2))
        /\ Forall unpaired blockDiffs'
        /\ Forall unpaired (rebase doc1 doc2 blockDiffs')
        /\ Forall unpaired (rebase doc1 doc2 (map toBlock (DiffCalc h1 h2)))).
Proof.
  split; [|split].
  - intros DiffCalc d1 d2 settings b1 b2 E1 E2.
    destruct (compareBlocks_aligned DiffCalc d1 d2 settings b1 b2 E1 E2) as (new & -> & Hal).
    done.
  - intros DiffCalc doc1 doc2 settings bs w Hu.
    destruct (blockCompares_inv DiffCalc doc1 doc2 settings (length bs) 0 bs w
                (unpairedFrom_all bs Hu)
                (allPartners_unpaired DiffCalc _ _ settings bs Hu))
      as (ok & bs' & w' & E & HP & _).
    by exists ok, bs', w'.
  - intros DiffCalc fuel h1 h2 doc1 doc2 bs' Hf.
    assert (Hu : Forall unpaired (map toBlock (DiffCalc h1 h2))).
    { apply Forall_fmap, Forall_forall. by intros s _. }
    pose proof (findMoves_unpaired _ _ _ _ _ Hu Hf) as Hu'.
    repeat split; try done; by apply rebase_unpaired.
Qed.

Lemma paired_blocks_changed_lines_aligned_witness :
  let d1 := docOfLines ["a b x"; "p q r"]%string in
  let d2 := docOfLines ["a b y"; "zz"; "p q s"]%string in
  let r := compareBlocks lcsDiff d1 d2 settings0 (blockIn1 2) (blockIn2 3) in
  alignedBy (blockMapping lcsDiff d1 d2 settings0 (blockIn1 2) (blockIn2 3)) (fst r) (snd r)
  /\ blockMapping lcsDiff d1 d2 settings0 (blockIn1 2) (blockIn2 3)
     = [(0, (80, 0)); (1, (80, 2))]
  /\ changedLineNumbers (fst r) = [0; 1]
  /\ changedLineNumbers (snd r) = [0; 2].
Proof.
  cbv zeta. split; [|split; [|split]]; [|vm_compute; reflexivity..].
  exact (proj1 paired_blocks_changed_lines_aligned lcsDiff
           (docOfLines ["a b x"; "p q r"]%string)
           (docOfLines ["a b y"; "zz"; "p q s"]%string)
           settings0 (blockIn1 2) (blockIn2 3) eq_refl eq_refl).
Defined.

(** ** Marking: always ends, touches only marks *)

Lemma okCalm_ret {A} (a : A) : okCalm (ret a).
Proof. intros w. exists a, w. split; [done|apply calm_refl]. Qed.

Lemma okCalm_bind {A B} (m : M A) (k : A -> M B) :
  okCalm m -> (forall a, okCalm (k a)) -> okCalm (bind m k).
Proof.
  intros Hm Hk w. destruct (Hm w) as (a & w1 & E1 & C1).
  destruct (Hk a w1) as (b & w2 & E2 & C2).
  exists b, w2. rewrite (bind_Ok _ _ _ _ _ E1). split; [done|]. by eapply calm_trans.
Qed.

Lemma okCalm_addMarker v ln mask : okCalm (addMarker v ln mask).
Proof. intros w. destruct (addMarker_calm v ln mask w) as (w' & E & C). by exists tt, w'. Qed.

Lemma okCalm_forEach {A} (l : list A) (f : A -> M unit) :
  (forall x, okCalm (f x)) -> okCalm (forEach l f).
Proof.
  intros Hf. induction l as [|x rest IH]; simpl; [apply okCalm_ret|].
  apply okCalm_bind; [apply Hf|]. intros _. apply IH.
Qed.

Lemma okCalm_sciRead {A} v (f : SciDoc -> A) : okCalm (sciRead v f).
Proof. intros w. eexists _, w. split; [done|apply calm_refl]. Qed.

Lemma okCalm_markText v pos length : okCalm (sciCall v (fun d => markTextAsChanged d pos length)).
Proof.
  intros w. destruct (sciCall_marks v (fun d => markTextAsChanged d pos length) w) as (w' & E & C).
  { intros d. by repeat split. }
  by exists tt, w'.
Qed.

Lemma okCalm_cancelled call : call = nextAnswer -> okCalm (cancelled call).
Proof.
  intros Hc w. destruct (cancelled_spec call w Hc) as (b & w' & E & Hq & _).
  exists b, w'. split; [done|by apply quiet_calm].
Qed.

Lemma okCalm_setMax n : okCalm (open <- ProgressDlg_Get ;; if open then SetMaxCount n else ret tt).
Proof.
  intros w. unfold bind, ProgressDlg_Get. case_bool_decide as Ho.
  - destruct (SetMaxCount_quiet n w Ho) as (w' & E & Hq). exists tt, w'.
    split; [done|by apply quiet_calm].
  - exists tt, w. split; [done|apply calm_refl].
Qed.

Lemma markSectionLoop_ok bd doc endOff n : forall i ln,
  endOff = off (section doc) + len (section doc) ->
  off (section doc) <= i ->
  (Z.to_nat (endOff - i) <= n)%nat ->
  okCalm (markSectionLoop n bd doc endOff i ln).
Proof.
  induction n as [|n IH]; intros i ln He Hi Hn; simpl.
  - destruct (Z.ltb_spec i endOff); [lia|]. apply okCalm_ret.
  - destruct (Z.ltb_spec i endOff) as [Hlt|]; [|apply okCalm_ret].
    pose proof (matchedSection_pos (info bd) i) as Hpos.
    destruct (matchedSection (info bd) i) as [matchedLen isMoved]. simpl in Hpos.
    set (ml := if len (section doc) <? matchedLen then len (section doc) else matchedLen).
    assert (Hml : ml = 0 \/ 0 < ml).
    { subst ml. destruct (Z.ltb_spec (len (section doc)) matchedLen); lia. }
    destruct (Z.eqb_spec ml 0) as [Hz|Hnz].
    { apply okCalm_bind; [apply okCalm_addMarker|]. intros _. apply IH; lia. }
    destruct isMoved; simpl.
    + destruct (Z.eqb_spec ml 1).
      * apply okCalm_bind; [apply okCalm_addMarker|]. intros _. apply IH; lia.
      * apply okCalm_bind; [apply okCalm_addMarker|]. intros _.
        apply okCalm_bind; [apply okCalm_forEach; intros; apply okCalm_addMarker|]. intros _.
        apply okCalm_bind; [apply okCalm_addMarker|]. intros _. apply IH; lia.
    + apply okCalm_bind; [apply okCalm_forEach; intros; apply okCalm_addMarker|]. intros _.
      apply IH; lia.
Qed.

Lemma markSection_ok bd doc : okCalm (markSection bd doc).
Proof.
  unfold markSection. cbv zeta.
  destruct (Z.ltb_spec (len (section doc)) 0).
  - replace (Z.to_nat (len (section doc))) with 0%nat by lia. simpl.
    destruct (Z.ltb_spec (off (section doc)) (off (section doc) + len (section doc))); [lia|].
    apply okCalm_ret.
  - apply markSectionLoop_ok; lia.
Qed.

Lemma markLineDiffs_ok view1 view2 bd mb lineIdx : okCalm (markLineDiffs view1 view2 bd mb lineIdx).
Proof.
  unfold markLineDiffs. cbv zeta.
  apply okCalm_bind; [apply okCalm_sciRead|]. intros linePos.
  apply okCalm_bind; [apply okCalm_forEach; intros; apply okCalm_markText|]. intros _.
  apply okCalm_bind; [apply okCalm_addMarker|]. intros _.
  apply okCalm_bind; [apply okCalm_sciRead|]. intros linePos2.
  apply okCalm_bind; [apply okCalm_forEach; intros; apply okCalm_markText|]. intros _.
  apply okCalm_addMarker.
Qed.

Lemma markUnchanged_ok bd mb st : okCalm (markUnchanged bd mb st).
Proof.
  unfold markUnchanged. cbv zeta. destruct (_ || _); [|apply okCalm_ret].
  apply okCalm_bind.
  - destruct (negb _); [|apply okCalm_ret].
    apply okCalm_bind; [apply markSection_ok|]. intros _. apply okCalm_ret.
  - intros st'. destruct (negb _); [|apply okCalm_ret].
    apply okCalm_bind; [apply markSection_ok|]. intros _. apply okCalm_ret.
Qed.

Lemma markChangedLines_ok js bd mb : forall st, okCalm (markChangedLines js bd mb st).
Proof.
  induction js as [|j rest IH]; intros st; simpl; [apply okCalm_ret|].
  apply okCalm_bind; [apply markUnchanged_ok|]. intros st'.
  apply okCalm_bind; [apply markLineDiffs_ok|]. intros _. apply IH.
Qed.

Lemma markBlock_ok blockDiffs i st :
  forall w, exists r w', markBlock blockDiffs i st w = Ok r w' /\ calm w w' /\ (i <= snd r)%nat.
Proof.
  intros w. unfold markBlock. cbv zeta. destruct (d_type (blockAt blockDiffs i)).
  - eexists _, w. split; [done|]. split; [apply calm_refl|]. simpl. lia.
  - destruct (matchBlock (info (blockAt blockDiffs i))) as [mbi|].
    + match goal with |- context [bind ?m ?k] =>
        destruct (okCalm_bind m k) with (w := w) as (r & w' & E & C) end.
      * apply markChangedLines_ok.
      * intros st1. apply okCalm_bind; [apply markUnchanged_ok|]. intros st2. apply okCalm_ret.
      * exists r, w'. split; [exact E|]. split; [done|].
        unfold bind in E. destruct (markChangedLines _ _ _ _ w) as [st1 w1| | |]; try discriminate.
        destruct (markUnchanged _ _ _ w1) as [st2 w2| | |]; try discriminate.
        injection E as <- _. simpl. lia.
    + destruct (markSection_ok (blockAt blockDiffs i)
                  (m_doc1 (setSections st (mkSection 0 (d_len (blockAt blockDiffs i)))
                                       (section (m_doc2 st)))) w) as ([] & w' & E & C).
      rewrite (bind_Ok _ _ _ _ _ E). eexists _, w'. split; [done|]. split; [done|]. simpl. lia.
  - destruct (markSection_ok (blockAt blockDiffs i)
                (m_doc2 (setSections st (section (m_doc1 st))
                                     (mkSection 0 (d_len (blockAt blockDiffs i))))) w)
      as ([] & w' & E & C).
    rewrite (bind_Ok _ _ _ _ _ E). eexists _, w'. split; [done|]. split; [done|]. simpl. lia.
Qed.

Lemma markAllLoop_ok blockDiffs n : forall i st w,
  (length blockDiffs - i <= n)%nat ->
  exists r w', markAllLoop n blockDiffs i st w = Ok r w' /\ calm w w'
               /\ (noCancel w -> fst r = true).
Proof.
  induction n as [|n IH]; intros i st w Hn; simpl.
  - rewrite bool_decide_eq_false_2 by lia. eexists _, w. split; [done|]. split; [apply calm_refl|done].
  - case_bool_decide as Hi.
    2:{ eexists _, w. split; [done|]. split; [apply calm_refl|done]. }
    destruct (markBlock_ok blockDiffs i st w) as (r & w1 & E1 & C1 & Hr).
    rewrite (bind_Ok _ _ _ _ _ E1).
    destruct (cancelled_spec Advance w1 eq_refl) as (stop & w2 & E2 & Hq2 & Hst).
    rewrite (bind_Ok _ _ _ _ _ E2).
    assert (C2 : calm w w2) by (eapply calm_trans; [exact C1|by apply quiet_calm]).
    destruct stop.
    + eexists _, w2. split; [done|]. split; [done|].
      intros Hnc. apply C1 in Hnc. by apply Hst in Hnc.
    + destruct (IH (S (snd r)) (fst r) w2) as (r' & w' & E & C & Hok); [lia|].
      exists r', w'. split; [done|]. split; [by eapply calm_trans|].
      intros Hnc. apply Hok. by apply C2.
Qed.

Lemma markAllDiffs_ok doc1 doc2 selectionCompare blockDiffs w :
  exists r w', markAllDiffs doc1 doc2 selectionCompare blockDiffs w = Ok r w' /\ calm w w'
               /\ (noCancel w -> fst r = true).
Proof.
  unfold markAllDiffs. cbv zeta.
  destruct (okCalm_setMax (vsize blockDiffs) w) as ([] & w1 & E1 & C1).
  unfold bind at 1. unfold bind at 1 in E1.
  destruct (ProgressDlg_Get w) as [open w0| | |]; try discriminate.
  unfold bind at 1. rewrite E1.
  destruct (markAllLoop_ok blockDiffs (length blockDiffs) 0
              (mkMark doc1 doc2 (mkAlignData (off (section doc1)) 0)
                      (mkAlignData (off (section doc2)) 0) []) w1)
    as (r & w2 & E2 & C2 & Hok); [lia|].
  rewrite (bind_Ok _ _ _ _ _ E2).
  assert (C12 : calm w w2) by (by eapply calm_trans).
  destruct (fst r) eqn:Er.
  - destruct (cancelled_spec NextPhase w2 eq_refl) as (stop & w3 & E3 & Hq3 & Hst).
    rewrite (bind_Ok _ _ _ _ _ E3).
    eexists _, w3. split; [done|]. split.
    + eapply calm_trans; [exact C12|by apply quiet_calm].
    + intros Hnc. simpl. apply C12 in Hnc. by rewrite (Hst Hnc).
  - eexists _, w2. split; [done|]. split; [done|].
    intros Hnc. apply C1 in Hnc. apply Hok in Hnc. congruence.
Qed.

(** ** Orchestrator *)

Lemma blockCompares_ok DiffCalc doc1 doc2 settings idxs : forall blockDiffs w,
  exists r w',
    blockCompares DiffCalc idxs doc1 doc2 settings blockDiffs w = Ok r w'
    /\ quiet w w' /\ (noCancel w -> fst r = true).
Proof.
  induction idxs as [|i rest IH]; intros bs w; simpl.
  { eexists _, w. split; [done|]. split; [apply quiet_refl|done]. }
  match goal with |- context [bind (if ?c then ?a else ?b) ?k] =>
    assert (exists bs1, (if c then a else b) w = Ok bs1 w) as (bs1 & E1) end.
  { destruct (_ && _); [|by eexists]. cbv zeta. unfold bind, sciRead, ret. by eexists. }
  rewrite (bind_Ok _ _ _ _ _ E1).
  destruct (cancelled_spec Advance w eq_refl) as (stop & w1 & E2 & Hq1 & Hst).
  rewrite (bind_Ok _ _ _ _ _ E2).
  destruct stop.
  - eexists _, w1. split; [done|]. split; [done|]. intros Hn. by apply Hst in Hn.
  - destruct (IH bs1 w1) as (r & w' & E & Hq & Hok).
    exists r, w'. split; [done|]. split; [by eapply quiet_trans|].
    intros Hn. apply Hok. by apply Hq1.
Qed.

Lemma pairPhase_ok DiffCalc doc1 doc2 selectionCompare settings blockDiffSize blockDiffs
    alignmentInfo w :
  exists r w',
    pairPhase DiffCalc doc1 doc2 selectionCompare settings blockDiffSize blockDiffs
              alignmentInfo w = Ok r w'
    /\ calm w w'
    /\ (fst r = COMPARE_MISMATCH \/ fst r = COMPARE_CANCELLED)
    /\ (noCancel w -> fst r = COMPARE_MISMATCH).
Proof.
  unfold pairPhase.
  destruct (cancelled_spec NextPhase w eq_refl) as (stop1 & w1 & E1 & Hq1 & Hst1).
  rewrite (bind_Ok _ _ _ _ _ E1).
  assert (C1 : calm w w1) by (by apply quiet_calm).
  destruct stop1.
  { eexists _, w1. split; [done|]. split; [done|]. split; [by right|].
    intros Hn. by apply Hst1 in Hn. }
  destruct (okCalm_setMax blockDiffSize w1) as ([] & w2 & E2 & C2).
  unfold bind at 1. unfold bind at 1 in E2.
  destruct (ProgressDlg_Get w1) as [open w0| | |]; try discriminate.
  unfold bind at 1. rewrite E2.
  destruct (blockCompares_ok DiffCalc doc1 doc2 settings (seq 0 (length blockDiffs)) blockDiffs w2)
    as (r3 & w3 & E3 & Hq3 & Hok3).
  rewrite (bind_Ok _ _ _ _ _ E3).
  assert (C3 : calm w w3).
  { eapply calm_trans; [exact C1|]. eapply calm_trans; [exact C2|]. by apply quiet_calm. }
  destruct (fst r3) eqn:Er3; simpl.
  2:{ eexists _, w3. split; [done|]. split; [done|]. split; [by right|].
      intros Hn. apply C1, C2 in Hn. apply Hok3 in Hn. congruence. }
  destruct (cancelled_spec NextPhase w3 eq_refl) as (stop4 & w4 & E4 & Hq4 & Hst4).
  rewrite (bind_Ok _ _ _ _ _ E4).
  assert (C4 : calm w w4) by (eapply calm_trans; [exact C3|by apply quiet_calm]).
  destruct stop4.
  { eexists _, w4. split; [done|]. split; [done|]. split; [by right|].
    intros Hn. apply C3 in Hn. by apply Hst4 in Hn. }
  destruct (markAllDiffs_ok doc1 doc2 selectionCompare (snd r3) w4) as (r5 & w5 & E5 & C5 & Hok5).
  rewrite (bind_Ok _ _ _ _ _ E5).
  assert (C : calm w w5) by (by eapply calm_trans).
  destruct (fst r5) eqn:Er5; simpl.
  - eexists _, w5. split; [done|]. split; [done|]. split; [by left|done].
  - eexists _, w5. split; [done|]. split; [done|]. split; [by right|].
    intros Hn. apply C4 in Hn. apply Hok5 in Hn. congruence.
Qed.

Lemma insertBlankLines_spec doc1 doc2 w :
  view doc1 <> view doc2 ->
  insertBlankLines doc1 doc2 w
  = Ok (setOff doc1 (off (section doc1) + 1), setOff doc2 (off (section doc2) + 1))
       (setDoc (setDoc w (view doc1) (withBlankLine (docOf w (view doc1))))
               (view doc2) (withBlankLine (docOf w (view doc2)))).
Proof.
  intros Hv. destruct doc1 as [v1 s1 m1], doc2 as [v2 s2 m2]. simpl in *.
  destruct w as [[t1 md1 ro1 mk1 ch1] [t2 md2 ro2 mk2 ch2] p a ms].
  unfold withBlankLine.
  destruct v1, v2; try done; destruct md1, md2, ro1, ro2; reflexivity.
Qed.

Lemma hashLoop_general settings doc lineNums : forall lineHashes w,
  exists r w', hashLoop settings doc lineNums lineHashes w = Ok r w' /\ quiet w w'.
Proof.
  induction lineNums as [|k rest IH]; intros v w; simpl.
  - eexists _, w. split; [done|apply quiet_refl].
  - assert (exists stop w1, (if Z.rem k monitorCancelEveryXLine =? 0
                             then cancelled Advance else ret false) w = Ok stop w1 /\ quiet w w1)
      as (stop & w1 & E1 & Hq1).
    { destruct (_ =? 0).
      - destruct (cancelled_spec Advance w eq_refl) as (b & w1 & E & Hq & _). by exists b, w1.
      - exists false, w. split; [done|apply quiet_refl]. }
    rewrite (bind_Ok _ _ _ _ _ E1). destruct stop.
    + eexists _, w1. split; [done|done].
    + unfold bind at 1, sciRead at 1.
      match goal with |- context [hashLoop _ _ _ ?v' w1] =>
        destruct (IH v' w1) as (r & w' & E & Hq) end.
      exists r, w'. split; [done|by eapply quiet_trans].
Qed.

Lemma computeLineHashes_general doc settings w :
  match computeLineHashes doc settings w with
  | Ok r w' => quiet w w' /\ view (snd r) = view doc
               /\ off (section (snd r)) = off (section doc)
               /\ blockDiffMask (snd r) = blockDiffMask doc
  | Throw e w' => quiet w w'
  | _ => False
  end.
Proof.
  unfold computeLineHashes.
  unfold bind at 1. unfold sciRead at 1.
  unfold bind at 1.
  set (d := docOf w (view doc)).
  assert ((if SCI_GETLENGTH d =? 0 then ret (SCI_GETLENGTH d)
           else sciRead (view doc) SCI_GETLINECOUNT) w
          = Ok (if SCI_GETLENGTH d =? 0 then 0 else SCI_GETLINECOUNT d) w) as ->.
  { destruct (Z.eqb_spec (SCI_GETLENGTH d) 0) as [->|]; done. }
  set (lineCount := if SCI_GETLENGTH d =? 0 then 0 else SCI_GETLINECOUNT d).
  set (doc' := if (len (section doc) <=? 0) || (lineCount <? off (section doc) + len (section doc))
               then setLen doc (lineCount - off (section doc)) else doc).
  assert (Hdoc' : view doc' = view doc /\ off (section doc') = off (section doc)
                  /\ blockDiffMask doc' = blockDiffMask doc).
  { subst doc'. by destruct (_ || _). }
  destruct (okCalm_setMax (Z.quot (len (section doc')) monitorCancelEveryXLine + 1) w)
    as ([] & w1x & E1x & _).
  unfold bind at 1. unfold ProgressDlg_Get at 1.
  unfold bind at 1.
  assert (exists w1, (if bool_decide (is_Some (progress w))
                      then SetMaxCount (Z.quot (len (section doc')) monitorCancelEveryXLine + 1)
                      else ret tt) w = Ok tt w1 /\ quiet w w1) as (w1 & -> & Hq1).
  { case_bool_decide as Ho.
    - by apply SetMaxCount_quiet.
    - exists w. split; [done|apply quiet_refl]. }
  unfold bind at 1. unfold newVector.
  destruct (Z.ltb_spec (len (section doc')) 0); [exact Hq1|].
  unfold ret at 1. unfold bind at 1.
  destruct (hashLoop_general settings doc' (zrange (len (section doc')))
              (replicate (Z.to_nat (len (section doc'))) cHashSeed) w1) as (r & w2 & -> & Hq2).
  assert (Hq : quiet w w2) by (by eapply quiet_trans).
  destruct r as [lineHashes|]; [|by split].
  destruct (_ && _); unfold ret; simpl; split; done.
Qed.

Lemma hashing_general mainViewSection subViewSection settings w :
  match hashing mainViewSection subViewSection settings w with
  | Ok (Some (r1, r2)) w' =>
      quiet w w'
      /\ view (snd r1) = MAIN_VIEW /\ off (section (snd r1)) = off mainViewSection
      /\ view (snd r2) = SUB_VIEW /\ off (section (snd r2)) = off subViewSection
  | Ok None w' => quiet w w'
  | Throw e w' => quiet w w'
  | _ => False
  end.
Proof.
  unfold hashing. cbv zeta.
  set (doc1 := mkDoc MAIN_VIEW mainViewSection (paintMask1 settings)).
  set (doc2 := mkDoc SUB_VIEW subViewSection (paintMask2 settings)).
  pose proof (computeLineHashes_general doc1 settings w) as H1.
  unfold bind at 1. destruct (computeLineHashes doc1 settings w) as [r1 w1|e w1| |]; try done.
  destruct H1 as (Hq1 & Hv1 & Ho1 & _).
  destruct (cancelled_spec NextPhase w1 eq_refl) as (stop & w2 & E2 & Hq2 & _).
  rewrite (bind_Ok _ _ _ _ _ E2).
  assert (Hq12 : quiet w w2) by (by eapply quiet_trans).
  destruct stop; [done|].
  pose proof (computeLineHashes_general doc2 settings w2) as H3.
  unfold bind at 1. destruct (computeLineHashes doc2 settings w2) as [r2 w3|e w3| |]; try done.
  2:{ by eapply quiet_trans. }
  destruct H3 as (Hq3 & Hv3 & Ho3 & _).
  destruct (cancelled_spec NextPhase w3 eq_refl) as (stop & w4 & E4 & Hq4 & _).
  rewrite (bind_Ok _ _ _ _ _ E4).
  assert (Hq14 : quiet w w4).
  { eapply quiet_trans; [exact Hq12|]. by eapply quiet_trans. }
  destruct stop; [done|]. simpl. done.
Qed.

Lemma runCompare_hashing DiffCalc fuel mainViewSection subViewSection settings alignmentInfo w :
  runCompare DiffCalc fuel mainViewSection subViewSection settings alignmentInfo w
  = (r <- hashing mainViewSection subViewSection settings ;;
     match r with
     | None => ret (COMPARE_CANCELLED, alignmentInfo)
     | Some (r1, r2) =>
         diffPhase DiffCalc fuel (snd r1) (snd r2)
           (negb (len mainViewSection =? 0) || negb (len subViewSection =? 0))
           settings (fst r1) (fst r2) alignmentInfo
     end) w.
Proof.
  unfold runCompare, hashing, bind. cbv zeta.
  destruct (computeLineHashes _ settings w) as [r1 w1| | |]; try done.
  destruct (cancelled NextPhase w1) as [stop w2| | |]; try done.
  destruct stop; [done|].
  destruct (computeLineHashes _ settings w2) as [r2 w3| | |]; try done.
  destruct (cancelled NextPhase w3) as [stop w4| | |]; try done.
  by destruct stop.
Qed.

Lemma runFindUnique_hashing mainViewSection subViewSection settings alignmentInfo w :
  runFindUnique mainViewSection subViewSection settings alignmentInfo w
  = (r <- hashing mainViewSection subViewSection settings ;;
     match r with
     | None => ret (COMPARE_CANCELLED, [])
     | Some (r1, r2) =>
         uniquePhase (snd r1) (snd r2) mainViewSection subViewSection (fst r1) (fst r2) []
     end) w.
Proof.
  unfold runFindUnique, hashing, bind. cbv zeta.
  destruct (computeLineHashes _ settings w) as [r1 w1| | |]; try done.
  destruct (cancelled NextPhase w1) as [stop w2| | |]; try done.
  destruct stop; [done|].
  destruct (computeLineHashes _ settings w2) as [r2 w3| | |]; try done.
  destruct (cancelled NextPhase w3) as [stop w4| | |]; try done.
  by destruct stop.
Qed.

Lemma uniqueLoop_ok entries doc1 : forall m2 c, okCalm (uniqueLoop entries doc1 m2 c).
Proof.
  intros m2 c w. destruct (uniqueLoop_spec entries doc1 m2 c w) as (m2' & c' & w' & E & C & _).
  by exists (m2', c'), w'.
Qed.

Lemma uniquePhase_ok doc1 doc2 mainViewSection subViewSection h1 h2 alignmentInfo w :
  exists r w',
    uniquePhase doc1 doc2 mainViewSection subViewSection h1 h2 alignmentInfo w = Ok r w'
    /\ calm w w' /\ fst r <> COMPARE_ERROR.
Proof.
  unfold uniquePhase. cbv zeta.
  destruct (cancelled_spec NextPhase w eq_refl) as (stop1 & w1 & E1 & Hq1 & _).
  rewrite (bind_Ok _ _ _ _ _ E1). assert (C1 : calm w w1) by (by apply quiet_calm).
  destruct stop1; [by eexists _, w1|].
  destruct (cancelled_spec NextPhase w1 eq_refl) as (stop2 & w2 & E2 & Hq2 & _).
  rewrite (bind_Ok _ _ _ _ _ E2).
  assert (C2 : calm w w2) by (eapply calm_trans; [exact C1|by apply quiet_calm]).
  destruct stop2; [by eexists _, w2|].
  destruct (uniqueLoop_ok (map_to_list (uniqueLines h1 0 ∅)) doc1 (uniqueLines h2 0 ∅) 0 w2)
    as (r & w3 & E3 & C3).
  rewrite (bind_Ok _ _ _ _ _ E3).
  assert (C13 : calm w w3) by (by eapply calm_trans).
  destruct (_ && _); [by eexists _, w3|].
  match goal with |- context [bind ?m ?k] =>
    assert (okCalm m) as Hm
  end.
  { apply okCalm_forEach. intros x. apply okCalm_forEach. intros y. apply okCalm_addMarker. }
  destruct (Hm w3) as ([] & w4 & E4 & C4).
  rewrite (bind_Ok _ _ _ _ _ E4). eexists _, w4. split; [done|].
  split; [by eapply calm_trans|done].
Qed.

(** [findMoves] leaves the kinds, offsets and lengths of the blocks. *)
Lemma commitRuns_shape runs : forall blockDiffs,
  map (fun bd => (d_type bd, d_off bd, d_len bd)) (commitRuns blockDiffs runs)
  = map (fun bd => (d_type bd, d_off bd, d_len bd)) blockDiffs.
Proof.
  induction runs as [|r runs IH]; intros bs; [done|].
  simpl. change (fold_left _ runs ?b) with (commitRuns b runs). rewrite IH.
  apply list_eq. intros i. rewrite !list_lookup_fmap.
  destruct (bs !! i) as [bd|] eqn:E.
  - by rewrite (commitMatch_lookup _ _ _ _ _ E).
  - assert (commitMatch bs (fst r) (snd r) !! i = None) as ->; [|done].
    apply lookup_ge_None. apply lookup_ge_None in E.
    unfold commitMatch, addMatches. cbv zeta.
    assert (Hlen : forall ms l f bs0,
              length (fold_left (fun bs1 m => addMatch bs1 (fst m) (mkSection (snd m) l, f)) ms bs0)
              = length bs0).
    { induction ms as [|m ms IHm]; intros l f bs0; simpl; [done|].
      rewrite IHm. unfold addMatch. apply length_alter. }
    rewrite !Hlen. unfold addMatch. by rewrite length_alter.
Qed.

Lemma findMoves_first fuel h1 h2 blockDiffs blockDiffs' :
  findMoves fuel h1 h2 blockDiffs = Some blockDiffs' ->
  length blockDiffs' = length blockDiffs
  /\ (d_type <$> head blockDiffs') = (d_type <$> head blockDiffs).
Proof.
  intros Hf. apply findMoves_commits in Hf as (runs & ->).
  pose proof (commitRuns_shape runs blockDiffs) as Hs.
  split.
  - apply (f_equal length) in Hs. by rewrite !length_map in Hs.
  - destruct blockDiffs as [|b bs], (commitRuns _ runs) as [|c cs]; try done.
    simpl in *. by injection Hs as -> _.
Qed.

Lemma insertBlankLines_blankWorld doc1 doc2 w :
  view doc1 <> view doc2 ->
  insertBlankLines doc1 doc2 w
  = Ok (setOff doc1 (off (section doc1) + 1), setOff doc2 (off (section doc2) + 1))
       (blankWorld w).
Proof.
  intros Hv. rewrite insertBlankLines_spec by done. f_equal.
  destruct w as [m s p a ms]. unfold blankWorld.
  destruct (view doc1), (view doc2); done.
Qed.

Lemma movedBlocks_first fuel settings h1 h2 blockDiffs blockDiffs' :
  movedBlocks fuel settings h1 h2 blockDiffs = Some blockDiffs' ->
  (blockDiffs' = [] <-> blockDiffs = [])
  /\ firstNotMatchBlock blockDiffs' = firstNotMatchBlock blockDiffs.
Proof.
  unfold movedBlocks. destruct (DetectMoves settings).
  - intros Hf. apply findMoves_first in Hf as [Hl Hh].
    destruct blockDiffs as [|b bs], blockDiffs' as [|c cs]; try done.
    simpl in *. split; [done|]. by injection Hh as ->.
  - by intros [= ->].
Qed.

(** [movesPhase] after the moves: the blank lines if needed, the rebasing,
    and the rest. *)
Lemma movesPhase_eq DiffCalc fuel doc1 doc2 selectionCompare settings h1 h2 blockDiffs
    alignmentInfo w blockDiffs1 :
  view doc1 <> view doc2 ->
  movedBlocks fuel settings h1 h2 blockDiffs = Some blockDiffs1 ->
  blockDiffs <> [] ->
  movesPhase DiffCalc fuel doc1 doc2 selectionCompare settings h1 h2 blockDiffs alignmentInfo w
  = if needsBlankLines blockDiffs doc1 doc2
    then
      let doc1' := setOff doc1 (off (section doc1) + 1) in
      let doc2' := setOff doc2 (off (section doc2) + 1) in
      pairPhase DiffCalc doc1' doc2' selectionCompare settings (vsize blockDiffs)
        (if negb (off (section doc1) + 1 =? 0) || negb (off (section doc2) + 1 =? 0)
         then rebase doc1' doc2' blockDiffs1 else blockDiffs1)
        alignmentInfo (blankWorld w)
    else
      pairPhase DiffCalc doc1 doc2 selectionCompare settings (vsize blockDiffs)
        (if negb (off (section doc1) =? 0) || negb (off (section doc2) =? 0)
         then rebase doc1 doc2 blockDiffs1 else blockDiffs1)
        alignmentInfo w.
Proof.
  intros Hv Hm Hne. destruct (movedBlocks_first _ _ _ _ _ _ Hm) as [Hnil Hfirst].
  unfold movesPhase, needsBlankLines. cbv zeta. rewrite <- Hfirst.
  unfold movedBlocks in Hm.
  assert ((if DetectMoves settings
           then match findMoves fuel h1 h2 blockDiffs with
                | Some bs => ret bs
                | None => out_of_fuel
                end
           else ret blockDiffs) w = Ok blockDiffs1 w) as E.
  { destruct (DetectMoves settings); [by rewrite Hm|]. by injection Hm as ->. }
  rewrite (bind_Ok _ _ _ _ _ E).
  destruct blockDiffs1 as [|bd0 rest]; [by destruct Hne; apply Hnil|].
  simpl firstNotMatchBlock.
  destruct (negb (bool_decide (d_type bd0 = DIFF_MATCH))
            && ((off (section doc1) =? 0) || (off (section doc2) =? 0))).
  - unfold bind at 1. rewrite insertBlankLines_blankWorld by done. done.
  - unfold bind at 1. done.
Qed.

Lemma blankWorld_noCancel w : noCancel w -> noCancel (blankWorld w).
Proof. done. Qed.

Lemma movesPhase_cases DiffCalc fuel doc1 doc2 selectionCompare settings h1 h2 blockDiffs
    alignmentInfo w :
  view doc1 <> view doc2 ->
  match movesPhase DiffCalc fuel doc1 doc2 selectionCompare settings h1 h2 blockDiffs
                   alignmentInfo w with
  | Ok r w' =>
      (fst r = COMPARE_MISMATCH \/ fst r = COMPARE_CANCELLED)
      /\ blockDiffs <> []
      /\ (if needsBlankLines blockDiffs doc1 doc2 then calm (blankWorld w) w' else calm w w')
      /\ (noCancel w -> fst r = COMPARE_MISMATCH)
  | Throw _ _ => False
  | Undefined => blockDiffs = []
  | OutOfFuel => movedBlocks fuel settings h1 h2 blockDiffs = None
  end.
Proof.
  intros Hv. destruct (movedBlocks fuel settings h1 h2 blockDiffs) as [bs1|] eqn:Hm.
  - destruct (decide (blockDiffs = [])) as [->|Hne].
    + destruct (movedBlocks_first _ _ _ _ _ _ Hm) as [Hnil _].
      assert (bs1 = []) as -> by (by apply Hnil).
      unfold movesPhase, movedBlocks in *. cbv zeta. unfold bind.
      destruct (DetectMoves settings); [rewrite Hm|]; done.
    + rewrite (movesPhase_eq _ _ _ _ _ _ _ _ _ _ _ bs1 Hv Hm Hne).
      destruct (needsBlankLines blockDiffs doc1 doc2); cbv zeta.
      * match goal with |- context [pairPhase ?a ?b ?c ?d ?e ?f ?g ?h ?i] =>
          destruct (pairPhase_ok a b c d e f g h i) as (r & w' & -> & C & Hr & Hn) end.
        split; [done|]. split; [done|]. split; [done|]. intros Hnc. by apply Hn.
      * match goal with |- context [pairPhase ?a ?b ?c ?d ?e ?f ?g ?h ?i] =>
          destruct (pairPhase_ok a b c d e f g h i) as (r & w' & -> & C & Hr & Hn) end.
        split; [done|]. split; [done|]. split; [done|]. done.
  - unfold movesPhase, movedBlocks in *. cbv zeta. unfold bind.
    destruct (DetectMoves settings); [rewrite Hm|]; done.
Qed.

Lemma isSingleMatchBlock_toBlock diff :
  isSingleMatchBlock (map toBlock diff) = isSingleMatch diff.
Proof. by destruct diff as [|s [|s' rest]]. Qed.

Lemma firstNotMatchBlock_toBlock diff :
  firstNotMatchBlock (map toBlock diff) = firstNotMatch diff.
Proof. by destruct diff. Qed.

Lemma diffPhase_cases DiffCalc fuel doc1 doc2 selectionCompare settings h1 h2 alignmentInfo w :
  view doc1 <> view doc2 ->
  if isSingleMatch (lineDiff DiffCalc h1 h2)
  then diffPhase DiffCalc fuel doc1 doc2 selectionCompare settings h1 h2 alignmentInfo w
       = Ok (COMPARE_MATCH, alignmentInfo) w
  else
    match diffPhase DiffCalc fuel doc1 doc2 selectionCompare settings h1 h2 alignmentInfo w with
    | Ok r w' =>
        (fst r = COMPARE_MISMATCH \/ fst r = COMPARE_CANCELLED)
        /\ lineDiff DiffCalc h1 h2 <> []
        /\ (if firstNotMatch (lineDiff DiffCalc h1 h2)
               && ((off (section doc1) =? 0) || (off (section doc2) =? 0))
            then calm (blankWorld w) w' else calm w w')
        /\ (noCancel w -> fst r = COMPARE_MISMATCH)
    | Throw _ _ => False
    | Undefined => lineDiff DiffCalc h1 h2 = []
    | OutOfFuel => DetectMoves settings = true
    end.
Proof.
  intros Hv. unfold diffPhase, lineDiff.
  destruct (vsize h1 <? vsize h2).
  - rewrite isSingleMatchBlock_toBlock.
    destruct (isSingleMatch (DiffCalc h2 h1)) eqn:Es; [done|].
    pose proof (movesPhase_cases DiffCalc fuel doc2 doc1 selectionCompare settings h2 h1
                  (map toBlock (DiffCalc h2 h1)) alignmentInfo w ltac:(congruence)) as Hc.
    destruct (movesPhase _ _ _ _ _ _ _ _ _ _ w) as [r w'| | |].
    + destruct Hc as (Hr & Hne & Hcalm & Hn). split; [done|].
      split; [by destruct (DiffCalc h2 h1)|]. split; [|done].
      unfold needsBlankLines in Hcalm. rewrite firstNotMatchBlock_toBlock in Hcalm.
      by rewrite (orb_comm (off (section doc1) =? 0)).
    + done.
    + by destruct (DiffCalc h2 h1).
    + unfold movedBlocks in Hc. by destruct (DetectMoves settings).
  - rewrite isSingleMatchBlock_toBlock.
    destruct (isSingleMatch (DiffCalc h1 h2)) eqn:Es; [done|].
    pose proof (movesPhase_cases DiffCalc fuel doc1 doc2 selectionCompare settings h1 h2
                  (map toBlock (DiffCalc h1 h2)) alignmentInfo w Hv) as Hc.
    destruct (movesPhase _ _ _ _ _ _ _ _ _ _ w) as [r w'| | |].
    + destruct Hc as (Hr & Hne & Hcalm & Hn). split; [done|].
      split; [by destruct (DiffCalc h1 h2)|]. split; [|done].
      unfold needsBlankLines in Hcalm. by rewrite firstNotMatchBlock_toBlock in Hcalm.
    + done.
    + by destruct (DiffCalc h1 h2).
    + unfold movedBlocks in Hc. by destruct (DetectMoves settings).
Qed.

(** What a compare run does, by the outcome of the hashing. *)
Lemma runCompare_cases DiffCalc fuel mainViewSection subViewSection settings alignmentInfo w :
  match hashing mainViewSection subViewSection settings w with
  | Ok (Some (r1, r2)) w1 =>
      quiet w w1 /\
      if isSingleMatch (lineDiff DiffCalc (fst r1) (fst r2))
      then runCompare DiffCalc fuel mainViewSection subViewSection settings alignmentInfo w
           = Ok (COMPARE_MATCH, alignmentInfo) w1
      else
        match runCompare DiffCalc fuel mainViewSection subViewSection settings alignmentInfo w with
        | Ok r w' =>
            (fst r = COMPARE_MISMATCH \/ fst r = COMPARE_CANCELLED)
            /\ lineDiff DiffCalc (fst r1) (fst r2) <> []
            /\ (if firstNotMatch (lineDiff DiffCalc (fst r1) (fst r2))
                   && ((off mainViewSection =? 0) || (off subViewSection =? 0))
                then calm (blankWorld w1) w' else calm w1 w')
            /\ (noCancel w1 -> fst r = COMPARE_MISMATCH)
        | Throw _ _ => False
        | Undefined => lineDiff DiffCalc (fst r1) (fst r2) = []
        | OutOfFuel => DetectMoves settings = true
        end
  | Ok None w1 =>
      quiet w w1 /\
      runCompare DiffCalc fuel mainViewSection subViewSection settings alignmentInfo w
      = Ok (COMPARE_CANCELLED, alignmentInfo) w1
  | Throw e w1 =>
      quiet w w1 /\
      runCompare DiffCalc fuel mainViewSection subViewSection settings alignmentInfo w
      = Throw e w1
  | _ => False
  end.
Proof.
  pose proof (hashing_general mainViewSection subViewSection settings w) as Hh.
  assert (Hrun := runCompare_hashing DiffCalc fuel mainViewSection subViewSection settings
                    alignmentInfo w).
  unfold bind in Hrun.
  destruct (hashing mainViewSection subViewSection settings w) as [[[r1 r2]|] w1|e w1| |];
    try done.
  destruct Hh as (Hq & Hv1 & Ho1 & Hv2 & Ho2). split; [done|]. rewrite Hrun.
  pose proof (diffPhase_cases DiffCalc fuel (snd r1) (snd r2)
                (negb (len mainViewSection =? 0) || negb (len subViewSection =? 0))
                settings (fst r1) (fst r2) alignmentInfo w1 ltac:(congruence)) as Hc.
  rewrite Ho1, Ho2 in Hc. exact Hc.
Qed.

(** C5: in compare mode, once the two documents are hashed, a line-level
    diff that is exactly one MATCH block makes the run return MATCH, and any
    other diff makes a run that returns return MISMATCH unless it was
    cancelled (it never returns MATCH then); a run cancelled during the
    hashing returns CANCELLED.  With a diff that is not empty, no
    cancellation and move detection off, the run does return MISMATCH. *)
Theorem compare_match_iff_single_match DiffCalc fuel mainViewSection subViewSection settings
    alignmentInfo w :
  match hashing mainViewSection subViewSection settings w with
  | Ok (Some (r1, r2)) w1 =>
      let diff := lineDiff DiffCalc (fst r1) (fst r2) in
      (isSingleMatch diff = true ->
       runCompare DiffCalc fuel mainViewSection subViewSection settings alignmentInfo w
       = Ok (COMPARE_MATCH, alignmentInfo) w1)
      /\ (isSingleMatch diff = false ->
          forall r w',
            runCompare DiffCalc fuel mainViewSection subViewSection settings alignmentInfo w
            = Ok r w' ->
            fst r <> COMPARE_MATCH
            /\ (fst r <> COMPARE_CANCELLED -> fst r = COMPARE_MISMATCH))
      /\ (isSingleMatch diff = false -> diff <> [] -> noCancel w1 ->
          DetectMoves settings = false ->
          exists a w',
            runCompare DiffCalc fuel mainViewSection subViewSection settings alignmentInfo w
            = Ok (COMPARE_MISMATCH, a) w')
  | Ok None w1 =>
      runCompare DiffCalc fuel mainViewSection subViewSection settings alignmentInfo w
      = Ok (COMPARE_CANCELLED, alignmentInfo) w1
  | Throw e w1 =>
      runCompare DiffCalc fuel mainViewSection subViewSection settings alignmentInfo w
      = Throw e w1
  | _ => False
  end.
Proof.
  pose proof (runCompare_cases DiffCalc fuel mainViewSection subViewSection settings
                alignmentInfo w) as Hc.
  destruct (hashing mainViewSection subViewSection settings w) as [[[r1 r2]|] w1|e w1| |];
    try done; try apply Hc.
  destruct Hc as [_ Hc]. cbv zeta.
  destruct (isSingleMatch (lineDiff DiffCalc (fst r1) (fst r2))).
  - split; [done|]. split; intros; done.
  - split; [done|].
    destruct (runCompare DiffCalc fuel mainViewSection subViewSection settings alignmentInfo w)
      as [r w'|e w'| |]; try done.
    + destruct Hc as (Hr & Hne & _ & Hn). split.
      * intros _ r0 w0 [= <- <-]. split; [intros E; rewrite E in Hr; by destruct Hr|].
        intros Hnc. by destruct Hr.
      * intros _ _ Hnc _. destruct r as [res a]. simpl in *. rewrite (Hn Hnc). by exists a, w'.
    + split; [intros _ r0 w0 [=]|]. intros _ _ _ Hd. congruence.
Qed.

Lemma runFindUnique_cases mainViewSection subViewSection settings alignmentInfo w :
  match runFindUnique mainViewSection subViewSection settings alignmentInfo w with
  | Ok r w' => calm w w' /\ fst r <> COMPARE_ERROR
  | Throw e w' => calm w w'
  | _ => False
  end.
Proof.
  pose proof (hashing_general mainViewSection subViewSection settings w) as Hh.
  rewrite runFindUnique_hashing. unfold bind.
  destruct (hashing mainViewSection subViewSection settings w) as [[[r1 r2]|] w1|e w1| |];
    try done.
  - destruct Hh as (Hq & _).
    destruct (uniquePhase_ok (snd r1) (snd r2) mainViewSection subViewSection (fst r1) (fst r2)
                [] w1) as (r & w' & -> & C & Hr).
    split; [|done]. eapply calm_trans; [by apply quiet_calm|done].
  - split; [by apply quiet_calm|done].
  - by apply quiet_calm.
Qed.

Lemma calm_sameTexts w w' : calm w w' -> sameTexts w w'.
Proof. intros ((T1 & _) & (T2 & _) & _). by split. Qed.

Lemma calm_blank w w' : calm (blankWorld w) w' -> blankLinesInserted w w'.
Proof. intros ((T1 & M1 & _) & (T2 & M2 & _) & _). by repeat split. Qed.

Lemma sameTexts_not_inserted w w' : sameTexts w w' -> ~ blankLinesInserted w w'.
Proof.
  intros [T1 _] [B1 _]. rewrite T1 in B1. apply (f_equal length) in B1. simpl in B1. lia.
Qed.

Lemma blankLinesInserted_quiet w w1 w' :
  quiet w w1 -> blankLinesInserted w1 w' -> blankLinesInserted w w'.
Proof. intros (A1 & A2 & _). unfold blankLinesInserted. by rewrite A1, A2. Qed.

Lemma sameTexts_trans w1 w2 w3 : sameTexts w1 w2 -> sameTexts w2 w3 -> sameTexts w1 w3.
Proof. intros [A1 A2] [B1 B2]. split; congruence. Qed.

(** The outcome of a compare run and the text of the documents. *)
Lemma runCompare_texts DiffCalc fuel mainViewSection subViewSection settings alignmentInfo w :
  match runCompare DiffCalc fuel mainViewSection subViewSection settings alignmentInfo w with
  | Ok r w' =>
      fst r <> COMPARE_ERROR
      /\ messages w' = messages w
      /\ (blankLinesNeeded DiffCalc mainViewSection subViewSection settings w ->
          blankLinesInserted w w')
      /\ (~ blankLinesNeeded DiffCalc mainViewSection subViewSection settings w ->
          sameTexts w w')
  | Throw e w' => quiet w w'
  | _ => True
  end.
Proof.
  pose proof (runCompare_cases DiffCalc fuel mainViewSection subViewSection settings
                alignmentInfo w) as Hc.
  unfold blankLinesNeeded.
  destruct (hashing mainViewSection subViewSection settings w) as [[[r1 r2]|] w1|e w1| |];
    try done.
  - destruct Hc as [Hq Hc].
    assert (Hmsg : messages w1 = messages w) by apply Hq.
    destruct (isSingleMatch (lineDiff DiffCalc (fst r1) (fst r2))) eqn:Es.
    + rewrite Hc. split; [done|]. split; [done|]. split.
      * intros (r1' & r2' & w1' & [= <- <- <-] & Hf & _).
        destruct (lineDiff DiffCalc (fst r1) (fst r2)) as [|s [|s' rest]]; try done.
        simpl in *. rewrite Es in Hf. done.
      * intros _. by apply calm_sameTexts, quiet_calm.
    + destruct (runCompare DiffCalc fuel mainViewSection subViewSection settings alignmentInfo w)
        as [r w'|e w'| |]; try done.
      destruct Hc as (Hr & Hne & Hcalm & _).
      split; [by destruct Hr as [-> | ->]|].
      destruct (firstNotMatch (lineDiff DiffCalc (fst r1) (fst r2))) eqn:Ef; simpl in Hcalm.
      * destruct ((off mainViewSection =? 0) || (off subViewSection =? 0)) eqn:Eo.
        -- split; [destruct Hcalm as (_ & _ & -> & _); done|]. split.
           ++ intros _. eapply blankLinesInserted_quiet; [exact Hq|]. by apply calm_blank.
           ++ intros Hn. destruct Hn. exists r1, r2, w1. split; [done|]. split; [done|].
              apply orb_true_iff in Eo as [Eo|Eo]; apply Z.eqb_eq in Eo; tauto.
        -- split; [destruct Hcalm as (_ & _ & -> & _); done|]. split.
           ++ intros (r1' & r2' & w1' & _ & _ & Ho).
              apply orb_false_iff in Eo as [E1 E2]. apply Z.eqb_neq in E1, E2. tauto.
           ++ intros _. eapply sameTexts_trans; [apply calm_sameTexts, quiet_calm, Hq|].
              by apply calm_sameTexts.
      * split; [destruct Hcalm as (_ & _ & -> & _); done|]. split.
        -- intros (r1' & r2' & w1' & [= <- <- <-] & Hf & _). congruence.
        -- intros _. eapply sameTexts_trans; [apply calm_sameTexts, quiet_calm, Hq|].
           by apply calm_sameTexts.
  - destruct Hc as [Hq ->]. split; [done|]. split; [apply Hq|]. split.
    + intros (r1' & r2' & w1' & [=] & _).
    + intros _. by apply calm_sameTexts, quiet_calm.
  - by destruct Hc as [Hq ->].
Qed.

Lemma rebase_offsets doc1 doc2 blockDiffs i bd :
  blockDiffs !! i = Some bd ->
  rebase doc1 doc2 blockDiffs !! i
  = Some (addOff bd (if bool_decide (d_type bd = DIFF_IN_2)
                     then off (section doc2) else off (section doc1))).
Proof.
  intros Hi. unfold rebase. rewrite list_lookup_fmap, Hi. simpl. by destruct (d_type bd).
Qed.

Lemma compareViews_run (DiffCalc : list Z -> list Z -> list span) (fuel : nat)
    mainViewSection subViewSection (findUniqueMode : bool) settings
    (progressInfo : bool) alignmentInfo (w : World) :
  let w0 := if progressInfo then openWorld w else w in
  compareViews DiffCalc fuel mainViewSection subViewSection findUniqueMode settings
               progressInfo alignmentInfo w
  = match (if findUniqueMode
           then runFindUnique mainViewSection subViewSection settings alignmentInfo
           else runCompare DiffCalc fuel mainViewSection subViewSection settings alignmentInfo)
          w0 with
    | Ok r w1 =>
        Ok r (mkWorld (mainDoc w1) (subDoc w1) None (answers w1) (messages w1))
    | Throw e w1 =>
        Ok (COMPARE_ERROR, if findUniqueMode then [] else alignmentInfo)
           (mkWorld (mainDoc w1) (subDoc w1) None (answers w1) (messages w1 ++ [messageOf e]))
    | Undefined => Undefined
    | OutOfFuel => OutOfFuel
    end.
Proof.
  unfold compareViews. cbv zeta. unfold bind at 1.
  assert ((if progressInfo then ProgressDlg_Open else ret tt) w
          = Ok tt (if progressInfo then openWorld w else w)) as -> by (by destruct progressInfo).
  set (w0 := if progressInfo then openWorld w else w).
  destruct findUniqueMode.
  - destruct (runFindUnique mainViewSection subViewSection settings alignmentInfo w0)
      as [r w1|[what|] w1| |]; done.
  - destruct (runCompare DiffCalc fuel mainViewSection subViewSection settings alignmentInfo w0)
      as [r w1|[what|] w1| |]; done.
Qed.

(** Whether the workaround applies to a run is decided by its hashing. *)
Lemma classic_blank DiffCalc mainViewSection subViewSection settings w :
  blankLinesNeeded DiffCalc mainViewSection subViewSection settings w
  \/ ~ blankLinesNeeded DiffCalc mainViewSection subViewSection settings w.
Proof.
  unfold blankLinesNeeded.
  destruct (hashing mainViewSection subViewSection settings w) as [[[r1 r2]|] w1|e w1| |];
    try (right; intros (? & ? & ? & [=] & _); fail).
  destruct (firstNotMatch (lineDiff DiffCalc (fst r1) (fst r2))) eqn:Ef.
  - destruct (decide (off mainViewSection = 0 \/ off subViewSection = 0)) as [Ho|Ho].
    + left. by exists r1, r2, w1.
    + right. intros (? & ? & ? & _ & _ & Ho'). done.
  - right. intros (? & ? & ? & [= <- <- <-] & Hf & _). congruence.
Qed.

(** C8: the engine changes the text of the documents in one way only, by
    the blank line [runCompare] inserts at the beginning of both: the
    insertion puts one LF before the text of each document, leaves a
    document that was unmodified unmodified, and increments both section
    offsets, so that the blocks are rebased by the incremented offsets; it
    happens exactly when the first block of the line-level diff is not a
    MATCH and a compared section starts at offset 0; a compare run that
    returns leaves the text as it was otherwise, a find-unique run always,
    and so does the entry point around them. *)
Theorem leading_newline_only_text_mutation :
  (forall doc1 doc2 w,
     view doc1 <> view doc2 ->
     insertBlankLines doc1 doc2 w
     = Ok (setOff doc1 (off (section doc1) + 1), setOff doc2 (off (section doc2) + 1))
          (blankWorld w)
     /\ blankLinesInserted w (blankWorld w))
  /\ (forall DiffCalc fuel doc1 doc2 selectionCompare settings h1 h2 blockDiffs alignmentInfo w
             blockDiffs1,
        view doc1 <> view doc2 ->
        movedBlocks fuel settings h1 h2 blockDiffs = Some blockDiffs1 ->
        blockDiffs <> [] ->
        needsBlankLines blockDiffs doc1 doc2 = true ->
        0 <= off (section doc1) -> 0 <= off (section doc2) ->
        movesPhase DiffCalc fuel doc1 doc2 selectionCompare settings h1 h2 blockDiffs
                   alignmentInfo w
        = pairPhase DiffCalc (setOff doc1 (off (section doc1) + 1))
                    (setOff doc2 (off (section doc2) + 1)) selectionCompare settings
                    (vsize blockDiffs)
                    (rebase (setOff doc1 (off (section doc1) + 1))
                            (setOff doc2 (off (section doc2) + 1)) blockDiffs1)
                    alignmentInfo (blankWorld w)
        /\ forall i bd,
             blockDiffs1 !! i = Some bd ->
             rebase (setOff doc1 (off (section doc1) + 1))
                    (setOff doc2 (off (section doc2) + 1)) blockDiffs1 !! i
             = Some (addOff bd (if bool_decide (d_type bd = DIFF_IN_2)
                                then off (section doc2) + 1 else off (section doc1) + 1)))
  /\ (forall DiffCalc fuel mainViewSection subViewSection settings alignmentInfo w r w',
        runCompare DiffCalc fuel mainViewSection subViewSection settings alignmentInfo w
        = Ok r w' ->
        (blankLinesNeeded DiffCalc mainViewSection subViewSection settings w ->
         blankLinesInserted w w')
        /\ (~ blankLinesNeeded DiffCalc mainViewSection subViewSection settings w ->
            sameTexts w w'))
  /\ (forall mainViewSection subViewSection settings alignmentInfo w r w',
        runFindUnique mainViewSection subViewSection settings alignmentInfo w = Ok r w' ->
        sameTexts w w')
  /\ (forall DiffCalc fuel mainViewSection subViewSection findUniqueMode settings progressInfo
             alignmentInfo w r w',
        compareViews DiffCalc fuel mainViewSection subViewSection findUniqueMode settings
                     progressInfo alignmentInfo w = Ok r w' ->
        sameTexts w w'
        \/ (findUniqueMode = false /\ fst r <> COMPARE_ERROR /\ blankLinesInserted w w')).
Proof.
  split; [|split; [|split; [|split]]].
  - intros doc1 doc2 w Hv. split; [by apply insertBlankLines_blankWorld|]. by repeat split.
  - intros DiffCalc fuel doc1 doc2 sel settings h1 h2 bs ai w bs1 Hv Hm Hne Hnb H1 H2.
    rewrite (movesPhase_eq _ _ _ _ _ _ _ _ _ _ _ bs1 Hv Hm Hne), Hnb. cbv zeta.
    destruct (Z.eqb_spec (off (section doc1) + 1) 0); [lia|]. simpl. split; [done|].
    intros i bd Hi. by rewrite (rebase_offsets _ _ _ _ _ Hi).
  - intros DiffCalc fuel ms ss settings ai w r w' E.
    pose proof (runCompare_texts DiffCalc fuel ms ss settings ai w) as Ht.
    rewrite E in Ht. destruct Ht as (_ & _ & H1 & H2). by split.
  - intros ms ss settings ai w r w' E.
    pose proof (runFindUnique_cases ms ss settings ai w) as Ht.
    rewrite E in Ht. destruct Ht as [C _]. by apply calm_sameTexts.
  - intros DiffCalc fuel ms ss mode settings pinfo ai w r w' E.
    rewrite compareViews_run in E. cbv zeta in E.
    set (w0 := if pinfo then openWorld w else w) in *.
    assert (Hw0 : sameTexts w w0 /\ forall w2, blankLinesInserted w0 w2 -> blankLinesInserted w w2).
    { subst w0. destruct pinfo; split; done. }
    destruct Hw0 as [Hs0 Hb0].
    destruct mode.
    + pose proof (runFindUnique_cases ms ss settings ai w0) as Ht.
      destruct (runFindUnique ms ss settings ai w0) as [r1 w1|e w1| |]; try done.
      * injection E as <- <-. left. destruct Ht as [C _]. apply calm_sameTexts in C.
        destruct C, Hs0. split; simpl; congruence.
      * injection E as <- <-. left. apply calm_sameTexts in Ht.
        destruct Ht, Hs0. split; simpl; congruence.
    + pose proof (runCompare_texts DiffCalc fuel ms ss settings ai w0) as Ht.
      destruct (runCompare DiffCalc fuel ms ss settings ai w0) as [r1 w1|e w1| |]; try done.
      * injection E as <- <-. destruct Ht as (Hr & _ & H1 & H2).
        destruct (classic_blank DiffCalc ms ss settings w0) as [Hn|Hn].
        -- right. split; [done|]. split; [done|]. apply Hb0. specialize (H1 Hn).
           destruct H1 as (T1 & T2 & M1 & M2). by repeat split.
        -- left. specialize (H2 Hn). destruct H2, Hs0. split; simpl; congruence.
      * injection E as <- <-. left. apply quiet_calm, calm_sameTexts in Ht.
        destruct Ht, Hs0. split; simpl; congruence.
Qed.


(** A compare of a section that starts beyond the end of the document
    throws while hashing; the entry point returns ERROR with the dialog
    closed and the message shown. *)
Lemma section_beyond_document_is_error :
  exists w',
    compareViews lcsDiff 10 (mkSection 5 0) wholeDoc false
                 (mkSettings MAIN_VIEW true false false) true []
                 (worldOf ["a"]%string ["a"]%string)
    = Ok (COMPARE_ERROR, []) w'
    /\ progress w' = None
    /\ messages w' = ["Exception occurred: vector too long"%string].
Proof. eexists. split; [vm_compute; reflexivity|]. split; reflexivity. Qed.


(** ** MoveFinder: the loops end *)

Lemma blockAt_len_le (bound : Z) blockDiffs k :
  0 <= bound -> Forall (fun bd => d_len bd <= bound) blockDiffs ->
  d_len (blockAt blockDiffs k) <= bound.
Proof.
  intros Hb Hall. unfold blockAt. destruct (blockDiffs !! k) as [bd|] eqn:E; simpl; [|done].
  rewrite Forall_forall in Hall. apply Hall. apply list_elem_of_lookup. by exists k.
Qed.

Lemma scanBegin_ends h1 h2 n diff1 diff2 : forall start1 start2,
  -1 <= start1 -> start1 < Z.of_nat n ->
  exists s1 s2,
    scanBegin h1 h2 n diff1 diff2 start1 start2 = Some (s1, s2)
    /\ -1 <= s1 <= start1 /\ start1 - s1 = start2 - s2.
Proof.
  induction n as [|n IH]; intros start1 start2 Hlo Hn; simpl.
  - destruct (Z.leb_spec 0 start1); [lia|]. simpl. exists start1, start2. split; [done|lia].
  - destruct (_ && _ && _ && _) eqn:E.
    + apply andb_true_iff in E as [E _]. apply andb_true_iff in E as [E _].
      apply andb_true_iff in E as [E _]. apply Z.leb_le in E.
      destruct (IH (start1 - 1) (start2 - 1)) as (s1 & s2 & -> & Hs & Hd); [lia|lia|].
      exists s1, s2. split; [done|]. lia.
    + exists start1, start2. split; [done|lia].
Qed.

Lemma scanEnd_ends h1 h2 n diff1 diff2 : forall end1 end2,
  d_len diff1 - end1 <= Z.of_nat n ->
  exists e,
    scanEnd h1 h2 n diff1 diff2 end1 end2 = Some e
    /\ end1 <= e <= Z.max end1 (d_len diff1).
Proof.
  induction n as [|n IH]; intros end1 end2 Hn; simpl.
  - destruct (Z.ltb_spec end1 (d_len diff1)); [lia|]. simpl. exists end1. split; [done|lia].
  - destruct (_ && _ && _ && _) eqn:E.
    + apply andb_true_iff in E as [E _]. apply andb_true_iff in E as [E _].
      apply andb_true_iff in E as [E _]. apply Z.ltb_lt in E.
      destruct (IH (end1 + 1) (end2 + 1)) as (e & -> & He); [lia|].
      exists e. split; [done|]. lia.
    + exists end1. split; [done|lia].
Qed.

Lemma findMatchesIn_ends fuel h1 h2 n diff1 ei1 di2 diff2
    (Hei1 : 0 <= ei1 < d_len diff1) (Hfuel : d_len diff1 <= Z.of_nat fuel) :
  forall ei2 mi minMatchLen,
  d_len diff2 - ei2 <= Z.of_nat n -> 1 <= minMatchLen -> runAround mi ei1 diff1 ->
  exists mi' minMatchLen',
    findMatchesIn fuel h1 h2 n diff1 ei1 di2 diff2 ei2 mi minMatchLen = Some (mi', minMatchLen')
    /\ 1 <= minMatchLen' /\ runAround mi' ei1 diff1.
Proof.
  induction n as [|n IH]; intros ei2 mi mml Hn Hmml Hmi; simpl.
  - destruct (Z.leb_spec mml (d_len diff2 - ei2)); [lia|]. by exists mi, mml.
  - destruct (Z.leb_spec mml (d_len diff2 - ei2)); [|by exists mi, mml].
    destruct (negb (_ =? _)); [apply IH; [lia|done|done]|].
    pose proof (matchedSection_pos (info diff2) ei2) as Hp.
    destruct (negb (fst (matchedSection (info diff2) ei2) =? 0)) eqn:Em.
    { apply negb_true_iff, Z.eqb_neq in Em. apply IH; [lia|done|done]. }
    destruct (scanBegin_ends h1 h2 fuel diff1 diff2 (ei1 - 1) (ei2 - 1))
      as (s1 & s2 & -> & Hs1 & Hd); [lia|lia|].
    destruct (scanEnd_ends h1 h2 fuel diff1 diff2 (ei1 + 1) (ei2 + 1))
      as (e & -> & He); [lia|].
    cbv zeta.
    destruct (Z.ltb_spec (e - 1 - (s1 + 1) + 1) (len (sec mi))) as [Hlt|Hge];
      [apply IH; [lia|done|done]|].
    destruct (Z.ltb_spec (len (sec mi)) (e - 1 - (s1 + 1) + 1)) as [Hlt2|Hge2]; simpl.
    + rewrite Z.eqb_refl. apply IH; [lia|lia|]. right. simpl. lia.
    + destruct (Z.eqb_spec (len (sec mi)) (e - 1 - (s1 + 1) + 1)) as [Heq|Hne]; [|lia].
      apply IH; [lia|done|]. destruct Hmi as [Hz|Hr]; [left; done|right; done].
Qed.

Lemma findMatchesOver_ends fuel h1 h2 diff1 ei1 rest : forall di2 mi minMatchLen,
  0 <= ei1 < d_len diff1 -> d_len diff1 <= Z.of_nat fuel ->
  Forall (fun bd => d_len bd <= Z.of_nat fuel) rest ->
  1 <= minMatchLen -> runAround mi ei1 diff1 ->
  exists mi',
    findMatchesOver fuel h1 h2 diff1 ei1 di2 rest mi minMatchLen = Some mi'
    /\ runAround mi' ei1 diff1.
Proof.
  induction rest as [|diff2 rest IH]; intros di2 mi mml Hei1 Hfuel Hall Hmml Hmi; simpl.
  - by exists mi.
  - apply Forall_cons in Hall as [H2 Hall].
    destruct (negb _); [by apply IH|].
    destruct (findMatchesIn_ends fuel h1 h2 fuel diff1 ei1 di2 diff2 Hei1 Hfuel 0 mi mml)
      as (mi' & mml' & -> & Hm' & Hr'); [lia|done|done|].
    by apply IH.
Qed.

Lemma findMatches_ends fuel h1 h2 blockDiffs diff1 ei1 mi :
  0 <= ei1 < d_len diff1 -> d_len diff1 <= Z.of_nat fuel ->
  Forall (fun bd => d_len bd <= Z.of_nat fuel) blockDiffs ->
  exists mi',
    findMatches fuel h1 h2 blockDiffs diff1 ei1 mi = Some mi' /\ runAround mi' ei1 diff1.
Proof.
  intros Hei1 Hfuel Hall. unfold findMatches.
  apply findMatchesOver_ends; [done|done|done|lia|by left].
Qed.

Lemma sameBlock_ends h1 n bestOff otherOff length : forall k,
  length - k <= Z.of_nat n ->
  exists k', sameBlock h1 n bestOff otherOff length k = Some k'.
Proof.
  induction n as [|n IH]; intros k Hn; simpl.
  - destruct (Z.ltb_spec k length); [lia|]. simpl. by exists k.
  - destruct (_ && _) eqn:E; [|by exists k].
    apply andb_true_iff in E as [E _]. apply Z.ltb_lt in E. apply IH. lia.
Qed.

Lemma findBetterMatchIn_ends fuel h1 h2 blockDiffs di n
    (Hall : Forall (fun bd => d_len bd <= Z.of_nat fuel) blockDiffs) :
  forall i ei bestMatchDiff best_mi,
  0 <= i -> d_len (blockAt blockDiffs di) - i <= Z.of_nat n ->
  bestRun blockDiffs ei bestMatchDiff best_mi ->
  exists ei' bestMatchDiff' best_mi',
    findBetterMatchIn fuel h1 h2 n blockDiffs di i ei bestMatchDiff best_mi
    = Some (ei', bestMatchDiff', best_mi')
    /\ bestRun blockDiffs ei' bestMatchDiff' best_mi'.
Proof.
  assert (Hdi : d_len (blockAt blockDiffs di) <= Z.of_nat fuel)
    by (apply blockAt_len_le; [lia|done]).
  induction n as [|n IH]; intros i ei bmd best Hi Hn Hbest; simpl.
  - destruct Hbest as (Ho & Hl & Hu).
    destruct (Z.leb_spec (len (sec best)) (d_len (blockAt blockDiffs di) - i)); [lia|].
    by exists ei, bmd, best.
  - destruct (Z.leb_spec (len (sec best)) (d_len (blockAt blockDiffs di) - i)) as [Hle|Hgt];
      [|by exists ei, bmd, best].
    assert (Hlen : 1 <= len (sec best)) by (destruct Hbest as (Ho & Hl & Hu); lia).
    destruct (negb (_ =? _)); [apply IH; [lia|lia|done]|].
    pose proof (matchedSection_pos (info (blockAt blockDiffs di)) i) as Hp.
    destruct (negb (fst (matchedSection (info (blockAt blockDiffs di)) i) =? 0)) eqn:Em.
    { apply negb_true_iff, Z.eqb_neq in Em. apply IH; [lia|lia|done]. }
    apply negb_false_iff, Z.eqb_eq in Em.
    destruct (findMatches_ends fuel h1 h2 blockDiffs (blockAt blockDiffs di) i
                (mkMatchInfo (mkSection 0 0) [] [])) as (mi & -> & Hmi); [lia|done|done|].
    destruct (Z.eqb_spec (len (sec mi)) 0) as [Hz|Hnz]; [apply IH; [lia|lia|done]|].
    destruct Hmi as [Hz|(Ho & Hl)]; [done|].
    destruct (Z.ltb_spec (len (sec best)) (len (sec mi))) as [Hlt|Hge].
    { apply IH; [lia|lia|]. by split; [|split]. }
    destruct (Z.eqb_spec (len (sec best)) (len (sec mi))) as [Heq|Hne];
      [|apply IH; [lia|lia|done]].
    destruct (sameBlock_ends h1 fuel
                (d_off (blockAt blockDiffs bmd) + off (sec best))
                (d_off (blockAt blockDiffs di) + off (sec mi)) (len (sec mi)) 0)
      as (k & ->); [lia|].
    destruct (k =? len (sec mi)); [|apply IH; [lia|lia|done]].
    apply IH; [lia|lia|]. destruct Hbest as (Ho' & Hl' & Hu'). by split; [|split].
Qed.

Lemma findBetterMatch_ends fuel h1 h2 blockDiffs di ei bestMatchDiff best_mi :
  Forall (fun bd => d_len bd <= Z.of_nat fuel) blockDiffs ->
  bestRun blockDiffs ei bestMatchDiff best_mi ->
  exists ei' bestMatchDiff' best_mi',
    findBetterMatch fuel h1 h2 blockDiffs di ei bestMatchDiff best_mi
    = Some (ei', bestMatchDiff', best_mi')
    /\ bestRun blockDiffs ei' bestMatchDiff' best_mi'.
Proof.
  intros Hall Hbest. unfold findBetterMatch.
  assert (Hdi : d_len (blockAt blockDiffs di) <= Z.of_nat fuel)
    by (apply blockAt_len_le; [lia|done]).
  pose proof Hbest as (Ho & Hl & Hu).
  apply findBetterMatchIn_ends; [done| | |done]; case_bool_decide; lia.
Qed.

Lemma findBetterIn_ends fuel h1 h2 blockDiffs di2s : forall bmi bestMatchDiff best_mi,
  Forall (fun bd => d_len bd <= Z.of_nat fuel) blockDiffs ->
  bestRun blockDiffs bmi bestMatchDiff best_mi ->
  exists bmi' bestMatchDiff' best_mi',
    findBetterIn fuel h1 h2 blockDiffs di2s bmi bestMatchDiff best_mi
    = Some (bmi', bestMatchDiff', best_mi')
    /\ bestRun blockDiffs bmi' bestMatchDiff' best_mi'.
Proof.
  induction di2s as [|di2 rest IH]; intros bmi bmd best Hall Hbest; simpl.
  - by exists bmi, bmd, best.
  - case_bool_decide; [|by apply IH].
    destruct (findBetterMatch_ends fuel h1 h2 blockDiffs di2 bmi bmd best Hall Hbest)
      as (bmi' & bmd' & best' & -> & Hbest').
    by apply IH.
Qed.

Lemma bestMatchFor_ends fuel h1 h2 blockDiffs di1 ei1 :
  Forall (fun bd => d_len bd <= Z.of_nat fuel) blockDiffs ->
  0 <= ei1 < d_len (blockAt blockDiffs di1) ->
  fst (matchedSection (info (blockAt blockDiffs di1)) ei1) = 0 ->
  exists r,
    bestMatchFor fuel h1 h2 blockDiffs di1 ei1 = Some r
    /\ match r with
       | Some (bmi, bestMatchDiff, best_mi) => bestRun blockDiffs bmi bestMatchDiff best_mi
       | None => True
       end.
Proof.
  intros Hall Hei1 Hun. unfold bestMatchFor.
  assert (Hdi : d_len (blockAt blockDiffs di1) <= Z.of_nat fuel)
    by (apply blockAt_len_le; [lia|done]).
  destruct (findMatches_ends fuel h1 h2 blockDiffs (blockAt blockDiffs di1) ei1
              (mkMatchInfo (mkSection 0 0) [] [])) as (mi & -> & Hmi); [done|done|done|].
  destruct (Z.eqb_spec (len (sec mi)) 0) as [Hz|Hnz]; [by exists None|].
  destruct Hmi as [Hz|(Ho & Hl)]; [done|].
  assert (Hbest : bestRun blockDiffs ei1 di1 mi) by (by split; [|split]).
  destruct (findBetterMatch_ends fuel h1 h2 blockDiffs di1 ei1 di1 mi Hall Hbest)
    as (bmi & bmd & best & -> & Hbest1).
  destruct (findBetterIn_ends fuel h1 h2 blockDiffs
              (seq (S di1) (length blockDiffs - S di1)) bmi bmd best Hall Hbest1)
    as (bmi' & bmd' & best' & -> & Hbest2).
  by exists (Some (bmi', bmd', best')).
Qed.

(** Appending recorded matches to a block uncovers no line. *)
Lemma matchedSection_in_app_zero ms es l :
  fst (matchedSection_in (ms ++ es) l) = 0 -> fst (matchedSection_in ms l) = 0.
Proof.
  induction ms as [|m ms IH]; simpl; [done|].
  destruct (_ && _); [done|exact IH].
Qed.

Lemma matchedSection_in_covered ms l m :
  m ∈ ms -> off (fst m) <= l < off (fst m) + len (fst m) ->
  fst (matchedSection_in ms l) <> 0.
Proof.
  induction ms as [|a ms IH]; intros Hin Hl; [by apply elem_of_nil in Hin|].
  simpl. destruct (_ && _) eqn:E.
  - apply andb_true_iff in E as [E1 E2]. apply Z.leb_le in E1, E2. simpl. lia.
  - apply elem_of_cons in Hin as [->|Hin]; [|by apply IH].
    apply andb_false_iff in E as [E|E]; apply Z.leb_gt in E; lia.
Qed.

Lemma filter_length_le {A} (P Q : A -> Prop) `{!forall x, Decision (P x)}
    `{!forall x, Decision (Q x)} (l : list A) :
  (forall x, x ∈ l -> P x -> Q x) -> (length (filter P l) <= length (filter Q l))%nat.
Proof.
  induction l as [|a l IH]; intros Himp; [done|].
  assert (Hrest : (length (filter P l) <= length (filter Q l))%nat).
  { apply IH. intros x Hx. apply Himp. by right. }
  rewrite !filter_cons. destruct (decide (P a)) as [Hp|Hp].
  - rewrite decide_True by (apply Himp; [by left|done]). simpl. lia.
  - destruct (decide (Q a)); simpl; lia.
Qed.

Lemma filter_length_lt {A} (P Q : A -> Prop) `{!forall x, Decision (P x)}
    `{!forall x, Decision (Q x)} (l : list A) x :
  (forall y, y ∈ l -> P y -> Q y) -> x ∈ l -> Q x -> ~ P x ->
  (length (filter P l) < length (filter Q l))%nat.
Proof.
  induction l as [|a l IH]; intros Himp Hx Hq Hp; [by apply elem_of_nil in Hx|].
  assert (Himp' : forall y, y ∈ l -> P y -> Q y) by (intros y Hy; apply Himp; by right).
  pose proof (filter_length_le P Q l Himp') as Hle.
  rewrite !filter_cons. apply elem_of_cons in Hx as [<-|Hx].
  - rewrite decide_False by done. rewrite decide_True by done. simpl. lia.
  - specialize (IH Himp' Hx Hq Hp).
    destruct (decide (P a)) as [Hpa|Hpa].
    + rewrite decide_True by (apply Himp; [by left|done]). simpl. lia.
    + destruct (decide (Q a)); simpl; lia.
Qed.

Lemma unmatched_withMatches_le bd es :
  vsize (unmatchedLines (withMatches bd es)) <= vsize (unmatchedLines bd).
Proof.
  unfold vsize, unmatchedLines, withMatches, matchedSection. simpl.
  apply inj_le, filter_length_le. intros l _. apply matchedSection_in_app_zero.
Qed.

Lemma unmatched_withMatches_lt bd es m l :
  m ∈ es -> 0 <= l < d_len bd -> off (fst m) <= l < off (fst m) + len (fst m) ->
  fst (matchedSection (info bd) l) = 0 ->
  vsize (unmatchedLines (withMatches bd es)) < vsize (unmatchedLines bd).
Proof.
  intros Hm Hl Hcov Hun.
  unfold vsize, unmatchedLines, withMatches, matchedSection. simpl.
  apply inj_lt, (filter_length_lt _ _ _ l).
  - intros y _. apply matchedSection_in_app_zero.
  - by apply elem_of_zrange.
  - done.
  - apply (matchedSection_in_covered _ _ m); [|done]. apply elem_of_app. by right.
Qed.

Lemma sumZ_lookup_le xs : forall ys,
  length xs = length ys ->
  (forall i x y, xs !! i = Some x -> ys !! i = Some y -> x <= y) ->
  sumZ xs <= sumZ ys.
Proof.
  induction xs as [|x xs IH]; intros [|y ys] Hlen Hle; try done.
  simpl in *. specialize (IH ys ltac:(lia) (fun i => Hle (S i))).
  specialize (Hle 0%nat x y eq_refl eq_refl). lia.
Qed.

Lemma sumZ_lookup_lt xs : forall ys k x y,
  length xs = length ys ->
  (forall i x y, xs !! i = Some x -> ys !! i = Some y -> x <= y) ->
  xs !! k = Some x -> ys !! k = Some y -> x < y ->
  sumZ xs < sumZ ys.
Proof.
  induction xs as [|x0 xs IH]; intros [|y0 ys] k x y Hlen Hle Hx Hy Hlt; try done.
  simpl in Hlen. pose proof (Hle 0%nat x0 y0 eq_refl eq_refl) as H0.
  destruct k as [|k]; simpl in *.
  - injection Hx as ->. injection Hy as ->.
    pose proof (sumZ_lookup_le xs ys ltac:(lia) (fun i => Hle (S i))). lia.
  - specialize (IH ys k x y ltac:(lia) (fun i => Hle (S i)) Hx Hy Hlt). lia.
Qed.

Lemma commitMatch_lens blockDiffs bestMatchDiff best_mi :
  map d_len (commitMatch blockDiffs bestMatchDiff best_mi) = map d_len blockDiffs.
Proof.
  pose proof (commitRuns_shape [(bestMatchDiff, best_mi)] blockDiffs) as Hs. simpl in Hs.
  apply (f_equal (map snd)) in Hs. by rewrite !map_map in Hs.
Qed.

Lemma blockAt_len blockDiffs k :
  d_len (blockAt blockDiffs k) = default 0 (map d_len blockDiffs !! k).
Proof. unfold blockAt. rewrite list_lookup_fmap. by destruct (blockDiffs !! k). Qed.

Lemma lens_Forall (bound : Z) bs bs' :
  map d_len bs' = map d_len bs ->
  Forall (fun bd => d_len bd <= bound) bs -> Forall (fun bd => d_len bd <= bound) bs'.
Proof.
  intros Hl Hall. apply (Forall_fmap d_len (fun n => n <= bound)).
  change (d_len <$> bs') with (map d_len bs'). rewrite Hl.
  by apply (Forall_fmap d_len (fun n => n <= bound)).
Qed.

Lemma linesCount_lens bs bs' : map d_len bs' = map d_len bs -> linesCount bs' = linesCount bs.
Proof.
  intros Hl. unfold linesCount.
  rewrite <- (map_map d_len (Z.max 0) bs'), <- (map_map d_len (Z.max 0) bs). by rewrite Hl.
Qed.

Lemma unmatchedCount_nonneg bs : 0 <= unmatchedCount bs.
Proof.
  unfold unmatchedCount. induction bs as [|bd bs IH]; simpl; [done|]. unfold vsize at 1. lia.
Qed.

Lemma unmatchedCount_le_lines bs : unmatchedCount bs <= linesCount bs.
Proof.
  unfold unmatchedCount, linesCount. induction bs as [|bd bs IH]; simpl; [done|].
  assert (vsize (unmatchedLines bd) <= Z.max 0 (d_len bd)); [|lia].
  unfold vsize, unmatchedLines.
  pose proof (length_filter (fun l => fst (matchedSection (info bd) l) = 0) (zrange (d_len bd))).
  rewrite zrange_length in *. lia.
Qed.

Lemma linesCount_nonneg bs : 0 <= linesCount bs.
Proof. unfold linesCount. induction bs as [|bd bs IH]; simpl; lia. Qed.

Lemma lines_le_linesCount bs : Forall (fun bd => d_len bd <= linesCount bs) bs.
Proof.
  induction bs as [|bd bs IH]; constructor.
  - unfold linesCount. simpl. fold (linesCount bs). pose proof (linesCount_nonneg bs). lia.
  - eapply Forall_impl; [exact IH|]. intros x Hx. simpl in Hx.
    unfold linesCount. simpl. fold (linesCount bs). lia.
Qed.

(** A committed run covers a line of the best block that was not covered. *)
Lemma commitMatch_unmatched blockDiffs ei bestMatchDiff best_mi :
  bestRun blockDiffs ei bestMatchDiff best_mi ->
  unmatchedCount (commitMatch blockDiffs bestMatchDiff best_mi) < unmatchedCount blockDiffs.
Proof.
  intros (Ho & Hl & Hu). unfold blockAt in Hl, Hu.
  destruct (blockDiffs !! bestMatchDiff) as [bd|] eqn:Eb; simpl in Hl, Hu; [|lia].
  unfold unmatchedCount.
  eapply (sumZ_lookup_lt _ _ bestMatchDiff).
  - rewrite !length_map. pose proof (commitMatch_lens blockDiffs bestMatchDiff best_mi) as Hs.
    apply (f_equal length) in Hs. by rewrite !length_map in Hs.
  - intros i x y. rewrite !list_lookup_fmap.
    destruct (blockDiffs !! i) as [bi|] eqn:Ei; [|done].
    rewrite (commitMatch_lookup _ _ _ _ _ Ei). simpl. intros [= <-] [= <-].
    apply unmatched_withMatches_le.
  - rewrite list_lookup_fmap, (commitMatch_lookup _ _ _ _ _ Eb). done.
  - by rewrite list_lookup_fmap, Eb.
  - apply (unmatched_withMatches_lt _ _
             (mkSection (off (sec best_mi)) (len (sec best_mi)), isMovedFlag best_mi) ei).
    + unfold runEntries. rewrite bool_decide_eq_true_2 by done. simpl. by left.
    + lia.
    + simpl. lia.
    + done.
Qed.

Lemma findMovesIn_ends fuel h1 h2 n : forall blockDiffs di1 ei1,
  Forall (fun bd => d_len bd <= Z.of_nat fuel) blockDiffs ->
  0 <= ei1 ->
  Z.max 0 (d_len (blockAt blockDiffs di1) - ei1) + unmatchedCount blockDiffs <= Z.of_nat n ->
  exists blockDiffs',
    findMovesIn fuel h1 h2 n blockDiffs di1 ei1 = Some blockDiffs'
    /\ map d_len blockDiffs' = map d_len blockDiffs
    /\ unmatchedCount blockDiffs' <= unmatchedCount blockDiffs.
Proof.
  induction n as [|n IH]; intros bs di1 ei1 Hall Hei1 Hn; simpl;
    pose proof (unmatchedCount_nonneg bs) as Hu0.
  - destruct (Z.ltb_spec ei1 (d_len (blockAt bs di1))); [lia|]. by exists bs.
  - destruct (Z.ltb_spec ei1 (d_len (blockAt bs di1))) as [Hlt|Hge]; [|by exists bs].
    pose proof (matchedSection_pos (info (blockAt bs di1)) ei1) as Hp.
    destruct (negb (fst (matchedSection (info (blockAt bs di1)) ei1) =? 0)) eqn:Em.
    { apply negb_true_iff, Z.eqb_neq in Em. apply IH; [done|lia|lia]. }
    apply negb_false_iff, Z.eqb_eq in Em.
    destruct (_ =? cHashSeed); [apply IH; [done|lia|lia]|].
    destruct (bestMatchFor_ends fuel h1 h2 bs di1 ei1 Hall ltac:(lia) Em) as (r & -> & Hr).
    destruct r as [[[bmi bmd] best]|]; [|apply IH; [done|lia|lia]].
    pose proof (commitMatch_unmatched bs bmi bmd best Hr) as Hdec.
    pose proof (commitMatch_lens bs bmd best) as Hlens.
    assert (Hall2 : Forall (fun bd => d_len bd <= Z.of_nat fuel) (commitMatch bs bmd best))
      by (by apply (lens_Forall _ bs)).
    assert (Hd : d_len (blockAt (commitMatch bs bmd best) di1) = d_len (blockAt bs di1))
      by (by rewrite !blockAt_len, Hlens).
    destruct Hr as (Ho & Hl & _).
    destruct (bool_decide (bmd = di1) && (bmi =? ei1)) eqn:Esame.
    + apply andb_true_iff in Esame as [_ Eb]. apply Z.eqb_eq in Eb. subst bmi.
      destruct (IH (commitMatch bs bmd best) di1 (off (sec best) + len (sec best) - 1 + 1))
        as (bs' & -> & Hl' & Hu'); [done|lia|lia|].
      exists bs'. split; [done|]. split; [congruence|lia].
    + destruct (IH (commitMatch bs bmd best) di1 (ei1 - 1 + 1))
        as (bs' & -> & Hl' & Hu'); [done|lia|lia|].
      exists bs'. split; [done|]. split; [congruence|lia].
Qed.

Lemma findMovesOver_ends fuel h1 h2 di1s : forall blockDiffs,
  movesBound blockDiffs <= Z.of_nat fuel ->
  exists blockDiffs', findMovesOver fuel h1 h2 blockDiffs di1s = Some blockDiffs'.
Proof.
  induction di1s as [|di1 rest IH]; intros bs Hb; simpl; [by exists bs|].
  destruct (negb _); [by apply IH|].
  unfold movesBound in Hb.
  pose proof (unmatchedCount_le_lines bs) as Hu. pose proof (linesCount_nonneg bs) as H0.
  assert (Hall : Forall (fun bd => d_len bd <= Z.of_nat fuel) bs).
  { eapply Forall_impl; [apply lines_le_linesCount|]. intros x Hx. simpl in Hx. lia. }
  pose proof (blockAt_len_le (linesCount bs) bs di1 H0 (lines_le_linesCount bs)) as Hd.
  destruct (findMovesIn_ends fuel h1 h2 fuel bs di1 0 Hall ltac:(lia) ltac:(lia))
    as (bs1 & -> & Hl1 & _).
  apply IH. unfold movesBound. by rewrite (linesCount_lens _ _ Hl1).
Qed.

Lemma findMoves_returns fuel h1 h2 blockDiffs :
  movesBound blockDiffs <= Z.of_nat fuel ->
  exists blockDiffs', findMoves fuel h1 h2 blockDiffs = Some blockDiffs'.
Proof. intros Hb. unfold findMoves. by apply findMovesOver_ends. Qed.

(** * Further properties of the engine *)

(** ** MoveFinder ends *)

(** X1: [findMoves] ends.  Every pass of its loop over the elements of a
    block moves the element forward or commits a run that covers a line of
    an IN_A block that no recorded match covered before, and every inner
    scan moves forward in a block; so with [movesBound] passes allowed to
    each loop the function returns, and it returns the blocks with their
    type, offset and length as they were. *)
Theorem findMoves_ends_within_bound fuel lineHashes1 lineHashes2 blockDiffs :
  movesBound blockDiffs <= Z.of_nat fuel ->
  exists blockDiffs',
    findMoves fuel lineHashes1 lineHashes2 blockDiffs = Some blockDiffs'
    /\ map (fun bd => (d_type bd, d_off bd, d_len bd)) blockDiffs'
       = map (fun bd => (d_type bd, d_off bd, d_len bd)) blockDiffs.
Proof.
  intros Hb.
  destruct (findMoves_returns fuel lineHashes1 lineHashes2 blockDiffs Hb) as (bs' & E).
  exists bs'. split; [exact E|].
  destruct (findMoves_commits fuel lineHashes1 lineHashes2 blockDiffs bs' E) as (runs & ->).
  apply commitRuns_shape.
Qed.

Lemma findMoves_ends_within_bound_witness :
  movesBound blocksAB <= Z.of_nat 15
  /\ exists blockDiffs',
       findMoves 15 hashesA hashesB blocksAB = Some blockDiffs'
       /\ map (fun bd => (d_type bd, d_off bd, d_len bd)) blockDiffs'
          = map (fun bd => (d_type bd, d_off bd, d_len bd)) blocksAB.
Proof.
  assert (Hb : movesBound blocksAB <= Z.of_nat 15) by (vm_compute; discriminate).
  split; [exact Hb|]. exact (findMoves_ends_within_bound 15 hashesA hashesB blocksAB Hb).
Defined.

Lemma diffPhase_fuel DiffCalc fuel doc1 doc2 selectionCompare settings h1 h2 alignmentInfo w :
  view doc1 <> view doc2 ->
  movesBound (map toBlock (lineDiff DiffCalc h1 h2)) <= Z.of_nat fuel ->
  diffPhase DiffCalc fuel doc1 doc2 selectionCompare settings h1 h2 alignmentInfo w
  <> OutOfFuel.
Proof.
  intros Hv Hb. unfold diffPhase, lineDiff in *.
  destruct (vsize h1 <? vsize h2).
  - destruct (isSingleMatchBlock _); [done|].
    pose proof (movesPhase_cases DiffCalc fuel doc2 doc1 selectionCompare settings h2 h1
                  (map toBlock (DiffCalc h2 h1)) alignmentInfo w ltac:(congruence)) as Hc.
    destruct (movesPhase _ _ _ _ _ _ _ _ _ _ w) as [r w'| | |]; try done.
    unfold movedBlocks in Hc. destruct (DetectMoves settings); [|done].
    destruct (findMoves_returns fuel h2 h1 _ Hb) as (bs' & E). congruence.
  - destruct (isSingleMatchBlock _); [done|].
    pose proof (movesPhase_cases DiffCalc fuel doc1 doc2 selectionCompare settings h1 h2
                  (map toBlock (DiffCalc h1 h2)) alignmentInfo w Hv) as Hc.
    destruct (movesPhase _ _ _ _ _ _ _ _ _ _ w) as [r w'| | |]; try done.
    unfold movedBlocks in Hc. destruct (DetectMoves settings); [|done].
    destruct (findMoves_returns fuel h1 h2 _ Hb) as (bs' & E). congruence.
Qed.

(** X2: a compare run returns.  Once both documents are hashed and the
    line-level diff is not empty, a run that allows [movesBound] passes to
    the loops of the move detection returns a result, with move detection
    on or off: MATCH exactly when the diff is one MATCH block; otherwise
    MISMATCH, or CANCELLED when the user cancelled. *)
Theorem compare_run_returns DiffCalc fuel mainViewSection subViewSection settings
    alignmentInfo w r1 r2 w1 :
  hashing mainViewSection subViewSection settings w = Ok (Some (r1, r2)) w1 ->
  lineDiff DiffCalc (fst r1) (fst r2) <> [] ->
  movesBound (map toBlock (lineDiff DiffCalc (fst r1) (fst r2))) <= Z.of_nat fuel ->
  exists r w',
    runCompare DiffCalc fuel mainViewSection subViewSection settings alignmentInfo w = Ok r w'
    /\ (fst r = COMPARE_MATCH <-> isSingleMatch (lineDiff DiffCalc (fst r1) (fst r2)) = true)
    /\ (fst r = COMPARE_MATCH \/ fst r = COMPARE_MISMATCH \/ fst r = COMPARE_CANCELLED)
    /\ (noCancel w1 -> fst r <> COMPARE_CANCELLED).
Proof.
  intros Eh Hne Hb.
  pose proof (runCompare_cases DiffCalc fuel mainViewSection subViewSection settings
                alignmentInfo w) as Hc.
  pose proof (hashing_general mainViewSection subViewSection settings w) as Hg.
  pose proof (runCompare_hashing DiffCalc fuel mainViewSection subViewSection settings
                alignmentInfo w) as Hrun.
  unfold bind in Hrun. rewrite Eh in Hc, Hg, Hrun.
  destruct Hg as (_ & Hv1 & _ & Hv2 & _). destruct Hc as [_ Hc].
  destruct (isSingleMatch (lineDiff DiffCalc (fst r1) (fst r2))) eqn:Es.
  - exists (COMPARE_MATCH, alignmentInfo), w1. split; [done|]. simpl.
    split; [done|]. split; [by left|done].
  - pose proof (diffPhase_fuel DiffCalc fuel (snd r1) (snd r2)
                  (negb (len mainViewSection =? 0) || negb (len subViewSection =? 0))
                  settings (fst r1) (fst r2) alignmentInfo w1 ltac:(congruence) Hb) as Hf.
    rewrite <- Hrun in Hf.
    destruct (runCompare DiffCalc fuel mainViewSection subViewSection settings alignmentInfo w)
      as [r w'|e w'| |]; try done.
    destruct Hc as (Hr & _ & _ & Hn). exists r, w'. split; [done|].
    split; [split; [intros E; rewrite E in Hr; by destruct Hr|done]|].
    split; [destruct Hr; auto|]. intros Hnc. rewrite (Hn Hnc). done.
Qed.

Lemma compare_run_returns_witness :
  let w := worldOf ["a"; "b"; "c"]%string ["c"; "a"; "b"]%string in
  exists r1 r2 w1,
    hashing wholeDoc wholeDoc settings0 w = Ok (Some (r1, r2)) w1
    /\ lineDiff lcsDiff (fst r1) (fst r2) <> []
    /\ movesBound (map toBlock (lineDiff lcsDiff (fst r1) (fst r2))) <= Z.of_nat 20
    /\ exists r w',
         runCompare lcsDiff 20 wholeDoc wholeDoc settings0 [] w = Ok r w'
         /\ (fst r = COMPARE_MATCH
             <-> isSingleMatch (lineDiff lcsDiff (fst r1) (fst r2)) = true)
         /\ (fst r = COMPARE_MATCH \/ fst r = COMPARE_MISMATCH \/ fst r = COMPARE_CANCELLED)
         /\ (noCancel w1 -> fst r <> COMPARE_CANCELLED).
Proof.
  cbv zeta. eexists _, _, _.
  assert (Eh : hashing wholeDoc wholeDoc settings0
                 (worldOf ["a"; "b"; "c"]%string ["c"; "a"; "b"]%string) = _)
    by (vm_compute; reflexivity).
  split; [exact Eh|].
  match goal with |- ?A /\ ?B /\ _ =>
    assert (Hne : A) by (vm_compute; discriminate);
    assert (Hb : B) by (vm_compute; discriminate)
  end.
  split; [exact Hne|]. split; [exact Hb|].
  exact (compare_run_returns lcsDiff 20 wholeDoc wholeDoc settings0 [] _ _ _ _ Eh Hne Hb).
Defined.

(** ** Hasher *)

Lemma u64_add_r a b : u64 (a + u64 b) = u64 (a + b).
Proof. unfold u64. by rewrite Zplus_mod_idemp_r. Qed.

Lemma u64_add_l a b : u64 (u64 a + b) = u64 (a + b).
Proof. unfold u64. by rewrite Zplus_mod_idemp_l. Qed.

Lemma u64_add2 a b : u64 (u64 a + u64 b) = u64 (a + b).
Proof. by rewrite u64_add_r, u64_add_l. Qed.

(** X3: [Hash] is one step of the 64-bit FNV-1a hash: the byte, sign-extended
    as a [char], is xor-ed into the value, which is then multiplied by the
    FNV prime 0x100000001B3 modulo 2^64; the result is a 64-bit value. *)
Theorem Hash_is_fnv1a_step (hval : Z) (letter : byte) :
  Hash hval letter = (Z.lxor hval (char_to_u64 letter) * 0x100000001B3) mod 2 ^ 64
  /\ 0 <= Hash hval letter < 2 ^ 64.
Proof.
  assert (E : Hash hval letter
              = (Z.lxor hval (char_to_u64 letter) * 0x100000001B3) mod 2 ^ 64).
  { unfold Hash. cbv zeta. set (x := Z.lxor hval (char_to_u64 letter)).
    rewrite (u64_add2 (Z.shiftl x 1)), (u64_add2 (Z.shiftl x 1 + Z.shiftl x 4)).
    rewrite (u64_add2 (Z.shiftl x 1 + Z.shiftl x 4 + Z.shiftl x 5)).
    rewrite (u64_add2 (Z.shiftl x 1 + Z.shiftl x 4 + Z.shiftl x 5 + Z.shiftl x 7)).
    rewrite (u64_add2 (Z.shiftl x 1 + Z.shiftl x 4 + Z.shiftl x 5 + Z.shiftl x 7
                       + Z.shiftl x 8)).
    rewrite u64_add_r.
    rewrite !Z.shiftl_mul_pow2 by lia. unfold u64. f_equal.
    change (2 ^ 1) with 2. change (2 ^ 4) with 16. change (2 ^ 5) with 32.
    change (2 ^ 7) with 128. change (2 ^ 8) with 256. change (2 ^ 40) with 1099511627776.
    lia. }
  split; [exact E|]. rewrite E. apply Z.mod_pos_bound. lia.
Qed.

(** ** Line hashes *)

Lemma lineEnd_minus_start (d : SciDoc) (ln : Z) :
  0 <= ln < SCI_GETLINECOUNT d ->
  SCI_GETLINEENDPOSITION d ln - SCI_POSITIONFROMLINE d ln = vsize (docLine d ln).
Proof.
  intros Hln. unfold SCI_POSITIONFROMLINE, SCI_GETLINEENDPOSITION, docLine.
  destruct (Z.ltb_spec ln 0); [lia|]. destruct (Z.ltb_spec (SCI_GETLINECOUNT d) ln); [lia|].
  destruct (Z.leb_spec (SCI_GETLINECOUNT d) ln); [lia|].
  destruct (Z.eqb_spec ln (SCI_GETLINECOUNT d)); [lia|]. simpl. lia.
Qed.

Lemma hashLine_filter settings text : forall hval,
  hashLine settings text hval
  = fold_left Hash
      (if IgnoreSpaces settings then filter (fun c => isSpaceTab c = false) text else text) hval.
Proof.
  unfold hashLine. destruct (IgnoreSpaces settings); simpl; [|done].
  induction text as [|c text IH]; intros hval; [done|].
  rewrite filter_cons. simpl. destruct (isSpaceTab c) eqn:E.
  - rewrite decide_False by done. apply IH.
  - rewrite decide_True by done. simpl. apply IH.
Qed.

Lemma lineHashOf_bytes settings d ln :
  0 <= ln < SCI_GETLINECOUNT d ->
  lineHashOf settings d ln = fold_left Hash (hashedBytes settings (docLine d ln)) cHashSeed.
Proof.
  intros Hln. unfold lineHashOf, hashDocLine. cbv zeta.
  rewrite (lineEnd_minus_start d ln Hln), (getText_docLine d ln Hln).
  destruct (Z.eqb_spec (vsize (docLine d ln)) 0) as [Hz|Hnz].
  - destruct (docLine d ln) as [|c l]; [|unfold vsize in Hz; simpl in Hz; lia].
    unfold hashedBytes. by destruct (IgnoreCase settings), (IgnoreSpaces settings).
  - rewrite hashLine_filter. unfold hashedBytes. cbv zeta. f_equal.
    assert (Ht : forall l : list byte,
               take (Z.to_nat (vsize (docLine d ln ++ [x00]) - 1)) (l ++ [x00]) = l
               \/ length l <> length (docLine d ln)).
    { intros l. destruct (decide (length l = length (docLine d ln))) as [El|El]; [|by right].
      left. unfold vsize. rewrite length_app. simpl.
      replace (Z.to_nat _) with (length l) by lia. by rewrite take_app_length. }
    destruct (IgnoreCase settings).
    + assert (Hlow : toLowerCase (docLine d ln ++ [x00]) = toLowerCase (docLine d ln) ++ [x00])
        by (unfold toLowerCase; rewrite map_app; reflexivity).
      rewrite Hlow.
      destruct (Ht (toLowerCase (docLine d ln))) as [->|Hl]; [done|].
      unfold toLowerCase in Hl. by rewrite length_map in Hl.
    + destruct (Ht (docLine d ln)) as [->|Hl]; done.
Qed.

(** X4: the hash of a line of a document is the FNV fold, from the seed,
    of the bytes of the line that take part in it: all of them, lowercased
    when IgnoreCase is set, without the spaces and tabs when IgnoreSpaces is
    set.  So two lines with the same such bytes have the same hash, in one
    document or in two, and a line without such bytes (an empty line, or
    with IgnoreSpaces a line of spaces and tabs) hashes to the seed. *)
Theorem line_hash_of_its_bytes (settings : UserSettings) :
  (forall d ln,
     0 <= ln < SCI_GETLINECOUNT d ->
     lineHashOf settings d ln = fold_left Hash (hashedBytes settings (docLine d ln)) cHashSeed)
  /\ (forall d1 ln1 d2 ln2,
        0 <= ln1 < SCI_GETLINECOUNT d1 -> 0 <= ln2 < SCI_GETLINECOUNT d2 ->
        hashedBytes settings (docLine d1 ln1) = hashedBytes settings (docLine d2 ln2) ->
        lineHashOf settings d1 ln1 = lineHashOf settings d2 ln2)
  /\ (forall d ln,
        0 <= ln < SCI_GETLINECOUNT d ->
        hashedBytes settings (docLine d ln) = [] -> lineHashOf settings d ln = cHashSeed).
Proof.
  split; [intros d ln; apply lineHashOf_bytes|]. split.
  - intros d1 ln1 d2 ln2 H1 H2 E. by rewrite !lineHashOf_bytes, E.
  - intros d ln H E. by rewrite lineHashOf_bytes, E.
Qed.

Lemma line_hash_of_its_bytes_witness :
  let settings := mkSettings MAIN_VIEW false true true in
  let d1 := docOfLines ["x"; "Foo  Bar"]%string in
  let d2 := docOfLines ["foo	bar"; " 	 "]%string in
  0 <= 1 < SCI_GETLINECOUNT d1
  /\ 0 <= 0 < SCI_GETLINECOUNT d2
  /\ 0 <= 1 < SCI_GETLINECOUNT d2
  /\ hashedBytes settings (docLine d1 1) = hashedBytes settings (docLine d2 0)
  /\ hashedBytes settings (docLine d2 1) = []
  /\ lineHashOf settings d1 1
     = fold_left Hash (hashedBytes settings (docLine d1 1)) cHashSeed
  /\ lineHashOf settings d1 1 = lineHashOf settings d2 0
  /\ lineHashOf settings d2 1 = cHashSeed.
Proof.
  cbv zeta.
  set (settings := mkSettings MAIN_VIEW false true true).
  set (d1 := docOfLines ["x"; "Foo  Bar"]%string).
  set (d2 := docOfLines ["foo	bar"; " 	 "]%string).
  assert (H1 : 0 <= 1 < SCI_GETLINECOUNT d1) by (split; vm_compute; [discriminate|reflexivity]).
  assert (H2 : 0 <= 0 < SCI_GETLINECOUNT d2) by (split; vm_compute; [discriminate|reflexivity]).
  assert (H3 : 0 <= 1 < SCI_GETLINECOUNT d2) by (split; vm_compute; [discriminate|reflexivity]).
  assert (E1 : hashedBytes settings (docLine d1 1) = hashedBytes settings (docLine d2 0))
    by (vm_compute; reflexivity).
  assert (E2 : hashedBytes settings (docLine d2 1) = []) by (vm_compute; reflexivity).
  split; [exact H1|]. split; [exact H2|]. split; [exact H3|].
  split; [exact E1|]. split; [exact E2|].
  destruct (line_hash_of_its_bytes settings) as (F1 & F2 & F3).
  split; [exact (F1 d1 1 H1)|]. split; [exact (F2 d1 1 d2 0 H1 H2 E1)|].
  exact (F3 d2 1 H3 E2).
Defined.

(** ** Recorded matches *)

(** X5: [matchedSection] answers for the first recorded match that holds
    the line: it returns 0 exactly when no recorded match holds the line,
    and otherwise the length, which is at least 1, and the moved flag of
    the first recorded match that holds it, whatever later matches say. *)
Theorem matchedSection_first_match (bi : blockDiffInfo) (ln : Z) :
  (fst (matchedSection bi ln) = 0 <->
   forall m, m ∈ matches bi -> ~ (off (fst m) <= ln <= off (fst m) + len (fst m) - 1))
  /\ (fst (matchedSection bi ln) <> 0 ->
      exists pre m post,
        matches bi = pre ++ m :: post
        /\ off (fst m) <= ln <= off (fst m) + len (fst m) - 1
        /\ (forall m', m' ∈ pre ->
                       ~ (off (fst m') <= ln <= off (fst m') + len (fst m') - 1))
        /\ matchedSection bi ln = (len (fst m), snd m)
        /\ 1 <= len (fst m)).
Proof.
  unfold matchedSection. induction (matches bi) as [|a ms [IH1 IH2]]; simpl.
  - split; [|done]. split; [|done]. intros _ m Hm. by apply elem_of_nil in Hm.
  - destruct ((off (fst a) <=? ln) && (ln <=? off (fst a) + len (fst a) - 1)) eqn:E.
    + apply andb_true_iff in E as [E1 E2]. apply Z.leb_le in E1, E2. simpl. split.
      * split; [lia|]. intros H. exfalso. apply (H a); [by left|lia].
      * intros _. exists [], a, ms. split; [done|]. split; [lia|].
        split; [intros m' Hm'; by apply elem_of_nil in Hm'|]. split; [done|lia].
    + assert (Ha : ~ (off (fst a) <= ln <= off (fst a) + len (fst a) - 1)).
      { apply andb_false_iff in E as [E|E]; apply Z.leb_gt in E; lia. }
      split.
      * rewrite IH1. split.
        -- intros H m Hm. apply elem_of_cons in Hm as [->|Hm]; [done|by apply H].
        -- intros H m Hm. apply H. by right.
      * intros Hnz. destruct (IH2 Hnz) as (pre & m & post & -> & Hc & Hpre & Hr & Hl).
        exists (a :: pre), m, post. split; [done|]. split; [done|].
        split; [|done]. intros m' Hm'. apply elem_of_cons in Hm' as [->|Hm']; [done|].
        by apply Hpre.
Qed.

Lemma matchedSection_first_match_witness :
  let bi := mkBlockInfo None [] [(mkSection 0 2, true); (mkSection 1 3, false)] in
  fst (matchedSection bi 1) <> 0
  /\ exists pre m post,
       matches bi = pre ++ m :: post
       /\ off (fst m) <= 1 <= off (fst m) + len (fst m) - 1
       /\ (forall m', m' ∈ pre ->
                      ~ (off (fst m') <= 1 <= off (fst m') + len (fst m') - 1))
       /\ matchedSection bi 1 = (len (fst m), snd m)
       /\ 1 <= len (fst m).
Proof.
  cbv zeta.
  assert (H : fst (matchedSection
                     (mkBlockInfo None [] [(mkSection 0 2, true); (mkSection 1 3, false)]) 1)
              <> 0) by (vm_compute; discriminate).
  split; [exact H|].
  exact (proj2 (matchedSection_first_match
                  (mkBlockInfo None [] [(mkSection 0 2, true); (mkSection 1 3, false)]) 1) H).
Defined.

(** ** Marking a section *)

Lemma marked_nil w v : marked w v [] = w.
Proof.
  unfold marked, withMarkers. rewrite app_nil_r.
  destruct w as [[t1 m1 r1 k1 c1] [t2 m2 r2 k2 c2] p a ms], v; reflexivity.
Qed.

Lemma marked_app w v a b : marked (marked w v a) v b = marked w v (a ++ b).
Proof.
  unfold marked, withMarkers. destruct w as [d1 d2 p an ms], v; simpl; by rewrite app_assoc.
Qed.

Lemma addMarker_marked v ln mask w : addMarker v ln mask w = Ok tt (marked w v [(ln, mask)]).
Proof. reflexivity. Qed.

Lemma zrange_cons n : 0 < n -> zrange n = 0 :: map (fun k => k + 1) (zrange (n - 1)).
Proof.
  intros Hn. unfold zrange. replace (Z.to_nat n) with (S (Z.to_nat (n - 1))) by lia.
  simpl. f_equal. rewrite <- seq_shift, !map_map. apply map_ext. intros k. lia.
Qed.

Lemma markSectionLoop_unmatched bd doc endOff n : forall i ln w,
  endOff = off (section doc) + len (section doc) ->
  off (section doc) <= i ->
  endOff - i <= Z.of_nat n ->
  (forall k, i <= k < endOff -> fst (matchedSection (info bd) k) = 0) ->
  markSectionLoop n bd doc endOff i ln w
  = Ok tt (marked w (view doc)
             (map (fun k => (ln + k, blockDiffMask doc)) (zrange (endOff - i)))).
Proof.
  induction n as [|n IH]; intros i ln w He Hi Hn Hun; simpl.
  - destruct (Z.ltb_spec i endOff); [lia|].
    replace (zrange (endOff - i)) with (@nil Z) by (unfold zrange; by replace (Z.to_nat _) with 0%nat by lia).
    by rewrite marked_nil.
  - destruct (Z.ltb_spec i endOff) as [Hlt|Hge].
    + specialize (Hun i ltac:(lia)) as Hz.
      destruct (matchedSection (info bd) i) as [matchedLen isMoved]. simpl in Hz. subst matchedLen.
      destruct (Z.ltb_spec (len (section doc)) 0); [lia|]. simpl.
      unfold bind at 1. rewrite addMarker_marked.
      rewrite IH; [|done|lia|lia|intros k Hk; apply Hun; lia].
      rewrite marked_app. do 2 f_equal.
      rewrite (zrange_cons (endOff - i)) by lia. simpl. f_equal; [f_equal; lia|].
      rewrite map_map. replace (endOff - (i + 1)) with (endOff - i - 1) by lia.
      apply map_ext. intros k. f_equal. lia.
    + replace (zrange (endOff - i)) with (@nil Z) by (unfold zrange; by replace (Z.to_nat _) with 0%nat by lia).
      by rewrite marked_nil.
Qed.

(** X6: on a section no line of which is held by a recorded match (as for
    every block when move detection is off) [markSection] adds one marker
    to each line of the section, the lines taken in ascending order from
    the block offset plus the section offset, all with the block mask of
    the document, and does nothing else; an empty section gets no marker. *)
Theorem markSection_unmatched_lines (bd : diffInfo) (doc : DocCmpInfo) (w : World) :
  (forall k, off (section doc) <= k < off (section doc) + len (section doc) ->
             fst (matchedSection (info bd) k) = 0) ->
  markSection bd doc w
  = Ok tt (marked w (view doc)
             (map (fun k => (d_off bd + off (section doc) + k, blockDiffMask doc))
                  (zrange (len (section doc))))).
Proof.
  intros Hun. unfold markSection. cbv zeta.
  rewrite (markSectionLoop_unmatched bd doc); [|done|lia|lia|done].
  by replace (off (section doc) + len (section doc) - off (section doc))
    with (len (section doc)) by lia.
Qed.

Lemma markSection_unmatched_lines_witness :
  let bd := mkDiff DIFF_IN_1 4 3 emptyInfo in
  let doc := mkDoc MAIN_VIEW (mkSection 0 3) MARKER_MASK_REMOVED in
  let w := worldOf [] [] in
  (forall k, off (section doc) <= k < off (section doc) + len (section doc) ->
             fst (matchedSection (info bd) k) = 0)
  /\ markSection bd doc w
     = Ok tt (marked w MAIN_VIEW
                [(4, MARKER_MASK_REMOVED); (5, MARKER_MASK_REMOVED); (6, MARKER_MASK_REMOVED)]).
Proof.
  cbv zeta.
  assert (Hun : forall k,
            off (section (mkDoc MAIN_VIEW (mkSection 0 3) MARKER_MASK_REMOVED)) <= k
            < off (section (mkDoc MAIN_VIEW (mkSection 0 3) MARKER_MASK_REMOVED))
              + len (section (mkDoc MAIN_VIEW (mkSection 0 3) MARKER_MASK_REMOVED)) ->
            fst (matchedSection (info (mkDiff DIFF_IN_1 4 3 emptyInfo)) k) = 0)
    by (intros k _; reflexivity).
  split; [exact Hun|].
  exact (markSection_unmatched_lines (mkDiff DIFF_IN_1 4 3 emptyInfo)
           (mkDoc MAIN_VIEW (mkSection 0 3) MARKER_MASK_REMOVED) (worldOf [] []) Hun).
Defined.

(** ** FindUnique: what is marked *)

Lemma forEach_marked {A} (es : list A) (f : A -> list (Z * Z)) v (body : A -> M unit) :
  (forall e w, body e w = Ok tt (marked w v (f e))) ->
  forall w, forEach es body w = Ok tt (marked w v (concat (map f es))).
Proof.
  intros Hb. induction es as [|e es IH]; intros w; simpl.
  - by rewrite marked_nil.
  - unfold bind. rewrite Hb, IH, marked_app. done.
Qed.

Lemma forEach_addMarker v (g : Z -> Z) mask lns w :
  forEach lns (fun ln => addMarker v (g ln) mask) w
  = Ok tt (marked w v (map (fun ln => (g ln, mask)) lns)).
Proof.
  rewrite (forEach_marked lns (fun ln => [(g ln, mask)]) v); [|done].
  do 2 f_equal. induction lns as [|ln lns IH]; simpl; [done|]. by rewrite IH.
Qed.

Lemma concat_lineMarkers o mask (es : list (Z * list Z)) :
  concat (map (fun e => lineMarkers o mask (snd e)) es)
  = lineMarkers o mask (concat (map snd es)).
Proof.
  unfold lineMarkers. induction es as [|e es IH]; simpl; [done|].
  by rewrite IH, map_app.
Qed.

Lemma filter_iff_elem {A} (P1 P2 : A -> Prop) `{!forall x, Decision (P1 x)}
    `{!forall x, Decision (P2 x)} (l : list A) :
  (forall x, x ∈ l -> P1 x <-> P2 x) -> filter P1 l = filter P2 l.
Proof.
  induction l as [|a l IH]; intros Hiff; [done|].
  rewrite !filter_cons, IH by (intros x Hx; apply Hiff; by right).
  destruct (decide (P1 a)) as [H1|H1].
  - rewrite decide_True; [done|]. by apply (Hiff a); [left|].
  - rewrite decide_False; [done|]. intros H2. apply H1. by apply (Hiff a); [left|].
Qed.

Lemma residualOf_delete m2 k entries :
  k ∉ map fst entries -> residualOf (delete k m2) entries = residualOf m2 entries.
Proof.
  intros Hk. unfold residualOf. apply filter_iff_elem.
  intros e He. assert (k <> fst e).
  { intros ->. apply Hk. by apply (list_elem_of_fmap_2 fst). }
  by rewrite lookup_delete_ne.
Qed.

(** The loop over the map of document 1: the entries without counterpart
    are marked, the keys of the map of document 1 leave the map of
    document 2. *)
Lemma uniqueLoop_exact entries doc1 : forall m2 c w,
  NoDup (map fst entries) ->
  exists m2',
    uniqueLoop entries doc1 m2 c w
    = Ok (m2', c + vsize (concat (map snd (residualOf m2 entries))))
         (marked w (view doc1)
            (lineMarkers (off (section doc1)) (blockDiffMask doc1)
               (concat (map snd (residualOf m2 entries)))))
    /\ forall k, (k ∈ map fst entries -> m2' !! k = None)
                 /\ (k ∉ map fst entries -> m2' !! k = m2 !! k).
Proof.
  induction entries as [|e rest IH]; intros m2 c w Hnd.
  - exists m2. simpl. rewrite marked_nil, Z.add_0_r. split; [done|].
    intros k. split; [|done]. intros Hk. by apply elem_of_nil in Hk.
  - change (map fst (e :: rest)) with (fst e :: map fst rest) in *.
    apply NoDup_cons in Hnd as [Hk Hnd]. unfold residualOf. rewrite filter_cons.
    fold (residualOf m2 rest). cbn [uniqueLoop].
    destruct (m2 !! fst e) as [ls|] eqn:E.
    + rewrite decide_False by done.
      destruct (IH (delete (fst e) m2) c w Hnd) as (m2' & Er & Hm).
      rewrite residualOf_delete in Er by done.
      exists m2'. split; [done|]. intros k. destruct (Hm k) as [Hm1 Hm2]. split.
      * intros Hin. apply elem_of_cons in Hin as [->|Hin]; [|by apply Hm1].
        rewrite Hm2 by done. apply lookup_delete_eq.
      * intros Hout. rewrite Hm2 by (intros Hc; apply Hout; by right).
        apply lookup_delete_ne. intros Heq. apply Hout. rewrite <- Heq. by left.
    + rewrite decide_True by done. unfold bind.
      rewrite (forEach_addMarker (view doc1) (fun ln => ln + off (section doc1))).
      destruct (IH m2 (c + vsize (snd e)) (marked w (view doc1)
                  (map (fun ln => (ln + off (section doc1), blockDiffMask doc1)) (snd e))) Hnd)
        as (m2' & Er & Hm).
      exists m2'. split.
      * rewrite Er, marked_app. simpl. unfold lineMarkers. rewrite map_app.
        f_equal. f_equal. unfold vsize. rewrite length_app. lia.
      * intros k. destruct (Hm k) as [Hm1 Hm2]. split.
        -- intros Hin. apply elem_of_cons in Hin as [->|Hin]; [|by apply Hm1].
           by rewrite Hm2.
        -- intros Hout. apply Hm2. intros Hc. apply Hout. by right.
Qed.

(** An entry of the map built from a hash sequence: the indices of the
    lines with that hash, each once. *)
Lemma uniqueLines_entry hashes h ls :
  uniqueLines hashes 0 ∅ !! h = Some ls ->
  NoDup ls /\ ls <> [] /\ forall i, i ∈ ls <-> vget hashes i = Some h.
Proof.
  rewrite uniqueLines_lookup, lookup_empty. simpl.
  set (idxs := map (fun k => 0 + Z.of_nat k) (seq 0 (length hashes))).
  set (ps := filter _ _).
  assert (Hlen : length idxs = length hashes)
    by (subst idxs; by rewrite length_map, length_seq).
  assert (Hnd : NoDup (map fst ps)).
  { apply (sublist_NoDup _ idxs).
    - subst idxs.
      assert (Hinj : Inj (=) (=) (fun k : nat => 0 + Z.of_nat k)) by (intros x y; lia).
      apply (NoDup_fmap_2 (fun k : nat => 0 + Z.of_nat k)), NoDup_seq.
    - rewrite <- (fst_zip idxs hashes) by lia. apply fmap_sublist. subst ps.
      apply sublist_filter. }
  assert (Hel : forall i, i ∈ map fst ps <-> vget hashes i = Some h).
  { intros i. split.
    - intros Hi. apply list_elem_of_fmap in Hi as ([i' h'] & -> & Hp). subst ps.
      apply list_elem_of_filter in Hp as [Hh Hp]. simpl in Hh. subst h'. simpl.
      apply list_elem_of_lookup in Hp as (k & Hk).
      apply lookup_zip_with_Some in Hk as (x & y & [= <- <-] & Hx & Hy).
      subst idxs. rewrite list_lookup_fmap in Hx.
      destruct (seq 0 (length hashes) !! k) as [k'|] eqn:Ek; [|done].
      apply lookup_seq in Ek as [-> _]. simpl in Hx. injection Hx as <-.
      replace (0 + Z.of_nat k) with (Z.of_nat k) by lia. by rewrite vget_of_nat.
    - intros Hi. apply vget_Some_lt in Hi as Hr. unfold vget in Hi.
      destruct (Z.ltb_spec i 0); [lia|].
      apply list_elem_of_fmap. exists (i, h). split; [done|]. subst ps.
      apply list_elem_of_filter. split; [done|].
      apply list_elem_of_lookup. exists (Z.to_nat i).
      apply lookup_zip_with_Some. exists i, h. split; [done|]. split; [|done].
      subst idxs. rewrite list_lookup_fmap, lookup_seq_lt; [simpl; f_equal; lia|].
      unfold vsize in Hr. lia. }
  destruct ps as [|p ps'] eqn:Ep; [done|]. intros [= <-]. done.
Qed.

Lemma uniqueLines_None hashes h : uniqueLines hashes 0 ∅ !! h = None <-> h ∉ hashes.
Proof.
  split.
  - intros Hn Hin. apply list_elem_of_lookup in Hin as (i & Hi).
    destruct (uniqueLines_has hashes (Z.of_nat i) h) as (ls & Hls & _);
      [by rewrite vget_of_nat|congruence].
  - intros Hout. destruct (uniqueLines hashes 0 ∅ !! h) as [ls|] eqn:E; [|done].
    apply uniqueLines_only in E as [E _]. done.
Qed.

Lemma elem_of_uniqueIn ha hb i :
  i ∈ uniqueIn ha hb <-> exists h, vget ha i = Some h /\ h ∉ hb.
Proof.
  unfold uniqueIn. rewrite list_elem_of_filter, elem_of_zrange. split.
  - intros [Hout Hr]. destruct (vget_lt_is_Some ha i Hr) as [h Hh].
    exists h. split; [done|]. unfold vget_d in Hout. by rewrite Hh in Hout.
  - intros (h & Hh & Hout). split.
    + unfold vget_d. by rewrite Hh.
    + by apply vget_Some_lt in Hh.
Qed.

Lemma NoDup_uniqueIn ha hb : NoDup (uniqueIn ha hb).
Proof.
  unfold uniqueIn. apply NoDup_filter. unfold zrange.
  apply (NoDup_fmap_2 Z.of_nat), NoDup_seq.
Qed.


(** The indices held by entries of the map of a hash sequence, the keys of
    the entries being distinct: each index once. *)
Lemma entries_indices hashes (es : list (Z * list Z)) :
  NoDup (map fst es) ->
  (forall e, e ∈ es -> uniqueLines hashes 0 ∅ !! fst e = Some (snd e)) ->
  NoDup (concat (map snd es))
  /\ forall i, i ∈ concat (map snd es)
               <-> exists h, vget hashes i = Some h /\ h ∈ map fst es.
Proof.
  induction es as [|e es IH]; intros Hnd Hes.
  - simpl. split; [constructor|]. intros i. split.
    + intros Hi. by apply elem_of_nil in Hi.
    + intros (h & _ & Hh). by apply elem_of_nil in Hh.
  - change (map fst (e :: es)) with (fst e :: map fst es) in *.
    apply NoDup_cons in Hnd as [Hk Hnd].
    destruct (IH Hnd) as [IHn IHe]; [intros e' He'; apply Hes; by right|].
    destruct (uniqueLines_entry hashes (fst e) (snd e)) as (Hn & _ & Hel);
      [apply Hes; by left|].
    simpl. split.
    + apply NoDup_app. split; [done|]. split; [|done].
      intros i Hi Hi'. apply Hel in Hi. apply IHe in Hi' as (h & Hh & Hin).
      rewrite Hi in Hh. injection Hh as <-. done.
    + intros i. rewrite elem_of_app, Hel, IHe. split.
      * intros [Hi|(h & Hh & Hin)].
        -- exists (fst e). split; [done|by left].
        -- exists h. split; [done|by right].
      * intros (h & Hh & Hin). apply elem_of_cons in Hin as [->|Hin]; [by left|].
        right. by exists h.
Qed.

Lemma keys_uniqueLines hashes h :
  h ∈ map fst (map_to_list (uniqueLines hashes 0 ∅)) <-> h ∈ hashes.
Proof.
  split.
  - intros Hin. apply list_elem_of_fmap in Hin as ([k ls] & -> & He).
    apply elem_of_map_to_list in He. simpl.
    destruct (decide (k ∈ hashes)) as [|Hout]; [done|].
    apply uniqueLines_None in Hout. congruence.
  - intros Hin. destruct (uniqueLines hashes 0 ∅ !! h) as [ls|] eqn:E.
    + apply list_elem_of_fmap. exists (h, ls). split; [done|]. by apply elem_of_map_to_list.
    + apply uniqueLines_None in E. done.
Qed.

Lemma residual1_perm h1 h2 :
  concat (map snd (residualOf (uniqueLines h2 0 ∅) (map_to_list (uniqueLines h1 0 ∅))))
  ≡ₚ uniqueIn h1 h2.
Proof.
  set (es := residualOf _ _).
  assert (Hsub : es `sublist_of` map_to_list (uniqueLines h1 0 ∅))
    by (subst es; unfold residualOf; apply sublist_filter).
  assert (Hnd : NoDup (map fst es)).
  { eapply sublist_NoDup; [apply (NoDup_fst_map_to_list (uniqueLines h1 0 ∅))|].
    by apply fmap_sublist. }
  assert (Hes : forall e, e ∈ es -> uniqueLines h1 0 ∅ !! fst e = Some (snd e)).
  { intros [k ls] He. apply elem_of_map_to_list. eapply elem_of_sublist; [exact He|done]. }
  destruct (entries_indices h1 es Hnd Hes) as [Hn Hel].
  apply NoDup_Permutation; [done|apply NoDup_uniqueIn|].
  intros i. rewrite Hel, elem_of_uniqueIn. split.
  - intros (h & Hh & Hin). exists h. split; [done|].
    apply list_elem_of_fmap in Hin as (e & -> & He). subst es. unfold residualOf in He.
    apply list_elem_of_filter in He as [Hnone _]. by apply uniqueLines_None.
  - intros (h & Hh & Hout). exists h. split; [done|].
    destruct (uniqueLines_has h1 i h Hh) as (ls & Hls & _).
    apply list_elem_of_fmap. exists (h, ls). split; [done|]. subst es. unfold residualOf.
    apply list_elem_of_filter. split; [by apply uniqueLines_None|].
    by apply elem_of_map_to_list.
Qed.

Lemma residual2_perm h1 h2 (m2' : gmap Z (list Z)) :
  (forall k, (k ∈ map fst (map_to_list (uniqueLines h1 0 ∅)) -> m2' !! k = None)
             /\ (k ∉ map fst (map_to_list (uniqueLines h1 0 ∅)) ->
                 m2' !! k = uniqueLines h2 0 ∅ !! k)) ->
  concat (map snd (map_to_list m2')) ≡ₚ uniqueIn h2 h1
  /\ (m2' = ∅ <-> uniqueIn h2 h1 = []).
Proof.
  intros Hm.
  assert (Hes : forall e, e ∈ map_to_list m2' ->
                          uniqueLines h2 0 ∅ !! fst e = Some (snd e) /\ fst e ∉ h1).
  { intros [k ls] He. apply elem_of_map_to_list in He. simpl.
    destruct (Hm k) as [Hm1 Hm2].
    destruct (decide (k ∈ map fst (map_to_list (uniqueLines h1 0 ∅)))) as [Hin|Hout].
    - rewrite Hm1 in He; done.
    - rewrite Hm2 in He by done. split; [done|]. intros Hc. apply Hout.
      by apply keys_uniqueLines. }
  destruct (entries_indices h2 (map_to_list m2') (NoDup_fst_map_to_list m2')
              (fun e He => proj1 (Hes e He))) as [Hn Hel].
  assert (Hperm : concat (map snd (map_to_list m2')) ≡ₚ uniqueIn h2 h1).
  { apply NoDup_Permutation; [done|apply NoDup_uniqueIn|].
    intros i. rewrite Hel, elem_of_uniqueIn. split.
    - intros (h & Hh & Hin). exists h. split; [done|].
      apply list_elem_of_fmap in Hin as (e & -> & He). by apply Hes.
    - intros (h & Hh & Hout). exists h. split; [done|].
      destruct (uniqueLines_has h2 i h Hh) as (ls & Hls & _).
      apply list_elem_of_fmap. exists (h, ls). split; [done|].
      apply elem_of_map_to_list. destruct (Hm h) as [_ Hm2]. rewrite Hm2; [done|].
      intros Hc. apply Hout. by apply (proj1 (keys_uniqueLines h1 h)). }
  split; [done|]. split.
  - intros ->. rewrite map_to_list_empty in Hperm. simpl in Hperm.
    by apply Permutation_nil_l in Hperm.
  - intros E. rewrite E in Hperm. apply Permutation_nil_r in Hperm.
    apply map_to_list_empty_iff. destruct (map_to_list m2') as [|e es] eqn:El; [done|].
    exfalso. destruct (Hes e) as [He _]; [left|].
    apply uniqueLines_entry in He as (_ & Hne & _).
    simpl in Hperm. apply app_eq_nil in Hperm as [Hs _]. done.
Qed.

(** [uniquePhase] from the loop over the map of document 1 on. *)
Lemma uniqueTail_exact doc1 doc2 mainViewSection subViewSection h1 h2
    (alignmentInfo : list AlignmentPair) w2 :
  exists new1 new2,
    new1 ≡ₚ lineMarkers (off (section doc1)) (blockDiffMask doc1) (uniqueIn h1 h2)
    /\ new2 ≡ₚ lineMarkers (off (section doc2)) (blockDiffMask doc2) (uniqueIn h2 h1)
    /\ (r <- uniqueLoop (map_to_list (uniqueLines h1 0 ∅)) doc1 (uniqueLines h2 0 ∅) 0 ;;
        if (snd r =? 0) && bool_decide (fst r = ∅)
        then ret (COMPARE_MATCH, alignmentInfo)
        else
          forEach (map_to_list (fst r))
            (fun uniqueLine =>
               forEach (snd uniqueLine)
                 (fun ln => addMarker (view doc2) (ln + off (section doc2))
                                      (blockDiffMask doc2))) ;;;
          ret (COMPARE_MISMATCH,
               alignmentInfo ++ [mkAlignPair (mkAlignData (off mainViewSection) 0)
                                             (mkAlignData (off subViewSection) 0)])) w2
       = Ok (if bool_decide (uniqueIn h1 h2 = [] /\ uniqueIn h2 h1 = [])
             then (COMPARE_MATCH, alignmentInfo)
             else (COMPARE_MISMATCH,
                   alignmentInfo ++ [mkAlignPair (mkAlignData (off mainViewSection) 0)
                                                 (mkAlignData (off subViewSection) 0)]))
            (marked (marked w2 (view doc1) new1) (view doc2) new2).
Proof.
  destruct (uniqueLoop_exact (map_to_list (uniqueLines h1 0 ∅)) doc1 (uniqueLines h2 0 ∅) 0 w2
              (NoDup_fst_map_to_list _)) as (m2' & E3 & Hm).
  rewrite (bind_Ok _ _ _ _ _ E3). cbn [fst snd].
  pose proof (residual1_perm h1 h2) as P1.
  destruct (residual2_perm h1 h2 m2' Hm) as [P2 Hempty].
  set (res1 := concat (map snd (residualOf (uniqueLines h2 0 ∅)
                                  (map_to_list (uniqueLines h1 0 ∅))))) in *.
  assert (Hc : 0 + vsize res1 = 0 <-> uniqueIn h1 h2 = []).
  { split.
    - intros Hz. destruct res1 as [|x l]; [by apply Permutation_nil_l in P1|].
      rewrite vsize_cons in Hz. pose proof (vsize_nonneg l). lia.
    - intros E. rewrite E in P1. apply Permutation_nil_r in P1. by rewrite P1. }
  exists (lineMarkers (off (section doc1)) (blockDiffMask doc1) res1).
  destruct (Z.eqb_spec (0 + vsize res1) 0) as [Hz|Hnz];
    [destruct (decide (m2' = ∅)) as [He|Hne]|].
  - exists []. split; [unfold lineMarkers; by rewrite P1|].
    split; [rewrite (proj1 Hempty He); done|].
    rewrite bool_decide_eq_true_2 by done. simpl.
    rewrite bool_decide_eq_true_2 by (split; [by apply Hc|by apply Hempty]).
    by rewrite marked_nil.
  - exists (lineMarkers (off (section doc2)) (blockDiffMask doc2)
              (concat (map snd (map_to_list m2')))).
    split; [unfold lineMarkers; by rewrite P1|].
    split; [unfold lineMarkers; by rewrite P2|].
    rewrite bool_decide_eq_false_2 by done. simpl.
    rewrite bool_decide_eq_false_2 by (intros [_ Hc2]; by apply Hne, Hempty).
    unfold bind.
    rewrite (forEach_marked (map_to_list m2')
               (fun e => lineMarkers (off (section doc2)) (blockDiffMask doc2) (snd e))
               (view doc2)).
    + by rewrite concat_lineMarkers.
    + intros e w0. apply forEach_addMarker.
  - exists (lineMarkers (off (section doc2)) (blockDiffMask doc2)
              (concat (map snd (map_to_list m2')))).
    split; [unfold lineMarkers; by rewrite P1|].
    split; [unfold lineMarkers; by rewrite P2|]. simpl.
    rewrite bool_decide_eq_false_2 by (intros [Hc1 _]; by apply Hnz, Hc).
    unfold bind.
    rewrite (forEach_marked (map_to_list m2')
               (fun e => lineMarkers (off (section doc2)) (blockDiffMask doc2) (snd e))
               (view doc2)).
    + by rewrite concat_lineMarkers.
    + intros e w0. apply forEach_addMarker.
Qed.

(** [uniquePhase] in general: cancelled at one of its two checks, or run to
    its end. *)
Lemma uniquePhase_cases doc1 doc2 mainViewSection subViewSection h1 h2 alignmentInfo w :
  exists w2,
    quiet w w2
    /\ ((uniquePhase doc1 doc2 mainViewSection subViewSection h1 h2 alignmentInfo w
         = Ok (COMPARE_CANCELLED, alignmentInfo) w2 /\ ~ noCancel w)
        \/ exists new1 new2,
             new1 ≡ₚ lineMarkers (off (section doc1)) (blockDiffMask doc1) (uniqueIn h1 h2)
             /\ new2 ≡ₚ lineMarkers (off (section doc2)) (blockDiffMask doc2) (uniqueIn h2 h1)
             /\ uniquePhase doc1 doc2 mainViewSection subViewSection h1 h2 alignmentInfo w
                = Ok (if bool_decide (uniqueIn h1 h2 = [] /\ uniqueIn h2 h1 = [])
                      then (COMPARE_MATCH, alignmentInfo)
                      else (COMPARE_MISMATCH,
                            alignmentInfo
                            ++ [mkAlignPair (mkAlignData (off mainViewSection) 0)
                                            (mkAlignData (off subViewSection) 0)]))
                     (marked (marked w2 (view doc1) new1) (view doc2) new2)).
Proof.
  destruct (cancelled_spec NextPhase w eq_refl) as (b1 & w1 & E1 & Q1 & N1).
  destruct (cancelled_spec NextPhase w1 eq_refl) as (b2 & w2 & E2 & Q2 & N2).
  unfold uniquePhase. cbv zeta. rewrite (bind_Ok _ _ _ _ _ E1).
  destruct b1.
  { exists w1. split; [done|]. left. split; [done|]. intros Hn. by specialize (N1 Hn). }
  cbn beta iota. rewrite (bind_Ok _ _ _ _ _ E2).
  destruct b2.
  { exists w2. split; [by eapply quiet_trans|]. left. split; [done|].
    intros Hn. assert (noCancel w1) as Hn1 by (by apply Q1). by specialize (N2 Hn1). }
  cbn beta iota.
  destruct (uniqueTail_exact doc1 doc2 mainViewSection subViewSection h1 h2 alignmentInfo w2)
    as (new1 & new2 & P1 & P2 & E).
  exists w2. split; [by eapply quiet_trans|]. right. by exists new1, new2.
Qed.

(** [uniquePhase] when the user does not cancel. *)
Lemma uniquePhase_exact doc1 doc2 mainViewSection subViewSection h1 h2 alignmentInfo w :
  noCancel w ->
  exists w2 new1 new2,
    quiet w w2
    /\ new1 ≡ₚ lineMarkers (off (section doc1)) (blockDiffMask doc1) (uniqueIn h1 h2)
    /\ new2 ≡ₚ lineMarkers (off (section doc2)) (blockDiffMask doc2) (uniqueIn h2 h1)
    /\ uniquePhase doc1 doc2 mainViewSection subViewSection h1 h2 alignmentInfo w
       = Ok (if bool_decide (uniqueIn h1 h2 = [] /\ uniqueIn h2 h1 = [])
             then (COMPARE_MATCH, alignmentInfo)
             else (COMPARE_MISMATCH,
                   alignmentInfo ++ [mkAlignPair (mkAlignData (off mainViewSection) 0)
                                                 (mkAlignData (off subViewSection) 0)]))
            (marked (marked w2 (view doc1) new1) (view doc2) new2).
Proof.
  intros Hn.
  destruct (uniquePhase_cases doc1 doc2 mainViewSection subViewSection h1 h2 alignmentInfo w)
    as (w2 & Q & [[_ Hc]|(new1 & new2 & P1 & P2 & E)]); [done|].
  by exists w2, new1, new2.
Qed.



(** ** Sections beyond the document, and runs without a dialog *)

Lemma sectionLen_negative d s :
  sectionLen d s < 0 <-> (if SCI_GETLENGTH d =? 0 then 0 else SCI_GETLINECOUNT d) < off s.
Proof.
  unfold sectionLen. set (lineCount := if SCI_GETLENGTH d =? 0 then 0 else SCI_GETLINECOUNT d).
  destruct (Z.leb_spec (len s) 0); simpl; [lia|].
  destruct (Z.ltb_spec lineCount (off s + len s)); lia.
Qed.

(** A section that starts beyond the last line makes the vector of hashes
    be built with a negative size, which throws. *)
Lemma computeLineHashes_negative doc settings w :
  sectionLen (docOf w (view doc)) (section doc) < 0 ->
  exists w',
    computeLineHashes doc settings w = Throw (std_exception "vector too long") w'
    /\ quiet w w'.
Proof.
  intros Hlen. set (d := docOf w (view doc)) in *.
  set (n := sectionLen d (section doc)) in *.
  unfold computeLineHashes.
  unfold bind at 1. unfold sciRead at 1. fold d.
  unfold bind at 1.
  assert ((if SCI_GETLENGTH d =? 0 then ret (SCI_GETLENGTH d)
           else sciRead (view doc) SCI_GETLINECOUNT) w
          = Ok (if SCI_GETLENGTH d =? 0 then 0 else SCI_GETLINECOUNT d) w) as ->.
  { destruct (Z.eqb_spec (SCI_GETLENGTH d) 0) as [->|]; done. }
  set (lineCount := if SCI_GETLENGTH d =? 0 then 0 else SCI_GETLINECOUNT d).
  set (doc' := if (len (section doc) <=? 0) || (lineCount <? off (section doc) + len (section doc))
               then setLen doc (lineCount - off (section doc)) else doc).
  assert (Hlen' : len (section doc') = n).
  { subst doc' n. unfold sectionLen. fold lineCount.
    by destruct ((len (section doc) <=? 0) || (lineCount <? off (section doc) + len (section doc))). }
  unfold bind at 1. unfold ProgressDlg_Get at 1.
  unfold bind at 1.
  assert (exists w1, (if bool_decide (is_Some (progress w))
                      then SetMaxCount (Z.quot (len (section doc')) monitorCancelEveryXLine + 1)
                      else ret tt) w = Ok tt w1 /\ quiet w w1) as (w1 & -> & Hq1).
  { case_bool_decide as Ho.
    - by apply SetMaxCount_quiet.
    - exists w. split; [done|apply quiet_refl]. }
  unfold bind at 1. unfold newVector. rewrite Hlen'.
  destruct (Z.ltb_spec n 0); [|lia]. by exists w1.
Qed.

Lemma hashing_negative mainViewSection subViewSection settings w :
  sectionLen (mainDoc w) mainViewSection < 0 ->
  exists w',
    hashing mainViewSection subViewSection settings w
    = Throw (std_exception "vector too long") w'
    /\ quiet w w'.
Proof.
  intros Hlen. unfold hashing. cbv zeta.
  destruct (computeLineHashes_negative
              (mkDoc MAIN_VIEW mainViewSection (paintMask1 settings)) settings w Hlen)
    as (w' & E & Hq).
  exists w'. unfold bind at 1. by rewrite E.
Qed.

(** Without cancellation the hashing of the two documents is not cancelled:
    it gives the hashes, or throws. *)
Lemma hashing_noCancel mainViewSection subViewSection settings w :
  noCancel w ->
  match hashing mainViewSection subViewSection settings w with
  | Ok (Some _) w1 => noCancel w1
  | Ok None _ => False
  | Throw _ _ => True
  | _ => False
  end.
Proof.
  intros Hn. unfold hashing. cbv zeta.
  set (doc1 := mkDoc MAIN_VIEW mainViewSection (paintMask1 settings)).
  set (doc2 := mkDoc SUB_VIEW subViewSection (paintMask2 settings)).
  destruct (Z.lt_ge_cases (sectionLen (docOf w (view doc1)) (section doc1)) 0) as [Hneg|Hpos].
  { destruct (computeLineHashes_negative doc1 settings w Hneg) as (w' & E & _).
    unfold bind at 1. by rewrite E. }
  destruct (computeLineHashes_noCancel doc1 settings w Hn ltac:(lia)) as (w1 & E1 & Q1).
  rewrite (bind_Ok _ _ _ _ _ E1).
  assert (N1 : noCancel w1) by (by apply Q1).
  destruct (cancelled_noCancel NextPhase w1 eq_refl N1) as (w2 & E2 & Q2).
  rewrite (bind_Ok _ _ _ _ _ E2). cbn beta iota.
  assert (N2 : noCancel w2) by (by apply Q2).
  destruct (Z.lt_ge_cases (sectionLen (docOf w2 (view doc2)) (section doc2)) 0) as [Hneg|Hpos2].
  { destruct (computeLineHashes_negative doc2 settings w2 Hneg) as (w' & E & _).
    unfold bind at 1. by rewrite E. }
  destruct (computeLineHashes_noCancel doc2 settings w2 N2 ltac:(lia)) as (w3 & E3 & Q3).
  rewrite (bind_Ok _ _ _ _ _ E3).
  assert (N3 : noCancel w3) by (by apply Q3).
  destruct (cancelled_noCancel NextPhase w3 eq_refl N3) as (w4 & E4 & Q4).
  rewrite (bind_Ok _ _ _ _ _ E4). cbn beta iota. unfold ret. by apply Q4.
Qed.

(** X8: a section whose offset is beyond the number of lines of the main
    document (0 for an empty document) makes the compare, in either mode
    and with or without a progress dialog, return ERROR: the vector of line
    hashes is asked for with a negative size, the exception is caught by the
    entry point, one message is shown, the dialog is closed, and the two
    documents are left exactly as they were. *)
Theorem section_beyond_document_gives_error DiffCalc fuel mainViewSection subViewSection
    (findUniqueMode : bool) settings (progressInfo : bool) alignmentInfo (w : World) :
  (if SCI_GETLENGTH (mainDoc w) =? 0 then 0 else SCI_GETLINECOUNT (mainDoc w))
  < off mainViewSection ->
  exists w' msg,
    compareViews DiffCalc fuel mainViewSection subViewSection findUniqueMode settings
                 progressInfo alignmentInfo w
    = Ok (COMPARE_ERROR, if findUniqueMode then [] else alignmentInfo) w'
    /\ mainDoc w' = mainDoc w /\ subDoc w' = subDoc w
    /\ progress w' = None
    /\ messages w' = messages w ++ [msg].
Proof.
  intros Hoff. apply sectionLen_negative in Hoff.
  rewrite compareViews_run. cbv zeta.
  set (w0 := if progressInfo then openWorld w else w).
  assert (Hw0 : mainDoc w0 = mainDoc w /\ subDoc w0 = subDoc w /\ messages w0 = messages w)
    by (subst w0; by destruct progressInfo).
  destruct Hw0 as (Hm & Hs & Hmsg).
  destruct (hashing_negative mainViewSection subViewSection settings w0) as (w1 & E & Q);
    [by rewrite Hm|].
  destruct Q as (Q1 & Q2 & Q3 & _).
  destruct findUniqueMode.
  - rewrite runFindUnique_hashing. unfold bind. rewrite E.
    eexists _, _. split; [done|]. simpl. rewrite Q1, Q2, Q3, Hm, Hs, Hmsg. done.
  - rewrite runCompare_hashing. unfold bind. rewrite E.
    eexists _, _. split; [done|]. simpl. rewrite Q1, Q2, Q3, Hm, Hs, Hmsg. done.
Qed.

Lemma section_beyond_document_gives_error_witness :
  let w := worldOf ["a"; "b"]%string ["a"]%string in
  (if SCI_GETLENGTH (mainDoc w) =? 0 then 0 else SCI_GETLINECOUNT (mainDoc w))
  < off (mkSection 3 0)
  /\ exists w' msg,
       compareViews lcsDiff 10 (mkSection 3 0) wholeDoc false settings0 true [] w
       = Ok (COMPARE_ERROR, []) w'
       /\ mainDoc w' = mainDoc w /\ subDoc w' = subDoc w
       /\ progress w' = None
       /\ messages w' = messages w ++ [msg].
Proof.
  cbv zeta.
  assert (H : (if SCI_GETLENGTH (mainDoc (worldOf ["a"; "b"]%string ["a"]%string)) =? 0
               then 0
               else SCI_GETLINECOUNT (mainDoc (worldOf ["a"; "b"]%string ["a"]%string)))
              < off (mkSection 3 0)) by (vm_compute; reflexivity).
  split; [exact H|].
  exact (section_beyond_document_gives_error lcsDiff 10 (mkSection 3 0) wholeDoc false
           settings0 true [] (worldOf ["a"; "b"]%string ["a"]%string) H).
Defined.

(** X9: without a progress dialog nothing can cancel a compare: a run the
    entry point starts with no dialog open and no progress title never
    returns CANCELLED, in either mode. *)
Theorem no_dialog_never_cancelled DiffCalc fuel mainViewSection subViewSection
    (findUniqueMode : bool) settings alignmentInfo (w : World) r w' :
  progress w = None ->
  compareViews DiffCalc fuel mainViewSection subViewSection findUniqueMode settings
               false alignmentInfo w = Ok r w' ->
  fst r <> COMPARE_CANCELLED.
Proof.
  intros Hp E. rewrite compareViews_run in E. cbv zeta in E.
  assert (Hn : noCancel w) by (by left).
  pose proof (hashing_noCancel mainViewSection subViewSection settings w Hn) as Hh.
  destruct findUniqueMode.
  - rewrite runFindUnique_hashing in E. unfold bind in E.
    destruct (hashing mainViewSection subViewSection settings w)
      as [[[r1 r2]|] w1|e w1| |]; try done.
    + destruct (uniquePhase_exact (snd r1) (snd r2) mainViewSection subViewSection
                  (fst r1) (fst r2) [] w1 Hh) as (w2 & n1 & n2 & _ & _ & _ & Eu).
      rewrite Eu in E. injection E as <- _. by case_bool_decide.
    + by injection E as <- _.
  - pose proof (runCompare_cases DiffCalc fuel mainViewSection subViewSection settings
                  alignmentInfo w) as Hc.
    destruct (hashing mainViewSection subViewSection settings w)
      as [[[r1 r2]|] w1|e w1| |]; try done.
    + destruct Hc as [_ Hc].
      destruct (isSingleMatch (lineDiff DiffCalc (fst r1) (fst r2))).
      * rewrite Hc in E. by injection E as <- _.
      * destruct (runCompare DiffCalc fuel mainViewSection subViewSection settings
                    alignmentInfo w) as [r0 w0|e0 w0| |]; try done.
        destruct Hc as (_ & _ & _ & Hm). injection E as <- _. by rewrite (Hm Hh).
    + destruct Hc as [_ Hc]. rewrite Hc in E. by injection E as <- _.
Qed.

Lemma no_dialog_never_cancelled_witness :
  let w := worldOf ["a"; "b"]%string ["a"; "c"]%string in
  progress w = None
  /\ exists r w',
       compareViews lcsDiff 10 wholeDoc wholeDoc false settings0 false [] w = Ok r w'
       /\ fst r <> COMPARE_CANCELLED.
Proof.
  cbv zeta. split; [reflexivity|].
  eexists _, _.
  assert (E : compareViews lcsDiff 10 wholeDoc wholeDoc false settings0 false []
                (worldOf ["a"; "b"]%string ["a"; "c"]%string) = _)
    by (vm_compute; reflexivity).
  split; [exact E|].
  exact (no_dialog_never_cancelled lcsDiff 10 wholeDoc wholeDoc false settings0 []
           (worldOf ["a"; "b"]%string ["a"; "c"]%string) _ _ eq_refl E).
Defined.

(** ** BlockPairComparer: the loops over the lines end *)

Lemma line2Loop_fuel DiffCalc chunk1 chunk2 blockDiff2 l1 n : forall m l2 line1Len olc,
  vsize chunk2 - l2 <= Z.of_nat n -> vsize chunk2 - l2 <= Z.of_nat m ->
  line2Loop DiffCalc n chunk1 chunk2 blockDiff2 l1 l2 line1Len olc
  = line2Loop DiffCalc m chunk1 chunk2 blockDiff2 l1 l2 line1Len olc.
Proof.
  induction n as [|n IH]; intros m l2 line1Len olc Hn Hm.
  - destruct m as [|m]; [done|]. simpl.
    destruct (Z.ltb_spec l2 (vsize chunk2)); [lia|done].
  - destruct m as [|m].
    + simpl. destruct (Z.ltb_spec l2 (vsize chunk2)); [lia|done].
    + simpl. destruct (Z.ltb_spec l2 (vsize chunk2)); [|done].
      case_bool_decide; [apply IH; lia|].
      pose proof (matchedSection_pos (info blockDiff2) l2) as Hp.
      destruct (matchedSection (info blockDiff2) l2) as [matchedLen isMoved]. simpl in Hp.
      destruct (negb (matchedLen =? 0) && isMoved) eqn:Em.
      { apply andb_true_iff in Em as [Em _]. apply negb_true_iff, Z.eqb_neq in Em.
        apply IH; lia. }
      destruct (_ <? _); [apply IH; lia|].
      destruct (pairConvergence DiffCalc _ _ _). apply IH; lia.
Qed.

Lemma line1Loop_fuel DiffCalc chunk1 chunk2 blockDiff1 blockDiff2 n : forall m l1 olc,
  vsize chunk1 - l1 <= Z.of_nat n -> vsize chunk1 - l1 <= Z.of_nat m ->
  line1Loop DiffCalc n chunk1 chunk2 blockDiff1 blockDiff2 l1 olc
  = line1Loop DiffCalc m chunk1 chunk2 blockDiff1 blockDiff2 l1 olc.
Proof.
  induction n as [|n IH]; intros m l1 olc Hn Hm.
  - destruct m as [|m]; [done|]. simpl.
    destruct (Z.ltb_spec l1 (vsize chunk1)); [lia|done].
  - destruct m as [|m].
    + simpl. destruct (Z.ltb_spec l1 (vsize chunk1)); [lia|done].
    + simpl. destruct (Z.ltb_spec l1 (vsize chunk1)); [|done].
      case_bool_decide; [apply IH; lia|].
      pose proof (matchedSection_pos (info blockDiff1) l1) as Hp.
      destruct (matchedSection (info blockDiff1) l1) as [matchedLen isMoved]. simpl in Hp.
      destruct (negb (matchedLen =? 0) && isMoved) eqn:Em.
      { apply andb_true_iff in Em as [Em _]. apply negb_true_iff, Z.eqb_neq in Em.
        apply IH; lia. }
      apply IH; lia.
Qed.

(** X10: the two loops of [compareBlocks] over the lines of the blocks end
    by their own test: every pass moves the line forward, also the one that
    skips a moved section, whose length is at least 1; so whatever number of
    passes is allowed beyond the number of lines, the candidates found are
    the same. *)
Theorem line_loops_end_by_their_test DiffCalc chunk1 chunk2 blockDiff1 blockDiff2 n m :
  (length chunk1 <= n)%nat -> (length chunk2 <= m)%nat ->
  line1Loop DiffCalc n chunk1 chunk2 blockDiff1 blockDiff2 0 []
  = orderedLinesConvergence DiffCalc chunk1 chunk2 blockDiff1 blockDiff2
  /\ forall l1 line1Len olc,
       line2Loop DiffCalc m chunk1 chunk2 blockDiff2 l1 0 line1Len olc
       = line2Loop DiffCalc (length chunk2) chunk1 chunk2 blockDiff2 l1 0 line1Len olc.
Proof.
  intros Hn Hm. split.
  - unfold orderedLinesConvergence. apply line1Loop_fuel; unfold vsize; lia.
  - intros l1 line1Len olc. apply line2Loop_fuel; unfold vsize; lia.
Qed.

Lemma line_loops_end_by_their_test_witness :
  let chunk1 := getWords 0 2 (docOfLines ["a b"; "c"]%string) settings0 in
  let chunk2 := getWords 0 1 (docOfLines ["a c"]%string) settings0 in
  (length chunk1 <= 5)%nat /\ (length chunk2 <= 7)%nat
  /\ line1Loop lcsDiff 5 chunk1 chunk2 (blockIn1 2) (blockIn2 1) 0 []
     = orderedLinesConvergence lcsDiff chunk1 chunk2 (blockIn1 2) (blockIn2 1)
  /\ forall l1 line1Len olc,
       line2Loop lcsDiff 7 chunk1 chunk2 (blockIn2 1) l1 0 line1Len olc
       = line2Loop lcsDiff (length chunk2) chunk1 chunk2 (blockIn2 1) l1 0 line1Len olc.
Proof.
  cbv zeta.
  set (chunk1 := getWords 0 2 (docOfLines ["a b"; "c"]%string) settings0).
  set (chunk2 := getWords 0 1 (docOfLines ["a c"]%string) settings0).
  assert (H1 : (length chunk1 <= 5)%nat) by (vm_compute; lia).
  assert (H2 : (length chunk2 <= 7)%nat) by (vm_compute; lia).
  split; [exact H1|]. split; [exact H2|].
  exact (line_loops_end_by_their_test lcsDiff chunk1 chunk2 (blockIn1 2) (blockIn2 1) 5 7 H1 H2).
Defined.

(** ** A MATCH leaves the documents untouched *)

(** X11: a compare that returns MATCH has changed nothing in the two
    documents, in either mode: no text, no marker, no painted range, no
    flag. *)
Theorem match_leaves_documents_untouched DiffCalc fuel mainViewSection subViewSection
    (findUniqueMode : bool) settings (progressInfo : bool) alignmentInfo (w : World) r w' :
  compareViews DiffCalc fuel mainViewSection subViewSection findUniqueMode settings
               progressInfo alignmentInfo w = Ok r w' ->
  fst r = COMPARE_MATCH ->
  mainDoc w' = mainDoc w /\ subDoc w' = subDoc w.
Proof.
  intros E Hr. rewrite compareViews_run in E. cbv zeta in E.
  set (w0 := if progressInfo then openWorld w else w) in *.
  assert (Hw0 : mainDoc w0 = mainDoc w /\ subDoc w0 = subDoc w)
    by (subst w0; by destruct progressInfo).
  destruct Hw0 as [Hm Hs]. rewrite <- Hm, <- Hs. clearbody w0. clear Hm Hs.
  pose proof (hashing_general mainViewSection subViewSection settings w0) as Hg.
  destruct findUniqueMode.
  - rewrite runFindUnique_hashing in E. unfold bind in E.
    destruct (hashing mainViewSection subViewSection settings w0)
      as [[[r1 r2]|] w1|e w1| |]; try done.
    + destruct Hg as ((Q1 & Q2 & _) & V1 & _ & V2 & _).
      destruct (uniquePhase_cases (snd r1) (snd r2) mainViewSection subViewSection
                  (fst r1) (fst r2) [] w1)
        as (w2 & (A1 & A2 & _) & [[Eu _]|(n1 & n2 & P1 & P2 & Eu)]);
        rewrite Eu in E; injection E as <- <-; [done|].
      case_bool_decide as Hd; [|done]. destruct Hd as [D1 D2].
      rewrite D1 in P1. rewrite D2 in P2. unfold lineMarkers in P1, P2. simpl in P1, P2.
      apply Permutation_nil_r in P1, P2. subst n1 n2. rewrite !marked_nil. simpl.
      split; congruence.
    + injection E as <- _. done.
    + injection E as <- _. done.
  - pose proof (runCompare_cases DiffCalc fuel mainViewSection subViewSection settings
                  alignmentInfo w0) as Hc.
    destruct (hashing mainViewSection subViewSection settings w0)
      as [[[r1 r2]|] w1|e w1| |]; try done.
    + destruct Hc as [(Q1 & Q2 & _) Hc].
      destruct (isSingleMatch (lineDiff DiffCalc (fst r1) (fst r2))).
      * rewrite Hc in E. injection E as <- <-. simpl. split; congruence.
      * destruct (runCompare DiffCalc fuel mainViewSection subViewSection settings
                    alignmentInfo w0) as [r0 w2|e0 w2| |]; try done.
        destruct Hc as ([Hx|Hx] & _). all: injection E as <- _; congruence.
    + destruct Hc as [_ Hc]. rewrite Hc in E. injection E as <- _. done.
    + destruct Hc as [_ Hc]. rewrite Hc in E. injection E as <- _. done.
Qed.

Lemma match_leaves_documents_untouched_witness :
  let w := worldOf ["a"; "b"; "a"]%string ["b"; "a"]%string in
  exists r w',
    compareViews lcsDiff 10 wholeDoc wholeDoc true settings0 true [] w = Ok r w'
    /\ fst r = COMPARE_MATCH
    /\ mainDoc w' = mainDoc w /\ subDoc w' = subDoc w.
Proof.
  cbv zeta. eexists _, _.
  assert (E : compareViews lcsDiff 10 wholeDoc wholeDoc true settings0 true []
                (worldOf ["a"; "b"; "a"]%string ["b"; "a"]%string) = _)
    by (vm_compute; reflexivity).
  split; [exact E|]. split; [reflexivity|].
  exact (match_leaves_documents_untouched lcsDiff 10 wholeDoc wholeDoc true settings0 true []
           (worldOf ["a"; "b"; "a"]%string ["b"; "a"]%string) _ _ E eq_refl).
Defined.

(** ** The block compares keep the blocks *)

Lemma compareLinesLoop_frame DiffCalc chunk1 chunk2 lms : forall lastLine2 blockDiff1 blockDiff2,
  frameOf (fst (compareLinesLoop DiffCalc chunk1 chunk2 lms lastLine2 blockDiff1 blockDiff2))
  = frameOf blockDiff1
  /\ frameOf (snd (compareLinesLoop DiffCalc chunk1 chunk2 lms lastLine2 blockDiff1 blockDiff2))
     = frameOf blockDiff2.
Proof.
  induction lms as [|lm rest IH]; intros lastLine2 b1 b2; [done|].
  cbn [compareLinesLoop]. destruct (_ <=? lastLine2); [apply IH|]. cbv zeta.
  destruct (vsize _ <? vsize _); cbn iota beta.
  - destruct (isSingleMatch _); [apply IH|].
    match goal with |- context [compareLinesLoop _ _ _ _ _ ?x ?y] =>
      destruct (IH (snd (snd lm)) x y) as [-> ->] end. done.
  - destruct (isSingleMatch _); [apply IH|].
    match goal with |- context [compareLinesLoop _ _ _ _ _ ?x ?y] =>
      destruct (IH (snd (snd lm)) x y) as [-> ->] end. done.
Qed.

Lemma compareBlocks_frame DiffCalc d1 d2 settings blockDiff1 blockDiff2 :
  frameOf (fst (compareBlocks DiffCalc d1 d2 settings blockDiff1 blockDiff2))
  = frameOf blockDiff1
  /\ frameOf (snd (compareBlocks DiffCalc d1 d2 settings blockDiff1 blockDiff2))
     = frameOf blockDiff2.
Proof.
  unfold compareBlocks. cbv zeta. case_bool_decide; [done|].
  apply compareLinesLoop_frame.
Qed.

Lemma blockAt_typed_lookup blockDiffs i t :
  d_type (blockAt blockDiffs i) = t -> t <> DIFF_MATCH ->
  blockDiffs !! i = Some (blockAt blockDiffs i).
Proof.
  unfold blockAt. destruct (blockDiffs !! i); [done|]. simpl. congruence.
Qed.

Lemma blockCompares_frame DiffCalc doc1 doc2 settings idxs : forall blockDiffs w ok blockDiffs' w',
  blockCompares DiffCalc idxs doc1 doc2 settings blockDiffs w = Ok (ok, blockDiffs') w' ->
  map frameOf blockDiffs' = map frameOf blockDiffs.
Proof.
  induction idxs as [|i rest IH]; intros bs w ok bs' w' E; simpl in E.
  - by injection E as _ <- _.
  - unfold bind at 1 in E.
    destruct (bool_decide (d_type (blockAt bs i) = DIFF_IN_2) && negb (bool_decide (i = 0%nat))
              && bool_decide (d_type (blockAt bs (i - 1)) = DIFF_IN_1)) eqn:Ec.
    + apply andb_true_iff in Ec as [Ec E1]. apply andb_true_iff in Ec as [E2 _].
      apply bool_decide_eq_true in E1, E2.
      unfold bind at 1, sciRead at 1 in E. unfold bind at 1, sciRead at 1 in E.
      unfold ret at 1 in E.
      set (r := compareBlocks DiffCalc _ _ settings _ _) in E.
      assert (Hf : map frameOf (<[i := snd r]> (<[(i - 1)%nat := fst r]> bs)) = map frameOf bs).
      { destruct (compareBlocks_frame DiffCalc (docOf w (view doc1)) (docOf w (view doc2))
                    settings (setMatchBlock (blockAt bs (i - 1)) i)
                    (setMatchBlock (blockAt bs i) (i - 1))) as [F1 F2].
        fold r in F1, F2.
        change (map frameOf ?l) with (frameOf <$> l).
        rewrite !list_fmap_insert, F1, F2.
        rewrite (list_insert_id (frameOf <$> bs) (i - 1)).
        - apply list_insert_id. rewrite list_lookup_fmap.
          by rewrite (blockAt_typed_lookup bs i DIFF_IN_2).
        - rewrite list_lookup_fmap.
          by rewrite (blockAt_typed_lookup bs (i - 1) DIFF_IN_1). }
      unfold bind at 1 in E.
      destruct (cancelled Advance w) as [stop w1| | |] eqn:Es; try done.
      destruct stop.
      * injection E as _ <- _. done.
      * apply IH in E. by rewrite E.
    + unfold ret at 1 in E. unfold bind at 1 in E.
      destruct (cancelled Advance w) as [stop w1| | |] eqn:Es; try done.
      destruct stop.
      * by injection E as _ <- _.
      * by apply IH in E.
Qed.

(** X12: the block compares never touch what the line-level diff and the
    move detection fixed: [compareBlocks] returns the two blocks with their
    type, offset, length and recorded matches as they were, and so does the
    whole loop over the blocks, cancelled or not, which also keeps the
    number of blocks; they only set partners and add changed lines. *)
Theorem block_compares_keep_blocks DiffCalc :
  (forall d1 d2 settings blockDiff1 blockDiff2,
     frameOf (fst (compareBlocks DiffCalc d1 d2 settings blockDiff1 blockDiff2))
     = frameOf blockDiff1
     /\ frameOf (snd (compareBlocks DiffCalc d1 d2 settings blockDiff1 blockDiff2))
        = frameOf blockDiff2)
  /\ (forall idxs doc1 doc2 settings blockDiffs w ok blockDiffs' w',
        blockCompares DiffCalc idxs doc1 doc2 settings blockDiffs w = Ok (ok, blockDiffs') w' ->
        map frameOf blockDiffs' = map frameOf blockDiffs
        /\ length blockDiffs' = length blockDiffs).
Proof.
  split; [apply compareBlocks_frame|].
  intros idxs doc1 doc2 settings bs w ok bs' w' E.
  pose proof (blockCompares_frame DiffCalc doc1 doc2 settings idxs bs w ok bs' w' E) as Hf.
  split; [done|]. apply (f_equal length) in Hf. by rewrite !length_map in Hf.
Qed.

Lemma block_compares_keep_blocks_witness :
  let w := worldOf ["a b"; "k"]%string ["a c"; "k"]%string in
  let doc1 := mkDoc MAIN_VIEW wholeDoc 1 in
  let doc2 := mkDoc SUB_VIEW wholeDoc 2 in
  let blockDiffs := [blockIn1 1; blockIn2 1; mkDiff DIFF_MATCH 1 1 emptyInfo] in
  exists ok blockDiffs' w',
    blockCompares lcsDiff [0; 1; 2]%nat doc1 doc2 settings0 blockDiffs w
    = Ok (ok, blockDiffs') w'
    /\ map frameOf blockDiffs' = map frameOf blockDiffs
    /\ length blockDiffs' = length blockDiffs
    /\ map (fun bd => matchBlock (info bd)) blockDiffs' = [Some 1%nat; Some 0%nat; None].
Proof.
  cbv zeta. eexists _, _, _.
  assert (E : blockCompares lcsDiff [0; 1; 2]%nat (mkDoc MAIN_VIEW wholeDoc 1)
                (mkDoc SUB_VIEW wholeDoc 2) settings0
                [blockIn1 1; blockIn2 1; mkDiff DIFF_MATCH 1 1 emptyInfo]
                (worldOf ["a b"; "k"]%string ["a c"; "k"]%string) = Ok (_, _) _)
    by (vm_compute; reflexivity).
  split; [exact E|].
  destruct (proj2 (block_compares_keep_blocks lcsDiff) _ _ _ _ _ _ _ _ _ E) as [H1 H2].
  split; [exact H1|]. split; [exact H2|]. vm_compute; reflexivity.
Defined.

(** ** Words: order, line index and hash *)

Lemma inOrder_weaken ws : forall p p' e, p' <= p -> inOrder p ws e -> inOrder p' ws e.
Proof. destruct ws as [|w ws]; simpl; intros p p' e Hp H; [lia|]. split; [lia|]. tauto. Qed.

Lemma inOrder_bounds ws : forall p e, inOrder p ws e -> p <= e.
Proof.
  induction ws as [|w ws IH]; simpl; intros p e H; [done|].
  destruct H as (H1 & H2 & H3). apply IH in H3. lia.
Qed.

Lemma inOrder_app ws1 : forall ws2 p e,
  inOrder p (ws1 ++ ws2) e <-> exists q, inOrder p ws1 q /\ inOrder q ws2 e.
Proof.
  induction ws1 as [|w ws1 IH]; simpl; intros ws2 p e.
  - split.
    + intros H. exists p. split; [lia|done].
    + intros (q & Hq & H). by apply (inOrder_weaken _ q).
  - rewrite IH. split.
    + intros (H1 & H2 & q & H3 & H4). exists q. tauto.
    + intros (q & (H1 & H2 & H3) & H4). split; [done|]. split; [done|]. by exists q.
Qed.

(** Two words of a list in order: the earlier one ends before the later one
    starts, and both lie between the bounds. *)
Lemma inOrder_lookup ws : forall p e (i j : nat) a b,
  inOrder p ws e -> ws !! i = Some a -> ws !! j = Some b -> (i <= j)%nat ->
  p <= w_pos a /\ w_pos a <= w_pos b /\ 0 < w_length b /\ w_pos b + w_length b <= e.
Proof.
  induction ws as [|w ws IH]; intros p e i j a b H Hi Hj Hle; [done|].
  simpl in H. destruct H as (H1 & H2 & H3). pose proof (inOrder_bounds _ _ _ H3) as Hb.
  destruct i as [|i], j as [|j]; simpl in *; try lia.
  - injection Hi as <-. injection Hj as <-. lia.
  - injection Hi as <-.
    destruct (IH _ _ j j b b H3 Hj Hj ltac:(lia)) as (A & _ & B & C). lia.
  - destruct (IH _ _ i j a b H3 Hi Hj ltac:(lia)) as (A & B & C & D). lia.
Qed.

Lemma fold_left_Hash_snoc l c h : fold_left Hash (l ++ [c]) h = Hash (fold_left Hash l h) c.
Proof. by rewrite fold_left_app. Qed.

(** The loop of the tokenizer: the words found lie in order in the line,
    carry the line index, and each carries the hash of its bytes. *)
Lemma wordsLoop_words settings (text : list byte) rest : forall pre word,
  text = pre ++ rest ->
  0 <= w_pos word -> 0 < w_length word ->
  w_pos word + w_length word = vsize pre ->
  w_hash word = fold_left Hash (drop (Z.to_nat (w_pos word)) pre) cHashSeed ->
  let ws := wordsLoop settings (vsize pre) rest word in
  inOrder (w_pos word) ws (vsize text)
  /\ Forall (fun w => w_line w = w_line word
                      /\ w_hash w = fold_left Hash (wordBytes text w) cHashSeed) ws.
Proof.
  induction rest as [|c rest IH]; intros pre word Ht Hp Hl Hi Hh; cbn [wordsLoop].
  - rewrite app_nil_r in Ht. subst text.
    assert (Hw : w_hash word = fold_left Hash (wordBytes pre word) cHashSeed).
    { rewrite Hh. unfold wordBytes. f_equal. rewrite take_ge; [done|].
      rewrite length_drop. unfold vsize in Hi. lia. }
    destruct (keepWord settings word); simpl.
    + split; [lia|]. by repeat constructor.
    + split; [lia|constructor].
  - assert (Ht' : text = (pre ++ [c]) ++ rest) by (by rewrite <- app_assoc).
    assert (Hv : vsize (pre ++ [c]) = vsize pre + 1)
      by (unfold vsize; rewrite length_app; simpl; lia).
    case_bool_decide as Hty.
    + rewrite <- Hv.
      apply (IH (pre ++ [c])
                (mkWord (w_type word) (w_line word) (w_pos word) (w_length word + 1)
                        (Hash (w_hash word) c))); simpl; try done; try lia.
      rewrite Hh, <- fold_left_Hash_snoc. f_equal. rewrite drop_app_le; [done|].
      unfold vsize in Hi. lia.
    + rewrite <- Hv.
      destruct (IH (pre ++ [c]) (mkWord (getCharType c) (w_line word) (vsize pre) 1
                                        (Hash cHashSeed c)))
        as [IHo IHf]; simpl; try done; try lia.
      { rewrite drop_app_length'; [done|]. unfold vsize. lia. }
      assert (Hw : w_hash word = fold_left Hash (wordBytes text word) cHashSeed).
      { rewrite Hh. unfold wordBytes. f_equal. subst text.
        rewrite drop_app_le by (unfold vsize in Hi; lia).
        rewrite take_app_le; [|rewrite length_drop; unfold vsize in Hi; lia].
        rewrite take_ge; [done|]. rewrite length_drop. unfold vsize in Hi. lia. }
      simpl in IHo. split.
      * destruct (keepWord settings word); simpl.
        -- split; [lia|]. split; [done|]. rewrite Hi. exact IHo.
        -- apply (inOrder_weaken _ (vsize pre)); [lia|done].
      * destruct (keepWord settings word); simpl; [constructor; [done|]|]; exact IHf.
Qed.

Lemma lineWords_words settings lineNum (text : list byte) :
  let ws := lineWords settings lineNum (text ++ [x00]) in
  inOrder 0 ws (vsize text)
  /\ Forall (fun w => w_line w = lineNum
                      /\ w_hash w = fold_left Hash (wordBytes (casedLine settings text) w)
                                              cHashSeed) ws.
Proof.
  unfold lineWords. cbv zeta.
  assert (Hsz : vsize (text ++ [x00]) - 1 = vsize text)
    by (unfold vsize; rewrite length_app; simpl; lia).
  rewrite Hsz.
  assert (Hc : take (Z.to_nat (vsize text))
                 (if IgnoreCase settings then toLowerCase (text ++ [x00]) else text ++ [x00])
               = casedLine settings text).
  { unfold casedLine, toLowerCase. destruct (IgnoreCase settings).
    - rewrite map_app. rewrite take_app_length'; [done|]. rewrite length_map. unfold vsize. lia.
    - rewrite take_app_length'; [done|]. unfold vsize. lia. }
  rewrite Hc.
  assert (Hlen : vsize (casedLine settings text) = vsize text).
  { unfold casedLine, toLowerCase, vsize. destruct (IgnoreCase settings); [|done].
    by rewrite length_map. }
  destruct (Z.ltb_spec 0 (vsize text)) as [Hpos|Hz].
  - destruct (casedLine settings text) as [|c0 rest] eqn:Ec.
    + simpl. split; [lia|constructor].
    + destruct (wordsLoop_words settings (c0 :: rest) rest [c0]
                  (mkWord (getCharType c0) lineNum 0 1 (Hash cHashSeed c0)))
        as [Ho Hf]; simpl; try done.
      rewrite <- Hlen. split; [exact Ho|exact Hf].
  - simpl. split; [unfold vsize in *; lia|constructor].
Qed.

Lemma getWords_line d lineOffset lineCount settings k :
  0 <= k < lineCount -> 0 <= k + lineOffset < SCI_GETLINECOUNT d ->
  vget_d [] (getWords lineOffset lineCount d settings) k
  = lineWords settings k (docLine d (k + lineOffset) ++ [x00]).
Proof.
  intros Hk Hln. unfold vget_d, getWords. rewrite vget_map_zrange by done. cbv zeta.
  by rewrite getText_docLine.
Qed.

Lemma words_order_helper d lineOffset lineCount settings k :
  0 <= k < lineCount -> 0 <= k + lineOffset < SCI_GETLINECOUNT d ->
  inOrder 0 (vget_d [] (getWords lineOffset lineCount d settings) k)
          (vsize (docLine d (k + lineOffset))).
Proof.
  intros Hk Hln. rewrite getWords_line by done. apply lineWords_words.
Qed.

(** X13: the words the tokenizer returns for a line of a block lie in the
    line in ascending order, without overlap, none empty; each carries the
    index of the line in the block, and as hash the FNV fold, from the seed,
    of its own bytes (lowercased when IgnoreCase is set).  So two words made
    of the same bytes compare equal. *)
Theorem words_in_order_with_hashes d lineOffset lineCount settings k :
  0 <= k < lineCount -> 0 <= k + lineOffset < SCI_GETLINECOUNT d ->
  let text := docLine d (k + lineOffset) in
  let ws := vget_d [] (getWords lineOffset lineCount d settings) k in
  inOrder 0 ws (vsize text)
  /\ Forall (fun w => w_line w = k
                      /\ w_hash w = fold_left Hash (wordBytes (casedLine settings text) w)
                                              cHashSeed) ws.
Proof.
  intros Hk Hln. cbv zeta. rewrite getWords_line by done. apply lineWords_words.
Qed.

Lemma words_in_order_with_hashes_witness :
  let d := docOfLines ["x"; "Foo  bar_1+2"]%string in
  let settings := mkSettings MAIN_VIEW false true true in
  let text := docLine d (0 + 1) in
  let ws := vget_d [] (getWords 1 1 d settings) 0 in
  0 <= 0 < 1 /\ 0 <= 0 + 1 < SCI_GETLINECOUNT d
  /\ map (fun w => (w_pos w, w_length w)) ws = [(0, 3); (5, 5); (10, 1); (11, 1)]
  /\ inOrder 0 ws (vsize text)
  /\ Forall (fun w => w_line w = 0
                      /\ w_hash w = fold_left Hash (wordBytes (casedLine settings text) w)
                                              cHashSeed) ws.
Proof.
  cbv zeta.
  set (d := docOfLines ["x"; "Foo  bar_1+2"]%string).
  assert (H1 : 0 <= 0 < 1) by lia.
  assert (H2 : 0 <= 0 + 1 < SCI_GETLINECOUNT d) by (split; vm_compute; [discriminate|reflexivity]).
  split; [exact H1|]. split; [exact H2|]. split; [vm_compute; reflexivity|].
  exact (words_in_order_with_hashes d 1 1 (mkSettings MAIN_VIEW false true true) 0 H1 H2).
Defined.

(** X14: the byte range [compareLines] records for a span of words of a
    line starts at the first word of the span and ends with its last word;
    when the span lies within the words of the line, the range is not empty
    and lies within the line, so that what [markLineDiffs] paints is inside
    the line. *)
Theorem change_lies_within_line d lineOffset lineCount settings k (ld : span) :
  0 <= k < lineCount -> 0 <= k + lineOffset < SCI_GETLINECOUNT d ->
  let ws := vget_d [] (getWords lineOffset lineCount d settings) k in
  0 <= s_off ld -> 0 < s_len ld -> s_off ld + s_len ld <= vsize ws ->
  off (changeOf ws ld) = w_pos (wordAt ws (s_off ld))
  /\ off (changeOf ws ld) + len (changeOf ws ld)
     = w_pos (wordAt ws (s_off ld + s_len ld - 1))
       + w_length (wordAt ws (s_off ld + s_len ld - 1))
  /\ 0 <= off (changeOf ws ld)
  /\ 0 < len (changeOf ws ld)
  /\ off (changeOf ws ld) + len (changeOf ws ld) <= vsize (docLine d (k + lineOffset)).
Proof.
  intros Hk Hln ws Ho Hl Hr.
  pose proof (words_order_helper d lineOffset lineCount settings k Hk Hln) as Hord.
  fold ws in Hord. unfold changeOf. cbv zeta. simpl.
  destruct (vget_lt_is_Some ws (s_off ld) ltac:(lia)) as [a Ha].
  destruct (vget_lt_is_Some ws (s_off ld + s_len ld - 1) ltac:(lia)) as [b Hb].
  unfold wordAt, vget_d. rewrite Ha, Hb. simpl.
  unfold vget in Ha, Hb.
  destruct (Z.ltb_spec (s_off ld) 0); [lia|].
  destruct (Z.ltb_spec (s_off ld + s_len ld - 1) 0); [lia|].
  destruct (inOrder_lookup ws 0 _ _ _ a b Hord Ha Hb ltac:(lia)) as (A & B & C & D).
  repeat split; lia.
Qed.

Lemma change_lies_within_line_witness :
  let d := docOfLines ["x"; "Foo  bar_1+2"]%string in
  let settings := mkSettings MAIN_VIEW false true true in
  let ws := vget_d [] (getWords 1 1 d settings) 0 in
  let ld := mkSpan DIFF_IN_1 1 2 in
  0 <= 0 < 1 /\ 0 <= 0 + 1 < SCI_GETLINECOUNT d
  /\ 0 <= s_off ld /\ 0 < s_len ld /\ s_off ld + s_len ld <= vsize ws
  /\ changeOf ws ld = mkSection 5 6
  /\ off (changeOf ws ld) = w_pos (wordAt ws (s_off ld))
  /\ off (changeOf ws ld) + len (changeOf ws ld)
     = w_pos (wordAt ws (s_off ld + s_len ld - 1))
       + w_length (wordAt ws (s_off ld + s_len ld - 1))
  /\ 0 <= off (changeOf ws ld)
  /\ 0 < len (changeOf ws ld)
  /\ off (changeOf ws ld) + len (changeOf ws ld) <= vsize (docLine d (0 + 1)).
Proof.
  cbv zeta.
  set (d := docOfLines ["x"; "Foo  bar_1+2"]%string).
  set (settings := mkSettings MAIN_VIEW false true true).
  set (ld := mkSpan DIFF_IN_1 1 2).
  assert (H1 : 0 <= 0 < 1) by lia.
  assert (H2 : 0 <= 0 + 1 < SCI_GETLINECOUNT d) by (split; vm_compute; [discriminate|reflexivity]).
  assert (H3 : 0 <= s_off ld) by (vm_compute; discriminate).
  assert (H4 : 0 < s_len ld) by (vm_compute; reflexivity).
  assert (H5 : s_off ld + s_len ld <= vsize (vget_d [] (getWords 1 1 d settings) 0))
    by (vm_compute; discriminate).
  split; [exact H1|]. split; [exact H2|]. split; [exact H3|]. split; [exact H4|].
  split; [exact H5|]. split; [vm_compute; reflexivity|].
  exact (change_lies_within_line d 1 1 settings 0 ld H1 H2 H3 H4 H5).
Defined.

(** ** Lines without words *)

Lemma getCharType_space c : getCharType c = SPACECHAR <-> isSpaceTab c = true.
Proof.
  unfold getCharType. destruct (isSpaceTab c); [done|].
  destruct (_ || _); split; discriminate.
Qed.

Lemma wordsLoop_nil settings rest : forall i word,
  wordsLoop settings i rest word = []
  <-> IgnoreSpaces settings = true /\ w_type word = SPACECHAR
      /\ Forall (fun c => isSpaceTab c = true) rest.
Proof.
  assert (Hk : forall w, (if keepWord settings w then [w] else []) = []
                         <-> IgnoreSpaces settings = true /\ w_type w = SPACECHAR).
  { intros w. unfold keepWord. destruct (IgnoreSpaces settings); simpl.
    - case_bool_decide; simpl; split; try done; intros [_ ?]; done.
    - split; [done|]. by intros [? _]. }
  induction rest as [|c rest IH]; intros i word; cbn [wordsLoop].
  - rewrite Hk. split; [intros [? ?]; by repeat split|]. tauto.
  - case_bool_decide as Hty.
    + rewrite IH. simpl. rewrite Forall_cons, <- getCharType_space, Hty. split.
      * intros (? & ? & ?). by repeat split.
      * intros (? & ? & _ & ?). by repeat split.
    + split.
      * intros E. apply app_eq_nil in E as [E1 E2]. apply Hk in E1 as [_ E1].
        apply IH in E2 as (_ & E2 & _). simpl in E2. congruence.
      * intros (_ & E1 & E2). apply Forall_cons in E2 as [E2 _].
        apply getCharType_space in E2. congruence.
Qed.

Lemma hashedBytes_nil settings (text : list byte) :
  hashedBytes settings text = []
  <-> text = [] \/ (IgnoreSpaces settings = true
                    /\ Forall (fun c => isSpaceTab c = true) (casedLine settings text)).
Proof.
  unfold hashedBytes. cbv zeta. fold (casedLine settings text).
  assert (Hc : casedLine settings text = [] <-> text = []).
  { unfold casedLine, toLowerCase. destruct (IgnoreCase settings); [|done].
    destruct text; simpl; split; done. }
  destruct (IgnoreSpaces settings).
  - split.
    + intros E. right. split; [done|]. apply Forall_forall. intros c Hin.
      destruct (isSpaceTab c) eqn:Es; [done|]. exfalso.
      assert (c ∈ filter (fun c => isSpaceTab c = false) (casedLine settings text))
        by (by apply list_elem_of_filter).
      rewrite E in H. by apply elem_of_nil in H.
    + intros [E|[_ E]].
      * apply Hc in E. by rewrite E.
      * destruct (filter _ _) as [|c l] eqn:Ef; [done|]. exfalso.
        assert (Hin : c ∈ filter (fun c => isSpaceTab c = false) (casedLine settings text))
          by (rewrite Ef; left).
        apply list_elem_of_filter in Hin as [H1 H2].
        rewrite Forall_forall in E. specialize (E c H2). congruence.
  - rewrite Hc. split; [by left|]. intros [?|[? _]]; done.
Qed.

Lemma lineWords_nil settings lineNum (text : list byte) :
  lineWords settings lineNum (text ++ [x00]) = [] <-> hashedBytes settings text = [].
Proof.
  rewrite hashedBytes_nil. unfold lineWords. cbv zeta.
  assert (Hsz : vsize (text ++ [x00]) - 1 = vsize text)
    by (unfold vsize; rewrite length_app; simpl; lia).
  rewrite Hsz.
  assert (Hc : take (Z.to_nat (vsize text))
                 (if IgnoreCase settings then toLowerCase (text ++ [x00]) else text ++ [x00])
               = casedLine settings text).
  { unfold casedLine, toLowerCase. destruct (IgnoreCase settings).
    - rewrite map_app. rewrite take_app_length'; [done|]. rewrite length_map. unfold vsize. lia.
    - rewrite take_app_length'; [done|]. unfold vsize. lia. }
  rewrite Hc.
  assert (Hlen : vsize (casedLine settings text) = vsize text).
  { unfold casedLine, toLowerCase, vsize. destruct (IgnoreCase settings); [|done].
    by rewrite length_map. }
  destruct (Z.ltb_spec 0 (vsize text)) as [Hpos|Hz].
  - destruct (casedLine settings text) as [|c0 rest] eqn:Ec.
    + unfold vsize in *. simpl in *. lia.
    + rewrite wordsLoop_nil. simpl. rewrite Forall_cons, <- getCharType_space. split.
      * intros (? & ? & ?). right. by repeat split.
      * intros [->|(? & ? & ?)]; [unfold vsize in Hpos; simpl in Hpos; lia|]. by repeat split.
  - split; [|done]. intros _. left. destruct text; [done|].
    unfold vsize in Hz. simpl in Hz. lia.
Qed.

(** X15: a line of a block has no words exactly when it has no hashed
    bytes: when it is empty, or when IgnoreSpaces is set and it holds only
    spaces and tabs.  These are the lines [compareBlocks] passes over, and
    they are lines whose hash is the seed. *)
Theorem line_without_words d lineOffset lineCount settings k :
  0 <= k < lineCount -> 0 <= k + lineOffset < SCI_GETLINECOUNT d ->
  (vget_d [] (getWords lineOffset lineCount d settings) k = []
   <-> hashedBytes settings (docLine d (k + lineOffset)) = [])
  /\ (vget_d [] (getWords lineOffset lineCount d settings) k = []
      -> lineHashOf settings d (k + lineOffset) = cHashSeed).
Proof.
  intros Hk Hln. rewrite getWords_line by done.
  split; [apply lineWords_nil|].
  intros E. apply lineWords_nil in E. by rewrite lineHashOf_bytes, E.
Qed.

Lemma line_without_words_witness :
  let d := docOfLines ["x"; " 	 "; "y"]%string in
  let settings := mkSettings MAIN_VIEW false true false in
  0 <= 1 < 3 /\ 0 <= 1 + 0 < SCI_GETLINECOUNT d
  /\ (vget_d [] (getWords 0 3 d settings) 1 = []
      <-> hashedBytes settings (docLine d (1 + 0)) = [])
  /\ (vget_d [] (getWords 0 3 d settings) 1 = []
      -> lineHashOf settings d (1 + 0) = cHashSeed).
Proof.
  cbv zeta.
  set (d := docOfLines ["x"; " 	 "; "y"]%string).
  assert (H1 : 0 <= 1 < 3) by lia.
  assert (H2 : 0 <= 1 + 0 < SCI_GETLINECOUNT d) by (split; vm_compute; [discriminate|reflexivity]).
  split; [exact H1|]. split; [exact H2|].
  exact (line_without_words d 0 3 (mkSettings MAIN_VIEW false true false) 1 H1 H2).
Defined.

(** ** MoveFinder: the recorded matches lie within their blocks *)

Lemma scanBegin_range h1 h2 n diff1 diff2 : forall start1 start2 s1 s2,
  scanBegin h1 h2 n diff1 diff2 start1 start2 = Some (s1, s2) ->
  -1 <= start1 -> -1 <= start2 ->
  -1 <= s1 <= start1 /\ -1 <= s2 /\ start1 - s1 = start2 - s2.
Proof.
  induction n as [|n IH]; intros start1 start2 s1 s2; simpl.
  - destruct (_ && _ && _ && _); [done|]. intros [= <- <-] H1 H2. lia.
  - destruct (_ && _ && _ && _) eqn:E.
    + apply andb_true_iff in E as [E _]. apply andb_true_iff in E as [E _].
      apply andb_true_iff in E as [Ea Eb]. apply Z.leb_le in Ea, Eb.
      intros Hr H1 H2. apply IH in Hr; lia.
    + intros [= <- <-] H1 H2. lia.
Qed.

Lemma scanEnd_range h1 h2 n diff1 diff2 : forall end1 end2 e,
  scanEnd h1 h2 n diff1 diff2 end1 end2 = Some e ->
  end1 <= e /\ e <= Z.max end1 (d_len diff1)
  /\ e - end1 + end2 <= Z.max end2 (d_len diff2).
Proof.
  induction n as [|n IH]; intros end1 end2 e; simpl.
  - destruct (_ && _ && _ && _); [done|]. intros [= <-]. lia.
  - destruct (_ && _ && _ && _) eqn:E.
    + apply andb_true_iff in E as [E _]. apply andb_true_iff in E as [E _].
      apply andb_true_iff in E as [Ea Eb]. apply Z.ltb_lt in Ea, Eb.
      intros Hr. apply IH in Hr. lia.
    + intros [= <-]. lia.
Qed.

Lemma anchorsIn_nil blockDiffs t n : anchorsIn blockDiffs t n [].
Proof. constructor. Qed.

Lemma findMatchesIn_range fuel h1 h2 blockDiffs n diff1 ei1 di2 diff2
    (Hei1 : 0 <= ei1 < d_len diff1) (Hd2 : blockAt blockDiffs di2 = diff2)
    (Ht2 : d_type diff2 = DIFF_IN_2) :
  forall ei2 mi minMatchLen mi' minMatchLen',
  findMatchesIn fuel h1 h2 n diff1 ei1 di2 diff2 ei2 mi minMatchLen = Some (mi', minMatchLen') ->
  0 <= ei2 -> 1 <= minMatchLen -> matchesFound blockDiffs diff1 ei1 mi ->
  1 <= minMatchLen' /\ matchesFound blockDiffs diff1 ei1 mi'.
Proof.
  induction n as [|n IH]; intros ei2 mi mml mi' mml'; simpl.
  - destruct (Z.leb_spec mml (d_len diff2 - ei2)); [done|]. by intros [= <- <-].
  - destruct (Z.leb_spec mml (d_len diff2 - ei2)) as [Hle|Hgt]; [|by intros [= <- <-]].
    destruct (negb (_ =? _)); [intros Hr H1 H2 H3; apply (IH _ _ _ _ _ Hr); [lia|done|done]|].
    pose proof (matchedSection_pos (info diff2) ei2) as Hp.
    destruct (negb (fst (matchedSection (info diff2) ei2) =? 0)) eqn:Em.
    { apply negb_true_iff, Z.eqb_neq in Em.
      intros Hr H1 H2 H3. apply (IH _ _ _ _ _ Hr); [lia|done|done]. }
    destruct (scanBegin h1 h2 fuel diff1 diff2 (ei1 - 1) (ei2 - 1)) as [[s1 s2]|] eqn:Eb;
      [|done].
    destruct (scanEnd h1 h2 fuel diff1 diff2 (ei1 + 1) (ei2 + 1)) as [e|] eqn:Ee; [|done].
    cbv zeta. intros Hr H1 H2 H3.
    apply scanBegin_range in Eb as (Hs1 & Hs2 & Hd); [|lia|lia].
    apply scanEnd_range in Ee as (He1 & He2 & He3).
    revert Hr.
    destruct (Z.ltb_spec (e - 1 - (s1 + 1) + 1) (len (sec mi))) as [Hlt|Hge];
      [intros Hr; apply (IH _ _ _ _ _ Hr); [lia|done|done]|].
    destruct H3 as (Hra & Hm1 & Hm2).
    assert (Hanchor : d_type (blockAt blockDiffs di2) = DIFF_IN_2 /\ 0 <= s2 + 1
                      /\ s2 + 1 + (e - 1 - (s1 + 1) + 1) <= d_len (blockAt blockDiffs di2)).
    { rewrite Hd2. split; [done|]. lia. }
    destruct (Z.ltb_spec (len (sec mi)) (e - 1 - (s1 + 1) + 1)) as [Hlt2|Hge2]; simpl.
    + rewrite Z.eqb_refl. intros Hr. apply (IH _ _ _ _ _ Hr); [lia|lia|].
      split; [right; simpl; lia|]. split; [done|]. simpl. by constructor.
    + destruct (Z.eqb_spec (len (sec mi)) (e - 1 - (s1 + 1) + 1)) as [Heq|Hne]; [|lia].
      intros Hr. apply (IH _ _ _ _ _ Hr); [lia|done|].
      split; [done|]. split; [done|]. simpl.
      apply Forall_app. split; [done|]. constructor; [|constructor]. simpl.
      by rewrite Heq.
Qed.

Lemma drop_cons_inv {A} (l : list A) n x rest :
  x :: rest = drop n l -> l !! n = Some x /\ rest = drop (S n) l.
Proof.
  intros Hd. split.
  - rewrite <- (Nat.add_0_r n), <- lookup_drop, <- Hd. done.
  - replace (S n) with (n + 1)%nat by lia. rewrite <- drop_drop, <- Hd. done.
Qed.

Lemma findMatchesOver_range fuel h1 h2 blockDiffs diff1 ei1 (Hei1 : 0 <= ei1 < d_len diff1)
    rest : forall di2 mi minMatchLen mi',
  findMatchesOver fuel h1 h2 diff1 ei1 di2 rest mi minMatchLen = Some mi' ->
  rest = drop di2 blockDiffs ->
  1 <= minMatchLen -> matchesFound blockDiffs diff1 ei1 mi ->
  matchesFound blockDiffs diff1 ei1 mi'.
Proof.
  induction rest as [|diff2 rest IH]; intros di2 mi mml mi'; simpl.
  - by intros [= <-].
  - intros Hr Hd Hm Hi. apply drop_cons_inv in Hd as [Hl Hrest].
    assert (Hd2 : blockAt blockDiffs di2 = diff2) by (unfold blockAt; by rewrite Hl).
    destruct (bool_decide (d_type diff2 = DIFF_IN_2)) eqn:Et; simpl in Hr.
    + apply bool_decide_eq_true in Et.
      destruct (findMatchesIn fuel h1 h2 fuel diff1 ei1 di2 diff2 0 mi mml)
        as [[mi1 mml1]|] eqn:Ein; [|done].
      destruct (findMatchesIn_range fuel h1 h2 blockDiffs fuel diff1 ei1 di2 diff2 Hei1 Hd2 Et
                  0 mi mml mi1 mml1 Ein ltac:(lia) Hm Hi) as [Hm1 Hi1].
      by apply (IH _ _ _ _ Hr).
    + by apply (IH _ _ _ _ Hr).
Qed.

Lemma findMatches_range fuel h1 h2 blockDiffs diff1 ei1 mi0 mi :
  findMatches fuel h1 h2 blockDiffs diff1 ei1 mi0 = Some mi ->
  0 <= ei1 < d_len diff1 ->
  matchesFound blockDiffs diff1 ei1 mi.
Proof.
  unfold findMatches. intros Hr Hei1.
  apply (findMatchesOver_range fuel h1 h2 blockDiffs diff1 ei1 Hei1 _ _ _ _ _ Hr);
    [done|lia|].
  split; [by left|]. split; [done|]. apply anchorsIn_nil.
Qed.

Lemma findBetterMatchIn_range fuel h1 h2 blockDiffs di n
    (Hdi : d_type (blockAt blockDiffs di) = DIFF_IN_1) :
  forall i ei bestMatchDiff best_mi ei' bestMatchDiff' best_mi',
  findBetterMatchIn fuel h1 h2 n blockDiffs di i ei bestMatchDiff best_mi
  = Some (ei', bestMatchDiff', best_mi') ->
  0 <= i -> runInRange blockDiffs bestMatchDiff best_mi ->
  runInRange blockDiffs bestMatchDiff' best_mi'.
Proof.
  induction n as [|n IH]; intros i ei bmd best ei' bmd' best'; simpl.
  - destruct (_ <=? _); [done|]. by intros [= _ <- <-].
  - destruct (Z.leb_spec (len (sec best)) (d_len (blockAt blockDiffs di) - i)) as [Hle|Hgt];
      [|by intros [= _ <- <-]].
    intros Hr Hi Hbest. pose proof Hbest as (Hb1 & Hb2 & Hb3 & Hb4 & Hb5 & Hb6).
    revert Hr.
    destruct (negb (_ =? _)); [intros Hr; apply (IH _ _ _ _ _ _ _ Hr); [lia|done]|].
    pose proof (matchedSection_pos (info (blockAt blockDiffs di)) i) as Hp.
    destruct (negb (fst (matchedSection (info (blockAt blockDiffs di)) i) =? 0)) eqn:Em.
    { apply negb_true_iff, Z.eqb_neq in Em.
      intros Hr. apply (IH _ _ _ _ _ _ _ Hr); [lia|done]. }
    destruct (findMatches fuel h1 h2 blockDiffs (blockAt blockDiffs di) i
                (mkMatchInfo (mkSection 0 0) [] [])) as [mi|] eqn:Ef; [|done].
    apply findMatches_range in Ef as (Hra & Hm1 & Hm2); [|lia].
    destruct (Z.eqb_spec (len (sec mi)) 0) as [Hz|Hnz];
      [intros Hr; apply (IH _ _ _ _ _ _ _ Hr); [lia|done]|].
    destruct Hra as [Hz|(Ho & Hl)]; [done|].
    destruct (Z.ltb_spec (len (sec best)) (len (sec mi))) as [Hlt|Hge].
    { intros Hr. apply (IH _ _ _ _ _ _ _ Hr); [lia|].
      split; [done|]. split; [lia|]. split; [lia|]. split; [lia|].
      split; [rewrite Hm1; apply anchorsIn_nil|done]. }
    destruct (Z.eqb_spec (len (sec best)) (len (sec mi))) as [Heq|Hne];
      [|intros Hr; apply (IH _ _ _ _ _ _ _ Hr); [lia|done]].
    destruct (sameBlock h1 fuel _ _ _ 0) as [k|]; [|done].
    destruct (k =? len (sec mi)); [|intros Hr; apply (IH _ _ _ _ _ _ _ Hr); [lia|done]].
    intros Hr. apply (IH _ _ _ _ _ _ _ Hr); [lia|].
    split; [done|]. split; [done|]. split; [done|]. split; [done|]. simpl.
    split; [|done]. apply Forall_app. split; [done|]. constructor; [|constructor].
    simpl. split; [done|]. lia.
Qed.

Lemma findBetterMatch_range fuel h1 h2 blockDiffs di ei bestMatchDiff best_mi
    ei' bestMatchDiff' best_mi' :
  findBetterMatch fuel h1 h2 blockDiffs di ei bestMatchDiff best_mi
  = Some (ei', bestMatchDiff', best_mi') ->
  d_type (blockAt blockDiffs di) = DIFF_IN_1 ->
  runInRange blockDiffs bestMatchDiff best_mi ->
  runInRange blockDiffs bestMatchDiff' best_mi'.
Proof.
  unfold findBetterMatch. intros Hr Hdi Hbest.
  apply (findBetterMatchIn_range fuel h1 h2 blockDiffs di fuel Hdi _ _ _ _ _ _ _ Hr); [|done].
  destruct Hbest as (_ & ? & ? & _). case_bool_decide; lia.
Qed.

Lemma findBetterIn_range fuel h1 h2 blockDiffs di2s :
  forall bmi bestMatchDiff best_mi bmi' bestMatchDiff' best_mi',
  findBetterIn fuel h1 h2 blockDiffs di2s bmi bestMatchDiff best_mi
  = Some (bmi', bestMatchDiff', best_mi') ->
  runInRange blockDiffs bestMatchDiff best_mi ->
  runInRange blockDiffs bestMatchDiff' best_mi'.
Proof.
  induction di2s as [|di2 rest IH]; intros bmi bmd best bmi' bmd' best'; simpl.
  - by intros [= _ <- <-].
  - case_bool_decide as Ht; [|apply IH].
    destruct (findBetterMatch fuel h1 h2 blockDiffs di2 bmi bmd best)
      as [[[bmi1 bmd1] best1]|] eqn:Eb; [|done].
    intros Hr Hbest. apply (IH _ _ _ _ _ _ Hr).
    by apply (findBetterMatch_range _ _ _ _ _ _ _ _ _ _ _ Eb).
Qed.

Lemma bestMatchFor_range fuel h1 h2 blockDiffs di1 ei1 bmi bestMatchDiff best_mi :
  bestMatchFor fuel h1 h2 blockDiffs di1 ei1 = Some (Some (bmi, bestMatchDiff, best_mi)) ->
  d_type (blockAt blockDiffs di1) = DIFF_IN_1 ->
  0 <= ei1 < d_len (blockAt blockDiffs di1) ->
  runInRange blockDiffs bestMatchDiff best_mi.
Proof.
  unfold bestMatchFor. intros Hr Hdi Hei1.
  destruct (findMatches fuel h1 h2 blockDiffs (blockAt blockDiffs di1) ei1 _) as [mi|] eqn:Ef;
    [|done].
  apply findMatches_range in Ef as (Hra & Hm1 & Hm2); [|done].
  destruct (Z.eqb_spec (len (sec mi)) 0) as [Hz|Hnz]; [done|].
  destruct Hra as [Hz|(Ho & Hl)]; [done|].
  assert (Hmi : runInRange blockDiffs di1 mi).
  { split; [done|]. split; [lia|]. split; [lia|]. split; [lia|].
    split; [rewrite Hm1; apply anchorsIn_nil|done]. }
  destruct (findBetterMatch fuel h1 h2 blockDiffs di1 ei1 di1 mi)
    as [[[bmi1 bmd1] best1]|] eqn:Eb; [|done].
  apply (findBetterMatch_range _ _ _ _ _ _ _ _ _ _ _ Eb Hdi) in Hmi.
  destruct (findBetterIn fuel h1 h2 blockDiffs _ bmi1 bmd1 best1)
    as [[[bmi2 bmd2] best2]|] eqn:Ei; [|done].
  injection Hr as <- <- <-.
  by apply (findBetterIn_range _ _ _ _ _ _ _ _ _ _ _ Ei).
Qed.

Lemma blockAt_commitMatch blockDiffs bestMatchDiff best_mi k :
  d_type (blockAt (commitMatch blockDiffs bestMatchDiff best_mi) k)
  = d_type (blockAt blockDiffs k)
  /\ d_len (blockAt (commitMatch blockDiffs bestMatchDiff best_mi) k)
     = d_len (blockAt blockDiffs k).
Proof.
  unfold blockAt. destruct (blockDiffs !! k) as [bd|] eqn:E.
  - by rewrite (commitMatch_lookup _ _ _ _ _ E).
  - assert (commitMatch blockDiffs bestMatchDiff best_mi !! k = None) as ->; [|done].
    apply lookup_ge_None. apply lookup_ge_None in E.
    pose proof (commitMatch_lens blockDiffs bestMatchDiff best_mi) as Hl.
    apply (f_equal length) in Hl. rewrite !length_map in Hl. lia.
Qed.

Lemma elem_of_offsetsFor i (ms : list (nat * Z)) o : o ∈ offsetsFor i ms <-> (i, o) ∈ ms.
Proof.
  unfold offsetsFor. rewrite list_elem_of_fmap. split.
  - intros ([j o'] & -> & Hin). apply list_elem_of_filter in Hin as [Hj Hin].
    simpl in Hj. by subst j.
  - intros Hin. exists (i, o). split; [done|]. by apply list_elem_of_filter.
Qed.

(** Committing a run in range keeps the recorded matches in range. *)
Lemma commitMatch_inRange blockDiffs bestMatchDiff best_mi :
  runInRange blockDiffs bestMatchDiff best_mi ->
  Forall matchesInRange blockDiffs ->
  Forall matchesInRange (commitMatch blockDiffs bestMatchDiff best_mi).
Proof.
  intros (Hb1 & Hb2 & Hb3 & Hb4 & Hb5 & Hb6) Hall.
  apply Forall_lookup. intros i bd' Hi'.
  destruct (blockDiffs !! i) as [bd|] eqn:Ei.
  2:{ apply lookup_ge_None in Ei. apply lookup_lt_Some in Hi'.
      pose proof (commitMatch_lens blockDiffs bestMatchDiff best_mi) as Hl.
      apply (f_equal length) in Hl. rewrite !length_map in Hl. lia. }
  rewrite (commitMatch_lookup _ _ _ _ _ Ei) in Hi'. injection Hi' as <-.
  rewrite Forall_lookup in Hall. destruct (Hall i bd Ei) as [Hm Hr].
  assert (Hat : blockAt blockDiffs i = bd) by (unfold blockAt; by rewrite Ei).
  assert (Hnew : forall o,
            o ∈ (if bool_decide (i = bestMatchDiff) then [off (sec best_mi)] else [])
                ++ offsetsFor i (matchesIn1 best_mi) ++ offsetsFor i (matchesIn2 best_mi) ->
            d_type bd <> DIFF_MATCH
            /\ 0 <= o /\ o + len (sec best_mi) <= d_len bd).
  { intros o Ho. rewrite !elem_of_app in Ho. destruct Ho as [Ho|[Ho|Ho]].
    - case_bool_decide as Hib; [|by apply elem_of_nil in Ho].
      apply list_elem_of_singleton in Ho. subst o i. rewrite Hat in Hb1, Hb4.
      split; [congruence|lia].
    - apply elem_of_offsetsFor in Ho. unfold anchorsIn in Hb5. rewrite Forall_forall in Hb5.
      destruct (Hb5 _ Ho) as (A & B & C). simpl in *. rewrite Hat in A, C.
      split; [congruence|lia].
    - apply elem_of_offsetsFor in Ho. unfold anchorsIn in Hb6. rewrite Forall_forall in Hb6.
      destruct (Hb6 _ Ho) as (A & B & C). simpl in *. rewrite Hat in A, C.
      split; [congruence|lia]. }
  unfold matchesInRange, withMatches, runEntries. cbn [d_type d_len info matches].
  set (L := (if bool_decide (i = bestMatchDiff) then [off (sec best_mi)] else [])
            ++ offsetsFor i (matchesIn1 best_mi) ++ offsetsFor i (matchesIn2 best_mi)) in *.
  split.
  - intros Ht. rewrite (Hm Ht).
    destruct L as [|o l] eqn:El; [done|]. exfalso.
    destruct (Hnew o) as [Hc _]; [left|]. done.
  - apply Forall_app. split; [done|]. apply Forall_fmap, Forall_forall.
    intros o Ho. simpl. destruct (Hnew o Ho) as (_ & A & B). lia.
Qed.

Lemma findMovesIn_range fuel h1 h2 n : forall blockDiffs di1 ei1 blockDiffs',
  findMovesIn fuel h1 h2 n blockDiffs di1 ei1 = Some blockDiffs' ->
  d_type (blockAt blockDiffs di1) = DIFF_IN_1 -> 0 <= ei1 ->
  Forall matchesInRange blockDiffs ->
  Forall matchesInRange blockDiffs'.
Proof.
  induction n as [|n IH]; intros bs di1 ei1 bs'; simpl.
  - destruct (_ <? _); [done|]. by intros [= <-].
  - destruct (Z.ltb_spec ei1 (d_len (blockAt bs di1))) as [Hlt|Hge]; [|by intros [= <-]].
    pose proof (matchedSection_pos (info (blockAt bs di1)) ei1) as Hp.
    destruct (negb (fst (matchedSection (info (blockAt bs di1)) ei1) =? 0)) eqn:Em.
    { apply negb_true_iff, Z.eqb_neq in Em.
      intros Hr Ht He Hall. apply (IH _ _ _ _ Hr); [done|lia|done]. }
    destruct (_ =? cHashSeed);
      [intros Hr Ht He Hall; apply (IH _ _ _ _ Hr); [done|lia|done]|].
    destruct (bestMatchFor fuel h1 h2 bs di1 ei1) as [[[[bmi bmd] best]|]|] eqn:Eb;
      [| intros Hr Ht He Hall; apply (IH _ _ _ _ Hr); [done|lia|done] |done].
    intros Hr Ht He Hall.
    pose proof (bestMatchFor_range _ _ _ _ _ _ _ _ _ Eb Ht ltac:(lia)) as Hrun.
    pose proof (commitMatch_inRange bs bmd best Hrun Hall) as Hall2.
    destruct (blockAt_commitMatch bs bmd best di1) as [Ht2 _].
    destruct Hrun as (_ & Ho & Hl & _).
    destruct (bool_decide (bmd = di1) && (bmi =? ei1));
      apply (IH _ _ _ _ Hr); try done; try congruence; lia.
Qed.

Lemma findMovesOver_range fuel h1 h2 di1s : forall blockDiffs blockDiffs',
  findMovesOver fuel h1 h2 blockDiffs di1s = Some blockDiffs' ->
  Forall matchesInRange blockDiffs -> Forall matchesInRange blockDiffs'.
Proof.
  induction di1s as [|di1 rest IH]; intros bs bs'; simpl.
  - by intros [= <-].
  - case_bool_decide as Ht; simpl; [|apply IH].
    destruct (findMovesIn fuel h1 h2 fuel bs di1 0) as [bs1|] eqn:E; [|done].
    intros Hr Hall. apply (IH _ _ Hr).
    by apply (findMovesIn_range _ _ _ _ _ _ _ _ E).
Qed.

(** X16: the matches the move detection records lie within their blocks:
    when every recorded match of every block is a section of at least one
    line within its block and the MATCH blocks have none, as is the case of
    the blocks the line-level diff returns, the same holds of the blocks
    [findMoves] returns.  Only IN_A and IN_B blocks get recorded matches. *)
Theorem recorded_matches_within_blocks fuel lineHashes1 lineHashes2 :
  (forall blockDiffs blockDiffs',
     findMoves fuel lineHashes1 lineHashes2 blockDiffs = Some blockDiffs' ->
     Forall matchesInRange blockDiffs -> Forall matchesInRange blockDiffs')
  /\ (forall diff : list span, Forall matchesInRange (map toBlock diff)).
Proof.
  split.
  - intros bs bs' E Hall. unfold findMoves in E.
    by apply (findMovesOver_range _ _ _ _ _ _ E).
  - intros diff. apply Forall_fmap, Forall_forall. intros s _. split; [done|constructor].
Qed.

Lemma recorded_matches_within_blocks_witness :
  exists blockDiffs',
    findMoves 15 hashesA hashesB blocksAB = Some blockDiffs'
    /\ Forall matchesInRange blocksAB
    /\ Forall matchesInRange blockDiffs'
    /\ map (fun bd => matches (info bd)) blockDiffs'
       = [[]; [(mkSection 0 2, true)]; []; [(mkSection 0 2, true)]].
Proof.
  eexists.
  assert (E : findMoves 15 hashesA hashesB blocksAB = _) by (vm_compute; reflexivity).
  assert (Hall : Forall matchesInRange blocksAB)
    by (repeat constructor; discriminate).
  split; [exact E|]. split; [exact Hall|].
  split; [|vm_compute; reflexivity].
  exact (proj1 (recorded_matches_within_blocks 15 hashesA hashesB) _ _ E Hall).
Defined.

(** ** Markers by view *)

Lemma marksAdded_refl P w : marksAdded P w w.
Proof. intros v. exists []. by rewrite app_nil_r. Qed.

Lemma marksAdded_trans P w1 w2 w3 :
  marksAdded P w1 w2 -> marksAdded P w2 w3 -> marksAdded P w1 w3.
Proof.
  intros H1 H2 v. destruct (H1 v) as (n1 & E1 & F1). destruct (H2 v) as (n2 & E2 & F2).
  exists (n1 ++ n2). rewrite E2, E1, app_assoc. split; [done|]. by apply Forall_app.
Qed.

Lemma marksAdded_same P w w' :
  (forall v, sciMarkers (docOf w' v) = sciMarkers (docOf w v)) -> marksAdded P w w'.
Proof. intros H v. exists []. rewrite app_nil_r. split; [apply H|constructor]. Qed.

Lemma quiet_marksAdded P w w' : quiet w w' -> marksAdded P w w'.
Proof. intros Hq. apply marksAdded_same. intros v. by rewrite (quiet_docOf _ _ v Hq). Qed.

Lemma marksAdded_weaken (P P' : ViewId -> Z -> Prop) w w' :
  (forall v m, P v m -> P' v m) -> marksAdded P w w' -> marksAdded P' w w'.
Proof.
  intros HP H v. destruct (H v) as (new & E & F). exists new. split; [done|].
  eapply Forall_impl; [exact F|]. intros e. apply HP.
Qed.

Lemma marksAdded_closed P w w' :
  marksAdded P w w' ->
  marksAdded P w (mkWorld (mainDoc w') (subDoc w') None (answers w') (messages w')).
Proof. intros H v. destruct (H v) as (new & E & F). exists new. by destruct v. Qed.

Lemma marksAdded_opened P w w' (progressInfo : bool) :
  marksAdded P (if progressInfo then openWorld w else w) w' -> marksAdded P w w'.
Proof. intros H v. destruct (H v) as (new & E & F). exists new. by destruct progressInfo, v. Qed.

Lemma bind_Ok_inv {A B} (m : M A) (k : A -> M B) w b w2 :
  bind m k w = Ok b w2 -> exists a w1, m w = Ok a w1 /\ k a w1 = Ok b w2.
Proof. unfold bind. destruct (m w) as [a w1| | |]; try done. by exists a, w1. Qed.

Lemma adds_ret {A} P (Q : A -> Prop) (a : A) : Q a -> addsMarks P Q (ret a).
Proof. intros HQ w a' w' E. injection E as <- <-. split; [apply marksAdded_refl|done]. Qed.

Lemma adds_bind {A B} P (Q : A -> Prop) (R : B -> Prop) (m : M A) (k : A -> M B) :
  addsMarks P Q m -> (forall a, Q a -> addsMarks P R (k a)) -> addsMarks P R (bind m k).
Proof.
  intros Hm Hk w b w2 E. apply bind_Ok_inv in E as (a & w1 & E1 & E2).
  destruct (Hm _ _ _ E1) as [M1 HQ]. destruct (Hk a HQ _ _ _ E2) as [M2 HR].
  split; [by eapply marksAdded_trans|done].
Qed.

Lemma adds_quiet {A} P (m : M A) :
  (forall w, exists a w', m w = Ok a w' /\ quiet w w') -> addsMarks P (fun _ => True) m.
Proof.
  intros H w a w' E. destruct (H w) as (a1 & w1 & E1 & Hq). rewrite E in E1.
  injection E1 as -> ->. split; [by apply quiet_marksAdded|done].
Qed.

Lemma adds_addMarker (P : ViewId -> Z -> Prop) v ln mask :
  P v mask -> addsMarks P (fun _ => True) (addMarker v ln mask).
Proof.
  intros HP w a w' E. injection E as <- <-. split; [|done].
  intros v'. destruct v, v'; simpl.
  all: try (exists []; by rewrite app_nil_r).
  all: exists [(ln, mask)]; split; [done|by repeat constructor].
Qed.

Lemma adds_forEach {A} P (l : list A) (f : A -> M unit) :
  (forall x, addsMarks P (fun _ => True) (f x)) ->
  addsMarks P (fun _ => True) (forEach l f).
Proof.
  intros Hf. induction l as [|x rest IH]; simpl; [by apply adds_ret|].
  eapply adds_bind; [apply Hf|]. intros _ _. apply IH.
Qed.

Lemma adds_sciRead {A} P v (f : SciDoc -> A) : addsMarks P (fun _ => True) (sciRead v f).
Proof. intros w a w' E. injection E as <- <-. split; [apply marksAdded_refl|done]. Qed.

Lemma adds_markText P v pos length :
  addsMarks P (fun _ => True) (sciCall v (fun d => markTextAsChanged d pos length)).
Proof.
  intros w a w' E. injection E as <- <-. split; [|done].
  apply marksAdded_same. intros v'. by destruct v, v'.
Qed.

Lemma adds_cancelled P call : call = nextAnswer -> addsMarks P (fun _ => True) (cancelled call).
Proof.
  intros Hc. apply adds_quiet. intros w.
  destruct (cancelled_spec call w Hc) as (b & w' & E & Hq & _). by exists b, w'.
Qed.

Lemma adds_Get P : addsMarks P (fun _ => True) ProgressDlg_Get.
Proof. intros w a w' E. injection E as <- <-. split; [apply marksAdded_refl|done]. Qed.

Lemma adds_SetMaxCount P n : addsMarks P (fun _ => True) (SetMaxCount n).
Proof.
  intros w a w' E. injection E as <- <-. split; [|done]. apply marksAdded_same. by intros [].
Qed.

Lemma goodDoc_masks P doc :
  goodDoc P doc ->
  P (view doc) (blockDiffMask doc)
  /\ P (view doc) (if blockDiffMask doc =? MARKER_MASK_ADDED
                   then MARKER_MASK_ADDED_LOCAL else MARKER_MASK_REMOVED_LOCAL)
  /\ P (view doc) MARKER_MASK_MOVED_LINE /\ P (view doc) MARKER_MASK_MOVED_BEGIN
  /\ P (view doc) MARKER_MASK_MOVED_MID /\ P (view doc) MARKER_MASK_MOVED_END
  /\ P (view doc) MARKER_MASK_CHANGED.
Proof.
  intros Hg. repeat split; apply Hg; unfold markFamily; rewrite !elem_of_cons; tauto.
Qed.

Lemma markSectionLoop_adds P bd doc endOff n : forall i ln,
  goodDoc P doc -> addsMarks P (fun _ => True) (markSectionLoop n bd doc endOff i ln).
Proof.
  induction n as [|n IH]; intros i ln Hg; simpl.
  - destruct (i <? endOff); [by intros w a w' E|by apply adds_ret].
  - destruct (i <? endOff); [|by apply adds_ret].
    destruct (goodDoc_masks P doc Hg) as (G1 & G2 & G3 & G4 & G5 & G6 & _).
    destruct (matchedSection (info bd) i) as [matchedLen isMoved].
    set (ml := if len (section doc) <? matchedLen then len (section doc) else matchedLen).
    destruct (ml =? 0).
    { eapply adds_bind; [by apply adds_addMarker|]. intros _ _. by apply IH. }
    destruct isMoved; simpl.
    + destruct (ml =? 1).
      * eapply adds_bind; [by apply adds_addMarker|]. intros _ _. by apply IH.
      * eapply adds_bind; [by apply adds_addMarker|]. intros _ _.
        eapply adds_bind; [apply adds_forEach; intros; by apply adds_addMarker|]. intros _ _.
        eapply adds_bind; [by apply adds_addMarker|]. intros _ _. by apply IH.
    + eapply adds_bind; [apply adds_forEach; intros; by apply adds_addMarker|]. intros _ _.
      by apply IH.
Qed.

Lemma markSection_adds P bd doc :
  goodDoc P doc -> addsMarks P (fun _ => True) (markSection bd doc).
Proof. intros Hg. by apply markSectionLoop_adds. Qed.

Lemma markLineDiffs_adds (P : ViewId -> Z -> Prop) view1 view2 bd mb lineIdx :
  P view1 MARKER_MASK_CHANGED -> P view2 MARKER_MASK_CHANGED ->
  addsMarks P (fun _ => True) (markLineDiffs view1 view2 bd mb lineIdx).
Proof.
  intros H1 H2. unfold markLineDiffs. cbv zeta.
  eapply adds_bind; [apply adds_sciRead|]. intros linePos _.
  eapply adds_bind; [apply adds_forEach; intros; apply adds_markText|]. intros _ _.
  eapply adds_bind; [by apply adds_addMarker|]. intros _ _.
  eapply adds_bind; [apply adds_sciRead|]. intros linePos2 _.
  eapply adds_bind; [apply adds_forEach; intros; apply adds_markText|]. intros _ _.
  by apply adds_addMarker.
Qed.

Lemma markUnchanged_adds P bd mb st :
  goodDoc P (m_doc1 st) -> goodDoc P (m_doc2 st) ->
  addsMarks P (fun st' => goodDoc P (m_doc1 st') /\ goodDoc P (m_doc2 st'))
            (markUnchanged bd mb st).
Proof.
  intros G1 G2. unfold markUnchanged. cbv zeta. destruct (_ || _); [|by apply adds_ret].
  eapply adds_bind with (Q := fun st' => goodDoc P (m_doc1 st') /\ goodDoc P (m_doc2 st')).
  - destruct (negb _); [|by apply adds_ret].
    eapply adds_bind; [by apply markSection_adds|]. intros _ _. by apply adds_ret.
  - intros st' [G1' G2']. destruct (negb _); [|by apply adds_ret].
    eapply adds_bind; [by apply markSection_adds|]. intros _ _. by apply adds_ret.
Qed.

Lemma markChangedLines_adds P js bd mb : forall st,
  goodDoc P (m_doc1 st) -> goodDoc P (m_doc2 st) ->
  addsMarks P (fun st' => goodDoc P (m_doc1 st') /\ goodDoc P (m_doc2 st'))
            (markChangedLines js bd mb st).
Proof.
  induction js as [|j rest IH]; intros st G1 G2; simpl; [by apply adds_ret|].
  eapply adds_bind; [by apply markUnchanged_adds|]. intros st' [G1' G2'].
  eapply adds_bind.
  - apply markLineDiffs_adds; simpl.
    + by apply (goodDoc_masks P (m_doc1 st') G1').
    + by apply (goodDoc_masks P (m_doc2 st') G2').
  - intros _ _. by apply IH.
Qed.

Lemma markBlock_adds P blockDiffs i st :
  goodDoc P (m_doc1 st) -> goodDoc P (m_doc2 st) ->
  addsMarks P (fun r => goodDoc P (m_doc1 (fst r)) /\ goodDoc P (m_doc2 (fst r)))
            (markBlock blockDiffs i st).
Proof.
  intros G1 G2. unfold markBlock. cbv zeta. destruct (d_type (blockAt blockDiffs i)).
  - by apply adds_ret.
  - destruct (matchBlock (info (blockAt blockDiffs i))) as [mbi|].
    + eapply adds_bind; [by apply markChangedLines_adds|]. intros st1 [G1' G2'].
      eapply adds_bind; [by apply markUnchanged_adds|]. intros st2 [G1'' G2''].
      by apply adds_ret.
    + eapply adds_bind; [by apply markSection_adds|]. intros _ _. by apply adds_ret.
  - eapply adds_bind; [by apply markSection_adds|]. intros _ _. by apply adds_ret.
Qed.

Lemma markAllLoop_adds P blockDiffs n : forall i st,
  goodDoc P (m_doc1 st) -> goodDoc P (m_doc2 st) ->
  addsMarks P (fun _ => True) (markAllLoop n blockDiffs i st).
Proof.
  induction n as [|n IH]; intros i st G1 G2; simpl.
  - case_bool_decide; [by intros w a w' E|by apply adds_ret].
  - case_bool_decide; [|by apply adds_ret].
    eapply adds_bind; [by apply markBlock_adds|]. intros r [G1' G2'].
    eapply adds_bind; [by apply adds_cancelled|]. intros stop _.
    destruct stop; [by apply adds_ret|by apply IH].
Qed.

Lemma markAllDiffs_adds P doc1 doc2 selectionCompare blockDiffs :
  goodDoc P doc1 -> goodDoc P doc2 ->
  addsMarks P (fun _ => True) (markAllDiffs doc1 doc2 selectionCompare blockDiffs).
Proof.
  intros G1 G2. unfold markAllDiffs. cbv zeta.
  eapply adds_bind; [apply adds_Get|]. intros open _.
  eapply adds_bind; [destruct open; [apply adds_SetMaxCount|by apply adds_ret]|].
  intros _ _.
  eapply adds_bind; [by apply markAllLoop_adds|]. intros r _.
  destruct (fst r); [|by apply adds_ret].
  eapply adds_bind; [by apply adds_cancelled|]. intros stop _. by apply adds_ret.
Qed.

Lemma blockCompares_adds P DiffCalc idxs doc1 doc2 settings blockDiffs :
  addsMarks P (fun _ => True) (blockCompares DiffCalc idxs doc1 doc2 settings blockDiffs).
Proof.
  apply adds_quiet. intros w.
  destruct (blockCompares_ok DiffCalc doc1 doc2 settings idxs blockDiffs w)
    as (r & w' & E & Hq & _).
  by exists r, w'.
Qed.

Lemma pairPhase_adds P DiffCalc doc1 doc2 selectionCompare settings blockDiffSize blockDiffs
    alignmentInfo :
  goodDoc P doc1 -> goodDoc P doc2 ->
  addsMarks P (fun _ => True)
            (pairPhase DiffCalc doc1 doc2 selectionCompare settings blockDiffSize blockDiffs
                       alignmentInfo).
Proof.
  intros G1 G2. unfold pairPhase.
  eapply adds_bind; [by apply adds_cancelled|]. intros stop _.
  destruct stop; [by apply adds_ret|].
  eapply adds_bind; [apply adds_Get|]. intros open _.
  eapply adds_bind; [destruct open; [apply adds_SetMaxCount|by apply adds_ret]|].
  intros _ _.
  eapply adds_bind; [apply blockCompares_adds|]. intros r _.
  destruct (negb (fst r)); [by apply adds_ret|].
  eapply adds_bind; [by apply adds_cancelled|]. intros stop _.
  destruct stop; [by apply adds_ret|].
  eapply adds_bind; [by apply markAllDiffs_adds|]. intros r' _.
  destruct (negb (fst r')); by apply adds_ret.
Qed.

Lemma movesPhase_adds P DiffCalc fuel doc1 doc2 selectionCompare settings h1 h2 blockDiffs
    alignmentInfo :
  view doc1 <> view doc2 -> goodDoc P doc1 -> goodDoc P doc2 ->
  addsMarks P (fun _ => True)
            (movesPhase DiffCalc fuel doc1 doc2 selectionCompare settings h1 h2 blockDiffs
                        alignmentInfo).
Proof.
  intros Hv G1 G2. unfold movesPhase. cbv zeta.
  eapply adds_bind with (Q := fun _ => True).
  { destruct (DetectMoves settings); [|by apply adds_ret].
    destruct (findMoves fuel h1 h2 blockDiffs); [by apply adds_ret|by intros w a w' E]. }
  intros bs _. destruct bs as [|bd0 rest]; [by intros w a w' E|].
  eapply adds_bind with (Q := fun docs => goodDoc P (fst docs) /\ goodDoc P (snd docs)).
  - destruct (_ && _); [|by apply adds_ret].
    intros w a w' E. rewrite (insertBlankLines_spec doc1 doc2 w Hv) in E.
    injection E as <- <-. split; [|done].
    apply marksAdded_same. intros v. by destruct (view doc1), (view doc2), v.
  - intros docs [G1' G2']. by apply pairPhase_adds.
Qed.

Lemma diffPhase_adds P DiffCalc fuel doc1 doc2 selectionCompare settings h1 h2 alignmentInfo :
  view doc1 <> view doc2 -> goodDoc P doc1 -> goodDoc P doc2 ->
  addsMarks P (fun _ => True)
            (diffPhase DiffCalc fuel doc1 doc2 selectionCompare settings h1 h2 alignmentInfo).
Proof.
  intros Hv G1 G2. unfold diffPhase.
  destruct (vsize h1 <? vsize h2).
  - destruct (isSingleMatchBlock _); [by apply adds_ret|].
    by apply movesPhase_adds.
  - destruct (isSingleMatchBlock _); [by apply adds_ret|].
    by apply movesPhase_adds.
Qed.

Lemma hashing_masks mainViewSection subViewSection settings w r1 r2 w' :
  hashing mainViewSection subViewSection settings w = Ok (Some (r1, r2)) w' ->
  blockDiffMask (snd r1) = paintMask1 settings /\ blockDiffMask (snd r2) = paintMask2 settings.
Proof.
  unfold hashing. cbv zeta. intros E.
  apply bind_Ok_inv in E as (a1 & w1 & E1 & E).
  apply bind_Ok_inv in E as (stop1 & w2 & _ & E). destruct stop1; [done|].
  apply bind_Ok_inv in E as (a2 & w3 & E2 & E).
  apply bind_Ok_inv in E as (stop2 & w4 & _ & E). destruct stop2; [done|].
  injection E as <- <- _.
  pose proof (computeLineHashes_general
                (mkDoc MAIN_VIEW mainViewSection (paintMask1 settings)) settings w) as H1.
  rewrite E1 in H1.
  pose proof (computeLineHashes_general
                (mkDoc SUB_VIEW subViewSection (paintMask2 settings)) settings w2) as H2.
  rewrite E2 in H2.
  destruct H1 as (_ & _ & _ & H1). destruct H2 as (_ & _ & _ & H2). done.
Qed.

Lemma runCompare_adds DiffCalc fuel mainViewSection subViewSection settings alignmentInfo :
  addsMarks (fun v m => m ∈ markFamily (paintMask settings v)) (fun _ => True)
            (runCompare DiffCalc fuel mainViewSection subViewSection settings alignmentInfo).
Proof.
  intros w r w' E. split; [|done]. rewrite runCompare_hashing in E.
  apply bind_Ok_inv in E as (o & w1 & Eh & E).
  pose proof (hashing_general mainViewSection subViewSection settings w) as Hg.
  rewrite Eh in Hg. destruct o as [[r1 r2]|].
  - destruct Hg as (Hq & V1 & _ & V2 & _).
    destruct (hashing_masks _ _ _ _ _ _ _ Eh) as [M1 M2].
    eapply marksAdded_trans; [by apply quiet_marksAdded|].
    refine (proj1 (diffPhase_adds _ DiffCalc fuel (snd r1) (snd r2) _ settings (fst r1) (fst r2)
                     alignmentInfo _ _ _ w1 r w' E)).
    + congruence.
    + intros m. by rewrite V1, M1.
    + intros m. by rewrite V2, M2.
  - injection E as _ <-. by apply quiet_marksAdded.
Qed.

Lemma runFindUnique_adds mainViewSection subViewSection settings alignmentInfo :
  addsMarks (fun v m => m = paintMask settings v) (fun _ => True)
            (runFindUnique mainViewSection subViewSection settings alignmentInfo).
Proof.
  intros w r w' E. split; [|done]. rewrite runFindUnique_hashing in E.
  apply bind_Ok_inv in E as (o & w1 & Eh & E).
  pose proof (hashing_general mainViewSection subViewSection settings w) as Hg.
  rewrite Eh in Hg. destruct o as [[r1 r2]|].
  - destruct Hg as (Hq & V1 & _ & V2 & _).
    destruct (hashing_masks _ _ _ _ _ _ _ Eh) as [M1 M2].
    destruct (uniquePhase_cases (snd r1) (snd r2) mainViewSection subViewSection
                (fst r1) (fst r2) [] w1)
      as (w2 & Hq2 & [[Eu _]|(n1 & n2 & P1 & P2 & Eu)]);
      rewrite Eu in E; injection E as _ <-.
    + apply quiet_marksAdded. by eapply quiet_trans.
    + eapply marksAdded_trans; [apply quiet_marksAdded; by eapply quiet_trans|].
      rewrite M1 in P1. rewrite M2 in P2. rewrite V1, V2.
      assert (F1 : Forall (fun e : Z * Z => snd e = paintMask1 settings) n1).
      { rewrite P1. unfold lineMarkers. apply Forall_fmap, Forall_forall. by intros x _. }
      assert (F2 : Forall (fun e : Z * Z => snd e = paintMask2 settings) n2).
      { rewrite P2. unfold lineMarkers. apply Forall_fmap, Forall_forall. by intros x _. }
      intros [|]; [exists n1|exists n2]; by split.
  - injection E as _ <-. by apply quiet_marksAdded.
Qed.

Lemma runFindUnique_Throw mainViewSection subViewSection settings alignmentInfo w e w' :
  runFindUnique mainViewSection subViewSection settings alignmentInfo w = Throw e w' ->
  quiet w w'.
Proof.
  intros E. rewrite runFindUnique_hashing in E. unfold bind in E.
  pose proof (hashing_general mainViewSection subViewSection settings w) as Hg.
  destruct (hashing mainViewSection subViewSection settings w)
    as [[[r1 r2]|] w1|e1 w1| |]; try done.
  - destruct (uniquePhase_cases (snd r1) (snd r2) mainViewSection subViewSection
                (fst r1) (fst r2) [] w1)
      as (w2 & Hq2 & [[Eu _]|(n1 & n2 & P1 & P2 & Eu)]); by rewrite Eu in E.
  - by injection E as _ <-.
Qed.

Lemma runCompare_Throw DiffCalc fuel mainViewSection subViewSection settings alignmentInfo
    w e w' :
  runCompare DiffCalc fuel mainViewSection subViewSection settings alignmentInfo w
  = Throw e w' ->
  quiet w w'.
Proof.
  intros E.
  pose proof (runCompare_cases DiffCalc fuel mainViewSection subViewSection settings
                alignmentInfo w) as Hc.
  destruct (hashing mainViewSection subViewSection settings w)
    as [[[r1 r2]|] w1|e1 w1| |]; try done.
  - destruct Hc as [_ Hc]. destruct (isSingleMatch _); [by rewrite Hc in E|].
    by rewrite E in Hc.
  - destruct Hc as [_ Hc]. by rewrite Hc in E.
  - destruct Hc as [Hq Hc]. rewrite Hc in E. by injection E as _ <-.
Qed.

(** X17: whatever a compare returns, it only adds line markers, and on
    each view only markers of the view: in a compare run the block mask of
    the view (REMOVED on the view of the old file, ADDED on the other), its
    local variant, the masks of moved lines and the mask of changed lines;
    in a find-unique run the block mask of the view alone.  So the view of
    the old file never gets an ADDED marker, nor the other view a REMOVED
    one, and no marker set before the run is taken away. *)
Theorem markers_follow_view DiffCalc fuel mainViewSection subViewSection
    (findUniqueMode : bool) settings (progressInfo : bool) alignmentInfo (w : World) r w' :
  compareViews DiffCalc fuel mainViewSection subViewSection findUniqueMode settings
               progressInfo alignmentInfo w = Ok r w' ->
  marksAdded (fun v m => m ∈ markFamily (paintMask settings v)) w w'
  /\ (findUniqueMode = true -> marksAdded (fun v m => m = paintMask settings v) w w').
Proof.
  intros E. rewrite compareViews_run in E. cbv zeta in E.
  assert (Hfam : forall v m, m = paintMask settings v -> m ∈ markFamily (paintMask settings v)).
  { intros v m ->. unfold markFamily. rewrite elem_of_cons. by left. }
  destruct findUniqueMode.
  - assert (H : marksAdded (fun v m => m = paintMask settings v) w w').
    { apply (marksAdded_opened _ _ _ progressInfo).
      destruct (runFindUnique _ _ _ _ _) as [r0 w1|e w1| |] eqn:Er; try done.
      - injection E as _ <-. apply marksAdded_closed.
        by apply (runFindUnique_adds _ _ _ _ _ _ _ Er).
      - injection E as _ <-. apply runFindUnique_Throw in Er.
        apply (marksAdded_closed _ _ (mkWorld (mainDoc w1) (subDoc w1) (progress w1)
                                               (answers w1) (messages w1 ++ [messageOf e]))).
        apply marksAdded_same. intros v. rewrite <- (quiet_docOf _ _ v Er). by destruct v. }
    split; [|done]. exact (marksAdded_weaken _ _ _ _ Hfam H).
  - split; [|done]. apply (marksAdded_opened _ _ _ progressInfo).
    destruct (runCompare _ _ _ _ _ _ _) as [r0 w1|e w1| |] eqn:Er; try done.
    + injection E as _ <-. apply marksAdded_closed.
      by apply (runCompare_adds _ _ _ _ _ _ _ _ _ Er).
    + injection E as _ <-. apply runCompare_Throw in Er.
      apply (marksAdded_closed _ _ (mkWorld (mainDoc w1) (subDoc w1) (progress w1)
                                             (answers w1) (messages w1 ++ [messageOf e]))).
      apply marksAdded_same. intros v. rewrite <- (quiet_docOf _ _ v Er). by destruct v.
Qed.

Lemma markers_follow_view_witness :
  let w := worldOf ["a"; "b x"; "c"; "d"; "e"]%string ["a"; "d"; "e"; "b y"; "c"]%string in
  exists r w',
    compareViews lcsDiff 20 wholeDoc wholeDoc false settings0 false [] w = Ok r w'
    /\ marksAdded (fun v m => m ∈ markFamily (paintMask settings0 v)) w w'
    /\ sciMarkers (mainDoc w') = [(1, MARKER_MASK_REMOVED); (2, MARKER_MASK_MOVED_LINE)]
    /\ sciMarkers (subDoc w') = [(3, MARKER_MASK_ADDED); (4, MARKER_MASK_MOVED_LINE)].
Proof.
  cbv zeta. eexists _, _.
  assert (E : compareViews lcsDiff 20 wholeDoc wholeDoc false settings0 false []
                (worldOf ["a"; "b x"; "c"; "d"; "e"]%string
                         ["a"; "d"; "e"; "b y"; "c"]%string) = _)
    by (vm_compute; reflexivity).
  split; [exact E|].
  split; [|split; reflexivity].
  exact (proj1 (markers_follow_view lcsDiff 20 wholeDoc wholeDoc false settings0 false [] _ _ _ E)).
Defined.

(** ** The alignment table of blocks without partners *)

Lemma sumZ_snoc l x : sumZ (l ++ [x]) = sumZ l + x.
Proof. unfold sumZ. induction l as [|y l IH]; simpl; lia. Qed.

Lemma markedUpTo_step doc1 doc2 blockDiffs i st bd st0 m1 m2 n1 n2 :
  blockDiffs !! i = Some bd ->
  markedUpTo doc1 doc2 blockDiffs i st ->
  m_doc1 st0 = mkDoc (view (m_doc1 st)) (section (m_doc1 st0)) (blockDiffMask (m_doc1 st)) ->
  m_doc2 st0 = mkDoc (view (m_doc2 st)) (section (m_doc2 st0)) (blockDiffMask (m_doc2 st)) ->
  pMainAlignData st0 = pMainAlignData st -> pSubAlignData st0 = pSubAlignData st ->
  alignmentInfo st0 = alignmentInfo st ->
  m1 = (if bool_decide (d_type bd = DIFF_IN_1) then blockDiffMask doc1 else 0) ->
  m2 = (if bool_decide (d_type bd = DIFF_IN_2) then blockDiffMask doc2 else 0) ->
  n1 = linesIn1 bd -> n2 = linesIn2 bd ->
  markedUpTo doc1 doc2 blockDiffs (S i) (addLines (pushPair st0 m1 m2) n1 n2).
Proof.
  intros Hi (V1 & M1 & M2 & L1 & L2 & T) D1 D2 A1 A2 A0 -> -> -> ->.
  assert (Hb : blockAt blockDiffs i = bd) by (unfold blockAt; by rewrite Hi).
  unfold markedUpTo, addLines, pushPair.
  cbn [m_doc1 m_doc2 pMainAlignData pSubAlignData alignmentInfo a_line].
  rewrite D1, D2. cbn [view blockDiffMask]. rewrite A1, A2, A0.
  rewrite (take_S_r _ _ _ Hi), !map_app, seq_S, map_app. cbn [map Nat.add].
  rewrite !sumZ_snoc, L1, L2, T, V1.
  repeat split; try done; try lia.
  f_equal. unfold blockRow, alignRow. cbv zeta. by rewrite Hb.
Qed.

Lemma markBlock_unpaired doc1 doc2 blockDiffs i st w bd :
  blockDiffs !! i = Some bd -> matchBlock (info bd) = None ->
  markedUpTo doc1 doc2 blockDiffs i st ->
  exists st' w',
    markBlock blockDiffs i st w = Ok (st', i) w' /\ calm w w'
    /\ markedUpTo doc1 doc2 blockDiffs (S i) st'.
Proof.
  intros Hi Hm HR.
  assert (Hb : blockAt blockDiffs i = bd) by (unfold blockAt; by rewrite Hi).
  pose proof HR as (V1 & M1 & M2 & _).
  unfold markBlock. cbv zeta. rewrite Hb.
  destruct (d_type bd) eqn:Ht.
  - eexists _, w. split; [done|]. split; [apply calm_refl|].
    apply (markedUpTo_step doc1 doc2 blockDiffs i st bd); try done.
    + by destruct (m_doc1 st).
    + by destruct (m_doc2 st).
    + by rewrite Ht.
    + by rewrite Ht.
    + unfold linesIn1. by rewrite Ht.
    + unfold linesIn2. by rewrite Ht.
  - rewrite Hm.
    set (st0 := setSections st (mkSection 0 (d_len bd)) (section (m_doc2 st))).
    destruct (markSection_ok bd (m_doc1 st0) w) as ([] & w' & E & C).
    rewrite (bind_Ok _ _ _ _ _ E). eexists _, w'. split; [done|]. split; [done|].
    apply (markedUpTo_step doc1 doc2 blockDiffs i st bd); try done.
    + by rewrite Ht.
    + by rewrite Ht.
    + unfold linesIn1. by rewrite Ht.
    + unfold linesIn2. by rewrite Ht.
  - set (st0 := setSections st (section (m_doc1 st)) (mkSection 0 (d_len bd))).
    destruct (markSection_ok bd (m_doc2 st0) w) as ([] & w' & E & C).
    rewrite (bind_Ok _ _ _ _ _ E). eexists _, w'. split; [done|]. split; [done|].
    apply (markedUpTo_step doc1 doc2 blockDiffs i st bd); try done.
    + by rewrite Ht.
    + by rewrite Ht.
    + unfold linesIn1. by rewrite Ht.
    + unfold linesIn2. by rewrite Ht.
Qed.

Lemma markAllLoop_unpaired doc1 doc2 blockDiffs n : forall i st w,
  Forall (fun bd => matchBlock (info bd) = None) blockDiffs ->
  noCancel w ->
  (i <= length blockDiffs)%nat ->
  (length blockDiffs - i <= n)%nat ->
  markedUpTo doc1 doc2 blockDiffs i st ->
  exists st' w',
    markAllLoop n blockDiffs i st w = Ok (true, st') w' /\ calm w w'
    /\ markedUpTo doc1 doc2 blockDiffs (length blockDiffs) st'.
Proof.
  induction n as [|n IH]; intros i st w Hu Hnc Hle Hn HR; simpl.
  - rewrite bool_decide_eq_false_2 by lia. exists st, w. split; [done|].
    split; [apply calm_refl|]. by replace (length blockDiffs) with i by lia.
  - case_bool_decide as Hi.
    2:{ exists st, w. split; [done|]. split; [apply calm_refl|].
        by replace (length blockDiffs) with i by lia. }
    destruct (lookup_lt_is_Some_2 blockDiffs i Hi) as [bd Hbd].
    assert (Hm : matchBlock (info bd) = None).
    { rewrite Forall_lookup in Hu. by apply (Hu i bd). }
    destruct (markBlock_unpaired doc1 doc2 blockDiffs i st w bd Hbd Hm HR)
      as (st1 & w1 & E1 & C1 & HR1).
    rewrite (bind_Ok _ _ _ _ _ E1).
    destruct (cancelled_spec Advance w1 eq_refl) as (stop & w2 & E2 & Hq2 & Hst).
    rewrite (bind_Ok _ _ _ _ _ E2).
    assert (Hnc1 : noCancel w1) by (by apply C1).
    rewrite (Hst Hnc1). simpl.
    destruct (IH (S i) st1 w2) as (st' & w' & E & C & HR'); try done; try lia.
    { by apply Hq2. }
    exists st', w'. split; [done|]. split; [|done].
    eapply calm_trans; [exact C1|]. eapply calm_trans; [by apply quiet_calm|done].
Qed.

(** X18: the alignment table of blocks without partners.  When no block
    has a partner (no IN_A block is followed at once by an IN_B block) and
    the user does not cancel, [markAllDiffs] runs to its end and returns
    one row for each block, in the order of the blocks: in each document
    the line where the block starts (the section offset plus the lines that
    the blocks before it take in the document) and the block mask of the
    document when the block lies in it alone, 0 otherwise; the half of the
    main view comes first.  When a selection is compared a last row gives
    the line after the last block in both documents. *)
Theorem alignment_of_unpaired_blocks doc1 doc2 (selectionCompare : bool) blockDiffs w :
  Forall (fun bd => matchBlock (info bd) = None) blockDiffs ->
  noCancel w ->
  exists w',
    markAllDiffs doc1 doc2 selectionCompare blockDiffs w
    = Ok (true,
          map (blockRow doc1 doc2 blockDiffs) (seq 0 (length blockDiffs))
          ++ (if selectionCompare
              then [blockRow doc1 doc2 blockDiffs (length blockDiffs)] else []))
         w'
    /\ calm w w'.
Proof.
  intros Hu Hnc. unfold markAllDiffs. cbv zeta.
  destruct (okCalm_setMax (vsize blockDiffs) w) as ([] & w1 & E1 & C1).
  unfold bind at 1. unfold bind at 1 in E1.
  destruct (ProgressDlg_Get w) as [open w0| | |]; try discriminate.
  unfold bind at 1. rewrite E1.
  set (st := mkMark doc1 doc2 (mkAlignData (off (section doc1)) 0)
                    (mkAlignData (off (section doc2)) 0) []).
  assert (HR : markedUpTo doc1 doc2 blockDiffs 0 st).
  { repeat split; simpl; unfold sumZ; simpl; lia. }
  destruct (markAllLoop_unpaired doc1 doc2 blockDiffs (length blockDiffs) 0 st w1 Hu)
    as (st' & w2 & E2 & C2 & (V1 & M1 & M2 & L1 & L2 & T)); try done; try lia.
  { by apply C1. }
  rewrite (bind_Ok _ _ _ _ _ E2). simpl.
  destruct (cancelled_spec NextPhase w2 eq_refl) as (stop & w3 & E3 & Hq3 & Hst).
  rewrite (bind_Ok _ _ _ _ _ E3).
  assert (Hnc2 : noCancel w2) by (by apply C2, C1).
  rewrite (Hst Hnc2). simpl. exists w3. split.
  - do 2 f_equal. destruct selectionCompare; simpl.
    + rewrite T. f_equal. unfold blockRow, alignRow. cbv zeta.
      rewrite V1, L1, L2. unfold blockAt. rewrite lookup_ge_None_2 by lia. done.
    + by rewrite T, app_nil_r.
  - eapply calm_trans; [exact C1|]. eapply calm_trans; [exact C2|]. by apply quiet_calm.
Qed.

Lemma alignment_of_unpaired_blocks_witness :
  let w := worldOf ["a"; "b"; "c"; "d"; "e"]%string ["a"; "d"; "e"; "b"; "c"]%string in
  let doc1 := mkDoc MAIN_VIEW wholeDoc MARKER_MASK_REMOVED in
  let doc2 := mkDoc SUB_VIEW wholeDoc MARKER_MASK_ADDED in
  exists w',
    markAllDiffs doc1 doc2 true blocksAB w
    = Ok (true,
          [mkAlignPair (mkAlignData 0 0) (mkAlignData 0 0);
           mkAlignPair (mkAlignData 1 MARKER_MASK_REMOVED) (mkAlignData 1 0);
           mkAlignPair (mkAlignData 3 0) (mkAlignData 1 0);
           mkAlignPair (mkAlignData 5 0) (mkAlignData 3 MARKER_MASK_ADDED);
           mkAlignPair (mkAlignData 5 0) (mkAlignData 5 0)]) w'
    /\ calm w w'.
Proof.
  cbv zeta.
  assert (Hu : Forall (fun bd => matchBlock (info bd) = None) blocksAB)
    by (repeat constructor).
  assert (Hn : noCancel (worldOf ["a"; "b"; "c"; "d"; "e"]%string
                                 ["a"; "d"; "e"; "b"; "c"]%string)) by (by left).
  exact (alignment_of_unpaired_blocks (mkDoc MAIN_VIEW wholeDoc MARKER_MASK_REMOVED)
           (mkDoc SUB_VIEW wholeDoc MARKER_MASK_ADDED) true blocksAB _ Hu Hn).
Defined.
